(** * Minesweeper with solver agents: a shallow embedding and its properties

    The development follows the repository's modules:
    - [Settings]  : settings.py   (board size, mine count, sprites)
    - [Sprites]   : sprites.py    (Tile, Board: placement, clues, dig, draw)
    - [AI]        : minesweeperAI.py (Sentence, Solver and its subclasses)
    - [Main]      : main.py       (process entry point)

    Python sets of cells are [gset cell], Python ints are [Z], lists are
    lists.  Exceptions are explicit results.  Console output of the solver
    ([print_progress]) does not influence any state and is left out of the
    solver state; the output of the entry point is modelled.

    Part I holds the embedding, Part II the properties. *)

From Stdlib Require Import ZArith QArith Lia String.
From stdpp Require Import gmap list strings sorting.

Local Open Scope Z_scope.
Set Warnings "-clear-no-such-hyp".

(* ===================================================================== *)
(** * Part I: the embedding *)
(* ===================================================================== *)

(** A coordinate pair [(x, y)]: column first, then row. *)
Abbreviation cell := (Z * Z)%type.

(** Python exceptions that the modelled code can raise. *)
Inductive exn : Type :=
  | IndexError
  | KeyError
  | NameError
  | ValueError
  | ZeroDivisionError
  | AttributeError
  | TypeError.

(** The outcome of running a piece of code: a value, an exception, or
    [OutOfFuel] when a loop or recursion was cut off by the bound given to
    it (the code itself has no such bound). *)
Inductive result (A : Type) : Type :=
  | Ok (a : A)
  | Raise (e : exn)
  | OutOfFuel.
Arguments Ok {A} a.
Arguments Raise {A} e.
Arguments OutOfFuel {A}.

#[export] Instance result_ret : MRet result := fun A a => Ok a.
#[export] Instance result_bind : MBind result := fun A B k m =>
  match m with
  | Ok a => k a
  | Raise e => Raise e
  | OutOfFuel => OutOfFuel
  end.

(** A [for] loop over the list [l] whose body may raise: the state is
    threaded from left to right. *)
Fixpoint for_each {S A : Type} (l : list A) (body : S → A → result S) (s : S)
  : result S :=
  match l with
  | [] => Ok s
  | a :: l' => s' ← body s a; for_each l' body s'
  end.

(** The position that index [i] denotes in a Python list of length [n]:
    negative indices count from the end, out of range raises IndexError. *)
Definition norm_index (n : nat) (i : Z) : result nat :=
  let j := if 0 <=? i then i else Z.of_nat n + i in
  if (0 <=? j) && (j <? Z.of_nat n) then Ok (Z.to_nat j) else Raise IndexError.

(** [l[i]] *)
Definition py_index {A} (l : list A) (i : Z) : result A :=
  j ← norm_index (length l) i;
  match l !! j with
  | Some a => Ok a
  | None => Raise IndexError
  end.

(** [l[i] = f(l[i])], an in-place update of one element *)
Definition py_update {A} (l : list A) (i : Z) (f : A → A) : result (list A) :=
  j ← norm_index (length l) i;
  Ok (alter f j l).

(** [range(lo, hi)] as the list of its values. *)
Definition range (lo hi : Z) : list Z :=
  map (fun k => lo + Z.of_nat k) (seq 0 (Z.to_nat (hi - lo))).

(* ===================================================================== *)
(** ** settings.py *)
(* ===================================================================== *)

Module Settings.

Definition TILESIZE : Z := 30.

(** The sprites of the asset registry.  [TileNumber i] is the image loaded
    from [Tile{i}.png]. *)
Inductive sprite : Type :=
  | TileNumber (i : Z)
  | tile_empty
  | tile_exploded
  | tile_flag
  | tile_mine
  | tile_unknown
  | tile_not_mine.

#[export] Instance sprite_eq_dec : EqDecision sprite.
Proof. solve_decision. Defined.

(** [tile_numbers]: the faces 1..8, filled by [for i in range(1, 9)]. *)
Definition tile_numbers : list sprite := map TileNumber (range 1 9).

(** The module-level difficulty values.  They are sizes and a count and
    only ever hold the literals of this file. *)
Record settings : Type := {
  ROWS : nat;
  COLS : nat;
  AMOUNT_MINES : nat
}.

Definition default : settings :=
  {| ROWS := 16; COLS := 30; AMOUNT_MINES := 99 |}.

Definition WIDTH (s : settings) : Z := TILESIZE * Z.of_nat (COLS s).
Definition HEIGHT (s : settings) : Z := TILESIZE * Z.of_nat (ROWS s).

Definition difficulty_settings (s : settings) (mode : Z) : settings :=
  if mode =? 1 then {| ROWS := 10; COLS := 10; AMOUNT_MINES := 10 |}
  else if mode =? 2 then {| ROWS := 16; COLS := 16; AMOUNT_MINES := 40 |}
  else if mode =? 3 then {| ROWS := 16; COLS := 30; AMOUNT_MINES := 99 |}
  else s.

End Settings.

(* ===================================================================== *)
(** ** sprites.py *)
(* ===================================================================== *)

Module Sprites.
Import Settings.

(** The [type] string of a tile: ["."], ["X"], ["C"] or ["/"]. *)
Inductive tile_type : Type :=
  | Unknown   (* "." *)
  | Mine      (* "X" *)
  | Clue      (* "C" *)
  | Empty.    (* "/" *)

#[export] Instance tile_type_eq_dec : EqDecision tile_type.
Proof. solve_decision. Defined.

Record Tile : Type := {
  x : Z;
  y : Z;
  image : sprite;
  type : tile_type;
  nearby_mine : Z;
  revealed : bool;
  flagged : bool
}.

(** A surface is the sequence of [blit] calls made on it. *)
Definition surface : Type := list (sprite * (Z * Z)).

Definition blit (s : surface) (img : sprite) (pos : Z * Z) : surface :=
  s ++ [(img, pos)].

Definition set_image (v : sprite) (t : Tile) : Tile :=
  {| x := x t; y := y t; image := v; type := type t;
     nearby_mine := nearby_mine t; revealed := revealed t;
     flagged := flagged t |}.

Definition set_type (v : tile_type) (t : Tile) : Tile :=
  {| x := x t; y := y t; image := image t; type := v;
     nearby_mine := nearby_mine t; revealed := revealed t;
     flagged := flagged t |}.

Definition set_nearby_mine (v : Z) (t : Tile) : Tile :=
  {| x := x t; y := y t; image := image t; type := type t;
     nearby_mine := v; revealed := revealed t; flagged := flagged t |}.

Definition set_revealed (v : bool) (t : Tile) : Tile :=
  {| x := x t; y := y t; image := image t; type := type t;
     nearby_mine := nearby_mine t; revealed := v; flagged := flagged t |}.

Definition set_flagged (v : bool) (t : Tile) : Tile :=
  {| x := x t; y := y t; image := image t; type := type t;
     nearby_mine := nearby_mine t; revealed := revealed t; flagged := v |}.

Module Tile.

(** [Tile.__init__] with the default [nearby_mine], [revealed], [flagged] *)
Definition __init__ (cx cy : Z) (img : sprite) (t : tile_type) : Tile :=
  {| x := cx * TILESIZE; y := cy * TILESIZE; image := img; type := t;
     nearby_mine := 0; revealed := false; flagged := false |}.

(** [Tile.draw] *)
Definition draw (t : Tile) (board_surface : surface) : surface :=
  if negb (flagged t) && revealed t then
    blit board_surface (image t) (x t, y t)
  else if flagged t && negb (revealed t) then
    blit board_surface tile_flag (x t, y t)
  else if negb (revealed t) then
    blit board_surface tile_unknown (x t, y t)
  else board_surface.

End Tile.

Record Board : Type := {
  board_surface : surface;
  board_list : list (list Tile);
  first_click : bool;
  dug : list cell
}.

Definition set_board_list (v : list (list Tile)) (b : Board) : Board :=
  {| board_surface := board_surface b; board_list := v;
     first_click := first_click b; dug := dug b |}.

Definition set_dug (v : list cell) (b : Board) : Board :=
  {| board_surface := board_surface b; board_list := board_list b;
     first_click := first_click b; dug := v |}.

Definition set_board_surface (v : surface) (b : Board) : Board :=
  {| board_surface := v; board_list := board_list b;
     first_click := first_click b; dug := dug b |}.

Definition set_first_click (v : bool) (b : Board) : Board :=
  {| board_surface := board_surface b; board_list := board_list b;
     first_click := v; dug := dug b |}.

(** [self.board_list[x][y]] *)
Definition tile_at (b : Board) (cx cy : Z) : result Tile :=
  col ← py_index (board_list b) cx; py_index col cy.

(** [self.board_list[x][y].attr = v]: the tile object is looked up (which
    may raise) and then changed in place. *)
Definition tile_set (b : Board) (cx cy : Z) (f : Tile → Tile) : result Board :=
  col ← py_index (board_list b) cx;
  col' ← py_update col cy f;
  bl ← py_update (board_list b) cx (fun _ => col');
  Ok (set_board_list bl b).

(** [random.randint(a, b)] where [v] is the next raw value of the random
    tape: the value is brought into [a..b]; [a > b] raises ValueError. *)
Definition randint (a b : Z) (v : Z) : result Z :=
  if b <? a then Raise ValueError else Ok (a + v mod (b - a + 1)).

Module Board.

Section WithSettings.
Variable cfg : settings.

(** [Board.__init__] *)
Definition __init__ : Board :=
  {| board_surface := [];
     board_list :=
       map (fun col =>
              map (fun row => Tile.__init__ col row tile_empty Unknown)
                  (range 0 (Z.of_nat (ROWS cfg))))
           (range 0 (Z.of_nat (COLS cfg)));
     first_click := false;
     dug := [] |}.

(** The [while True] loop of [place_mines]: draw positions from the random
    tape until one is a blank tile other than the first click.  [OutOfFuel]
    when the tape ends before that: the loop would still be running. *)
Fixpoint place_one_mine (b : Board) (fcx fcy : Z) (tape : list Z)
  : result (Board * list Z) :=
  match tape with
  | vx :: vy :: rest =>
      cx ← randint 0 (Z.of_nat (COLS cfg) - 1) vx;
      cy ← randint 0 (Z.of_nat (ROWS cfg) - 1) vy;
      t ← tile_at b cx cy;
      if bool_decide (type t = Unknown)
         && negb (bool_decide ((cx, cy) = (fcx, fcy)))
      then
        b1 ← tile_set b cx cy (set_image tile_mine);
        b2 ← tile_set b1 cx cy (set_type Mine);
        Ok (b2, rest)
      else place_one_mine b fcx fcy rest
  | _ => OutOfFuel
  end.

(** [Board.place_mines]: [for _ in range(AMOUNT_MINES)] *)
Fixpoint place_mines_loop (n : nat) (b : Board) (fcx fcy : Z) (tape : list Z)
  : result (Board * list Z) :=
  match n with
  | O => Ok (b, tape)
  | S n' =>
      '(b', tape') ← place_one_mine b fcx fcy tape;
      place_mines_loop n' b' fcx fcy tape'
  end.

Definition place_mines (b : Board) (fcx fcy : Z) (tape : list Z)
  : result (Board * list Z) :=
  place_mines_loop (AMOUNT_MINES cfg) b fcx fcy tape.

(** [Board.is_inside] *)
Definition is_inside (cx cy : Z) : bool :=
  (0 <=? cx) && (cx <? Z.of_nat (COLS cfg)) &&
  ((0 <=? cy) && (cy <? Z.of_nat (ROWS cfg))).

(** [Board.check_neighbours] *)
Definition check_neighbours (b : Board) (cx cy : Z) : result Z :=
  for_each (range (-1) 2) (fun total_mines x_offset =>
    for_each (range (-1) 2) (fun total_mines y_offset =>
      let neighbour_x := cx + x_offset in
      let neighbour_y := cy + y_offset in
      if is_inside neighbour_x neighbour_y then
        t ← tile_at b neighbour_x neighbour_y;
        if bool_decide (type t = Mine) then Ok (total_mines + 1)
        else Ok total_mines
      else Ok total_mines) total_mines) 0.

(** [Board.place_clues] *)
Definition place_clues (b : Board) : result Board :=
  for_each (range 0 (Z.of_nat (COLS cfg))) (fun b cx =>
    for_each (range 0 (Z.of_nat (ROWS cfg))) (fun b cy =>
      t ← tile_at b cx cy;
      if negb (bool_decide (type t = Mine)) then
        total_mines ← check_neighbours b cx cy;
        if 0 <? total_mines then
          img ← py_index tile_numbers (total_mines - 1);
          b1 ← tile_set b cx cy (set_image img);
          b2 ← tile_set b1 cx cy (set_type Clue);
          tile_set b2 cx cy (set_nearby_mine total_mines)
        else Ok b
      else Ok b) b) b.

(** [Board.draw]; returns the board (with its repainted surface) and the
    screen after the final blit of the whole surface at (0, 0). *)
Definition draw (b : Board) (screen : list (surface * (Z * Z)))
  : Board * list (surface * (Z * Z)) :=
  let s := foldl (fun s row => foldl (fun s tile => Tile.draw tile s) s row)
                 (board_surface b) (board_list b) in
  (set_board_surface s b, screen ++ [(s, (0, 0))]).

Section Dig.
(** The attached agent: its state and its [add_knowledge] method.  The
    board only ever passes the agent the cell and its [nearby_mine]. *)
Context {A : Type}.
Variable add_knowledge : A → cell → Z → result A.

(** [Board.dig].  The recursion of the code is bounded here by [fuel]; the
    code has no bound of its own. *)
Fixpoint dig (fuel : nat) (b : Board) (cx cy : Z) (ai : option A)
  : result (Board * option A * bool) :=
  match fuel with
  | O => OutOfFuel
  | S fuel' =>
      let b := set_dug (dug b ++ [(cx, cy)]) b in
      b ← tile_set b cx cy (set_revealed true);
      t ← tile_at b cx cy;
      if bool_decide (type t = Mine) then
        b ← tile_set b cx cy (set_image tile_exploded);
        Ok (b, ai, false)
      else
        ai ← match ai with
             | Some a => a' ← add_knowledge a (cx, cy) (nearby_mine t); Ok (Some a')
             | None => Ok None
             end;
        if bool_decide (type t = Clue) then Ok (b, ai, true)
        else
          '(b, ai) ←
            for_each (range (Z.max 0 (cx - 1))
                            (Z.min (Z.of_nat (COLS cfg) - 1) (cx + 1) + 1))
              (fun '(b, ai) row =>
                 for_each (range (Z.max 0 (cy - 1))
                                 (Z.min (Z.of_nat (ROWS cfg) - 1) (cy + 1) + 1))
                   (fun '(b, ai) col =>
                      if bool_decide ((row, col) ∈ dug b) then Ok (b, ai)
                      else
                        '(b, ai, _) ← dig fuel' b row col ai;
                        Ok (b, ai))
                   (b, ai))
              (b, ai);
          Ok (b, ai, true)
  end.

End Dig.

End WithSettings.

End Board.

End Sprites.

(* ===================================================================== *)
(** ** minesweeperAI.py *)
(* ===================================================================== *)

(** Python floats.  The solver divides ints, multiplies, subtracts, adds and
    compares the quotients; which float results from an operation does not
    matter to the properties below, so the arithmetic is an interface, with
    the exact rationals as one instance.  The two laws are Python's: true
    division raises ZeroDivisionError exactly on a zero divisor. *)
Class PyFloat (F : Type) : Type := {
  F_of_Z : Z → F;
  Fadd : F → F → F;
  Fsub : F → F → F;
  Fmul : F → F → F;
  Fdiv : F → F → result F;
  Fle : F → F → bool;
  Flt : F → F → bool;
  Fdiv_int_zero : ∀ a, Fdiv (F_of_Z a) (F_of_Z 0) = Raise ZeroDivisionError;
  Fdiv_int_ok : ∀ a b, b ≠ 0 → ∃ q, Fdiv (F_of_Z a) (F_of_Z b) = Ok q
}.

(** A Python dict keyed by cells: the entries in insertion order. *)
Definition pydict (V : Type) : Type := list (cell * V).

Module Dict.
Section Dict.
Context {V : Type}.

(** [d.get(k)] *)
Fixpoint get (d : pydict V) (k : cell) : option V :=
  match d with
  | [] => None
  | (k', v) :: d' => if bool_decide (k' = k) then Some v else get d' k
  end.

(** [d[k]], raising KeyError *)
Definition lookup (d : pydict V) (k : cell) : result V :=
  match get d k with
  | Some v => Ok v
  | None => Raise KeyError
  end.

(** [d[k] = v]: an existing key keeps its position *)
Fixpoint set (d : pydict V) (k : cell) (v : V) : pydict V :=
  match d with
  | [] => [(k, v)]
  | (k', v') :: d' =>
      if bool_decide (k' = k) then (k', v) :: d' else (k', v') :: set d' k v
  end.

(** the keys, in iteration order *)
Definition keys (d : pydict V) : list cell := map fst d.

(** [k in d] *)
Definition mem (d : pydict V) (k : cell) : bool := bool_decide (k ∈ keys d).

(** [min(d, key = f)]: the first key with the least [f], by [<] *)
Fixpoint min_from {W : Type} (lt : W → W → bool) (f : cell → result W)
    (best : cell) (wbest : W) (l : list cell) : result cell :=
  match l with
  | [] => Ok best
  | k :: l' =>
      w ← f k;
      if lt w wbest then min_from lt f k w l' else min_from lt f best wbest l'
  end.

Definition min {W : Type} (lt : W → W → bool) (d : pydict V)
    (f : cell → result W) : result cell :=
  match keys d with
  | [] => Raise ValueError
  | k :: l => w ← f k; min_from lt f k w l
  end.

End Dict.
End Dict.

(** [itertools.combinations(l, r)] *)
Fixpoint combinations {A : Type} (l : list A) (r : nat) : list (list A) :=
  match r with
  | O => [[]]
  | S r' =>
      match l with
      | [] => []
      | a :: l' => map (cons a) (combinations l' r') ++ combinations l' r
      end
  end.

Module AI.

Record Sentence : Type := {
  cells : gset cell;
  count : Z
}.

#[export] Instance Sentence_eq_dec : EqDecision Sentence.
Proof. solve_decision. Defined.

Module Sentence.

Definition __init__ (cs : gset cell) (n : Z) : Sentence :=
  {| cells := cs; count := n |}.

(** [Sentence.__eq__] *)
Definition __eq__ (s other : Sentence) : bool :=
  bool_decide (cells s = cells other) && (count s =? count other).

Definition known_mines (s : Sentence) : gset cell :=
  if Z.of_nat (size (cells s)) =? count s then cells s else ∅.

Definition known_safes (s : Sentence) : gset cell :=
  if count s =? 0 then cells s else ∅.

Definition mark_mine (c : cell) (s : Sentence) : Sentence :=
  if bool_decide (c ∈ cells s) then
    {| cells := cells s ∖ {[c]}; count := count s - 1 |}
  else s.

Definition mark_safe (c : cell) (s : Sentence) : Sentence :=
  if bool_decide (c ∈ cells s) then
    {| cells := cells s ∖ {[c]}; count := count s |}
  else s.

End Sentence.

(** The class of a solver object.  [SetBased] carries the object's
    [guess_method] attribute. *)
Inductive solver_class : Type :=
  | GenerateConfiguration
  | ProbabilityTheory
  | SetBased (guess_method : Z).

Record Solver : Type := {
  class : solver_class;
  width : Z;
  height : Z;
  amount_mines : Z;
  moves_made : gset cell;
  mines : gset cell;
  safes : gset cell;
  knowledge : list Sentence;
  next_uncertain_move : option cell;
  print_progress : bool;
  guess : Z
}.

Definition set_moves_made (v : gset cell) (s : Solver) : Solver :=
  {| class := class s; width := width s; height := height s;
     amount_mines := amount_mines s; moves_made := v; mines := mines s;
     safes := safes s; knowledge := knowledge s;
     next_uncertain_move := next_uncertain_move s;
     print_progress := print_progress s; guess := guess s |}.

Definition set_mines (v : gset cell) (s : Solver) : Solver :=
  {| class := class s; width := width s; height := height s;
     amount_mines := amount_mines s; moves_made := moves_made s; mines := v;
     safes := safes s; knowledge := knowledge s;
     next_uncertain_move := next_uncertain_move s;
     print_progress := print_progress s; guess := guess s |}.

Definition set_safes (v : gset cell) (s : Solver) : Solver :=
  {| class := class s; width := width s; height := height s;
     amount_mines := amount_mines s; moves_made := moves_made s;
     mines := mines s; safes := v; knowledge := knowledge s;
     next_uncertain_move := next_uncertain_move s;
     print_progress := print_progress s; guess := guess s |}.

Definition set_knowledge (v : list Sentence) (s : Solver) : Solver :=
  {| class := class s; width := width s; height := height s;
     amount_mines := amount_mines s; moves_made := moves_made s;
     mines := mines s; safes := safes s; knowledge := v;
     next_uncertain_move := next_uncertain_move s;
     print_progress := print_progress s; guess := guess s |}.

Definition set_next_uncertain_move (v : option cell) (s : Solver) : Solver :=
  {| class := class s; width := width s; height := height s;
     amount_mines := amount_mines s; moves_made := moves_made s;
     mines := mines s; safes := safes s; knowledge := knowledge s;
     next_uncertain_move := v;
     print_progress := print_progress s; guess := guess s |}.

Definition set_guess (v : Z) (s : Solver) : Solver :=
  {| class := class s; width := width s; height := height s;
     amount_mines := amount_mines s; moves_made := moves_made s;
     mines := mines s; safes := safes s; knowledge := knowledge s;
     next_uncertain_move := next_uncertain_move s;
     print_progress := print_progress s; guess := v |}.

(** [sorted(s, reverse = True)] for a set of list positions *)
Definition sorted_reverse (s : gset Z) : list Z :=
  merge_sort (flip Z.le) (elements s).

(** [del l[pos]] *)
Definition py_del {A} (l : list A) (pos : Z) : result (list A) :=
  j ← norm_index (length l) pos;
  Ok (delete j l).

(** The cells of the board in the order of
    [for y in range(height): for x in range(width)]. *)
Definition row_major (w h : Z) : list cell :=
  y ← range 0 h; x ← range 0 w; [(x, y)].

Module Solver.

(** [Solver.__init__]; [cls] is the class being instantiated. *)
Definition __init__ (cls : solver_class) (w h n : Z) (progress : bool) : Solver :=
  {| class := cls; width := w; height := h; amount_mines := n;
     moves_made := ∅; mines := ∅; safes := ∅; knowledge := [];
     next_uncertain_move := None; print_progress := progress; guess := -1 |}.

Definition mark_mine (st : Solver) (c : cell) : Solver :=
  let st := set_mines ({[c]} ∪ mines st) st in
  set_knowledge (map (Sentence.mark_mine c) (knowledge st)) st.

Definition mark_safe (st : Solver) (c : cell) : Solver :=
  let st := set_safes ({[c]} ∪ safes st) st in
  set_knowledge (map (Sentence.mark_safe c) (knowledge st)) st.

(** The two nested loops of [add_sentence] over the 3x3 block around
    [c], carrying the local variables [cells] and [count]. *)
Definition add_sentence_scan (st : Solver) (c : cell) (n : Z) : gset cell * Z :=
  foldl (fun acc cx =>
    foldl (fun '(cs, n) cy =>
      if bool_decide ((cx, cy) = c) then (cs, n)
      else if (0 <=? cx) && (cx <? width st) && ((0 <=? cy) && (cy <? height st))
      then
        if bool_decide ((cx, cy) ∈ mines st) then (cs, n - 1)
        else if bool_decide ((cx, cy) ∉ safes st) then ({[(cx, cy)]} ∪ cs, n)
        else (cs, n)
      else (cs, n)) acc (range (c.2 - 1) (c.2 + 2)))
    (∅, n) (range (c.1 - 1) (c.1 + 2)).

Definition add_sentence (st : Solver) (c : cell) (n : Z) : Solver :=
  let '(cs, n') := add_sentence_scan st c n in
  set_knowledge (knowledge st ++ [Sentence.__init__ cs n']) st.

(** [for i in range(len(self.knowledge) - 1, -1, -1)] *)
Definition remove_null_sentence (st : Solver) : result Solver :=
  K ← for_each (reverse (range 0 (Z.of_nat (length (knowledge st)))))
         (fun K i =>
            s ← py_index K i;
            if bool_decide (size (cells s) = 0%nat) then py_del K i else Ok K)
         (knowledge st);
  Ok (set_knowledge K st).

Definition remove_duplicated_sentence (st : Solver) : result Solver :=
  let K := knowledge st in
  let n := Z.of_nat (length K) in
  duplicated_sentence_pos ←
    for_each (range 0 (n - 1)) (fun pos i =>
      for_each (range (i + 1) n) (fun pos j =>
        si ← py_index K i;
        sj ← py_index K j;
        if Sentence.__eq__ si sj then Ok ({[j]} ∪ pos) else Ok pos) pos)
      (∅ : gset Z);
  K ← for_each (sorted_reverse duplicated_sentence_pos)
         (fun K pos => py_del K pos) K;
  Ok (set_knowledge K st).

(** One round of the [while mark_cell] loop of [check_sentence]: the cells
    collected from the sentences, and the state after marking them. *)
Definition check_sentence_collect (st : Solver) : gset cell * gset cell :=
  foldl (fun '(safe_cell, mine_cell) sentence =>
           (safe_cell ∪ Sentence.known_safes sentence,
            mine_cell ∪ Sentence.known_mines sentence))
        (∅, ∅) (knowledge st).

Definition check_sentence_round (st : Solver) : Solver * bool :=
  let '(safe_cell, mine_cell) := check_sentence_collect st in
  let st := foldl mark_safe st (elements safe_cell) in
  let st := foldl mark_mine st (elements mine_cell) in
  (st, negb (bool_decide (safe_cell = ∅)) || negb (bool_decide (mine_cell = ∅))).

Fixpoint check_sentence_loop (fuel : nat) (st : Solver) : result Solver :=
  match fuel with
  | O => OutOfFuel
  | S fuel' =>
      let '(st, mark_cell) := check_sentence_round st in
      if mark_cell then check_sentence_loop fuel' st else Ok st
  end.

(** The number of cell occurrences in the knowledge: every round of
    [check_sentence] but the last removes at least one. *)
Definition total_cells (K : list Sentence) : nat :=
  foldr (fun s n => (size (cells s) + n)%nat) 0%nat K.

Definition check_sentence (st : Solver) : result Solver :=
  check_sentence_loop (S (total_cells (knowledge st))) st.

Definition make_safe_move (st : Solver) : option cell :=
  let allowed := elements (safes st ∖ moves_made st) in
  head allowed.

Section WithFloat.
Context `{PyFloat F}.

Definition choose_uncertain_move {V} (st : Solver) (best_informed_move : cell)
    (best_informed_move_risk : F) (prob_dict : pydict V) : result Solver :=
  let unknown_tile := height st * width st - Z.of_nat (size (moves_made st)) in
  let unknown_mine := amount_mines st - Z.of_nat (size (mines st)) in
  estimated_average_risk ← Fdiv (F_of_Z unknown_mine) (F_of_Z unknown_tile);
  if Fle best_informed_move_risk estimated_average_risk
     || (unknown_tile =? Z.of_nat (length prob_dict))
  then Ok (set_next_uncertain_move (Some best_informed_move) st)
  else
    match
      filter (fun c => (c ∉ moves_made st) ∧ Dict.mem prob_dict c = false)
             (row_major (width st) (height st))
    with
    | c :: _ => Ok (set_next_uncertain_move (Some c) st)
    | [] => Ok st
    end.

End WithFloat.

Definition make_uncertain_move (st : Solver) : option cell :=
  if bool_decide (length (knowledge st) = 0%nat) then
    match
      filter (fun c => (c ∉ moves_made st) ∧ (c ∉ mines st))
             (row_major (width st) (height st))
    with
    | c :: _ => Some c
    | [] => next_uncertain_move st
    end
  else next_uncertain_move st.

(** [Solver.make_move]; [analyze_knowledge] is the method of the object's
    class.  The move is [None] when Python's [move] is [None]. *)
Definition make_move (analyze_knowledge : Solver → result Solver) (st : Solver)
  : result (Solver * (option cell * Z)) :=
  match filter (fun mine => mine ∉ moves_made st) (elements (mines st)) with
  | mine :: _ =>
      Ok (set_moves_made ({[mine]} ∪ moves_made st) st, (Some mine, 3))
  | [] =>
      st ← match make_safe_move st with
           | None => analyze_knowledge st
           | Some _ => Ok st
           end;
      match make_safe_move st with
      | None =>
          let move := make_uncertain_move st in
          Ok (set_guess (guess st + 1) st, (move, 1))
      | Some move => Ok (st, (Some move, 1))
      end
  end.

Definition reset (st : Solver) : Solver :=
  {| class := class st; width := width st; height := height st;
     amount_mines := amount_mines st; moves_made := ∅; mines := ∅;
     safes := ∅; knowledge := []; next_uncertain_move := None;
     print_progress := print_progress st; guess := -1 |}.

End Solver.

Module ProbabilitySolver.

Definition add_knowledge (st : Solver) (c : cell) (n : Z) : result Solver :=
  let st := set_moves_made ({[c]} ∪ moves_made st) st in
  let st := Solver.mark_safe st c in
  if n =? 0 then Ok st
  else
    let st := Solver.add_sentence st c n in
    st ← Solver.check_sentence st;
    st ← Solver.remove_null_sentence st;
    Solver.remove_duplicated_sentence st.

End ProbabilitySolver.

Module GenerateConfigurationSolver.

(** The histogram with every cell of every sentence at 0. *)
Definition init_histogram (K : list Sentence) : pydict Z :=
  foldl (fun d sentence =>
           foldl (fun d c => Dict.set d c 0) d (elements (cells sentence)))
        [] K.

(** One round of the sentence loop of the enumeration: from the
    configurations that satisfy the earlier sentences to those that also
    satisfy [sentence].  [invalid_cell] holds the cells of the earlier
    sentences. *)
Definition extend_configurations (sentence : Sentence)
    (given_configuration : list (gset cell)) (invalid_cell : gset cell)
  : list (gset cell) :=
  configuration ← given_configuration;
  let valid_cell := cells sentence ∖ invalid_cell in
  let missing_cell_num :=
    count sentence - Z.of_nat (size (cells sentence ∩ configuration)) in
  if missing_cell_num <? 0 then []
  else
    choice ← combinations (elements valid_cell) (Z.to_nat missing_cell_num);
    [configuration ∪ list_to_set choice].

(** The enumeration loop; returns [possible_configuration]. *)
Definition enumerate_configurations (K : list Sentence) : list (gset cell) :=
  fst (foldl (fun '(possible_configuration, invalid_cell) sentence =>
                (extend_configurations sentence possible_configuration invalid_cell,
                 invalid_cell ∪ cells sentence))
             ([∅], ∅) K).

(** [cell_histogram[cell] += 1] for every cell of every configuration *)
Definition record_appearances (cell_histogram : pydict Z)
    (possible_configuration : list (gset cell)) : result (pydict Z) :=
  for_each possible_configuration (fun d configuration =>
    for_each (elements configuration) (fun d c =>
      v ← Dict.lookup d c; Ok (Dict.set d c (v + 1))) d) cell_histogram.

(** The loop that marks the certain cells; the flag is
    [certain_move_found]. *)
Definition mark_certain (cell_histogram : pydict Z) (total : Z) (st : Solver)
  : result (Solver * bool) :=
  for_each (Dict.keys cell_histogram) (fun '(st, certain_move_found) c =>
    v ← Dict.lookup cell_histogram c;
    if v =? 0 then Ok (Solver.mark_safe st c, true)
    else
      if v =? total then Ok (Solver.mark_mine st c, certain_move_found)
      else Ok (st, certain_move_found)) (st, false).

Section WithFloat.
Context `{PyFloat F}.

Definition analyze_knowledge (st : Solver) : result Solver :=
  if bool_decide (length (knowledge st) = 0%nat) then Ok st
  else
    let cell_histogram := init_histogram (knowledge st) in
    let possible_configuration := enumerate_configurations (knowledge st) in
    cell_histogram ← record_appearances cell_histogram possible_configuration;
    let total := Z.of_nat (length possible_configuration) in
    '(st, certain_move_found) ← mark_certain cell_histogram total st;
    if negb certain_move_found then
      best_informed_move ←
        Dict.min Z.ltb cell_histogram (Dict.lookup cell_histogram);
      v ← Dict.lookup cell_histogram best_informed_move;
      best_informed_move_risk ← Fdiv (F_of_Z v) (F_of_Z total);
      Solver.choose_uncertain_move st best_informed_move
        best_informed_move_risk cell_histogram
    else Ok st.

End WithFloat.
End GenerateConfigurationSolver.

(** The values that [ProbabilityTheorySolver] compares with [==]: an int,
    or a reference to a [Probability] object.  [Probability] defines no
    [__eq__], so an object equals only itself. *)
Inductive pyval : Type :=
  | PyInt (z : Z)
  | PyRef (ref : nat).

Definition py_eq (a b : pyval) : bool :=
  match a, b with
  | PyInt m, PyInt n => m =? n
  | PyRef r, PyRef r' => bool_decide (r = r')
  | _, _ => false
  end.

Module ProbabilityTheorySolver.
Section WithFloat.
Context `{PyFloat F}.

(** The [Probability] objects made during one call, by allocation order;
    the object holds its [prob]. *)
Definition heap : Type := list F.

(** [Probability()]: a new object with [prob = 1] *)
Definition Probability (h : heap) : heap * nat := (h ++ [F_of_Z 1], length h).

(** [obj.prob]; a reference is never dangling *)
Definition prob (h : heap) (ref : nat) : F := default (F_of_Z 0) (h !! ref).

(** [obj.prob = f(obj.prob)] *)
Definition set_prob (h : heap) (ref : nat) (f : F → F) : heap := alter f ref h.

(** [prob_dict[cell] = prob_dict.get(cell, Probability())]: the default
    object is made whether or not it is used. *)
Definition make_prob_dict (K : list Sentence) : heap * pydict nat :=
  foldl (fun acc sentence =>
           foldl (fun '(h, d) c =>
                    let '(h, fresh) := Probability h in
                    (h, Dict.set d c (default fresh (Dict.get d c))))
                 acc (elements (cells sentence)))
        ([], []) K.

Definition make_constraint_list (K : list Sentence) (prob_dict : pydict nat)
  : result (list (list nat)) :=
  mapM (fun sentence => mapM (Dict.lookup prob_dict) (elements (cells sentence))) K.

(** The first estimate: every cell's accumulator times [r] of each of its
    sentences.  [r] is a local variable that keeps its value from one
    sentence to the next. *)
Definition estimate (K : list Sentence) (prob_dict : pydict nat) (h : heap)
  : result heap :=
  '(h, _) ←
    for_each K (fun '(h, r) sentence =>
      r ← (if negb (bool_decide (size (cells sentence) = 0%nat)) then
             q ← Fdiv (F_of_Z (count sentence))
                      (F_of_Z (Z.of_nat (size (cells sentence))));
             Ok (Some (Fsub (F_of_Z 1) q))
           else Ok r);
      h ← for_each (elements (cells sentence)) (fun h c =>
             ref ← Dict.lookup prob_dict c;
             rv ← match r with Some rv => Ok rv | None => Raise NameError end;
             Ok (set_prob h ref (fun p => Fmul p rv))) h;
      Ok (h, r)) (h, None);
  for_each (Dict.keys prob_dict) (fun h c =>
    ref ← Dict.lookup prob_dict c;
    Ok (set_prob h ref (fun p => Fsub (F_of_Z 1) p))) h.

(** The loop that marks the certain cells, comparing [prob_dict[cell]]
    with 0 and with 1. *)
Definition mark_certain (prob_dict : pydict nat) (st : Solver)
  : result (Solver * bool) :=
  for_each (Dict.keys prob_dict) (fun '(st, certain_move_found) c =>
    ref ← Dict.lookup prob_dict c;
    if py_eq (PyRef ref) (PyInt 0) then Ok (Solver.mark_safe st c, true)
    else
      if py_eq (PyRef ref) (PyInt 1)
      then Ok (Solver.mark_mine st c, certain_move_found)
      else Ok (st, certain_move_found)) (st, false).

(** The 30 rounds of normalisation *)
Definition normalise (st : Solver) (constraint_list : list (list nat))
    (h : heap) : result heap :=
  for_each (range 0 30) (fun h _ =>
    for_each (range 0 (Z.of_nat (length (knowledge st)))) (fun h i =>
      sentence ← py_index (knowledge st) i;
      constraint ← py_index constraint_list i;
      norm ← (if count sentence =? 0 then Ok (F_of_Z 1)
              else Fdiv (F_of_Z (count sentence))
                        (foldl (fun acc ref => Fadd acc (prob h ref))
                               (F_of_Z 0) constraint));
      for_each constraint (fun h ref =>
        Ok (set_prob h ref (fun p => Fmul p norm))) h) h) h.

Definition analyze_knowledge (st : Solver) : result Solver :=
  if bool_decide (length (knowledge st) = 0%nat) then Ok st
  else
    let '(h, prob_dict) := make_prob_dict (knowledge st) in
    constraint_list ← make_constraint_list (knowledge st) prob_dict;
    h ← estimate (knowledge st) prob_dict h;
    '(st, certain_move_found) ← mark_certain prob_dict st;
    if negb certain_move_found then
      h ← normalise st constraint_list h;
      best_informed_move ←
        Dict.min Flt prob_dict
          (fun c => ref ← Dict.lookup prob_dict c; Ok (prob h ref));
      ref ← Dict.lookup prob_dict best_informed_move;
      let best_informed_move_risk := prob h ref in
      Solver.choose_uncertain_move st best_informed_move
        best_informed_move_risk prob_dict
    else Ok st.

End WithFloat.
End ProbabilityTheorySolver.

Module SetBasedSolver.

Definition __init__ (w h n guess_method : Z) (progress : bool) : Solver :=
  Solver.__init__ (SetBased guess_method) w h n progress.

(** The body of the two loops of [add_complement_sentence] for the pair
    of positions [i < j].  [s1] and [s2] name the objects at these
    positions, so the second test reads [s1] as the first one left it. *)
Definition complement_pair (K : list Sentence) (i j : Z)
  : result (list Sentence) :=
  s1 ← py_index K i;
  s2 ← py_index K j;
  K ← (if (count s2 <=? count s1) && bool_decide (cells s2 ⊆ cells s1) then
         py_update K i (fun s1 =>
           {| cells := cells s1 ∖ cells s2; count := count s1 - count s2 |})
       else Ok K);
  s1 ← py_index K i;
  s2 ← py_index K j;
  if (count s1 <=? count s2) && bool_decide (cells s1 ⊆ cells s2) then
    py_update K j (fun s2 =>
      {| cells := cells s2 ∖ cells s1; count := count s2 - count s1 |})
  else Ok K.

Definition add_complement_sentence (st : Solver) : result Solver :=
  let n := Z.of_nat (length (knowledge st)) in
  K ← for_each (range 0 (n - 1)) (fun K i =>
         for_each (range (i + 1) (Z.of_nat (length K))) (fun K j =>
           complement_pair K i j) K)
       (knowledge st);
  Ok (set_knowledge K st).

(** The body of the two loops of [add_intersection_sentence] for the pair
    of positions [i < j].  [s1] and [s2] name objects of the knowledge
    list, which [mark_mine] and [mark_safe] change in place, so they are
    read again after each marking loop. *)
Definition intersection_pair (acc : Solver * gset Z) (i j : Z)
  : result (Solver * gset Z) :=
  let '(st, remove_set) := acc in
  ki ← py_index (knowledge st) i;
  kj ← py_index (knowledge st) j;
  let '(p1, p2) := if count kj <=? count ki then (i, j) else (j, i) in
  s1 ← py_index (knowledge st) p1;
  s2 ← py_index (knowledge st) p2;
  let sub12 := cells s1 ∖ cells s2 in
  if count s1 - count s2 =? Z.of_nat (size sub12) then
    let st := foldl Solver.mark_mine st (elements sub12) in
    s1 ← py_index (knowledge st) p1;
    s2 ← py_index (knowledge st) p2;
    let sub21 := cells s2 ∖ cells s1 in
    let st := foldl Solver.mark_safe st (elements sub21) in
    s1 ← py_index (knowledge st) p1;
    s2 ← py_index (knowledge st) p2;
    let st :=
      set_knowledge
        (knowledge st ++ [Sentence.__init__ (cells s1 ∩ cells s2) (count s2)])
        st in
    Ok (st, {[j]} ∪ ({[i]} ∪ remove_set))
  else Ok (st, remove_set).

(** The scan over all pairs: the bound of the outer loop is taken once, the
    bound of the inner loop at every start of it. *)
Definition intersection_scan (st : Solver) : result (Solver * gset Z) :=
  for_each (range 0 (Z.of_nat (length (knowledge st)) - 1)) (fun acc i =>
    for_each (range (i + 1) (Z.of_nat (length (knowledge acc.1)))) (fun acc j =>
      intersection_pair acc i j) acc)
    (st, ∅).

Definition add_intersection_sentence (st : Solver) : result Solver :=
  '(st, remove_set) ← intersection_scan st;
  K ← for_each (sorted_reverse remove_set) (fun K pos => py_del K pos)
         (knowledge st);
  Ok (set_knowledge K st).

Definition add_knowledge (st : Solver) (c : cell) (n : Z) : result Solver :=
  let st := set_moves_made ({[c]} ∪ moves_made st) st in
  let st := Solver.mark_safe st c in
  if n =? 0 then Ok st
  else
    let st := Solver.add_sentence st c n in
    st ← Solver.remove_null_sentence st;
    st ← add_complement_sentence st;
    st ← Solver.check_sentence st;
    st ← Solver.remove_null_sentence st;
    add_intersection_sentence st.

Section WithFloat.
Context `{PyFloat F}.

Definition analyze_knowledge (st : Solver) : result Solver :=
  st ← Solver.remove_null_sentence st;
  match class st with
  | SetBased guess_method =>
      if guess_method =? 1 then GenerateConfigurationSolver.analyze_knowledge st
      else
        if guess_method =? 2 then ProbabilityTheorySolver.analyze_knowledge st
        else Ok st
  | _ => Raise AttributeError
  end.

End WithFloat.
End SetBasedSolver.

(** Method lookup by the class of the object. *)
Definition add_knowledge (st : Solver) (c : cell) (n : Z) : result Solver :=
  match class st with
  | GenerateConfiguration | ProbabilityTheory =>
      ProbabilitySolver.add_knowledge st c n
  | SetBased _ => SetBasedSolver.add_knowledge st c n
  end.

Section WithFloat.
Context `{PyFloat F}.

Definition analyze_knowledge (st : Solver) : result Solver :=
  match class st with
  | GenerateConfiguration => GenerateConfigurationSolver.analyze_knowledge st
  | ProbabilityTheory => ProbabilityTheorySolver.analyze_knowledge st
  | SetBased _ => SetBasedSolver.analyze_knowledge st
  end.

Definition make_move (st : Solver) : result (Solver * (option cell * Z)) :=
  Solver.make_move analyze_knowledge st.

End WithFloat.

End AI.

(* ===================================================================== *)
(** ** main.py *)
(* ===================================================================== *)

Module Main.

(** What the entry point does: it opens the menu, runs the benchmark, or
    prints a line.  The menu and the benchmark are loops over the display
    and are kept as events. *)
Inductive action : Type :=
  | main_menu
  | play_multiple_games (agent_type iter guess_method : Z)
  | print (line : string).

Section WithInt.
(** Python's [int(s)] on a string; it raises ValueError on a string that
    is no integer literal. *)
Variable int : string → result Z.

(** The [if __name__ == '__main__'] block, run on [sys.argv]. *)
Definition main (argv : list string) : result (list action) :=
  if bool_decide (length argv = 1%nat) then Ok [main_menu]
  else
    if bool_decide (length argv = 3%nat) then
      a1 ← py_index argv 1;
      agent_type ← int a1;
      a2 ← py_index argv 2;
      iter ← int a2;
      Ok [play_multiple_games agent_type iter 1]
    else
      if bool_decide (length argv = 4%nat) then
        a1 ← py_index argv 1;
        agent_type ← int a1;
        a2 ← py_index argv 2;
        iter ← int a2;
        a3 ← py_index argv 3;
        guess_method ← int a3;
        Ok [play_multiple_games agent_type iter guess_method]
      else Ok [print "InvalidParameterError: Invalid number of parameters"].

End WithInt.
End Main.

(* ===================================================================== *)
(** ** main.py: the class Minesweeper *)
(* ===================================================================== *)

Module Minesweeper.
Import Settings Sprites.

(** The game object.  Of its attributes the board, [playing] and [win] are
    kept, and the lines that were printed; the screen and the clock only
    serve the display. *)
Record Minesweeper : Type := {
  board : Board;
  playing : bool;
  win : option bool;
  printed : list string
}.

Definition set_board (v : Board) (g : Minesweeper) : Minesweeper :=
  {| board := v; playing := playing g; win := win g; printed := printed g |}.

(** A MOUSEBUTTONDOWN event of the queue, with the position that
    [pygame.mouse.get_pos()] gives when it is handled.  Events other than
    these do nothing in [events], except QUIT and ESC, which leave the game
    and are not part of the queues considered here. *)
Record click : Type := {
  button : Z;
  pos : Z * Z
}.

Section WithSettings.
Variable cfg : settings.

(** [Minesweeper.new_game] *)
Definition new_game (g : Minesweeper) : Minesweeper :=
  set_board (Board.__init__ cfg) g.

(** [Minesweeper.check_win] *)
Definition check_win (g : Minesweeper) : bool :=
  forallb
    (forallb (fun t =>
                negb (negb (bool_decide (type t = Mine)) && negb (revealed t))))
    (board_list (board g)).

(** What the two loops of [check_button] do to a tile after an explosion:
    a wrong flag is taken off and shown as such, a mine is revealed. *)
Definition reveal_tile (t : Tile) : Tile :=
  if flagged t && negb (bool_decide (type t = Mine)) then
    set_image tile_not_mine (set_revealed true (set_flagged false t))
  else if bool_decide (type t = Mine) then set_revealed true t
  else t.

(** The branch of [check_button] after [dig] returned False.  The tiles
    are changed in place while the lists are run over; [playing] is set in
    the outer loop, once per column of the board. *)
Definition explode (g : Minesweeper) : Minesweeper :=
  {| board :=
       set_board_list (map (map reveal_tile) (board_list (board g))) (board g);
     playing := match board_list (board g) with [] => playing g | _ => false end;
     win := Some false;
     printed := printed g ++ ["You lost!"%string] |}.

(** What the loops of [events] do to a tile after the game was won. *)
Definition flag_tile (t : Tile) : Tile :=
  if negb (revealed t) then set_flagged true t else t.

(** The end of [events]: the check of the win condition. *)
Definition finish (g : Minesweeper) : Minesweeper :=
  if check_win g then
    {| board :=
         set_board_list (map (map flag_tile) (board_list (board g))) (board g);
       playing := false;
       win := Some true;
       printed := printed g ++ ["You won!"%string] |}
  else g.

Section WithAgent.
Context {A : Type}.
Variable add_knowledge : A → cell → Z → result A.

(** [Minesweeper.check_button].  [fuel] bounds the recursion of [dig] and
    [tape] holds the random draws left for [place_mines]. *)
Definition check_button (fuel : nat) (g : Minesweeper) (button mx my : Z)
    (ai : option A) (tape : list Z)
  : result (Minesweeper * option A * list Z) :=
  '(g, ai, tape) ←
    (if bool_decide (button = 1) then
       t ← tile_at (board g) mx my;
       if negb (flagged t) then
         '(b, tape) ←
           (if negb (first_click (board g)) then
              '(b, tape) ← Board.place_mines cfg (board g) mx my tape;
              b ← Board.place_clues cfg b;
              Ok (set_first_click true b, tape)
            else Ok (board g, tape));
         '(b, ai, alive) ← Board.dig cfg add_knowledge fuel b mx my ai;
         if negb alive then Ok (explode (set_board b g), ai, tape)
         else Ok (set_board b g, ai, tape)
       else Ok (g, ai, tape)
     else Ok (g, ai, tape));
  if bool_decide (button = 3) then
    t ← tile_at (board g) mx my;
    if negb (revealed t) then
      t ← tile_at (board g) mx my;
      b ← tile_set (board g) mx my (set_flagged (negb (flagged t)));
      Ok (set_board b g, ai, tape)
    else Ok (g, ai, tape)
  else Ok (g, ai, tape).

End WithAgent.

Section WithFloat.
Context `{PyFloat F}.

(** [(mx, my), button = ai.make_move()] and the [check_button] that
    follows it; unpacking a move that is None raises TypeError. *)
Definition ai_move (fuel : nat) (g : Minesweeper) (st : AI.Solver)
    (tape : list Z) : result (Minesweeper * option AI.Solver * list Z) :=
  '(st, (move, button)) ← AI.make_move st;
  match move with
  | Some (mx, my) =>
      check_button AI.add_knowledge fuel g button mx my (Some st) tape
  | None => Raise TypeError
  end.

(** [Minesweeper.events], on the queue [clicks] of mouse events. *)
Definition events (fuel : nat) (g : Minesweeper) (ai : option AI.Solver)
    (automated : bool) (clicks : list click) (tape : list Z)
  : result (Minesweeper * option AI.Solver * list Z) :=
  '(g, ai, tape) ←
    match ai with
    | Some st =>
        if automated then ai_move fuel g st tape
        else
          for_each clicks
            (fun '(g, ai, tape) _ =>
               match ai with
               | Some st => ai_move fuel g st tape
               | None => Ok (g, ai, tape)
               end)
            (g, ai, tape)
    | None =>
        for_each clicks
          (fun '(g, ai, tape) event =>
             let mx := (pos event).1 `div` TILESIZE in
             let my := (pos event).2 `div` TILESIZE in
             check_button AI.add_knowledge fuel g (button event) mx my ai tape)
          (g, ai, tape)
    end;
  Ok (finish g, ai, tape).

End WithFloat.

End WithSettings.

End Minesweeper.

(* ===================================================================== *)
(** ** Vocabulary of the statements *)
(* ===================================================================== *)

(** A sentence after all cells of [X] were marked as mines, and after all
    of them were marked as safe: what [Sentence.mark_mine] and
    [Sentence.mark_safe] add up to over a set of cells. *)
Definition minus_mines (X : gset cell) (s : AI.Sentence) : AI.Sentence :=
  {| AI.cells := AI.cells s ∖ X;
     AI.count := AI.count s - Z.of_nat (size (AI.cells s ∩ X)) |}.

Definition minus_safes (X : gset cell) (s : AI.Sentence) : AI.Sentence :=
  {| AI.cells := AI.cells s ∖ X; AI.count := AI.count s |}.

(** The cells that the sentences of a knowledge list speak of. *)
Definition referenced (K : list AI.Sentence) : gset cell :=
  ⋃ (AI.cells <$> K).

(** In how many of the configurations a cell is a mine. *)
Definition appearances (confs : list (gset cell)) (c : cell) : Z :=
  Z.of_nat (length (filter (fun conf => c ∈ conf) confs)).

(** A sentence is true of the set [T] of the mines of a board when exactly
    [count] of its cells are in [T]; a solver state is sound for [T] when
    its sentences are true of [T], its known mines are mines and its known
    safe cells are not. *)
Definition holds (T : gset cell) (s : AI.Sentence) : Prop :=
  Z.of_nat (size (AI.cells s ∩ T)) = AI.count s.

Definition sound (T : gset cell) (st : AI.Solver) : Prop :=
  Forall (holds T) (AI.knowledge st)
  ∧ AI.mines st ⊆ T
  ∧ AI.safes st ## T.

(** The 3x3 block of cells around [c], in the order in which two nested
    loops over the columns and the rows visit it, and the neighbours of [c]
    on a board of [w] columns and [h] rows: the cells of the block that are
    on the board, without [c]. *)
Definition block (c : cell) : list cell :=
  cx ← range (c.1 - 1) (c.1 + 2); cy ← range (c.2 - 1) (c.2 + 2); [(cx, cy)].

Definition on_board (w h : Z) (c : cell) : Prop :=
  0 ≤ c.1 < w ∧ 0 ≤ c.2 < h.

#[export] Instance on_board_dec w h c : Decision (on_board w h c).
Proof. unfold on_board. apply _. Defined.

Definition neighbours (w h : Z) (c : cell) : gset cell :=
  list_to_set (filter (fun p => p ≠ c ∧ on_board w h p) (block c)).

(** A board of [COLS] columns of [ROWS] tiles each, as [Board.__init__]
    makes it; the tile at a cell of non-negative coordinates; the board
    with the tile at a cell changed by [f]; the cells of the board, column
    by column; the cells that hold a mine. *)
Definition well_formed (cfg : Settings.settings) (b : Sprites.Board) : Prop :=
  length (Sprites.board_list b) = Settings.COLS cfg
  ∧ Forall (fun col => length col = Settings.ROWS cfg) (Sprites.board_list b).

Definition tile (b : Sprites.Board) (c : cell) : option Sprites.Tile :=
  col ← Sprites.board_list b !! Z.to_nat c.1; col !! Z.to_nat c.2.

Definition update_tile (b : Sprites.Board) (c : cell)
    (f : Sprites.Tile → Sprites.Tile) : Sprites.Board :=
  Sprites.set_board_list
    (alter (alter f (Z.to_nat c.2)) (Z.to_nat c.1) (Sprites.board_list b)) b.

Definition board_cells (cfg : Settings.settings) : list cell :=
  cx ← range 0 (Z.of_nat (Settings.COLS cfg));
  cy ← range 0 (Z.of_nat (Settings.ROWS cfg)); [(cx, cy)].

Definition has_type (ty : Sprites.tile_type) (b : Sprites.Board) (c : cell)
  : Prop :=
  ∃ t, tile b c = Some t ∧ Sprites.type t = ty.

#[export] Instance has_type_dec ty b c : Decision (has_type ty b c).
Proof.
  unfold has_type. destruct (tile b c) as [t|].
  - destruct (Sprites.tile_type_eq_dec (Sprites.type t) ty) as [E|E].
    + left. eauto.
    + right. intros (t' & [= <-] & ?). done.
  - right. intros (t' & [=] & _).
Defined.

Definition board_mines (cfg : Settings.settings) (b : Sprites.Board)
  : gset cell :=
  list_to_set (filter (has_type Sprites.Mine b) (board_cells cfg)).

(** The tile that [place_clues] leaves where it found the tile [t], on a
    board whose cell [c] has [n] mines among its neighbours; the tile that
    [place_mines] leaves where it places a mine. *)
Definition clue_tile (n : Z) (t : Sprites.Tile) : Sprites.Tile :=
  match Sprites.type t with
  | Sprites.Mine => t
  | _ =>
      if 0 <? n then
        Sprites.set_nearby_mine n
          (Sprites.set_type Sprites.Clue
             (Sprites.set_image (Settings.TileNumber n) t))
      else t
  end.

Definition mine_tile (t : Sprites.Tile) : Sprites.Tile :=
  Sprites.set_type Sprites.Mine (Sprites.set_image Settings.tile_mine t).

(** The tile that [dig] leaves where it dug the tile [t]. *)
Definition dig_tile (t : Sprites.Tile) : Sprites.Tile :=
  match Sprites.type t with
  | Sprites.Mine =>
      Sprites.set_image Settings.tile_exploded (Sprites.set_revealed true t)
  | _ => Sprites.set_revealed true t
  end.

(** A tile that is neither a mine nor a clue: from such a tile [dig] goes
    on to the neighbours. *)
Definition open_cell (b : Sprites.Board) (c : cell) : Prop :=
  ∃ t, tile b c = Some t
       ∧ Sprites.type t ≠ Sprites.Mine ∧ Sprites.type t ≠ Sprites.Clue.

(** The cells that a flood from [c] reaches on a board of width [w] and
    height [h]: [c] itself, and every neighbour outside of [V] of a reached
    cell that is neither a mine nor a clue. *)
Inductive flood (w h : Z) (b : Sprites.Board) (V : list cell) (c : cell)
  : cell → Prop :=
  | flood_here : flood w h b V c c
  | flood_next (d n : cell) :
      flood w h b V c d → open_cell b d → n ∈ neighbours w h d → n ∉ V →
      flood w h b V c n.

(** The connected region without mines around of a cell [c]: [c] itself,
    and every neighbour of a cell of the region whose tile is neither a
    mine nor a clue; and its ring: the clues that are neighbours of a cell
    of the region. *)
Inductive region (w h : Z) (b : Sprites.Board) (c : cell) : cell → Prop :=
  | region_here : region w h b c c
  | region_next (d n : cell) :
      region w h b c d → n ∈ neighbours w h d → open_cell b n →
      region w h b c n.

Definition ring (w h : Z) (b : Sprites.Board) (c d : cell) : Prop :=
  has_type Sprites.Clue b d ∧ ∃ r, region w h b c r ∧ d ∈ neighbours w h r.

(** The agent after it was told, in this order, of the cells of [l] that
    are no mines, each with the [nearby_mine] of its tile. *)
Definition told {A} (add_knowledge : A → cell → Z → result A)
    (b : Sprites.Board) (ai : option A) (l : list cell) : result (option A) :=
  for_each l
    (fun ai d =>
       match tile b d, ai with
       | Some t, Some a =>
           match Sprites.type t with
           | Sprites.Mine => Ok ai
           | _ => a' ← add_knowledge a d (Sprites.nearby_mine t); Ok (Some a')
           end
       | _, _ => Ok ai
       end) ai.

(** A board whose clues are right: every tile that is no mine stores the
    number of mines among the neighbours of its cell, and is a clue tile
    exactly when that number is positive. *)
Definition clued (cfg : Settings.settings) (b : Sprites.Board) : Prop :=
  ∀ c t,
    on_board (Z.of_nat (Settings.COLS cfg)) (Z.of_nat (Settings.ROWS cfg)) c →
    tile b c = Some t → Sprites.type t ≠ Sprites.Mine →
    Sprites.nearby_mine t
    = Z.of_nat (size (neighbours (Z.of_nat (Settings.COLS cfg))
                        (Z.of_nat (Settings.ROWS cfg)) c
                      ∩ board_mines cfg b))
    ∧ (Sprites.type t = Sprites.Clue ↔ 0 < Sprites.nearby_mine t).

(** A solver that plays on the board [b] and knows nothing false of it:
    it has the size of the board, and its state is sound for every set of
    cells that holds, of the cells of the board, exactly the mines.  (That
    its state is sound for all of these sets says that it is sound for the
    mines of the board and that it speaks of cells of the board only.) *)
Definition knows (cfg : Settings.settings) (b : Sprites.Board)
    (st : AI.Solver) : Prop :=
  AI.width st = Z.of_nat (Settings.COLS cfg)
  ∧ AI.height st = Z.of_nat (Settings.ROWS cfg)
  ∧ ∀ T : gset cell,
      (∀ c, on_board (Z.of_nat (Settings.COLS cfg))
              (Z.of_nat (Settings.ROWS cfg)) c →
            c ∈ T ↔ c ∈ board_mines cfg b) →
      sound T st.

(** What a deduction may do to a solver: add to the known mines and the
    known safe cells, and change the sentences; it leaves everything else
    as it is. *)
Definition extends (st st' : AI.Solver) : Prop :=
  AI.mines st ⊆ AI.mines st'
  ∧ AI.safes st ⊆ AI.safes st'
  ∧ AI.moves_made st' = AI.moves_made st
  ∧ AI.class st' = AI.class st
  ∧ AI.width st' = AI.width st
  ∧ AI.height st' = AI.height st
  ∧ AI.amount_mines st' = AI.amount_mines st
  ∧ AI.next_uncertain_move st' = AI.next_uncertain_move st
  ∧ AI.print_progress st' = AI.print_progress st
  ∧ AI.guess st' = AI.guess st.

(** A dict that is the map [f] on the set [R] of keys. *)
Definition dict_is {V} (d : pydict V) (R : gset cell) (f : cell → V) : Prop :=
  NoDup (Dict.keys d)
  ∧ (∀ c, c ∈ Dict.keys d ↔ c ∈ R)
  ∧ (∀ c, c ∈ R → Dict.get d c = Some (f c)).

(** A list without the elements at the positions of [D], where [i] is the
    position of the head of the list. *)
Fixpoint without_positions {A} (D : gset Z) (i : Z) (l : list A) : list A :=
  match l with
  | [] => []
  | a :: l' =>
      if bool_decide (i ∈ D) then without_positions D (i + 1) l'
      else a :: without_positions D (i + 1) l'
  end.

(** The first occurrences of the elements of a list, in their order:
    [seen] are the elements before the list. *)
Fixpoint first_occurrences {A} `{EqDecision A} (seen l : list A) : list A :=
  match l with
  | [] => []
  | a :: l' =>
      if bool_decide (a ∈ seen) then first_occurrences (seen ++ [a]) l'
      else a :: first_occurrences (seen ++ [a]) l'
  end.

(* ===================================================================== *)
(** * Part II: properties *)
(* ===================================================================== *)

Import Settings Sprites AI.

(** The exact rationals as an instance of the float interface. *)
Definition Q_div (a b : Q) : result Q :=
  if Qeq_bool b 0 then Raise ZeroDivisionError else Ok (Qred (a / b)).

Lemma Q_div_int_zero (a : Z) :
  Q_div (inject_Z a) (inject_Z 0) = Raise ZeroDivisionError.
Proof. reflexivity. Qed.

Lemma Q_div_int_ok (a b : Z) :
  b ≠ 0 → ∃ q, Q_div (inject_Z a) (inject_Z b) = Ok q.
Proof.
  intros Hb. unfold Q_div.
  destruct (Qeq_bool (inject_Z b) 0) eqn:E; [|eauto].
  apply Qeq_bool_eq in E. unfold Qeq in E. simpl in E. lia.
Qed.

#[export] Instance Q_float : PyFloat Q := {|
  F_of_Z := inject_Z;
  Fadd := fun a b => Qred (a + b);
  Fsub := fun a b => Qred (a - b);
  Fmul := fun a b => Qred (a * b);
  Fdiv := Q_div;
  Fle := Qle_bool;
  Flt := fun a b => negb (Qle_bool b a);
  Fdiv_int_zero := Q_div_int_zero;
  Fdiv_int_ok := Q_div_int_ok
|}.

(* --------------------------------------------------------------------- *)
(** ** Tile.draw *)
(* --------------------------------------------------------------------- *)

(** A tile that is both flagged and revealed is not painted at all: the
    surface is left as it was. *)
Lemma draw_flagged_revealed (t : Tile) (s : surface) :
  flagged t = true → revealed t = true → Tile.draw t s = s.
Proof. intros Hf Hr. unfold Tile.draw. by rewrite Hf, Hr. Qed.

(** C2, as stated, fails: "for every tile, Tile.draw paints exactly one
    sprite ... a revealed tile gets its own sprite regardless of its flagged
    state".  A revealed tile that carries a flag gets no sprite: the drawing
    adds no blit to the surface. *)
Lemma C2_counterexample :
  let t := {| x := 0; y := 0; image := TileNumber 1; type := Clue;
              nearby_mine := 1; revealed := true; flagged := true |} in
  ¬ (∃ sp, Tile.draw t [] = [(sp, (x t, y t))])
  ∧ Tile.draw t [] = [].
Proof.
  cbn. split; [|reflexivity]. intros [sp Hsp]. discriminate Hsp.
Qed.

(** C2, amended: Tile.draw paints at most one sprite, at the tile's pixel
    origin, chosen as follows: an unrevealed unflagged tile gets the unknown
    sprite, an unrevealed flagged tile gets the flag sprite, a revealed
    unflagged tile gets the tile's own sprite, and a revealed flagged tile
    gets nothing (the surface is unchanged). *)
Theorem C2_draw_amended (t : Tile) (s : surface) :
  Tile.draw t s =
    match revealed t, flagged t with
    | false, false => s ++ [(tile_unknown, (x t, y t))]
    | false, true => s ++ [(tile_flag, (x t, y t))]
    | true, false => s ++ [(image t, (x t, y t))]
    | true, true => s
    end.
Proof.
  unfold Tile.draw, blit. destruct (revealed t), (flagged t); reflexivity.
Qed.

(* --------------------------------------------------------------------- *)
(** ** The entry point *)
(* --------------------------------------------------------------------- *)

(** C8: with a number of command-line arguments other than 0, 2 or 3 the
    process prints exactly the line "InvalidParameterError: Invalid number
    of parameters" and does nothing else: its only action is that print.
    [sys.argv] is the script name followed by the arguments. *)
Theorem C8_invalid_parameter_count
    (int : string → result Z) (script : string) (args : list string) :
  length args ≠ 0%nat → length args ≠ 2%nat → length args ≠ 3%nat →
  Main.main int (script :: args)
  = Ok [Main.print "InvalidParameterError: Invalid number of parameters"].
Proof.
  intros H0 H2 H3. unfold Main.main.
  rewrite !bool_decide_eq_false_2; [reflexivity|cbn; lia..].
Qed.

Lemma C8_witness :
  Main.main (fun _ => Raise ValueError) ["main.py"; "1"]%string
  = Ok [Main.print "InvalidParameterError: Invalid number of parameters"]
  ∧ Main.main (fun _ => Raise ValueError)
      ["main.py"; "1"; "2"; "3"; "4"; "5"]%string
    = Ok [Main.print "InvalidParameterError: Invalid number of parameters"].
Proof.
  split.
  - apply (C8_invalid_parameter_count _ "main.py" ["1"]%string); cbn; lia.
  - apply (C8_invalid_parameter_count _ "main.py"
             ["1"; "2"; "3"; "4"; "5"]%string); cbn; lia.
Defined.

(* --------------------------------------------------------------------- *)
(** ** Lists, indices and loops *)
(* --------------------------------------------------------------------- *)

Lemma range_0_S (n : nat) :
  range 0 (Z.of_nat (S n)) = range 0 (Z.of_nat n) ++ [Z.of_nat n].
Proof.
  unfold range. rewrite !Z.sub_0_r, !Nat2Z.id.
  rewrite seq_S, map_app. reflexivity.
Qed.

Lemma norm_index_nat (n i : nat) :
  (i < n)%nat → norm_index n (Z.of_nat i) = Ok i.
Proof.
  intros Hi. unfold norm_index.
  rewrite (proj2 (Z.leb_le 0 (Z.of_nat i))) by lia.
  rewrite (proj2 (Z.leb_le 0 (Z.of_nat i))) by lia.
  rewrite (proj2 (Z.ltb_lt (Z.of_nat i) (Z.of_nat n))) by lia.
  cbn. by rewrite Nat2Z.id.
Qed.

Lemma py_index_nat {A} (l : list A) (i : nat) (a : A) :
  l !! i = Some a → py_index l (Z.of_nat i) = Ok a.
Proof.
  intros Hl. unfold py_index.
  rewrite norm_index_nat by (by eapply lookup_lt_Some).
  cbn. by rewrite Hl.
Qed.

Lemma py_del_nat {A} (l : list A) (i : nat) :
  (i < length l)%nat → py_del l (Z.of_nat i) = Ok (delete i l).
Proof. intros Hi. unfold py_del. by rewrite norm_index_nat. Qed.

Lemma py_update_nat {A} (l : list A) (i : nat) (f : A → A) :
  (i < length l)%nat → py_update l (Z.of_nat i) f = Ok (alter f i l).
Proof. intros Hi. unfold py_update. by rewrite norm_index_nat. Qed.

(* --------------------------------------------------------------------- *)
(** ** Solver.remove_null_sentence *)
(* --------------------------------------------------------------------- *)

(** The backwards loop over the positions deletes exactly the sentences
    with no cells: with the positions of [pre] still to visit, the list is
    [pre] followed by what was kept of the rest. *)
Lemma remove_null_loop (pre suf : list Sentence) :
  for_each (reverse (range 0 (Z.of_nat (length pre))))
    (fun K i =>
       s ← py_index K i;
       if bool_decide (size (cells s) = 0%nat) then py_del K i else Ok K)
    (pre ++ suf)
  = Ok (filter (fun s => cells s ≠ ∅) pre ++ suf).
Proof.
  revert suf. induction pre as [|s pre IH] using rev_ind; intros suf.
  - reflexivity.
  - rewrite length_app, Nat.add_1_r, range_0_S, reverse_app. cbn.
    rewrite (py_index_nat _ _ s).
    2:{ rewrite <- app_assoc. cbn. by apply list_lookup_middle. }
    cbn. rewrite filter_app, <- !app_assoc.
    case_bool_decide as Hs.
    + rewrite py_del_nat by (rewrite !length_app; cbn; lia).
      cbn. rewrite delete_middle, IH.
      rewrite decide_False; [done|].
      intros Hn. apply Hn.
      by apply size_empty_iff, leibniz_equiv in Hs.
    + cbn. rewrite IH. rewrite decide_True; [done|].
      intros Hn. apply Hs. by rewrite Hn, size_empty.
Qed.

Lemma remove_null_sentence_filter (st : Solver) :
  Solver.remove_null_sentence st
  = Ok (set_knowledge (filter (fun s => cells s ≠ ∅) (knowledge st)) st).
Proof.
  unfold Solver.remove_null_sentence.
  pose proof (remove_null_loop (knowledge st) []) as H.
  rewrite !app_nil_r in H. rewrite H. reflexivity.
Qed.

(** C9: on a SetBasedSolver whose [guess_method] is neither 1 nor 2,
    [analyze_knowledge] returns the state it was given with the sentences
    that have an empty cell set deleted from the knowledge list, and
    nothing else changed: the kept sentences are the same, in the same
    order, and [mines], [safes], [moves_made], [next_uncertain_move] and
    [guess] are as before. *)
Theorem C9_analyze_knowledge_no_guess_method
    `{PyFloat F} (st : Solver) (guess_method : Z) :
  class st = SetBased guess_method → guess_method ≠ 1 → guess_method ≠ 2 →
  SetBasedSolver.analyze_knowledge st
  = Ok {| class := class st; width := width st; height := height st;
          amount_mines := amount_mines st; moves_made := moves_made st;
          mines := mines st; safes := safes st;
          knowledge := filter (fun s => cells s ≠ ∅) (knowledge st);
          next_uncertain_move := next_uncertain_move st;
          print_progress := print_progress st; guess := guess st |}.
Proof.
  intros Hc H1 H2. unfold SetBasedSolver.analyze_knowledge.
  rewrite remove_null_sentence_filter. cbn.
  destruct (class st) eqn:E; try discriminate. injection Hc as ->.
  rewrite (proj2 (Z.eqb_neq _ _) H1), (proj2 (Z.eqb_neq _ _) H2).
  unfold set_knowledge. by rewrite E.
Qed.

Lemma C9_witness :
  let st := set_knowledge
              [Sentence.__init__ ∅ 0; Sentence.__init__ {[(0, 0)]} 1]
              (SetBasedSolver.__init__ 3 3 1 0 true) in
  SetBasedSolver.analyze_knowledge (F := Q) st
  = Ok (set_knowledge [Sentence.__init__ {[(0, 0)]} 1] st).
Proof.
  intros st.
  pose proof (C9_analyze_knowledge_no_guess_method (F := Q) st 0
                eq_refl ltac:(lia) ltac:(lia)) as Hst.
  rewrite Hst. vm_compute. reflexivity.
Defined.

(* --------------------------------------------------------------------- *)
(** ** Loops *)
(* --------------------------------------------------------------------- *)

Lemma for_each_app {S A} (l1 l2 : list A) (body : S → A → result S) (s : S) :
  for_each (l1 ++ l2) body s = (s' ← for_each l1 body s; for_each l2 body s').
Proof.
  revert s. induction l1 as [|a l1 IH]; intros s; cbn; [done|].
  destruct (body s a); cbn; auto.
Qed.

(** A loop nest is the loop over the list of the pairs it visits. *)
Lemma for_each_nested {S A B} (l : list A) (inner : A → list B)
    (body : S → A → B → result S) (s : S) :
  for_each l (fun s a => for_each (inner a) (fun s b => body s a b) s) s
  = for_each (a ← l; b ← inner a; [(a, b)]) (fun s '(a, b) => body s a b) s.
Proof.
  revert s. induction l as [|a l IH]; intros s; cbn; [done|].
  rewrite for_each_app.
  assert (∀ s, for_each (inner a) (fun s b => body s a b) s
             = for_each (b ← inner a; [(a, b)]) (fun s '(a, b) => body s a b) s)
    as ->.
  { clear. induction (inner a) as [|b lb IH]; intros s; cbn; [done|].
    destruct (body s a b); cbn; auto. }
  destruct (for_each _ _ s); cbn; auto.
Qed.

(** Two loop bodies that agree on the states of an invariant give the same
    loop. *)
Lemma for_each_inv_ext {S A} (P : S → Prop) (l : list A)
    (body1 body2 : S → A → result S) (s : S) :
  P s →
  (∀ s a s', P s → body1 s a = Ok s' → P s') →
  (∀ s a, P s → body1 s a = body2 s a) →
  for_each l body1 s = for_each l body2 s.
Proof.
  intros Hs Hpres Hext. revert s Hs.
  induction l as [|a l IH]; intros s Hs; cbn; [done|].
  rewrite <- Hext by done.
  destruct (body1 s a) eqn:E; cbn; eauto.
Qed.

Lemma for_each_inv {S A} (P : S → Prop) (l : list A)
    (body : S → A → result S) (s s' : S) :
  P s →
  (∀ s a s', P s → body s a = Ok s' → P s') →
  for_each l body s = Ok s' → P s'.
Proof.
  intros Hs Hpres. revert s Hs.
  induction l as [|a l IH]; intros s Hs; cbn.
  - by intros [= <-].
  - destruct (body s a) eqn:E; cbn; try discriminate. eauto.
Qed.

(* --------------------------------------------------------------------- *)
(** ** SetBasedSolver.add_complement_sentence *)
(* --------------------------------------------------------------------- *)

(** What one visit of the pair of positions [i], [j] does: the first test
    may shrink the sentence at [i], the second test, which reads the
    sentence at [i] as the first left it, may shrink the one at [j]. *)
Lemma complement_pair_exact (K : list Sentence) (i j : nat) (s1 s2 : Sentence) :
  i ≠ j → K !! i = Some s1 → K !! j = Some s2 →
  SetBasedSolver.complement_pair K (Z.of_nat i) (Z.of_nat j)
  = Ok (let s1' :=
          if (count s2 <=? count s1) && bool_decide (cells s2 ⊆ cells s1)
          then {| cells := cells s1 ∖ cells s2; count := count s1 - count s2 |}
          else s1 in
        let s2' :=
          if (count s1' <=? count s2) && bool_decide (cells s1' ⊆ cells s2)
          then {| cells := cells s2 ∖ cells s1'; count := count s2 - count s1' |}
          else s2 in
        <[j := s2']> (<[i := s1']> K)).
Proof.
  intros Hij Hi Hj. unfold SetBasedSolver.complement_pair.
  rewrite (py_index_nat _ _ _ Hi), (py_index_nat _ _ _ Hj). cbn.
  pose proof (lookup_lt_Some _ _ _ Hi) as Hli.
  pose proof (lookup_lt_Some _ _ _ Hj) as Hlj.
  destruct ((count s2 <=? count s1) && bool_decide (cells s2 ⊆ cells s1)) eqn:T1;
    cbv beta iota zeta.
  - rewrite py_update_nat by done. cbn.
    rewrite (py_index_nat _ i
      {| cells := cells s1 ∖ cells s2; count := count s1 - count s2 |}).
    2:{ by rewrite list_lookup_alter_eq, Hi. }
    rewrite (py_index_nat _ j s2).
    2:{ by rewrite list_lookup_alter_ne. }
    cbn.
    assert (alter (fun s1 => {| cells := cells s1 ∖ cells s2;
                               count := count s1 - count s2 |}) i K
            = <[i := {| cells := cells s1 ∖ cells s2;
                        count := count s1 - count s2 |}]> K) as ->.
    { rewrite list_insert_alter. apply list_eq. intros k.
      destruct (decide (k = i)) as [->|].
      - by rewrite !list_lookup_alter_eq, Hi.
      - by rewrite !list_lookup_alter_ne. }
    destruct ((_ <=? count s2) && _) eqn:T2.
    + rewrite py_update_nat by (by rewrite length_insert).
      f_equal. apply list_eq. intros k.
      destruct (decide (k = j)) as [->|].
      * rewrite list_lookup_alter_eq, list_lookup_insert_ne, Hj by done.
        by rewrite list_lookup_insert_eq by (by rewrite length_insert).
      * by rewrite list_lookup_alter_ne, (list_lookup_insert_ne _ j k).
    + f_equal. symmetry. apply list_insert_id.
      by rewrite list_lookup_insert_ne.
  - cbn. rewrite (py_index_nat _ _ _ Hi), (py_index_nat _ _ _ Hj). cbn.
    rewrite (list_insert_id K i s1) by done.
    destruct ((_ <=? count s2) && _) eqn:T2.
    + rewrite py_update_nat by done.
      f_equal. apply list_eq. intros k.
      destruct (decide (k = j)) as [->|].
      * by rewrite list_lookup_alter_eq, Hj, list_lookup_insert_eq.
      * by rewrite list_lookup_alter_ne, list_lookup_insert_ne.
    + by rewrite list_insert_id.
Qed.

Lemma complement_pair_length (K K' : list Sentence) (i j : Z) :
  SetBasedSolver.complement_pair K i j = Ok K' → length K' = length K.
Proof.
  unfold SetBasedSolver.complement_pair, py_update.
  destruct (py_index K i) as [s1| |]; cbn; try discriminate.
  destruct (py_index K j) as [s2| |]; cbn; try discriminate.
  destruct (_ && _); cbn.
  - destruct (norm_index (length K) i) as [i'| |]; cbn; try discriminate.
    destruct (py_index _ i) as [s1'| |]; cbn; try discriminate.
    destruct (py_index _ j) as [s2'| |]; cbn; try discriminate.
    destruct (_ && _); cbn.
    + destruct (norm_index _ j) as [j'| |]; cbn; try discriminate.
      intros [= <-]. by rewrite !length_alter.
    + intros [= <-]. by rewrite !length_alter.
  - destruct (py_index K i) as [s1'| |]; cbn; try discriminate.
    destruct (py_index K j) as [s2'| |]; cbn; try discriminate.
    destruct (_ && _); cbn.
    + destruct (norm_index _ j) as [j'| |]; cbn; try discriminate.
      intros [= <-]. by rewrite !length_alter.
    + by intros [= <-].
Qed.

(** The two loops visit every pair of positions [i < j] once, in
    lexicographic order. *)
Lemma add_complement_sentence_pairs (st : Solver) :
  SetBasedSolver.add_complement_sentence st
  = (K ← for_each
           (i ← range 0 (Z.of_nat (length (knowledge st)) - 1);
            j ← range (i + 1) (Z.of_nat (length (knowledge st)));
            [(i, j)])
           (fun K '(i, j) => SetBasedSolver.complement_pair K i j)
           (knowledge st);
     Ok (set_knowledge K st)).
Proof.
  unfold SetBasedSolver.add_complement_sentence.
  rewrite <- (for_each_nested _ (fun i => range (i + 1) _)
                (fun K i j => SetBasedSolver.complement_pair K i j)).
  f_equal.
  apply (for_each_inv_ext (fun K => length K = length (knowledge st)));
    [done| |].
  - intros K i K' HK.
    apply (for_each_inv (fun K => length K = length (knowledge st))); [done|].
    intros K1 j K2 HK1 E. by rewrite (complement_pair_length _ _ _ _ E).
  - intros K i HK. by rewrite HK.
Qed.

(** C5, as stated, fails in its general part: "for every pair where one
    sentence's cell set is a superset of the other's and its count is at
    least the other's count, the superset sentence is replaced in place by
    its cells minus the subset's cells".  On a list of two equal sentences
    the second has a superset of the first's cells and at least its count,
    and yet it is left as it is: the first test has emptied the first
    sentence before the second test reads it. *)
Lemma C5_counterexample :
  let A := Sentence.__init__ {[(0, 1); (0, 2)]} 1 in
  let st := set_knowledge [A; A] (SetBasedSolver.__init__ 5 5 3 1 true) in
  (cells A ⊆ cells A ∧ count A ≤ count A)
  ∧ SetBasedSolver.add_complement_sentence st
    = Ok (set_knowledge [Sentence.__init__ ∅ 0; A] st)
  ∧ A ≠ {| cells := cells A ∖ cells A; count := count A - count A |}.
Proof.
  intros A st. split; [split; [done|lia]|]. split.
  - vm_compute. reflexivity.
  - intros E. apply (f_equal count) in E. cbn in E. lia.
Qed.

(** C5, amended: on the knowledge list
    [{(0,1),(0,2),(0,3)} = 2; {(0,1),(0,2)} = 1] add_complement_sentence
    turns the first sentence into [{(0,3)} = 1] and leaves the second
    unchanged.  In general the two loops visit every pair of positions
    [i < j] once, in lexicographic order, and a visit makes two tests, one
    after the other, both of which may fire.  First, when the sentence at
    [i] has a superset of the cells of the one at [j] and at least its
    count, the sentence at [i] is replaced in place by its cells minus the
    other's, with the count reduced by the other's count.  Then, with the
    sentence at [i] as the first test left it, when the sentence at [j] has
    a superset of its cells and at least its count, the sentence at [j] is
    replaced in the same way.  No other sentence is touched. *)
Theorem C5_add_complement_sentence_amended :
  (∀ st : Solver,
     knowledge st = [Sentence.__init__ {[(0, 1); (0, 2); (0, 3)]} 2;
                     Sentence.__init__ {[(0, 1); (0, 2)]} 1] →
     SetBasedSolver.add_complement_sentence st
     = Ok (set_knowledge [Sentence.__init__ {[(0, 3)]} 1;
                          Sentence.__init__ {[(0, 1); (0, 2)]} 1] st))
  ∧ (∀ st : Solver,
       SetBasedSolver.add_complement_sentence st
       = (K ← for_each
                (i ← range 0 (Z.of_nat (length (knowledge st)) - 1);
                 j ← range (i + 1) (Z.of_nat (length (knowledge st)));
                 [(i, j)])
                (fun K '(i, j) => SetBasedSolver.complement_pair K i j)
                (knowledge st);
          Ok (set_knowledge K st)))
  ∧ (∀ (K : list Sentence) (i j : nat) (s1 s2 : Sentence),
       i ≠ j → K !! i = Some s1 → K !! j = Some s2 →
       ∃ s1' s2',
         SetBasedSolver.complement_pair K (Z.of_nat i) (Z.of_nat j)
         = Ok (<[j := s2']> (<[i := s1']> K))
         ∧ (cells s2 ⊆ cells s1 → count s2 ≤ count s1 →
            s1' = {| cells := cells s1 ∖ cells s2;
                     count := count s1 - count s2 |})
         ∧ (¬ (cells s2 ⊆ cells s1 ∧ count s2 ≤ count s1) → s1' = s1)
         ∧ (cells s1' ⊆ cells s2 → count s1' ≤ count s2 →
            s2' = {| cells := cells s2 ∖ cells s1';
                     count := count s2 - count s1' |})
         ∧ (¬ (cells s1' ⊆ cells s2 ∧ count s1' ≤ count s2) → s2' = s2)).
Proof.
  split; [|split].
  - intros st Hk. unfold SetBasedSolver.add_complement_sentence.
    rewrite Hk. vm_compute. reflexivity.
  - apply add_complement_sentence_pairs.
  - intros K i j s1 s2 Hij Hi Hj.
    assert (∀ a b : Sentence,
              (count a <=? count b) && bool_decide (cells a ⊆ cells b) = true
              ↔ cells a ⊆ cells b ∧ count a ≤ count b) as Htest.
    { intros a b. rewrite andb_true_iff, Z.leb_le, bool_decide_eq_true.
      tauto. }
    eexists _, _. split; [by apply complement_pair_exact|].
    split; [|split; [|split]].
    + intros Hsub Hle. by rewrite (proj2 (Htest s2 s1)).
    + intros Hn.
      destruct ((count s2 <=? count s1) && bool_decide (cells s2 ⊆ cells s1))
        eqn:E; [|done].
      by apply Htest in E.
    + intros Hsub Hle. by rewrite (proj2 (Htest _ s2)).
    + intros Hn.
      destruct ((count _ <=? count s2) && bool_decide (cells _ ⊆ cells s2))
        eqn:E in |- *; [|done].
      by apply Htest in E.
Qed.

Lemma C5_witness :
  let A := Sentence.__init__ {[(0, 1); (0, 2); (0, 3)]} 2 in
  let B := Sentence.__init__ {[(0, 1); (0, 2)]} 1 in
  SetBasedSolver.add_complement_sentence
    (set_knowledge [A; B] (SetBasedSolver.__init__ 5 5 3 1 true))
  = Ok (set_knowledge [Sentence.__init__ {[(0, 3)]} 1; B]
          (set_knowledge [A; B] (SetBasedSolver.__init__ 5 5 3 1 true)))
  ∧ SetBasedSolver.complement_pair [A; B] 0 1
    = Ok [{| cells := cells A ∖ cells B; count := count A - count B |}; B].
Proof.
  intros A B. split.
  - apply (proj1 C5_add_complement_sentence_amended). reflexivity.
  - destruct (proj2 (proj2 C5_add_complement_sentence_amended) [A; B]
                0%nat 1%nat A B ltac:(lia) eq_refl eq_refl)
      as (s1' & s2' & E & H1 & _ & _ & H4).
    change (Z.of_nat 0) with 0 in E. change (Z.of_nat 1) with 1 in E.
    rewrite E.
    assert (s1' = {| cells := cells A ∖ cells B; count := count A - count B |})
      as ->.
    { apply H1.
      - apply (bool_decide_unpack _). vm_compute. exact I.
      - cbn. lia. }
    assert (s2' = B) as ->.
    { apply H4. intros [Hsub _]. revert Hsub.
      apply (bool_decide_unpack _). vm_compute. exact I. }
    reflexivity.
Defined.

(* --------------------------------------------------------------------- *)
(** ** Marking sets of cells *)
(* --------------------------------------------------------------------- *)

Lemma Sentence_mark_mine_list (l : list cell) (s : Sentence) :
  NoDup l →
  foldl (fun s c => Sentence.mark_mine c s) s l = minus_mines (list_to_set l) s.
Proof.
  intros Hl. revert s. induction Hl as [|c l Hc Hl IH]; intros s; cbn.
  - unfold minus_mines. destruct s as [cs n]; cbn. f_equal.
    + set_solver.
    + replace (cs ∩ ∅) with (∅ : gset cell) by set_solver.
      rewrite size_empty. lia.
  - rewrite IH. unfold Sentence.mark_mine, minus_mines.
    assert (c ∉ (list_to_set l : gset cell)) as Hc' by set_solver.
    case_bool_decide as Hin; cbn; f_equal.
    + set_solver.
    + replace (cells s ∩ ({[c]} ∪ list_to_set l))
        with ({[c]} ∪ (cells s ∖ {[c]}) ∩ list_to_set l) by set_solver.
      rewrite (size_union {[c]} ((cells s ∖ {[c]}) ∩ list_to_set l))
        by set_solver.
      rewrite size_singleton. lia.
    + set_solver.
    + replace (cells s ∩ ({[c]} ∪ list_to_set l))
        with (cells s ∩ list_to_set l) by set_solver.
      done.
Qed.

Lemma Sentence_mark_safe_list (l : list cell) (s : Sentence) :
  foldl (fun s c => Sentence.mark_safe c s) s l = minus_safes (list_to_set l) s.
Proof.
  revert s. induction l as [|c l IH]; intros s; cbn.
  - unfold minus_safes. destruct s as [cs n]; cbn. f_equal. set_solver.
  - rewrite IH. unfold Sentence.mark_safe, minus_safes.
    case_bool_decide as Hin; cbn; f_equal; set_solver.
Qed.

Lemma Solver_mark_mine_list (l : list cell) (st : Solver) :
  foldl Solver.mark_mine st l
  = set_knowledge
      (map (fun s => foldl (fun s c => Sentence.mark_mine c s) s l)
           (knowledge st))
      (set_mines (list_to_set l ∪ mines st) st).
Proof.
  revert st. induction l as [|c l IH]; intros st; cbn.
  - destruct st; unfold set_knowledge, set_mines; cbn. f_equal.
    + set_solver.
    + by rewrite map_id.
  - rewrite IH. destruct st; unfold set_knowledge, set_mines, Solver.mark_mine;
      cbn. f_equal.
    + set_solver.
    + by rewrite map_map.
Qed.

Lemma Solver_mark_safe_list (l : list cell) (st : Solver) :
  foldl Solver.mark_safe st l
  = set_knowledge
      (map (fun s => foldl (fun s c => Sentence.mark_safe c s) s l)
           (knowledge st))
      (set_safes (list_to_set l ∪ safes st) st).
Proof.
  revert st. induction l as [|c l IH]; intros st; cbn.
  - destruct st; unfold set_knowledge, set_safes; cbn. f_equal.
    + set_solver.
    + by rewrite map_id.
  - rewrite IH. destruct st; unfold set_knowledge, set_safes, Solver.mark_safe;
      cbn. f_equal.
    + set_solver.
    + by rewrite map_map.
Qed.

(** Marking every cell of a set as a mine, in the order of iteration. *)
Lemma Solver_mark_mines (X : gset cell) (st : Solver) :
  foldl Solver.mark_mine st (elements X)
  = set_knowledge (map (minus_mines X) (knowledge st))
      (set_mines (X ∪ mines st) st).
Proof.
  rewrite Solver_mark_mine_list.
  rewrite (list_to_set_elements_L X).
  f_equal. apply map_ext. intros s.
  rewrite Sentence_mark_mine_list by apply NoDup_elements.
  by rewrite list_to_set_elements_L.
Qed.

Lemma Solver_mark_safes (X : gset cell) (st : Solver) :
  foldl Solver.mark_safe st (elements X)
  = set_knowledge (map (minus_safes X) (knowledge st))
      (set_safes (X ∪ safes st) st).
Proof.
  rewrite Solver_mark_safe_list.
  rewrite (list_to_set_elements_L X).
  f_equal. apply map_ext. intros s.
  by rewrite Sentence_mark_safe_list, list_to_set_elements_L.
Qed.

(* --------------------------------------------------------------------- *)
(** ** SetBasedSolver.add_intersection_sentence *)
(* --------------------------------------------------------------------- *)

(** The part of [intersection_pair] after [s1] and [s2] were chosen, when
    the test succeeds: [p1] and [p2] are the positions of [s1] and [s2]. *)
Lemma intersection_marks (st : Solver) (p1 p2 : nat) (s1 s2 : Sentence) :
  knowledge st !! p1 = Some s1 → knowledge st !! p2 = Some s2 →
  let X := cells s1 ∖ cells s2 in
  let Y := cells s2 ∖ cells s1 in
  let st1 := foldl Solver.mark_mine st (elements X) in
  ∃ s1' s2',
    knowledge st1 !! p1 = Some s1' ∧ knowledge st1 !! p2 = Some s2'
    ∧ cells s2' ∖ cells s1' = Y
    ∧ let st2 := foldl Solver.mark_safe st1 (elements Y) in
      ∃ s1'' s2'',
        knowledge st2 !! p1 = Some s1'' ∧ knowledge st2 !! p2 = Some s2''
        ∧ cells s1'' ∩ cells s2'' = cells s1 ∩ cells s2
        ∧ count s2'' = count s2
        ∧ st2 = set_knowledge
                  (map (fun s => minus_safes Y (minus_mines X s)) (knowledge st))
                  (set_safes (Y ∪ safes st) (set_mines (X ∪ mines st) st)).
Proof.
  intros H1 H2 X Y st1.
  exists (minus_mines X s1), (minus_mines X s2).
  subst st1. rewrite Solver_mark_mines. cbn.
  rewrite !list_lookup_fmap, H1, H2. cbn.
  split; [done|]. split; [done|]. split; [set_solver|].
  exists (minus_safes Y (minus_mines X s1)), (minus_safes Y (minus_mines X s2)).
  rewrite Solver_mark_safes. cbn.
  rewrite !list_lookup_fmap, H1, H2. cbn.
  split; [done|]. split; [done|]. split; [set_solver|]. split.
  - replace (cells s2 ∩ X) with (∅ : gset cell) by set_solver.
    rewrite size_empty. lia.
  - destruct st; unfold set_knowledge, set_safes, set_mines; cbn.
    by rewrite map_map.
Qed.

(** One visit of a pair of positions [i ≠ j] by the scan.  With [s1] the
    sentence of the two that has the larger count ([knowledge[i]] on a
    tie): if [s1.count - s2.count] is the number of cells of [s1] that are
    not in [s2], these cells are marked as mines, the cells of [s2] that are
    not in [s1] are marked as safe, the sentence [s1.cells ∩ s2.cells =
    s2.count] is appended, and [i] and [j] are queued for removal;
    otherwise nothing changes. *)
Lemma intersection_pair_spec (st : Solver) (remove_set : gset Z) (i j : nat)
    (si sj : Sentence) :
  knowledge st !! i = Some si → knowledge st !! j = Some sj →
  let s1 := if count sj <=? count si then si else sj in
  let s2 := if count sj <=? count si then sj else si in
  let X := cells s1 ∖ cells s2 in
  let Y := cells s2 ∖ cells s1 in
  SetBasedSolver.intersection_pair (st, remove_set) (Z.of_nat i) (Z.of_nat j)
  = if count s1 - count s2 =? Z.of_nat (size X) then
      Ok (set_knowledge
            (map (fun s => minus_safes Y (minus_mines X s)) (knowledge st)
             ++ [Sentence.__init__ (cells s1 ∩ cells s2) (count s2)])
            (set_safes (Y ∪ safes st) (set_mines (X ∪ mines st) st)),
          {[Z.of_nat j]} ∪ ({[Z.of_nat i]} ∪ remove_set))
    else Ok (st, remove_set).
Proof.
  intros Hi Hj s1 s2 X Y. unfold SetBasedSolver.intersection_pair.
  rewrite (py_index_nat _ _ _ Hi), (py_index_nat _ _ _ Hj). cbn.
  assert (∀ (p1 p2 : nat),
            knowledge st !! p1 = Some s1 → knowledge st !! p2 = Some s2 →
            (let '(p1, p2) := (Z.of_nat p1, Z.of_nat p2) in
             s1 ← py_index (knowledge st) p1;
             s2 ← py_index (knowledge st) p2;
             let sub12 := cells s1 ∖ cells s2 in
             if count s1 - count s2 =? Z.of_nat (size sub12) then
               let st := foldl Solver.mark_mine st (elements sub12) in
               s1 ← py_index (knowledge st) p1;
               s2 ← py_index (knowledge st) p2;
               let sub21 := cells s2 ∖ cells s1 in
               let st := foldl Solver.mark_safe st (elements sub21) in
               s1 ← py_index (knowledge st) p1;
               s2 ← py_index (knowledge st) p2;
               let st :=
                 set_knowledge
                   (knowledge st
                    ++ [Sentence.__init__ (cells s1 ∩ cells s2) (count s2)])
                   st in
               Ok (st, {[Z.of_nat j]} ∪ ({[Z.of_nat i]} ∪ remove_set))
             else Ok (st, remove_set))
            = if count s1 - count s2 =? Z.of_nat (size X) then
                Ok (set_knowledge
                      (map (fun s => minus_safes Y (minus_mines X s))
                           (knowledge st)
                       ++ [Sentence.__init__ (cells s1 ∩ cells s2) (count s2)])
                      (set_safes (Y ∪ safes st) (set_mines (X ∪ mines st) st)),
                    {[Z.of_nat j]} ∪ ({[Z.of_nat i]} ∪ remove_set))
              else Ok (st, remove_set)) as Hcore.
  { intros p1 p2 H1 H2. subst X Y.
    rewrite (py_index_nat _ _ _ H1), (py_index_nat _ _ _ H2). cbn.
    destruct (count s1 - count s2 =? _); [|done].
    pose proof (intersection_marks st p1 p2 s1 s2 H1 H2) as Hm.
    cbv zeta in Hm.
    destruct Hm
      as (s1' & s2' & E1 & E2 & EY & s1'' & s2'' & F1 & F2 & Ecells & Ecount & Est).
    rewrite (py_index_nat _ _ _ E1), (py_index_nat _ _ _ E2).
    cbn. rewrite EY.
    rewrite (py_index_nat _ _ _ F1), (py_index_nat _ _ _ F2). cbn.
    rewrite Ecells, Ecount, Est. reflexivity. }
  subst s1 s2. destruct (count sj <=? count si).
  - apply (Hcore i j); done.
  - apply (Hcore j i); done.
Qed.

(** C4: on the knowledge list [{(0,1),(0,2),(0,3)} = 2; {(0,2),(0,3),(0,4)}
    = 1] the scan of add_intersection_sentence marks (0,1) as a mine and
    (0,4) as safe, appends the sentence [{(0,2),(0,3)} = 1], whose count is
    that of the sentence with the smaller count, and queues positions 0 and
    1 for removal; the removal after the scan deletes both original
    sentences, so that the new sentence is the whole knowledge list.
    Nothing else of the solver changes. *)
Theorem C4_add_intersection_sentence (st : Solver) :
  knowledge st = [Sentence.__init__ {[(0, 1); (0, 2); (0, 3)]} 2;
                  Sentence.__init__ {[(0, 2); (0, 3); (0, 4)]} 1] →
  (∃ st1,
     SetBasedSolver.intersection_scan st = Ok (st1, {[0; 1]})
     ∧ mines st1 = {[(0, 1)]} ∪ mines st
     ∧ safes st1 = {[(0, 4)]} ∪ safes st
     ∧ length (knowledge st1) = 3%nat
     ∧ knowledge st1 !! 2%nat = Some (Sentence.__init__ {[(0, 2); (0, 3)]} 1))
  ∧ SetBasedSolver.add_intersection_sentence st
    = Ok {| class := class st; width := width st; height := height st;
            amount_mines := amount_mines st; moves_made := moves_made st;
            mines := {[(0, 1)]} ∪ mines st;
            safes := {[(0, 4)]} ∪ safes st;
            knowledge := [Sentence.__init__ {[(0, 2); (0, 3)]} 1];
            next_uncertain_move := next_uncertain_move st;
            print_progress := print_progress st; guess := guess st |}.
Proof.
  intros Hk.
  set (A := Sentence.__init__ {[(0, 1); (0, 2); (0, 3)]} 2) in *.
  set (B := Sentence.__init__ {[(0, 2); (0, 3); (0, 4)]} 1) in *.
  set (N := Sentence.__init__ {[(0, 2); (0, 3)]} 1).
  assert (SetBasedSolver.intersection_scan st
          = Ok (set_knowledge [N; N; N]
                  (set_safes ({[(0, 4)]} ∪ safes st)
                     (set_mines ({[(0, 1)]} ∪ mines st) st)),
                {[0; 1]})) as Hscan.
  { unfold SetBasedSolver.intersection_scan. rewrite Hk.
    change (range 0 (Z.of_nat (length [A; B]) - 1)) with [0].
    cbn [for_each fst]. rewrite Hk.
    change (range (0 + 1) (Z.of_nat (length [A; B]))) with [1].
    cbn [for_each].
    pose proof (intersection_pair_spec st ∅ 0 1 A B) as Hp.
    rewrite Hk in Hp. specialize (Hp eq_refl eq_refl).
    change (Z.of_nat 0) with 0 in Hp. change (Z.of_nat 1) with 1 in Hp.
    rewrite Hp. clear Hp.
    change (count B <=? count A) with true. cbv beta iota zeta.
    assert (cells A ∖ cells B = {[(0, 1)]}) as -> by (vm_compute; reflexivity).
    assert (cells B ∖ cells A = {[(0, 4)]}) as -> by (vm_compute; reflexivity).
    change (count A - count B =? Z.of_nat (size ({[(0, 1)]} : gset cell)))
      with true.
    cbv beta iota. cbn [mbind result_bind].
    assert (map (fun s => minus_safes {[(0, 4)]} (minus_mines {[(0, 1)]} s))
                [A; B]
            ++ [Sentence.__init__ (cells A ∩ cells B) (count B)]
            = [N; N; N]) as -> by (vm_compute; reflexivity).
    assert (({[1]} ∪ ({[0]} ∪ ∅) : gset Z) = {[0; 1]}) as ->
      by (vm_compute; reflexivity).
    reflexivity. }
  split.
  - eexists. split; [exact Hscan|]. cbn. auto.
  - unfold SetBasedSolver.add_intersection_sentence. rewrite Hscan.
    cbn [mbind result_bind].
    change (knowledge (set_knowledge [N; N; N] _)) with [N; N; N].
    assert (for_each (sorted_reverse {[0; 1]})
              (fun (K : list Sentence) pos => py_del K pos) [N; N; N]
            = Ok [N]) as -> by (vm_compute; reflexivity).
    reflexivity.
Qed.

Lemma C4_witness :
  let st := set_knowledge
              [Sentence.__init__ {[(0, 1); (0, 2); (0, 3)]} 2;
               Sentence.__init__ {[(0, 2); (0, 3); (0, 4)]} 1]
              (SetBasedSolver.__init__ 5 5 3 1 true) in
  SetBasedSolver.add_intersection_sentence st
  = Ok {| class := class st; width := width st; height := height st;
          amount_mines := amount_mines st; moves_made := moves_made st;
          mines := {[(0, 1)]} ∪ mines st;
          safes := {[(0, 4)]} ∪ safes st;
          knowledge := [Sentence.__init__ {[(0, 2); (0, 3)]} 1];
          next_uncertain_move := next_uncertain_move st;
          print_progress := print_progress st; guess := guess st |}.
Proof.
  intros st. exact (proj2 (C4_add_intersection_sentence st eq_refl)).
Defined.

(* --------------------------------------------------------------------- *)
(** ** Dictionaries *)
(* --------------------------------------------------------------------- *)

Lemma Dict_get_keys {V} (d : pydict V) (k : cell) :
  k ∈ Dict.keys d ↔ is_Some (Dict.get d k).
Proof.
  induction d as [|[k' v] d IH]; cbn.
  - split; [by intros ?%elem_of_nil | by intros [? ?]].
  - case_bool_decide as E.
    + subst. split; [eauto | intros _; apply elem_of_cons; by left].
    + rewrite elem_of_cons. split.
      * intros [->|?]; [done|]. by apply IH.
      * intros ?. right. by apply IH.
Qed.

Lemma Dict_lookup_keys {V} (d : pydict V) (k : cell) :
  k ∈ Dict.keys d → ∃ v, Dict.lookup d k = Ok v.
Proof.
  intros [v Hv]%Dict_get_keys. exists v. unfold Dict.lookup. by rewrite Hv.
Qed.

Lemma for_each_fixed {S A} (l : list A) (body : S → A → result S) (s : S) :
  (∀ a, a ∈ l → body s a = Ok s) → for_each l body s = Ok s.
Proof.
  induction l as [|a l IH]; intros H; cbn; [done|].
  rewrite H by (apply elem_of_cons; by left). cbn.
  apply IH. intros b Hb. apply H, elem_of_cons. by right.
Qed.

(* --------------------------------------------------------------------- *)
(** ** ProbabilityTheorySolver.analyze_knowledge *)
(* --------------------------------------------------------------------- *)

(** The marking loop compares the [Probability] object itself, not its
    [prob], with 0 and with 1; an object of a class without [__eq__] is
    equal to no int, so neither branch is ever taken. *)
Lemma ProbabilityTheory_mark_certain (prob_dict : pydict nat) (st : Solver) :
  ProbabilityTheorySolver.mark_certain prob_dict st = Ok (st, false).
Proof.
  unfold ProbabilityTheorySolver.mark_certain.
  apply for_each_fixed. intros c Hc.
  destruct (Dict_lookup_keys prob_dict c Hc) as [ref ->]. reflexivity.
Qed.

Lemma choose_uncertain_move_frame `{PyFloat F} {V} (st st' : Solver)
    (best : cell) (risk : F) (prob_dict : pydict V) :
  Solver.choose_uncertain_move st best risk prob_dict = Ok st' →
  ∃ move, st' = set_next_uncertain_move move st.
Proof.
  unfold Solver.choose_uncertain_move.
  destruct (Fdiv _ _) as [est| |]; cbn; try discriminate.
  destruct (_ || _).
  - intros [= <-]. eauto.
  - destruct (filter _ _) as [|c l]; intros [= <-]; [|eauto].
    exists (next_uncertain_move st). by destruct st.
Qed.

(** Whatever the probabilities are, ProbabilityTheorySolver.analyze_knowledge
    marks no cell: [mines], [safes] and the sentences are as before, only
    [next_uncertain_move] can change. *)
Lemma ProbabilityTheory_analyze_marks_nothing `{PyFloat F} (st st' : Solver) :
  ProbabilityTheorySolver.analyze_knowledge st = Ok st' →
  ∃ move, st' = set_next_uncertain_move move st.
Proof.
  unfold ProbabilityTheorySolver.analyze_knowledge.
  case_bool_decide.
  - intros [= <-]. exists (next_uncertain_move st). by destruct st.
  - destruct (ProbabilityTheorySolver.make_prob_dict _) as [h prob_dict].
    destruct (ProbabilityTheorySolver.make_constraint_list _ _)
      as [cl| |]; cbn; try discriminate.
    destruct (ProbabilityTheorySolver.estimate _ _ _)
      as [h1| |]; cbn; try discriminate.
    rewrite ProbabilityTheory_mark_certain. cbn.
    destruct (ProbabilityTheorySolver.normalise _ _ _)
      as [h2| |]; cbn; try discriminate.
    destruct (Dict.min _ _ _) as [best| |]; cbn; try discriminate.
    destruct (Dict.lookup _ _) as [ref| |]; cbn; try discriminate.
    apply choose_uncertain_move_frame.
Qed.

(** C1 at a concrete state.  The knowledge is [{(0,0)} = 0; {(2,0)} = 1] on
    a board of 3 by 1 cells: the computed mine probability of (0,0) is
    exactly 0 and that of (2,0) is exactly 1 (the quotients 0/1 and 1/1 and
    the differences from 1 are the same in floats and in rationals), and
    analyze_knowledge returns, but (0,0) is not added to [safes] and (2,0)
    is not added to [mines]: both sets stay empty, and the cell of
    probability 0 is only committed as the next uncertain move. *)
Theorem C1_failing_input :
  let st := set_moves_made {[(1, 0)]}
              (set_knowledge [Sentence.__init__ {[(0, 0)]} 0;
                              Sentence.__init__ {[(2, 0)]} 1]
                 (Solver.__init__ ProbabilityTheory 3 1 1 true)) in
  let hd := ProbabilityTheorySolver.make_prob_dict (F := Q) (knowledge st) in
  (∃ h r0 r2,
      ProbabilityTheorySolver.estimate (knowledge st) hd.2 hd.1 = Ok h
      ∧ Dict.lookup hd.2 (0, 0) = Ok r0
      ∧ Dict.lookup hd.2 (2, 0) = Ok r2
      ∧ ProbabilityTheorySolver.prob h r0 = 0%Q
      ∧ ProbabilityTheorySolver.prob h r2 = 1%Q)
  ∧ ∃ st', ProbabilityTheorySolver.analyze_knowledge (F := Q) st = Ok st'
      ∧ ((0, 0) ∉ safes st') ∧ ((2, 0) ∉ mines st')
      ∧ safes st' = ∅ ∧ mines st' = ∅
      ∧ next_uncertain_move st' = Some (0, 0).
Proof.
  intros st hd. split.
  - eexists _, _, _.
    split; [vm_compute; reflexivity|].
    split; [vm_compute; reflexivity|].
    split; [vm_compute; reflexivity|].
    split; vm_compute; reflexivity.
  - destruct (ProbabilityTheorySolver.analyze_knowledge (F := Q) st)
      as [st'| |] eqn:E; [|vm_compute in E; discriminate E..].
    exists st'. split; [reflexivity|].
    destruct (ProbabilityTheory_analyze_marks_nothing st st' E) as [move ->].
    assert (move = Some (0, 0)) as ->.
    { apply (f_equal (fun r => match r with
                               | Ok s => next_uncertain_move s
                               | _ => None
                               end)) in E.
      vm_compute in E. by symmetry. }
    cbn. repeat split; try reflexivity; apply not_elem_of_empty.
Qed.

(* --------------------------------------------------------------------- *)
(** ** Dictionaries, continued *)
(* --------------------------------------------------------------------- *)

Lemma Dict_keys_set {V} (d : pydict V) (k : cell) (v : V) :
  Dict.keys (Dict.set d k v)
  = if bool_decide (k ∈ Dict.keys d) then Dict.keys d else Dict.keys d ++ [k].
Proof.
  unfold Dict.keys. induction d as [|[k' v'] d IH]; cbn; [done|].
  destruct (bool_decide (k' = k)) eqn:E; cbn.
  - apply bool_decide_eq_true in E. subst k'.
    rewrite bool_decide_eq_true_2; [done|]. apply elem_of_cons; by left.
  - apply bool_decide_eq_false in E. rewrite IH.
    destruct (bool_decide (k ∈ map fst d)) eqn:Ed.
    + apply bool_decide_eq_true in Ed.
      rewrite bool_decide_eq_true_2; [done|]. apply elem_of_cons; by right.
    + apply bool_decide_eq_false in Ed.
      rewrite bool_decide_eq_false_2; [done|].
      intros [?|?]%elem_of_cons; congruence.
Qed.

Lemma Dict_get_set {V} (d : pydict V) (k k' : cell) (v : V) :
  Dict.get (Dict.set d k v) k'
  = if bool_decide (k = k') then Some v else Dict.get d k'.
Proof.
  induction d as [|[k0 v0] d IH]; cbn.
  - done.
  - destruct (bool_decide (k0 = k)) eqn:E0; cbn.
    + apply bool_decide_eq_true in E0. subst k0.
      by destruct (bool_decide (k = k')).
    + apply bool_decide_eq_false in E0. rewrite IH.
      destruct (bool_decide (k0 = k')) eqn:E1; [|done].
      apply bool_decide_eq_true in E1. subst k0.
      by rewrite bool_decide_eq_false_2.
Qed.

Lemma Dict_keys_set_NoDup {V} (d : pydict V) (k : cell) (v : V) :
  NoDup (Dict.keys d) → NoDup (Dict.keys (Dict.set d k v)).
Proof.
  intros Hd. rewrite Dict_keys_set. case_bool_decide; [done|].
  apply NoDup_app. split; [done|]. split.
  - intros x Hx ->%list_elem_of_singleton. done.
  - apply NoDup_singleton.
Qed.

Lemma Dict_keys_set_elem {V} (d : pydict V) (k c : cell) (v : V) :
  c ∈ Dict.keys (Dict.set d k v) ↔ c = k ∨ c ∈ Dict.keys d.
Proof.
  rewrite Dict_keys_set. case_bool_decide.
  - split; [auto|]. by intros [->|?].
  - rewrite elem_of_app, list_elem_of_singleton. tauto.
Qed.

Lemma dict_is_length {V} (d : pydict V) R f :
  dict_is d R f → length d = size R.
Proof.
  intros (Hnd & Hk & _).
  replace R with (list_to_set (Dict.keys d) : gset cell).
  - rewrite size_list_to_set by done. unfold Dict.keys. by rewrite length_map.
  - apply set_eq. intros c. rewrite elem_of_list_to_set. apply Hk.
Qed.

Lemma dict_is_get {V} (d : pydict V) R f (c : cell) :
  dict_is d R f →
  Dict.get d c = if bool_decide (c ∈ R) then Some (f c) else None.
Proof.
  intros (Hnd & Hk & Hg). case_bool_decide as E; [by apply Hg|].
  destruct (Dict.get d c) eqn:Eg; [|done].
  exfalso. apply E, Hk, Dict_get_keys. eauto.
Qed.

Lemma dict_is_mem {V} (d : pydict V) R f (c : cell) :
  dict_is d R f → Dict.mem d c = bool_decide (c ∈ R).
Proof.
  intros (Hnd & Hk & Hg). unfold Dict.mem. apply bool_decide_ext, Hk.
Qed.

(* --------------------------------------------------------------------- *)
(** ** GenerateConfigurationSolver: the histogram *)
(* --------------------------------------------------------------------- *)

Lemma referenced_snoc (K : list Sentence) (s : Sentence) :
  referenced (K ++ [s]) = referenced K ∪ cells s.
Proof.
  unfold referenced. rewrite fmap_app, union_list_app_L. cbn. set_solver.
Qed.

Lemma init_histogram_cells (l : list cell) (d : pydict Z) (R : gset cell) :
  dict_is d R (fun _ => 0) →
  dict_is (foldl (fun d c => Dict.set d c 0) d l) (R ∪ list_to_set l)
    (fun _ => 0).
Proof.
  revert d R. induction l as [|c l IH]; intros d R Hd; cbn.
  - by replace (R ∪ ∅) with R by set_solver.
  - replace (R ∪ ({[c]} ∪ list_to_set l)) with ((R ∪ {[c]}) ∪ list_to_set l)
      by set_solver.
    apply IH. destruct Hd as (Hnd & Hk & Hg). split; [|split].
    + by apply Dict_keys_set_NoDup.
    + intros c'. rewrite Dict_keys_set_elem, Hk. set_solver.
    + intros c' Hc'. rewrite Dict_get_set. case_bool_decide; [done|].
      apply Hg. set_solver.
Qed.

Lemma init_histogram_is (K : list Sentence) :
  dict_is (GenerateConfigurationSolver.init_histogram K) (referenced K)
    (fun _ => 0).
Proof.
  unfold GenerateConfigurationSolver.init_histogram.
  induction K as [|s K IH] using rev_ind.
  - change (referenced []) with (∅ : gset cell).
    split; [constructor|]. split.
    + intros c. cbn. split; [by intros ?%elem_of_nil|].
      by intros ?%not_elem_of_empty.
    + by intros c ?%not_elem_of_empty.
  - rewrite foldl_app. cbn. rewrite referenced_snoc.
    replace (cells s) with (list_to_set (elements (cells s)) : gset cell)
      at 2 by apply list_to_set_elements_L.
    by apply init_histogram_cells.
Qed.

(** Counting one configuration: the cells of [l] gain one appearance. *)
Lemma record_configuration (l : list cell) (d : pydict Z) (R : gset cell)
    (f : cell → Z) :
  NoDup l → (∀ c, c ∈ l → c ∈ R) → dict_is d R f →
  ∃ d',
    for_each l (fun d c => v ← Dict.lookup d c; Ok (Dict.set d c (v + 1))) d
    = Ok d'
    ∧ dict_is d' R
        (fun c => f c + if bool_decide (c ∈ (list_to_set l : gset cell))
                        then 1 else 0).
Proof.
  intros Hl. revert d f. induction Hl as [|c l Hc Hl IH]; intros d f Hsub Hd.
  - exists d. split; [done|]. destruct Hd as (Hnd & Hk & Hg).
    split; [done|]. split; [done|]. intros c Hc. rewrite Hg by done.
    rewrite bool_decide_eq_false_2 by set_solver. f_equal. lia.
  - cbn. destruct Hd as (Hnd & Hk & Hg).
    assert (c ∈ R) as HcR by (apply Hsub, elem_of_cons; by left).
    assert (Dict.lookup d c = Ok (f c)) as ->
      by (unfold Dict.lookup; by rewrite (Hg c HcR)).
    cbn.
    destruct (IH (Dict.set d c (f c + 1))
                 (fun c' => if bool_decide (c = c') then f c + 1 else f c'))
      as (d' & Hd' & Hdis).
    + intros c' Hc'. apply Hsub, elem_of_cons. by right.
    + split; [by apply Dict_keys_set_NoDup|]. split.
      * intros c'. rewrite Dict_keys_set_elem, Hk. split; [|auto].
        by intros [->|?].
      * intros c' Hc'. rewrite Dict_get_set. case_bool_decide; [done|].
        by apply Hg.
    + exists d'. split; [done|]. destruct Hdis as (Hnd' & Hk' & Hg').
      split; [done|]. split; [done|]. intros c' Hc'. rewrite Hg' by done.
      f_equal. case_bool_decide as E1.
      * subst c'. rewrite bool_decide_eq_false_2 by set_solver.
        rewrite bool_decide_eq_true_2 by set_solver. lia.
      * destruct (bool_decide (c' ∈ (list_to_set l : gset cell))) eqn:E2.
        -- apply bool_decide_eq_true in E2.
           rewrite bool_decide_eq_true_2 by set_solver. done.
        -- apply bool_decide_eq_false in E2.
           rewrite bool_decide_eq_false_2 by set_solver. done.
Qed.

Lemma appearances_cons (conf : gset cell) (confs : list (gset cell)) (c : cell) :
  appearances (conf :: confs) c
  = (if bool_decide (c ∈ conf) then 1 else 0) + appearances confs c.
Proof.
  unfold appearances. rewrite filter_cons.
  destruct (decide (c ∈ conf)).
  - rewrite bool_decide_eq_true_2 by done. cbn [length]. lia.
  - rewrite bool_decide_eq_false_2 by done. lia.
Qed.

Lemma record_appearances_is (confs : list (gset cell)) (d : pydict Z)
    (R : gset cell) (f : cell → Z) :
  (∀ conf, conf ∈ confs → conf ⊆ R) → dict_is d R f →
  ∃ d',
    GenerateConfigurationSolver.record_appearances d confs = Ok d'
    ∧ dict_is d' R (fun c => f c + appearances confs c).
Proof.
  unfold GenerateConfigurationSolver.record_appearances.
  revert d f. induction confs as [|conf confs IH]; intros d f Hsub Hd.
  - exists d. split; [done|]. destruct Hd as (Hnd & Hk & Hg).
    split; [done|]. split; [done|]. intros c Hc. rewrite Hg by done.
    unfold appearances. cbn. f_equal. lia.
  - cbn.
    destruct (record_configuration (elements conf) d R f) as (d1 & -> & Hd1).
    + apply NoDup_elements.
    + intros c Hc%elem_of_elements.
      apply (Hsub conf); [apply elem_of_cons; by left|done].
    + done.
    + cbn. rewrite list_to_set_elements_L in Hd1.
      destruct (IH d1 _ (fun conf' H' => Hsub conf' (proj2 (elem_of_cons _ _ _) (or_intror H'))) Hd1)
        as (d' & Hd' & Hdis).
      exists d'. split; [done|]. destruct Hdis as (Hnd' & Hk' & Hg').
      split; [done|]. split; [done|]. intros c Hc. rewrite Hg' by done.
      f_equal. rewrite appearances_cons. lia.
Qed.

(* --------------------------------------------------------------------- *)
(** ** GenerateConfigurationSolver: the enumeration *)
(* --------------------------------------------------------------------- *)

Lemma combinations_elem {A} (l : list A) (r : nat) (choice : list A) (a : A) :
  choice ∈ combinations l r → a ∈ choice → a ∈ l.
Proof.
  revert r choice. induction l as [|b l IH]; intros r choice; destruct r; cbn.
  - intros ->%list_elem_of_singleton. by intros ?%elem_of_nil.
  - by intros ?%elem_of_nil.
  - intros ->%list_elem_of_singleton. by intros ?%elem_of_nil.
  - rewrite elem_of_app. intros [Hc|Hc] Ha.
    + apply list_elem_of_fmap in Hc as (choice' & -> & Hc').
      apply elem_of_cons in Ha as [->|Ha]; [apply elem_of_cons; by left|].
      apply elem_of_cons. right. by eapply IH.
    + apply elem_of_cons. right. by eapply IH.
Qed.

Lemma extend_configurations_subset (s : Sentence) (given : list (gset cell))
    (invalid R : gset cell) (conf : gset cell) :
  (∀ conf', conf' ∈ given → conf' ⊆ R) →
  conf ∈ GenerateConfigurationSolver.extend_configurations s given invalid →
  conf ⊆ R ∪ cells s.
Proof.
  intros Hgiven. unfold GenerateConfigurationSolver.extend_configurations.
  intros (conf0 & Hconf & Hconf0)%list_elem_of_bind.
  destruct (_ <? 0); [by apply elem_of_nil in Hconf|].
  apply list_elem_of_bind in Hconf as (choice & Hconf & Hchoice).
  apply list_elem_of_singleton in Hconf as ->.
  specialize (Hgiven conf0 Hconf0).
  assert (∀ a, a ∈ choice → a ∈ cells s) as Hch.
  { intros a Ha.
    pose proof (combinations_elem _ _ _ a Hchoice Ha) as Hel.
    apply elem_of_elements in Hel. set_solver. }
  intros c [Hc|Hc]%elem_of_union; [set_solver|].
  apply elem_of_list_to_set in Hc. set_solver.
Qed.

Lemma enumerate_configurations_subset (K : list Sentence) (conf : gset cell) :
  conf ∈ GenerateConfigurationSolver.enumerate_configurations K →
  conf ⊆ referenced K.
Proof.
  unfold GenerateConfigurationSolver.enumerate_configurations.
  assert (∀ K poss inv R,
            (∀ conf', conf' ∈ poss → conf' ⊆ R) →
            ∀ conf', conf' ∈ (foldl
               (fun '(possible_configuration, invalid_cell) sentence =>
                  (GenerateConfigurationSolver.extend_configurations sentence
                     possible_configuration invalid_cell,
                   invalid_cell ∪ cells sentence)) (poss, inv) K).1 →
            conf' ⊆ R ∪ referenced K) as Hgen.
  { clear. induction K as [|s K IH]; intros poss inv R Hposs conf' Hconf'.
    - cbn in Hconf'. specialize (Hposs conf' Hconf').
      intros c Hc. apply elem_of_union. left. by apply Hposs.
    - cbn in Hconf'.
      eapply IH in Hconf'.
      + unfold referenced in *. cbn.
        intros c Hc. apply Hconf' in Hc.
        apply elem_of_union in Hc as [Hc|Hc].
        * apply elem_of_union in Hc as [Hc|Hc].
          -- apply elem_of_union. by left.
          -- apply elem_of_union. right. apply elem_of_union. by left.
        * apply elem_of_union. right. apply elem_of_union. by right.
      + intros conf1 H1. by eapply extend_configurations_subset. }
  intros Hconf. apply (Hgen K [∅] ∅ ∅) in Hconf.
  { intros c Hc. apply Hconf in Hc.
    apply elem_of_union in Hc as [Hc|Hc]; [by apply not_elem_of_empty in Hc|done]. }
  intros conf' ->%list_elem_of_singleton. done.
Qed.

(* --------------------------------------------------------------------- *)
(** ** GenerateConfigurationSolver: marking the certain cells *)
(* --------------------------------------------------------------------- *)

Lemma Sentence_mark_mine_minus (c : cell) (s : Sentence) :
  Sentence.mark_mine c s = minus_mines {[c]} s.
Proof.
  unfold Sentence.mark_mine, minus_mines. case_bool_decide as Hc.
  - f_equal. replace (cells s ∩ {[c]}) with ({[c]} : gset cell) by set_solver.
    rewrite size_singleton. lia.
  - destruct s as [cs n]; cbn in *. f_equal; [set_solver|].
    replace (cs ∩ {[c]}) with (∅ : gset cell) by set_solver.
    rewrite size_empty. lia.
Qed.

Lemma Sentence_mark_safe_minus (c : cell) (s : Sentence) :
  Sentence.mark_safe c s = minus_safes {[c]} s.
Proof.
  unfold Sentence.mark_safe, minus_safes. case_bool_decide as Hc; [done|].
  destruct s as [cs n]; cbn in *. f_equal. set_solver.
Qed.

Lemma minus_mines_union (X Y : gset cell) (s : Sentence) :
  X ## Y → minus_mines Y (minus_mines X s) = minus_mines (X ∪ Y) s.
Proof.
  intros Hd. unfold minus_mines. cbn. f_equal; [set_solver|].
  replace (cells s ∩ (X ∪ Y)) with ((cells s ∩ X) ∪ ((cells s ∖ X) ∩ Y))
    by set_solver.
  rewrite (size_union (cells s ∩ X) ((cells s ∖ X) ∩ Y)) by set_solver. lia.
Qed.

Lemma minus_mines_safes (X Y : gset cell) (s : Sentence) :
  X ## Y → minus_mines Y (minus_safes X s) = minus_safes X (minus_mines Y s).
Proof.
  intros Hd. unfold minus_mines, minus_safes. cbn. f_equal; [set_solver|].
  by replace ((cells s ∖ X) ∩ Y) with (cells s ∩ Y) by set_solver.
Qed.

Lemma minus_safes_union (X Y : gset cell) (s : Sentence) :
  minus_safes Y (minus_safes X s) = minus_safes (X ∪ Y) s.
Proof. unfold minus_safes. cbn. f_equal. set_solver. Qed.


(** The loop over the histogram, for the keys [l] still to visit: the
    cells of count 0 are marked safe, those of count [total] (and not 0) are
    marked as mines, and the flag is set exactly by a safe mark. *)
Lemma GenerateConfiguration_mark_loop (hist : pydict Z) (total : Z)
    (f : cell → Z) (l : list cell) (st : Solver) (found : bool) :
  NoDup l → (∀ c, c ∈ l → Dict.get hist c = Some (f c)) →
  let S := list_to_set (filter (fun c => f c = 0) l) : gset cell in
  let M := list_to_set (filter (fun c => f c ≠ 0 ∧ f c = total) l) : gset cell in
  for_each l (fun '(st, certain_move_found) c =>
      v ← Dict.lookup hist c;
      if v =? 0 then Ok (Solver.mark_safe st c, true)
      else
        if v =? total then Ok (Solver.mark_mine st c, certain_move_found)
        else Ok (st, certain_move_found)) (st, found)
  = Ok (set_knowledge
          (map (fun s => minus_safes S (minus_mines M s)) (knowledge st))
          (set_safes (S ∪ safes st) (set_mines (M ∪ mines st) st)),
        found || negb (bool_decide (S = ∅))).
Proof.
  intros Hl. revert st found.
  induction Hl as [|c l Hc Hl IH]; intros st found Hget S M.
  - subst S M. cbn. rewrite orb_false_r. f_equal. f_equal.
    destruct st as [? ? ? ? ? ? ? K ? ? ?];
      unfold set_knowledge, set_safes, set_mines; cbn. f_equal.
    + set_solver.
    + set_solver.
    + symmetry. erewrite map_ext; [apply map_id|].
      intros [cs n]. unfold minus_safes, minus_mines. cbn.
      f_equal; [set_solver|].
      replace (cs ∩ ∅) with (∅ : gset cell) by set_solver.
      rewrite size_empty. lia.
  - cbn [for_each].
    assert (Dict.lookup hist c = Ok (f c)) as ->.
    { unfold Dict.lookup. rewrite Hget; [done|]. apply elem_of_cons; by left. }
    assert (∀ c', c' ∈ l → Dict.get hist c' = Some (f c')) as Hget'.
    { intros c' Hc'. apply Hget, elem_of_cons. by right. }
    set (S' := list_to_set (filter (fun c => f c = 0) l) : gset cell).
    set (M' := list_to_set (filter (fun c => f c ≠ 0 ∧ f c = total) l)
               : gset cell).
    assert (c ∉ S') as HcS.
    { subst S'. intros [_ ?]%elem_of_list_to_set%list_elem_of_filter. done. }
    assert (c ∉ M') as HcM.
    { subst M'. intros [_ ?]%elem_of_list_to_set%list_elem_of_filter. done. }
    cbn [mbind result_bind].
    destruct (Z.eqb_spec (f c) 0) as [E0|E0].
    + cbn [mbind result_bind]. rewrite (IH _ _ Hget'). fold S' M'.
      assert (S = {[c]} ∪ S') as ->.
      { subst S S'. rewrite filter_cons_True by done. set_solver. }
      assert (M = M') as ->.
      { subst M M'. rewrite filter_cons_False by (intros [? _]; done). done. }
      f_equal. f_equal.
      * destruct st; unfold set_knowledge, set_safes, set_mines,
          Solver.mark_safe; cbn. f_equal; [set_solver|].
        rewrite map_map. apply map_ext. intros s.
        rewrite Sentence_mark_safe_minus.
        rewrite minus_mines_safes by set_solver.
        by rewrite minus_safes_union.
      * rewrite orb_true_l.
        rewrite bool_decide_eq_false_2 by set_solver.
        by rewrite orb_true_r.
    + destruct (Z.eqb_spec (f c) total) as [E1|E1].
      * cbn [mbind result_bind]. rewrite (IH _ _ Hget'). fold S' M'.
        assert (S = S') as ->.
        { subst S S'. by rewrite filter_cons_False. }
        assert (M = {[c]} ∪ M') as ->.
        { subst M M'. rewrite filter_cons_True by done. set_solver. }
        f_equal. f_equal.
        destruct st; unfold set_knowledge, set_safes, set_mines,
          Solver.mark_mine; cbn. f_equal; [set_solver|].
        rewrite map_map. apply map_ext. intros s.
        rewrite Sentence_mark_mine_minus.
        by rewrite minus_mines_union by set_solver.
      * cbn [mbind result_bind]. rewrite (IH _ _ Hget'). fold S' M'.
        assert (S = S') as ->.
        { subst S S'. by rewrite filter_cons_False. }
        assert (M = M') as ->.
        { subst M M'. rewrite filter_cons_False by (intros [_ ?]; done). done. }
        done.
Qed.

(* --------------------------------------------------------------------- *)
(** ** GenerateConfigurationSolver.analyze_knowledge *)
(* --------------------------------------------------------------------- *)

Lemma Dict_min_from_spec (g : cell → Z) (f : cell → result Z) (l : list cell)
    (best : cell) :
  (∀ c, c ∈ best :: l → f c = Ok (g c)) →
  ∃ b, Dict.min_from Z.ltb f best (g best) l = Ok b
       ∧ b ∈ best :: l ∧ ∀ c, c ∈ best :: l → g b ≤ g c.
Proof.
  revert best. induction l as [|k l IH]; intros best Hf.
  - exists best. cbn. split; [done|]. split; [apply elem_of_cons; by left|].
    intros c ->%list_elem_of_singleton. lia.
  - cbn. rewrite (Hf k) by (apply elem_of_cons; right; apply elem_of_cons; by left).
    cbn. destruct (Z.ltb_spec (g k) (g best)) as [Hlt|Hge].
    + destruct (IH k) as (b & Hb & Hin & Hmin).
      { intros c Hc. apply Hf. apply elem_of_cons. right. done. }
      exists b. split; [done|]. split.
      * apply elem_of_cons. right. done.
      * intros c [->|Hc]%elem_of_cons.
        -- specialize (Hmin k ltac:(apply elem_of_cons; by left)). lia.
        -- by apply Hmin.
    + destruct (IH best) as (b & Hb & Hin & Hmin).
      { intros c [->|Hc]%elem_of_cons.
        - apply Hf, elem_of_cons. by left.
        - apply Hf, elem_of_cons. right. apply elem_of_cons. by right. }
      exists b. split; [done|]. split.
      * apply elem_of_cons in Hin as [->|Hin]; [apply elem_of_cons; by left|].
        apply elem_of_cons. right. apply elem_of_cons. by right.
      * intros c [->|[->|Hc]%elem_of_cons]%elem_of_cons.
        -- apply Hmin, elem_of_cons. by left.
        -- specialize (Hmin best ltac:(apply elem_of_cons; by left)). lia.
        -- apply Hmin, elem_of_cons. by right.
Qed.

Lemma Dict_min_spec (d : pydict Z) (R : gset cell) (g : cell → Z) :
  dict_is d R g →
  if bool_decide (R = ∅)
  then Dict.min Z.ltb d (Dict.lookup d) = Raise ValueError
  else ∃ b, Dict.min Z.ltb d (Dict.lookup d) = Ok b
            ∧ b ∈ R ∧ ∀ c, c ∈ R → g b ≤ g c.
Proof.
  intros (Hnd & Hk & Hg). unfold Dict.min.
  assert (∀ c, c ∈ Dict.keys d → Dict.lookup d c = Ok (g c)) as Hl.
  { intros c Hc%Hk. unfold Dict.lookup. by rewrite Hg. }
  destruct (Dict.keys d) as [|k l] eqn:Ek.
  - rewrite bool_decide_eq_true_2; [done|].
    apply set_eq. intros c. rewrite <- Hk. split; [by intros ?%elem_of_nil|].
    by intros ?%not_elem_of_empty.
  - rewrite bool_decide_eq_false_2.
    2:{ intros HR. assert (k ∈ R) as Hin by (apply Hk, elem_of_cons; by left).
        rewrite HR in Hin. by apply not_elem_of_empty in Hin. }
    rewrite Hl by (apply elem_of_cons; by left). cbn.
    destruct (Dict_min_from_spec g (Dict.lookup d) l k Hl)
      as (b & Hb & Hin & Hmin).
    exists b. split; [done|]. split; [by apply Hk|].
    intros c Hc. by apply Hmin, Hk.
Qed.

Lemma appearances_bounds (confs : list (gset cell)) (c : cell) :
  0 ≤ appearances confs c ≤ Z.of_nat (length confs).
Proof.
  unfold appearances. pose proof (length_filter (fun conf => c ∈ conf) confs).
  lia.
Qed.

(** Finding a certain mine does not stop the guess.  With the sentences
    [{(0,0),(1,0)} = 1] and
    [{(0,0),(1,0),(2,0)} = 2] the configurations are {(0,0),(2,0)} and
    {(1,0),(2,0)}: the cell (2,0) is in all of them and is marked as a
    mine, no cell is in none of them, and an uncertain move, (0,1), is
    committed all the same. *)
Lemma GenerateConfiguration_mine_found_and_guess :
  let st := set_moves_made {[(1, 1)]}
              (set_knowledge
                 [Sentence.__init__ {[(0, 0); (1, 0)]} 1;
                  Sentence.__init__ {[(0, 0); (1, 0); (2, 0)]} 2]
                 (Solver.__init__ GenerateConfiguration 3 3 3 true)) in
  let confs := GenerateConfigurationSolver.enumerate_configurations
                 (knowledge st) in
  length confs = 2%nat
  ∧ appearances confs (2, 0) = 2
  ∧ next_uncertain_move st = None
  ∧ ∃ st', GenerateConfigurationSolver.analyze_knowledge (F := Q) st = Ok st'
           ∧ (2, 0) ∈ mines st'
           ∧ next_uncertain_move st' = Some (0, 1).
Proof.
  intros st confs.
  split; [vm_compute; reflexivity|].
  split; [vm_compute; reflexivity|].
  split; [reflexivity|].
  exists (set_next_uncertain_move (Some (0, 1))
            (set_knowledge
               [Sentence.__init__ {[(0, 0); (1, 0)]} 1;
                Sentence.__init__ {[(0, 0); (1, 0)]} 1]
               (set_mines {[(2, 0)]} st))).
  split; [vm_compute; reflexivity|].
  split; [cbn; set_solver|reflexivity].
Qed.

(** The outcome of GenerateConfigurationSolver.analyze_knowledge in terms
    of the enumerated configurations. *)
Lemma GenerateConfiguration_analyze_spec `{PyFloat F} (st : Solver) :
  knowledge st ≠ [] →
  let confs := GenerateConfigurationSolver.enumerate_configurations
                 (knowledge st) in
  let total := Z.of_nat (length confs) in
  let R := referenced (knowledge st) in
  let S := filter (fun c => appearances confs c = 0) R in
  let M := filter (fun c => appearances confs c ≠ 0
                            ∧ appearances confs c = total) R in
  let marked :=
    set_knowledge
      (map (fun s => minus_safes S (minus_mines M s)) (knowledge st))
      (set_safes (S ∪ safes st) (set_mines (M ∪ mines st) st)) in
  ∃ hist,
    GenerateConfigurationSolver.record_appearances
      (GenerateConfigurationSolver.init_histogram (knowledge st)) confs
    = Ok hist
    ∧ dict_is hist R (appearances confs)
    ∧ (S ≠ ∅ → GenerateConfigurationSolver.analyze_knowledge st = Ok marked)
    ∧ (R = ∅ →
       GenerateConfigurationSolver.analyze_knowledge st = Raise ValueError)
    ∧ (S = ∅ → R ≠ ∅ →
       ∃ best risk,
         best ∈ R
         ∧ (∀ c, c ∈ R → appearances confs best ≤ appearances confs c)
         ∧ Fdiv (F_of_Z (appearances confs best)) (F_of_Z total) = Ok risk
         ∧ GenerateConfigurationSolver.analyze_knowledge st
           = Solver.choose_uncertain_move marked best risk hist).
Proof.
  intros HK confs total R S M marked.
  destruct (record_appearances_is confs
              (GenerateConfigurationSolver.init_histogram (knowledge st))
              R (fun _ => 0)) as (hist & Hrec & Hhist0).
  { intros conf Hconf. by apply enumerate_configurations_subset. }
  { apply init_histogram_is. }
  assert (dict_is hist R (appearances confs)) as Hhist.
  { destruct Hhist0 as (Hnd & Hk & Hg). split; [done|]. split; [done|].
    intros c Hc. rewrite Hg by done. f_equal; lia. }
  clear Hhist0. exists hist. split; [done|]. split; [done|].
  assert (GenerateConfigurationSolver.mark_certain hist total st
          = Ok (marked, negb (bool_decide (S = ∅)))) as Hmark.
  { unfold GenerateConfigurationSolver.mark_certain.
    destruct Hhist as (Hnd & Hk & Hg).
    rewrite (GenerateConfiguration_mark_loop hist total (appearances confs)
               (Dict.keys hist) st false Hnd).
    2:{ intros c Hc. by apply Hg, Hk. }
    cbn [orb].
    assert (list_to_set (filter (fun c => appearances confs c = 0)
                                (Dict.keys hist)) = S) as ->.
    { apply set_eq. intros c. subst S.
      by rewrite elem_of_list_to_set, list_elem_of_filter, elem_of_filter, Hk. }
    assert (list_to_set
              (filter (fun c => appearances confs c ≠ 0
                                ∧ appearances confs c = total)
                      (Dict.keys hist)) = M) as ->.
    { apply set_eq. intros c. subst M.
      by rewrite elem_of_list_to_set, list_elem_of_filter, elem_of_filter, Hk. }
    reflexivity. }
  assert (GenerateConfigurationSolver.analyze_knowledge st
          = if bool_decide (S = ∅) then
              best ← Dict.min Z.ltb hist (Dict.lookup hist);
              v ← Dict.lookup hist best;
              risk ← Fdiv (F_of_Z v) (F_of_Z total);
              Solver.choose_uncertain_move marked best risk hist
            else Ok marked) as Han.
  { unfold GenerateConfigurationSolver.analyze_knowledge.
    rewrite bool_decide_eq_false_2.
    2:{ intros Hl. apply HK. by apply nil_length_inv. }
    fold confs. rewrite Hrec. cbn [mbind result_bind]. fold total.
    rewrite Hmark. cbn [mbind result_bind].
    by destruct (bool_decide (S = ∅)). }
  pose proof (Dict_min_spec hist R (appearances confs) Hhist) as Hmin.
  split; [|split].
  - intros HS. rewrite Han. by rewrite bool_decide_eq_false_2.
  - intros HR. rewrite Han.
    rewrite bool_decide_eq_true_2 in Hmin by done.
    rewrite bool_decide_eq_true_2.
    + by rewrite Hmin.
    + subst S. apply set_eq. intros c. rewrite elem_of_filter, HR.
      split; [tauto|]. by intros ?%not_elem_of_empty.
  - intros HS HR. rewrite bool_decide_eq_false_2 in Hmin by done.
    destruct Hmin as (best & Hbest & HbR & Hbmin).
    assert (appearances confs best ≠ 0) as Hne.
    { intros E. assert (best ∈ S) as Hin by (subst S; by apply elem_of_filter).
      rewrite HS in Hin. by apply not_elem_of_empty in Hin. }
    pose proof (appearances_bounds confs best) as Hb.
    destruct (Fdiv_int_ok (appearances confs best) total ltac:(lia))
      as [risk Hrisk].
    exists best, risk. split; [done|]. split; [done|]. split; [done|].
    rewrite Han, bool_decide_eq_true_2 by done.
    rewrite Hbest. cbn [mbind result_bind].
    assert (Dict.lookup hist best = Ok (appearances confs best)) as ->.
    { unfold Dict.lookup. destruct Hhist as (_ & _ & Hg). by rewrite Hg. }
    cbn [mbind result_bind]. rewrite Hrisk. reflexivity.
Qed.

(** What GenerateConfigurationSolver.analyze_knowledge does on a state
    with sentences.  With [R] the cells of the sentences, [S] the cells of
    [R] that are in none of the enumerated configurations and [M] those
    that are in all of them (and in at least one): the histogram maps every
    cell of [R] to its number of appearances; the cells of [S] are marked
    safe and those of [M] are marked as mines; when [S] is not empty that is
    all; when [S] is empty (whether or not [M] is) a cell [best] of least
    appearances is handed, with the risk [appearances / total], to
    choose_uncertain_move, whose outcome is the outcome of the call; without
    any cell in the sentences, [min] raises ValueError. *)
Theorem GenerateConfiguration_analyze_knowledge `{PyFloat F} (st : Solver) :
  knowledge st ≠ [] →
  let confs := GenerateConfigurationSolver.enumerate_configurations
                 (knowledge st) in
  let total := Z.of_nat (length confs) in
  let R := referenced (knowledge st) in
  let S := filter (fun c => appearances confs c = 0) R in
  let M := filter (fun c => appearances confs c ≠ 0
                            ∧ appearances confs c = total) R in
  let marked :=
    set_knowledge
      (map (fun s => minus_safes S (minus_mines M s)) (knowledge st))
      (set_safes (S ∪ safes st) (set_mines (M ∪ mines st) st)) in
  ∃ hist,
    GenerateConfigurationSolver.record_appearances
      (GenerateConfigurationSolver.init_histogram (knowledge st)) confs
    = Ok hist
    ∧ dict_is hist R (appearances confs)
    ∧ (S ≠ ∅ → GenerateConfigurationSolver.analyze_knowledge st = Ok marked)
    ∧ (R = ∅ →
       GenerateConfigurationSolver.analyze_knowledge st = Raise ValueError)
    ∧ (S = ∅ → R ≠ ∅ →
       ∃ best risk,
         best ∈ R
         ∧ (∀ c, c ∈ R → appearances confs best ≤ appearances confs c)
         ∧ Fdiv (F_of_Z (appearances confs best)) (F_of_Z total) = Ok risk
         ∧ GenerateConfigurationSolver.analyze_knowledge st
           = Solver.choose_uncertain_move marked best risk hist).
Proof. apply GenerateConfiguration_analyze_spec. Qed.

Lemma GenerateConfiguration_analyze_knowledge_witness :
  let st := set_moves_made {[(1, 1)]}
              (set_knowledge
                 [Sentence.__init__ {[(0, 0); (1, 0)]} 1;
                  Sentence.__init__ {[(0, 0); (1, 0); (2, 0)]} 2]
                 (Solver.__init__ GenerateConfiguration 3 3 3 true)) in
  ∃ hist,
    GenerateConfigurationSolver.record_appearances
      (GenerateConfigurationSolver.init_histogram (knowledge st))
      (GenerateConfigurationSolver.enumerate_configurations (knowledge st))
    = Ok hist.
Proof.
  intros st.
  destruct (GenerateConfiguration_analyze_knowledge (F := Q) st
              ltac:(discriminate)) as (hist & Hrec & _).
  exists hist. exact Hrec.
Defined.

(* --------------------------------------------------------------------- *)
(** ** Solver.check_sentence *)
(* --------------------------------------------------------------------- *)

Lemma check_sentence_collect_unions (st : Solver) :
  Solver.check_sentence_collect st
  = (⋃ (Sentence.known_safes <$> knowledge st),
     ⋃ (Sentence.known_mines <$> knowledge st)).
Proof.
  unfold Solver.check_sentence_collect.
  assert (∀ K (A B : gset cell),
            foldl (fun '(safe_cell, mine_cell) sentence =>
                     (safe_cell ∪ Sentence.known_safes sentence,
                      mine_cell ∪ Sentence.known_mines sentence)) (A, B) K
            = (A ∪ ⋃ (Sentence.known_safes <$> K),
               B ∪ ⋃ (Sentence.known_mines <$> K))) as Hgen.
  { induction K as [|s K IH]; intros A B; cbn.
    - f_equal; set_solver.
    - rewrite IH. f_equal; set_solver. }
  rewrite Hgen. f_equal; set_solver.
Qed.

Lemma check_sentence_round_spec (st : Solver) :
  let safe_cell := ⋃ (Sentence.known_safes <$> knowledge st) in
  let mine_cell := ⋃ (Sentence.known_mines <$> knowledge st) in
  Solver.check_sentence_round st
  = (set_knowledge
       (map (fun s => minus_mines mine_cell (minus_safes safe_cell s))
            (knowledge st))
       (set_mines (mine_cell ∪ mines st)
          (set_safes (safe_cell ∪ safes st) st)),
     negb (bool_decide (safe_cell = ∅)) || negb (bool_decide (mine_cell = ∅))).
Proof.
  intros safe_cell mine_cell. unfold Solver.check_sentence_round.
  rewrite check_sentence_collect_unions. fold safe_cell mine_cell.
  rewrite Solver_mark_safes, Solver_mark_mines. f_equal.
  destruct st; unfold set_knowledge, set_safes, set_mines; cbn.
  by rewrite map_map.
Qed.

Lemma total_cells_map_le (f : Sentence → Sentence) (K : list Sentence) :
  (∀ s, cells (f s) ⊆ cells s) →
  (Solver.total_cells (map f K) ≤ Solver.total_cells K)%nat.
Proof.
  intros Hf. unfold Solver.total_cells.
  induction K as [|s K IH]; cbn; [done|].
  pose proof (subseteq_size _ _ (Hf s)). lia.
Qed.

Lemma total_cells_map_lt (f : Sentence → Sentence) (K : list Sentence)
    (s : Sentence) :
  (∀ s, cells (f s) ⊆ cells s) → s ∈ K → cells (f s) ⊂ cells s →
  (Solver.total_cells (map f K) < Solver.total_cells K)%nat.
Proof.
  intros Hf Hs Hlt. pose proof (total_cells_map_le f) as Hle.
  unfold Solver.total_cells in *. induction K as [|s' K IH]; cbn.
  - by apply elem_of_nil in Hs.
  - apply elem_of_cons in Hs as [<-|Hs].
    + pose proof (subset_size _ _ Hlt).
      specialize (Hle K Hf). lia.
    + pose proof (subseteq_size _ _ (Hf s')). specialize (IH Hs). lia.
Qed.

Lemma known_safes_subseteq (s : Sentence) : Sentence.known_safes s ⊆ cells s.
Proof. unfold Sentence.known_safes. destruct (_ =? _); set_solver. Qed.

Lemma known_mines_subseteq (s : Sentence) : Sentence.known_mines s ⊆ cells s.
Proof. unfold Sentence.known_mines. destruct (_ =? _); set_solver. Qed.

Lemma minus_cells_subseteq (X Y : gset cell) (s : Sentence) :
  cells (minus_mines X (minus_safes Y s)) ⊆ cells s.
Proof.
  unfold minus_mines, minus_safes. cbn.
  intros c. rewrite !elem_of_difference. tauto.
Qed.

Lemma minus_cells_subset (X Y : gset cell) (s : Sentence) (c : cell) :
  c ∈ cells s → c ∈ Y ∪ X → cells (minus_mines X (minus_safes Y s)) ⊂ cells s.
Proof.
  intros Hc HXY. split; [apply minus_cells_subseteq|].
  intros Hsub. specialize (Hsub c Hc). revert Hsub HXY.
  unfold minus_mines, minus_safes. cbn.
  rewrite !elem_of_difference, elem_of_union. tauto.
Qed.

(** A round that marks a cell removes a cell from some sentence. *)
Lemma check_sentence_round_decreases (st st' : Solver) :
  Solver.check_sentence_round st = (st', true) →
  (Solver.total_cells (knowledge st') < Solver.total_cells (knowledge st))%nat.
Proof.
  rewrite check_sentence_round_spec. cbv zeta.
  set (safe_cell := ⋃ (Sentence.known_safes <$> knowledge st)).
  set (mine_cell := ⋃ (Sentence.known_mines <$> knowledge st)).
  intros [= <- Hmark]. cbn [knowledge set_knowledge].
  assert (∃ (s : Sentence) (c : cell),
            s ∈ knowledge st ∧ c ∈ cells s ∧ c ∈ safe_cell ∪ mine_cell)
    as (s & c & Hs & Hcs & Hc).
  { apply orb_true_iff in Hmark as [Hm|Hm]; apply negb_true_iff in Hm;
      apply bool_decide_eq_false in Hm;
      apply set_choose_L in Hm as [c Hc];
      pose proof Hc as Hc0;
      apply elem_of_union_list in Hc as (X & HX & HcX);
      apply list_elem_of_fmap in HX as (s & -> & Hs);
      exists s, c; split; [done| |done|].
    - split; [by apply known_safes_subseteq|]. apply elem_of_union. by left.
    - split; [by apply known_mines_subseteq|]. apply elem_of_union. by right. }
  apply (total_cells_map_lt _ _ s); [| done |].
  - intros s0. apply minus_cells_subseteq.
  - by apply (minus_cells_subset _ _ _ c).
Qed.

(** A round that marks nothing changes nothing. *)
Lemma check_sentence_round_fixed (st st' : Solver) :
  Solver.check_sentence_round st = (st', false) →
  st' = st
  ∧ Forall (fun s => Sentence.known_safes s = ∅ ∧ Sentence.known_mines s = ∅)
      (knowledge st).
Proof.
  unfold Solver.check_sentence_round.
  rewrite check_sentence_collect_unions.
  set (safe_cell := ⋃ (Sentence.known_safes <$> knowledge st)).
  set (mine_cell := ⋃ (Sentence.known_mines <$> knowledge st)).
  intros [= Hst Hmark].
  apply orb_false_iff in Hmark as [Hs Hm].
  apply negb_false_iff, bool_decide_eq_true in Hs.
  apply negb_false_iff, bool_decide_eq_true in Hm.
  rewrite Hs, Hm, elements_empty in Hst. cbn in Hst. split; [done|].
  apply Forall_forall. intros s Hin. split.
  - apply set_eq. intros c. split; [|by intros ?%not_elem_of_empty].
    intros Hc. rewrite <- Hs. apply elem_of_union_list.
    exists (Sentence.known_safes s). split; [|done].
    apply list_elem_of_fmap. eauto.
  - apply set_eq. intros c. split; [|by intros ?%not_elem_of_empty].
    intros Hc. rewrite <- Hm. apply elem_of_union_list.
    exists (Sentence.known_mines s). split; [|done].
    apply list_elem_of_fmap. eauto.
Qed.

Lemma check_sentence_round_frame (st : Solver) :
  let st' := (Solver.check_sentence_round st).1 in
  mines st ⊆ mines st' ∧ safes st ⊆ safes st'
  ∧ moves_made st' = moves_made st
  ∧ length (knowledge st') = length (knowledge st)
  ∧ next_uncertain_move st' = next_uncertain_move st
  ∧ class st' = class st ∧ width st' = width st ∧ height st' = height st
  ∧ amount_mines st' = amount_mines st ∧ guess st' = guess st.
Proof.
  rewrite check_sentence_round_spec. cbn.
  rewrite length_map. repeat split; try done; set_solver.
Qed.

Lemma check_sentence_loop_spec (fuel : nat) (st : Solver) :
  (Solver.total_cells (knowledge st) < fuel)%nat →
  ∃ st',
    Solver.check_sentence_loop fuel st = Ok st'
    ∧ Forall (fun s => Sentence.known_safes s = ∅ ∧ Sentence.known_mines s = ∅)
        (knowledge st')
    ∧ mines st ⊆ mines st' ∧ safes st ⊆ safes st'
    ∧ moves_made st' = moves_made st
    ∧ length (knowledge st') = length (knowledge st)
    ∧ next_uncertain_move st' = next_uncertain_move st
    ∧ class st' = class st ∧ width st' = width st ∧ height st' = height st
    ∧ amount_mines st' = amount_mines st ∧ guess st' = guess st.
Proof.
  revert st. induction fuel as [|fuel IH]; intros st Hfuel; [lia|].
  cbn [Solver.check_sentence_loop].
  pose proof (check_sentence_round_frame st) as Hframe. cbv zeta in Hframe.
  destruct (Solver.check_sentence_round st) as [st1 mark_cell] eqn:Hround.
  cbn [fst] in Hframe. destruct mark_cell.
  - pose proof (check_sentence_round_decreases _ _ Hround) as Hdec.
    destruct (IH st1 ltac:(lia)) as (st' & Hloop & Hpost & Hrest).
    exists st'. split; [done|]. split; [done|].
    destruct Hframe as (? & ? & ? & ? & ? & ? & ? & ? & ? & ?).
    destruct Hrest as (? & ? & ? & ? & ? & ? & ? & ? & ? & ?).
    repeat split; try congruence; set_solver.
  - destruct (check_sentence_round_fixed _ _ Hround) as [-> Hpost].
    exists st. split; [done|]. split; [done|]. repeat split; done.
Qed.

(** check_sentence always returns: the loop runs at most once per cell
    occurrence in the knowledge and once more.  On return no sentence is
    left that identifies a cell by itself: no sentence with cells has count
    0 or as many cells as its count.  The known sets only grow, no sentence
    is added or deleted, and nothing else of the solver changes. *)
Theorem check_sentence_returns (st : Solver) :
  ∃ st',
    Solver.check_sentence st = Ok st'
    ∧ Forall (fun s => Sentence.known_safes s = ∅ ∧ Sentence.known_mines s = ∅)
        (knowledge st')
    ∧ mines st ⊆ mines st' ∧ safes st ⊆ safes st'
    ∧ moves_made st' = moves_made st
    ∧ length (knowledge st') = length (knowledge st)
    ∧ next_uncertain_move st' = next_uncertain_move st
    ∧ class st' = class st ∧ width st' = width st ∧ height st' = height st
    ∧ amount_mines st' = amount_mines st ∧ guess st' = guess st.
Proof. apply check_sentence_loop_spec. lia. Qed.

(* --------------------------------------------------------------------- *)
(** ** Soundness of the deductions *)
(* --------------------------------------------------------------------- *)

Lemma size_difference_subseteq (X Y : gset cell) :
  Y ⊆ X → size (X ∖ Y) = (size X - size Y)%nat.
Proof.
  intros H. rewrite (size_difference X Y H). done.
Qed.

Lemma holds_minus_mines (T X : gset cell) (s : Sentence) :
  X ⊆ T → holds T s → holds T (minus_mines X s).
Proof.
  unfold holds, minus_mines. cbn. intros HX Hs.
  replace ((cells s ∖ X) ∩ T) with ((cells s ∩ T) ∖ (cells s ∩ X)).
  2:{ apply set_eq. intros c.
      rewrite !elem_of_difference, !elem_of_intersection, elem_of_difference.
      specialize (HX c). tauto. }
  rewrite size_difference_subseteq.
  2:{ intros c. rewrite !elem_of_intersection. specialize (HX c). tauto. }
  assert (size (cells s ∩ X) ≤ size (cells s ∩ T))%nat.
  { apply subseteq_size. intros c. rewrite !elem_of_intersection.
    specialize (HX c). tauto. }
  lia.
Qed.

Lemma holds_minus_safes (T X : gset cell) (s : Sentence) :
  X ## T → holds T s → holds T (minus_safes X s).
Proof.
  unfold holds, minus_safes. cbn. intros HX Hs.
  replace ((cells s ∖ X) ∩ T) with (cells s ∩ T); [done|].
  apply set_eq. intros c.
  rewrite !elem_of_intersection, elem_of_difference.
  specialize (HX c). tauto.
Qed.

Lemma holds_known_mines (T : gset cell) (s : Sentence) :
  holds T s → Sentence.known_mines s ⊆ T.
Proof.
  unfold holds, Sentence.known_mines. intros Hs.
  destruct (Z.eqb_spec (Z.of_nat (size (cells s))) (count s)) as [E|E];
    [|intros c ?%not_elem_of_empty; done].
  assert (cells s ∩ T = cells s) as Heq.
  { apply set_subseteq_size_eq.
    - intros c. rewrite elem_of_intersection. tauto.
    - lia. }
  intros c Hc. rewrite <- Heq in Hc. apply elem_of_intersection in Hc. tauto.
Qed.

Lemma holds_known_safes (T : gset cell) (s : Sentence) :
  holds T s → Sentence.known_safes s ## T.
Proof.
  unfold holds, Sentence.known_safes. intros Hs.
  destruct (Z.eqb_spec (count s) 0) as [E|E];
    [|intros c ?%not_elem_of_empty; done].
  assert (cells s ∩ T = ∅) as Heq.
  { apply leibniz_equiv, size_empty_iff. lia. }
  intros c Hc HT. assert (c ∈ cells s ∩ T) as Hin
    by (apply elem_of_intersection; done).
  rewrite Heq in Hin. by apply not_elem_of_empty in Hin.
Qed.

Lemma sound_mark_mines (T X : gset cell) (st : Solver) :
  X ⊆ T → sound T st → sound T (foldl Solver.mark_mine st (elements X)).
Proof.
  intros HX (HK & Hm & Hs). rewrite Solver_mark_mines.
  split; [|split]; cbn.
  - apply Forall_forall. intros s' (s & -> & Hin)%list_elem_of_fmap.
    apply holds_minus_mines; [done|].
    by apply (proj1 (Forall_forall _ _) HK).
  - intros c [?|?]%elem_of_union; auto.
  - done.
Qed.

Lemma sound_mark_safes (T X : gset cell) (st : Solver) :
  X ## T → sound T st → sound T (foldl Solver.mark_safe st (elements X)).
Proof.
  intros HX (HK & Hm & Hs). rewrite Solver_mark_safes.
  split; [|split]; cbn.
  - apply Forall_forall. intros s' (s & -> & Hin)%list_elem_of_fmap.
    apply holds_minus_safes; [done|].
    by apply (proj1 (Forall_forall _ _) HK).
  - done.
  - intros c [?|?]%elem_of_union; [by apply (HX c)|by apply (Hs c)].
Qed.

Lemma sound_mark_mine (T : gset cell) (st : Solver) (c : cell) :
  c ∈ T → sound T st → sound T (Solver.mark_mine st c).
Proof.
  intros Hc Hst.
  pose proof (sound_mark_mines T {[c]} st) as H.
  rewrite elements_singleton in H. cbn in H. apply H; [|done].
  by intros c' ->%elem_of_singleton.
Qed.

Lemma sound_mark_safe (T : gset cell) (st : Solver) (c : cell) :
  c ∉ T → sound T st → sound T (Solver.mark_safe st c).
Proof.
  intros Hc Hst.
  pose proof (sound_mark_safes T {[c]} st) as H.
  rewrite elements_singleton in H. cbn in H. apply H; [|done].
  intros c' ->%elem_of_singleton. done.
Qed.

Lemma sound_check_sentence_round (T : gset cell) (st : Solver) :
  sound T st → sound T (Solver.check_sentence_round st).1.
Proof.
  intros Hst. unfold Solver.check_sentence_round.
  rewrite check_sentence_collect_unions. cbn [fst].
  pose proof Hst as (HK & _ & _).
  apply sound_mark_mines.
  - intros c (X & (s & -> & Hs)%list_elem_of_fmap & Hc)%elem_of_union_list.
    apply (holds_known_mines T s); [|done].
    by apply (proj1 (Forall_forall _ _) HK).
  - apply sound_mark_safes; [|done].
    intros c (X & (s & -> & Hs)%list_elem_of_fmap & Hc)%elem_of_union_list.
    apply (holds_known_safes T s); [|done].
    by apply (proj1 (Forall_forall _ _) HK).
Qed.

Lemma sound_check_sentence_loop (T : gset cell) (fuel : nat) (st st' : Solver) :
  sound T st → Solver.check_sentence_loop fuel st = Ok st' → sound T st'.
Proof.
  revert st. induction fuel as [|fuel IH]; intros st Hst; cbn; [done|].
  pose proof (sound_check_sentence_round T st Hst) as Hround.
  destruct (Solver.check_sentence_round st) as [st1 mark_cell].
  cbn in Hround. destruct mark_cell.
  - by apply IH.
  - by intros [= <-].
Qed.

(** check_sentence only draws true conclusions: from a state that is sound
    for the mines [T] of a board it returns a state that is sound for [T]. *)
Theorem check_sentence_sound (T : gset cell) (st : Solver) :
  sound T st →
  ∃ st', Solver.check_sentence st = Ok st' ∧ sound T st'.
Proof.
  intros Hst.
  destruct (check_sentence_loop_spec
              (S (Solver.total_cells (knowledge st))) st ltac:(lia))
    as (st' & Hst' & _).
  exists st'. split; [done|].
  by apply (sound_check_sentence_loop T _ st st' Hst Hst').
Qed.

(* --------------------------------------------------------------------- *)
(** ** Indices that were accepted *)
(* --------------------------------------------------------------------- *)

Lemma norm_index_Ok (n : nat) (i : Z) (j : nat) :
  norm_index n i = Ok j →
  (j < n)%nat ∧ (0 ≤ i → i = Z.of_nat j).
Proof.
  unfold norm_index.
  destruct (Z.leb_spec 0 i) as [Hi|Hi]; cbv zeta.
  - rewrite (proj2 (Z.leb_le 0 i)) by lia.
    destruct (Z.ltb_spec i (Z.of_nat n)) as [Hn|Hn]; cbn; [|discriminate].
    intros [= <-]. split; lia.
  - destruct (Z.leb_spec 0 (Z.of_nat n + i)) as [H0|H0]; cbn; [|discriminate].
    destruct (Z.ltb_spec (Z.of_nat n + i) (Z.of_nat n)) as [Hn|Hn];
      cbn; [|discriminate].
    intros [= <-]. split; lia.
Qed.

Lemma py_index_Ok {A} (l : list A) (i : Z) (a : A) :
  py_index l i = Ok a →
  ∃ j, norm_index (length l) i = Ok j ∧ l !! j = Some a.
Proof.
  unfold py_index. destruct (norm_index (length l) i) as [j| |] eqn:E;
    cbn; try discriminate.
  destruct (l !! j) as [a'|] eqn:El; [|discriminate].
  intros [= <-]. eauto.
Qed.

Lemma py_index_Ok_nat {A} (l : list A) (i : Z) (a : A) :
  0 ≤ i → py_index l i = Ok a →
  l !! Z.to_nat i = Some a ∧ i = Z.of_nat (Z.to_nat i).
Proof.
  intros Hi (j & Hj & Hl)%py_index_Ok.
  apply norm_index_Ok in Hj as [_ Hj]. specialize (Hj Hi). subst i.
  by rewrite Nat2Z.id.
Qed.

Lemma py_index_elem {A} (l : list A) (i : Z) (a : A) :
  py_index l i = Ok a → a ∈ l.
Proof.
  intros (j & _ & Hl)%py_index_Ok. by eapply list_elem_of_lookup_2.
Qed.

Lemma py_update_Forall {A} (P : A → Prop) (l l' : list A) (i : Z) (f : A → A)
    (a : A) :
  py_index l i = Ok a → py_update l i f = Ok l' → P (f a) →
  Forall P l → Forall P l'.
Proof.
  intros (j & Hj & Hl)%py_index_Ok. unfold py_update. rewrite Hj. cbn.
  intros [= <-] Hfa HP.
  apply Forall_lookup. intros k b Hb.
  destruct (decide (k = j)) as [->|Hne].
  - rewrite list_lookup_alter_eq, Hl in Hb. cbn in Hb. by injection Hb as <-.
  - rewrite list_lookup_alter_ne in Hb by done.
    by apply (proj1 (Forall_lookup _ _) HP k).
Qed.

Lemma py_del_Forall {A} (P : A → Prop) (l l' : list A) (i : Z) :
  py_del l i = Ok l' → Forall P l → Forall P l'.
Proof.
  unfold py_del. destruct (norm_index (length l) i) as [j| |]; cbn;
    try discriminate.
  intros [= <-] HP. by apply Forall_delete.
Qed.

Lemma for_each_py_del_Forall {A} (P : A → Prop) (ps : list Z) (l l' : list A) :
  for_each ps (fun K pos => py_del K pos) l = Ok l' → Forall P l → Forall P l'.
Proof.
  intros Hfe HP.
  apply (for_each_inv (Forall P) ps (fun K pos => py_del K pos) l l');
    [done| |done].
  intros K pos K' HK Hdel. by apply (py_del_Forall P K K' pos).
Qed.

Lemma range_elem (lo hi i : Z) : i ∈ range lo hi → lo ≤ i < hi.
Proof.
  unfold range. intros (k & -> & Hk)%list_elem_of_fmap.
  apply list_elem_of_In, in_seq in Hk. lia.
Qed.

(** A loop keeps an invariant that its body keeps on the values it is run
    on. *)
Lemma for_each_inv_elem {S A} (P : S → Prop) (l : list A)
    (body : S → A → result S) (s s' : S) :
  P s →
  (∀ s a s', a ∈ l → P s → body s a = Ok s' → P s') →
  for_each l body s = Ok s' → P s'.
Proof.
  revert s. induction l as [|a l IH]; intros s Hs Hpres; cbn.
  - by intros [= <-].
  - destruct (body s a) as [s1| |] eqn:E; cbn; try discriminate.
    apply IH.
    + apply (Hpres s a s1); [apply elem_of_cons; by left|done..].
    + intros s2 b s3 Hb. apply Hpres. apply elem_of_cons. by right.
Qed.

(* --------------------------------------------------------------------- *)
(** ** Soundness of the set-based derivations *)
(* --------------------------------------------------------------------- *)

Lemma holds_difference (T : gset cell) (s1 s2 : Sentence) :
  holds T s1 → holds T s2 → cells s2 ⊆ cells s1 →
  holds T {| cells := cells s1 ∖ cells s2; count := count s1 - count s2 |}.
Proof.
  unfold holds. cbn. intros H1 H2 Hsub.
  replace ((cells s1 ∖ cells s2) ∩ T)
    with ((cells s1 ∩ T) ∖ (cells s2 ∩ T)).
  2:{ apply set_eq. intros c.
      rewrite !elem_of_difference, !elem_of_intersection, elem_of_difference.
      tauto. }
  rewrite size_difference_subseteq.
  2:{ intros c. rewrite !elem_of_intersection. specialize (Hsub c). tauto. }
  assert (size (cells s2 ∩ T) ≤ size (cells s1 ∩ T))%nat.
  { apply subseteq_size. intros c. rewrite !elem_of_intersection.
    specialize (Hsub c). tauto. }
  lia.
Qed.

Lemma complement_pair_holds (T : gset cell) (K K' : list Sentence) (i j : Z) :
  SetBasedSolver.complement_pair K i j = Ok K' →
  Forall (holds T) K → Forall (holds T) K'.
Proof.
  unfold SetBasedSolver.complement_pair. intros Hpair HK.
  destruct (py_index K i) as [s1| |] eqn:E1; cbn in Hpair; try discriminate.
  destruct (py_index K j) as [s2| |] eqn:E2; cbn in Hpair; try discriminate.
  assert (∃ K1, (if (count s2 <=? count s1) && bool_decide (cells s2 ⊆ cells s1)
                 then py_update K i (fun s1 =>
                        {| cells := cells s1 ∖ cells s2;
                           count := count s1 - count s2 |})
                 else Ok K) = Ok K1 ∧ Forall (holds T) K1) as (K1 & HK1 & HF1).
  { destruct (_ && _) eqn:Et.
    - destruct (py_update K i _) as [K1| |] eqn:Eu; cbn in Hpair;
        try discriminate.
      exists K1. split; [done|].
      apply andb_true_iff in Et as [_ Hsub%bool_decide_eq_true].
      apply (py_update_Forall _ _ _ _ _ _ E1 Eu); [|done].
      apply holds_difference; [| |done].
      + apply (proj1 (Forall_forall _ _) HK). by eapply py_index_elem.
      + apply (proj1 (Forall_forall _ _) HK). by eapply py_index_elem.
    - exists K. done. }
  rewrite HK1 in Hpair. cbn in Hpair. clear HK1 E1 E2 s1 s2.
  destruct (py_index K1 i) as [s1| |] eqn:E1; cbn in Hpair; try discriminate.
  destruct (py_index K1 j) as [s2| |] eqn:E2; cbn in Hpair; try discriminate.
  destruct (_ && _) eqn:Et.
  - apply andb_true_iff in Et as [_ Hsub%bool_decide_eq_true].
    apply (py_update_Forall _ _ _ _ _ _ E2 Hpair); [|done].
    apply holds_difference; [| |done].
    + apply (proj1 (Forall_forall _ _) HF1). by eapply py_index_elem.
    + apply (proj1 (Forall_forall _ _) HF1). by eapply py_index_elem.
  - by injection Hpair as <-.
Qed.

(** add_complement_sentence keeps the sentences true: when both sentences
    of a pair are true of the mines, so is the difference it derives. *)
Lemma add_complement_sentence_keeps_sound (T : gset cell) (st st' : Solver) :
  sound T st → SetBasedSolver.add_complement_sentence st = Ok st' →
  sound T st'.
Proof.
  intros (HK & Hm & Hs). unfold SetBasedSolver.add_complement_sentence.
  destruct (for_each _ _ _) as [K'| |] eqn:E; cbn; try discriminate.
  intros [= <-]. split; [|done]. cbn.
  revert E. apply for_each_inv; [done|].
  intros K i K1 HKi. apply for_each_inv; [done|].
  intros K2 j K3 HK2 Hp. by apply (complement_pair_holds T K2 K3 i j).
Qed.

(* --------------------------------------------------------------------- *)
(** ** Deleting positions, highest first *)
(* --------------------------------------------------------------------- *)

(** A loop returns, in a state of the invariant, when its body does so on
    the values it is run on. *)
Lemma for_each_returns {S A} (P : S → Prop) (l : list A)
    (body : S → A → result S) (s : S) :
  P s →
  (∀ s a, a ∈ l → P s → ∃ s', body s a = Ok s' ∧ P s') →
  ∃ s', for_each l body s = Ok s' ∧ P s'.
Proof.
  revert s. induction l as [|a l IH]; intros s Hs Hb; cbn.
  - eauto.
  - destruct (Hb s a) as (s1 & E & H1); [apply elem_of_cons; by left|done|].
    rewrite E. cbn. apply IH; [done|].
    intros s2 b Hb2. apply Hb. apply elem_of_cons. by right.
Qed.

Lemma without_positions_none {A} (D : gset Z) (i : Z) (l : list A) :
  (∀ d, d ∈ D → d < i) → without_positions D i l = l.
Proof.
  revert i. induction l as [|a l IH]; intros i HD; cbn; [done|].
  rewrite bool_decide_eq_false_2.
  - f_equal. apply IH. intros d Hd. specialize (HD d Hd). lia.
  - intros Hi. specialize (HD i Hi). lia.
Qed.

Lemma without_positions_delete {A} (D : gset Z) (i : Z) (n : nat) (l : list A) :
  (∀ d, d ∈ D → d < i + Z.of_nat n) →
  without_positions D i (delete n l)
  = without_positions ({[i + Z.of_nat n]} ∪ D) i l.
Proof.
  revert i n. induction l as [|a l IH]; intros i n HD; [done|].
  destruct n as [|n].
  - cbn. rewrite bool_decide_eq_true_2.
    2:{ apply elem_of_union. left. apply elem_of_singleton. lia. }
    rewrite !without_positions_none; [done| |].
    + intros d [->%elem_of_singleton|Hd]%elem_of_union; [lia|].
      specialize (HD d Hd). lia.
    + intros d Hd. specialize (HD d Hd). lia.
  - cbn.
    assert (bool_decide (i ∈ {[i + Z.of_nat (S n)]} ∪ D) = bool_decide (i ∈ D))
      as ->.
    { apply bool_decide_ext. rewrite elem_of_union, elem_of_singleton.
      split; [intros [?|?]; [lia|done]|tauto]. }
    replace (i + Z.of_nat (S n)) with (i + 1 + Z.of_nat n) by lia.
    rewrite <- IH.
    + done.
    + intros d Hd. specialize (HD d Hd). lia.
Qed.

(** Deleting a strictly descending list of positions of a list, one after
    the other, deletes the elements that stood at these positions. *)
Lemma delete_descending {A} (ds : list Z) (K : list A) :
  StronglySorted (fun a b => b < a) ds →
  Forall (fun d => 0 ≤ d < Z.of_nat (length K)) ds →
  for_each ds (fun K pos => py_del K pos) K
  = Ok (without_positions (list_to_set ds) 0 K).
Proof.
  intros Hs. revert K. induction Hs as [|d ds Hs IH Hd]; intros K Hr; cbn.
  - rewrite without_positions_none; [done|].
    intros d Hd. by apply not_elem_of_empty in Hd.
  - apply Forall_cons in Hr as [Hd0 Hr].
    assert (py_del K d = Ok (delete (Z.to_nat d) K)) as ->.
    { rewrite <- (py_del_nat K (Z.to_nat d)) by lia. f_equal. lia. }
    cbn. rewrite IH.
    + f_equal. rewrite without_positions_delete.
      * f_equal. f_equal. f_equal. lia.
      * intros d' Hd'%elem_of_list_to_set.
        pose proof (proj1 (Forall_forall _ _) Hd d' Hd'). cbn in *. lia.
    + apply Forall_forall. intros d' Hd'.
      pose proof (proj1 (Forall_forall _ _) Hd d' Hd') as H1.
      pose proof (proj1 (Forall_forall _ _) Hr d' Hd') as H2.
      cbn in H1, H2. rewrite length_delete.
      * lia.
      * apply lookup_lt_is_Some. lia.
Qed.

Lemma sorted_reverse_spec (D : gset Z) :
  StronglySorted (fun a b => b < a) (sorted_reverse D)
  ∧ list_to_set (sorted_reverse D) = D.
Proof.
  unfold sorted_reverse.
  assert (Transitive (flip Z.le)) as Htr by (intros a b c; unfold flip; lia).
  assert (Total (flip Z.le)) as Htot by (intros a b; unfold flip; lia).
  pose proof (StronglySorted_merge_sort (flip Z.le) (elements D)) as Hs.
  pose proof (merge_sort_Permutation (flip Z.le) (elements D)) as Hp.
  assert (NoDup (merge_sort (flip Z.le) (elements D))) as Hnd.
  { rewrite Hp. apply NoDup_elements. }
  split.
  - clear Hp. induction Hs as [|d ds Hs IH Hd]; [constructor|].
    apply NoDup_cons in Hnd as [Hnin Hnd].
    constructor; [by apply IH|].
    apply Forall_forall. intros b Hb.
    pose proof (proj1 (Forall_forall _ _) Hd b Hb) as Hle. unfold flip in Hle.
    assert (b ≠ d) by (intros ->; done). lia.
  - apply set_eq. intros d.
    by rewrite elem_of_list_to_set, Hp, elem_of_elements.
Qed.

(** The deletion loop that ends remove_duplicated_sentence and
    add_intersection_sentence: [for pos in sorted(D, reverse = True): del
    K[pos]]. *)
Lemma delete_sorted_reverse {A} (D : gset Z) (K : list A) :
  (∀ d, d ∈ D → 0 ≤ d < Z.of_nat (length K)) →
  for_each (sorted_reverse D) (fun K pos => py_del K pos) K
  = Ok (without_positions D 0 K).
Proof.
  intros HD. destruct (sorted_reverse_spec D) as [Hs Hset].
  rewrite delete_descending; [by rewrite Hset|done|].
  apply Forall_forall. intros d Hd. apply HD.
  rewrite <- Hset. by apply elem_of_list_to_set.
Qed.

(* --------------------------------------------------------------------- *)
(** ** Solver.remove_duplicated_sentence *)
(* --------------------------------------------------------------------- *)

Lemma Sentence_eq_spec (s1 s2 : Sentence) :
  Sentence.__eq__ s1 s2 = bool_decide (s1 = s2).
Proof.
  unfold Sentence.__eq__. destruct s1 as [c1 n1], s2 as [c2 n2]; cbn.
  case_bool_decide as Hc; cbn.
  - destruct (Z.eqb_spec n1 n2) as [Hn|Hn].
    + subst. by rewrite bool_decide_eq_true_2.
    + rewrite bool_decide_eq_false_2; [done|]. by intros [= _ ?].
  - rewrite bool_decide_eq_false_2; [done|]. by intros [= ? _].
Qed.

Lemma first_occurrences_spec {A} `{EqDecision A} (seen l : list A) :
  (∀ a, a ∈ first_occurrences seen l ↔ a ∈ l ∧ a ∉ seen)
  ∧ NoDup (first_occurrences seen l).
Proof.
  revert seen. induction l as [|b l IH]; intros seen; cbn.
  - split; [|constructor]. intros a. split.
    + by intros ?%elem_of_nil.
    + by intros [?%elem_of_nil _].
  - destruct (IH (seen ++ [b])) as [Hin Hnd].
    case_bool_decide as Hb.
    + split; [|done]. intros a. rewrite Hin, elem_of_cons, elem_of_app,
        list_elem_of_singleton.
      split.
      * intros [? ?]. split; [by right|tauto].
      * intros [[->|?] ?]; [done|]. split; [done|].
        intros [?| ->]; done.
    + split.
      * intros a. rewrite !elem_of_cons, Hin, elem_of_app,
          list_elem_of_singleton.
        destruct (decide (a = b)) as [->|Hne]; [tauto|]. tauto.
      * constructor; [|done]. rewrite Hin, elem_of_app, list_elem_of_singleton.
        tauto.
Qed.

Lemma first_occurrences_sublist {A} `{EqDecision A} (seen l : list A) :
  first_occurrences seen l `sublist_of` l.
Proof.
  revert seen. induction l as [|a l IH]; intros seen; cbn; [done|].
  case_bool_decide.
  - apply sublist_cons. apply IH.
  - apply sublist_skip. apply IH.
Qed.

Lemma without_positions_first {A} `{EqDecision A} (K pre l : list A)
    (D : gset Z) :
  K = pre ++ l →
  (∀ (j : nat) a, K !! j = Some a → (length pre ≤ j)%nat →
                  (Z.of_nat j ∈ D ↔ a ∈ take j K)) →
  without_positions D (Z.of_nat (length pre)) l = first_occurrences pre l.
Proof.
  revert pre. induction l as [|a l IH]; intros pre HK HD; cbn; [done|].
  assert (Z.of_nat (length pre) ∈ D ↔ a ∈ pre) as Ha.
  { rewrite (HD (length pre) a); [|by rewrite HK, list_lookup_middle|done].
    by rewrite HK, take_app_length. }
  rewrite (bool_decide_ext _ _ Ha).
  specialize (IH (pre ++ [a])).
  rewrite length_app, Nat.add_1_r, Nat2Z.inj_succ in IH.
  unfold Z.succ in IH. rewrite IH.
  - done.
  - by rewrite <- app_assoc.
  - intros j b Hj Hle. apply HD; [done|lia].
Qed.

Lemma duplicated_scan (K : list Sentence) (pairs : list (Z * Z)) (pos : gset Z) :
  Forall (fun p => 0 ≤ p.1 < Z.of_nat (length K)
                   ∧ 0 ≤ p.2 < Z.of_nat (length K)) pairs →
  for_each pairs
    (fun pos '(i, j) =>
       si ← py_index K i;
       sj ← py_index K j;
       if Sentence.__eq__ si sj then Ok ({[j]} ∪ pos) else Ok pos) pos
  = Ok (list_to_set
          (map snd (filter (fun p => K !! Z.to_nat p.1 = K !! Z.to_nat p.2) pairs))
        ∪ pos).
Proof.
  intros Hp. revert pos. induction Hp as [|[i j] pairs [Hi Hj] Hp IH];
    intros pos.
  - cbn. f_equal. set_solver.
  - cbn [for_each]. cbn in Hi, Hj.
    destruct (lookup_lt_is_Some_2 K (Z.to_nat i) ltac:(lia)) as [si Hsi].
    destruct (lookup_lt_is_Some_2 K (Z.to_nat j) ltac:(lia)) as [sj Hsj].
    assert (py_index K i = Ok si) as ->.
    { rewrite <- (py_index_nat K (Z.to_nat i) si Hsi). f_equal. lia. }
    assert (py_index K j = Ok sj) as ->.
    { rewrite <- (py_index_nat K (Z.to_nat j) sj Hsj). f_equal. lia. }
    cbn [mbind result_bind]. rewrite Sentence_eq_spec, filter_cons.
    cbn [fst snd]. rewrite Hsi, Hsj.
    case_bool_decide as E.
    + subst sj. rewrite decide_True by done. cbn [mbind result_bind].
      rewrite IH. f_equal. cbn [map snd list_to_set]. set_solver.
    + rewrite decide_False by (intros [= ?]; done). cbn [mbind result_bind].
      by rewrite IH.
Qed.

(** remove_duplicated_sentence never raises and keeps of every sentence its
    first occurrence. *)
Lemma remove_duplicated_sentence_first (st : Solver) :
  Solver.remove_duplicated_sentence st
  = Ok (set_knowledge (first_occurrences [] (knowledge st)) st).
Proof.
  unfold Solver.remove_duplicated_sentence. cbv zeta.
  set (K := knowledge st). set (n := Z.of_nat (length K)).
  rewrite (for_each_nested (range 0 (n - 1)) (fun i => range (i + 1) n)
             (fun pos i j =>
                si ← py_index K i;
                sj ← py_index K j;
                if Sentence.__eq__ si sj then Ok ({[j]} ∪ pos) else Ok pos)).
  set (pairs := i ← range 0 (n - 1); j ← range (i + 1) n; [(i, j)]).
  assert (∀ i j, (i, j) ∈ pairs ↔ 0 ≤ i < n - 1 ∧ i + 1 ≤ j < n) as Hpairs.
  { intros i j. subst pairs. rewrite list_elem_of_bind. split.
    - intros (i' & (j' & Hij & Hj)%list_elem_of_bind & Hi).
      apply list_elem_of_singleton in Hij. injection Hij as -> ->.
      apply range_elem in Hi, Hj. lia.
    - intros [Hi Hj]. exists i. split.
      + apply list_elem_of_bind. exists j. split; [by apply list_elem_of_singleton|].
        unfold range. apply list_elem_of_fmap.
        exists (Z.to_nat (j - (i + 1))). split; [lia|].
        apply list_elem_of_In, in_seq. lia.
      + unfold range. apply list_elem_of_fmap.
        exists (Z.to_nat i). split; [lia|].
        apply list_elem_of_In, in_seq. lia. }
  rewrite duplicated_scan.
  2:{ apply Forall_forall. intros [i j] Hij%Hpairs. cbn. subst n. lia. }
  cbn [mbind result_bind].
  set (D := list_to_set _ ∪ ∅).
  assert (∀ j, j ∈ D ↔ ∃ i, 0 ≤ i < n - 1 ∧ i + 1 ≤ j < n
                           ∧ K !! Z.to_nat i = K !! Z.to_nat j) as HD.
  { intros j. subst D. rewrite elem_of_union, elem_of_list_to_set,
      list_elem_of_fmap. split.
    - intros [([i j'] & -> & [Heq Hin%Hpairs]%list_elem_of_filter)|H0];
        [|by apply not_elem_of_empty in H0].
      cbn in *. exists i. tauto.
    - intros (i & Hi & Hj & Heq). left. exists (i, j). split; [done|].
      apply list_elem_of_filter. split; [done|]. apply Hpairs. done. }
  rewrite delete_sorted_reverse.
  2:{ intros d (i & Hi & Hj & _)%HD. subst n. lia. }
  cbn [mbind result_bind]. do 2 f_equal.
  apply (without_positions_first K [] K D); [done|].
  intros j s Hj _. rewrite HD. pose proof (lookup_lt_Some _ _ _ Hj) as Hlt.
  split.
  - intros (i & Hi & Hij & Heq). rewrite Nat2Z.id, Hj in Heq.
    apply list_elem_of_lookup. exists (Z.to_nat i).
    rewrite lookup_take_lt by lia. done.
  - intros (i & Hi)%list_elem_of_lookup.
    pose proof (lookup_lt_Some _ _ _ Hi) as Hlt'.
    rewrite length_take in Hlt'.
    rewrite lookup_take_lt in Hi by lia.
    exists (Z.of_nat i). subst n. rewrite !Nat2Z.id, Hi, Hj.
    split; [lia|]. split; [lia|done].
Qed.

(** remove_duplicated_sentence never raises.  It keeps of every sentence
    its first occurrence, in the order of the list: afterwards no two
    sentences of the knowledge are equal, and the sentences are those of
    before.  Nothing else of the solver changes. *)
Theorem remove_duplicated_sentence_spec (st : Solver) :
  ∃ K',
    Solver.remove_duplicated_sentence st = Ok (set_knowledge K' st)
    ∧ K' = first_occurrences [] (knowledge st)
    ∧ NoDup K'
    ∧ K' `sublist_of` knowledge st
    ∧ ∀ s, s ∈ K' ↔ s ∈ knowledge st.
Proof.
  exists (first_occurrences [] (knowledge st)).
  split; [apply remove_duplicated_sentence_first|]. split; [done|].
  destruct (first_occurrences_spec [] (knowledge st)) as [Hin Hnd].
  split; [done|]. split.
  - apply first_occurrences_sublist.
  - intros s. rewrite Hin. split; [tauto|]. intros ?. split; [done|].
    by intros ?%elem_of_nil.
Qed.

(* --------------------------------------------------------------------- *)
(** ** The set-based derivations never raise and only draw true conclusions *)
(* --------------------------------------------------------------------- *)

Lemma extends_refl (st : Solver) : extends st st.
Proof. repeat split; done. Qed.

Lemma extends_trans (st1 st2 st3 : Solver) :
  extends st1 st2 → extends st2 st3 → extends st1 st3.
Proof.
  intros (? & ? & ? & ? & ? & ? & ? & ? & ? & ?)
         (? & ? & ? & ? & ? & ? & ? & ? & ? & ?).
  repeat split; try congruence; set_solver.
Qed.

Lemma extends_set_knowledge (st : Solver) (K : list Sentence) :
  extends st (set_knowledge K st).
Proof. repeat split; done. Qed.

Lemma range_elem_of (lo hi i : Z) : i ∈ range lo hi ↔ lo ≤ i < hi.
Proof.
  split; [apply range_elem|]. intros Hi. unfold range.
  apply list_elem_of_fmap. exists (Z.to_nat (i - lo)). split; [lia|].
  apply list_elem_of_In, in_seq. lia.
Qed.

Lemma py_index_in_range {A} (l : list A) (i : Z) :
  0 ≤ i < Z.of_nat (length l) →
  ∃ a, l !! Z.to_nat i = Some a ∧ py_index l i = Ok a.
Proof.
  intros Hi.
  destruct (lookup_lt_is_Some_2 l (Z.to_nat i) ltac:(lia)) as [a Ha].
  exists a. split; [done|].
  rewrite <- (py_index_nat l (Z.to_nat i) a Ha). f_equal. lia.
Qed.

Lemma complement_pair_returns (K : list Sentence) (i j : Z) :
  0 ≤ i < Z.of_nat (length K) → 0 ≤ j < Z.of_nat (length K) → i ≠ j →
  ∃ K', SetBasedSolver.complement_pair K i j = Ok K' ∧ length K' = length K.
Proof.
  intros Hi Hj Hij.
  destruct (lookup_lt_is_Some_2 K (Z.to_nat i) ltac:(lia)) as [s1 H1].
  destruct (lookup_lt_is_Some_2 K (Z.to_nat j) ltac:(lia)) as [s2 H2].
  pose proof (complement_pair_exact K (Z.to_nat i) (Z.to_nat j) s1 s2
                ltac:(lia) H1 H2) as E.
  rewrite !Z2Nat.id in E by lia.
  eexists. split; [exact E|]. cbv zeta. by rewrite !length_insert.
Qed.

Lemma add_complement_sentence_returns (st : Solver) :
  ∃ K', SetBasedSolver.add_complement_sentence st = Ok (set_knowledge K' st)
        ∧ length K' = length (knowledge st).
Proof.
  unfold SetBasedSolver.add_complement_sentence. cbv zeta.
  destruct (for_each_returns
              (fun K => length K = length (knowledge st))
              (range 0 (Z.of_nat (length (knowledge st)) - 1))
              (fun K i =>
                 for_each (range (i + 1) (Z.of_nat (length K)))
                   (fun K j => SetBasedSolver.complement_pair K i j) K)
              (knowledge st)) as (K' & E & HK'); [done| |].
  - intros K i Hi%range_elem HK.
    apply (for_each_returns (fun K => length K = length (knowledge st)));
      [done|].
    intros K1 j Hj%range_elem HK1.
    destruct (complement_pair_returns K1 i j) as (K2 & E2 & HK2); [lia..|].
    exists K2. split; [done|]. congruence.
  - rewrite E. cbn. eauto.
Qed.

(** add_complement_sentence never raises: every position it reads is a
    position of the list, which keeps its length.  The differences it
    derives are true of the mines when the sentences they were derived from
    are; nothing but the sentences changes. *)
Theorem add_complement_sentence_sound (st : Solver) :
  ∃ K',
    SetBasedSolver.add_complement_sentence st = Ok (set_knowledge K' st)
    ∧ length K' = length (knowledge st)
    ∧ ∀ T, sound T st → sound T (set_knowledge K' st).
Proof.
  destruct (add_complement_sentence_returns st) as (K' & E & HK').
  exists K'. split; [done|]. split; [done|].
  intros T Hst. by apply (add_complement_sentence_keeps_sound T st).
Qed.

(** The rule of add_intersection_sentence: two true sentences whose counts
    differ by the number of cells that only the first one has. *)
Lemma intersection_rule (T : gset cell) (s1 s2 : Sentence) :
  holds T s1 → holds T s2 →
  count s1 - count s2 = Z.of_nat (size (cells s1 ∖ cells s2)) →
  cells s1 ∖ cells s2 ⊆ T
  ∧ cells s2 ∖ cells s1 ## T
  ∧ holds T (Sentence.__init__ (cells s1 ∩ cells s2) (count s2)).
Proof.
  unfold holds. cbn. intros H1 H2 Hd.
  set (A := cells s1 ∖ cells s2) in *.
  set (B := cells s2 ∖ cells s1).
  set (C := cells s1 ∩ cells s2).
  assert (cells s1 ∩ T = (A ∩ T) ∪ (C ∩ T)) as E1.
  { apply set_eq. intros c. subst A C.
    rewrite elem_of_union, !elem_of_intersection, elem_of_difference.
    destruct (decide (c ∈ cells s2)); tauto. }
  assert (cells s2 ∩ T = (B ∩ T) ∪ (C ∩ T)) as E2.
  { apply set_eq. intros c. subst B C.
    rewrite elem_of_union, !elem_of_intersection, elem_of_difference.
    destruct (decide (c ∈ cells s1)); tauto. }
  rewrite E1 in H1. rewrite E2 in H2.
  rewrite (size_union (A ∩ T) (C ∩ T)) in H1.
  2:{ intros c. subst A C.
      rewrite !elem_of_intersection, elem_of_difference. tauto. }
  rewrite (size_union (B ∩ T) (C ∩ T)) in H2.
  2:{ intros c. subst B C.
      rewrite !elem_of_intersection, elem_of_difference. tauto. }
  assert (size (A ∩ T) ≤ size A)%nat as HA.
  { apply subseteq_size. intros c. rewrite elem_of_intersection. tauto. }
  assert (size (A ∩ T) = size A ∧ size (B ∩ T) = 0%nat) as [HAT HBT] by lia.
  split; [|split].
  - assert (A ∩ T = A) as Heq.
    { apply set_subseteq_size_eq.
      - intros c. rewrite elem_of_intersection. tauto.
      - lia. }
    intros c Hc. rewrite <- Heq in Hc. apply elem_of_intersection in Hc. tauto.
  - apply size_empty_iff in HBT.
    intros c Hc HT. apply (not_elem_of_empty (C := gset cell) c).
    apply HBT. apply elem_of_intersection. done.
  - lia.
Qed.

(** One visit of a pair of positions of the list returns; it only adds to
    the state, it may append a sentence and queue the two positions for
    removal, and what it concludes is true when the state was sound. *)
Lemma intersection_pair_returns (st : Solver) (remove_set : gset Z) (i j : Z) :
  0 ≤ i < Z.of_nat (length (knowledge st)) →
  0 ≤ j < Z.of_nat (length (knowledge st)) →
  ∃ st' remove_set',
    SetBasedSolver.intersection_pair (st, remove_set) i j = Ok (st', remove_set')
    ∧ extends st st'
    ∧ (length (knowledge st) ≤ length (knowledge st'))%nat
    ∧ (∀ d, d ∈ remove_set' → d ∈ remove_set ∨ d = i ∨ d = j)
    ∧ ∀ T, sound T st → sound T st'.
Proof.
  intros Hi Hj.
  destruct (lookup_lt_is_Some_2 (knowledge st) (Z.to_nat i) ltac:(lia))
    as [si Hsi].
  destruct (lookup_lt_is_Some_2 (knowledge st) (Z.to_nat j) ltac:(lia))
    as [sj Hsj].
  pose proof (intersection_pair_spec st remove_set _ _ si sj Hsi Hsj) as E.
  rewrite !Z2Nat.id in E by lia. cbv zeta in E. rewrite E. clear E.
  set (s1 := if count sj <=? count si then si else sj).
  set (s2 := if count sj <=? count si then sj else si).
  assert (s1 ∈ knowledge st ∧ s2 ∈ knowledge st) as [Hs1 Hs2].
  { subst s1 s2. destruct (count sj <=? count si);
      split; by eapply list_elem_of_lookup_2. }
  destruct (Z.eqb_spec (count s1 - count s2)
              (Z.of_nat (size (cells s1 ∖ cells s2)))) as [Hd|Hd].
  - eexists _, _. split; [done|]. split; [|split; [|split]].
    + repeat split; cbn; try done; set_solver.
    + cbn. rewrite length_app, length_map. lia.
    + intros d. rewrite !elem_of_union, !elem_of_singleton. tauto.
    + intros T (HK & Hm & Hs).
      destruct (intersection_rule T s1 s2) as (HX & HY & Hnew); [| |done|].
      { by apply (proj1 (Forall_forall _ _) HK). }
      { by apply (proj1 (Forall_forall _ _) HK). }
      split; [|split]; cbn.
      * apply Forall_app. split; [|by apply Forall_singleton].
        apply Forall_forall. intros s' (s & -> & Hin)%list_elem_of_fmap.
        apply holds_minus_safes; [done|]. apply holds_minus_mines; [done|].
        by apply (proj1 (Forall_forall _ _) HK).
      * intros c [?|?]%elem_of_union; auto.
      * intros c [?|?]%elem_of_union; [by apply (HY c)|by apply (Hs c)].
  - exists st, remove_set. split; [done|]. split; [apply extends_refl|].
    split; [done|]. split; [tauto|done].
Qed.

Lemma intersection_scan_returns (st : Solver) :
  ∃ st1 remove_set,
    SetBasedSolver.intersection_scan st = Ok (st1, remove_set)
    ∧ extends st st1
    ∧ (∀ d, d ∈ remove_set → 0 ≤ d < Z.of_nat (length (knowledge st1)))
    ∧ ∀ T, sound T st → sound T st1.
Proof.
  unfold SetBasedSolver.intersection_scan.
  set (P := fun (len : nat) (acc : Solver * gset Z) =>
              extends st acc.1
              ∧ (len ≤ length (knowledge acc.1))%nat
              ∧ (∀ d, d ∈ acc.2 → 0 ≤ d < Z.of_nat (length (knowledge acc.1)))
              ∧ ∀ T, sound T st → sound T acc.1).
  destruct (for_each_returns (P (length (knowledge st)))
              (range 0 (Z.of_nat (length (knowledge st)) - 1))
              (fun acc i =>
                 for_each (range (i + 1) (Z.of_nat (length (knowledge acc.1))))
                   (fun acc j => SetBasedSolver.intersection_pair acc i j) acc)
              (st, ∅)) as ([st1 rs] & E & HP).
  - split; [apply extends_refl|]. split; [done|]. split; [|done].
    intros d Hd. by apply not_elem_of_empty in Hd.
  - intros acc i Hi%range_elem Hacc.
    pose proof Hacc as (He & Hl & Hr & Hsd).
    destruct (for_each_returns (P (length (knowledge acc.1)))
                (range (i + 1) (Z.of_nat (length (knowledge acc.1))))
                (fun acc j => SetBasedSolver.intersection_pair acc i j) acc)
      as (acc' & E' & HP').
    + split; [done|]. split; [lia|]. split; done.
    + intros [st2 rs2] j Hj%range_elem (Hext & Hlen & Hrs & Hsound).
      cbn [fst snd] in *.
      destruct (intersection_pair_returns st2 rs2 i j)
        as (st3 & rs3 & E3 & Hext3 & Hlen3 & Hrs3 & Hsound3); [lia..|].
      exists (st3, rs3). split; [done|]. unfold P. cbn [fst snd].
      split; [by eapply extends_trans|]. split; [lia|]. split; [|by auto].
      intros d [Hd|[->| ->]]%Hrs3; [|lia..].
      specialize (Hrs d Hd). lia.
    + exists acc'. split; [done|].
      destruct HP' as (Hext' & Hlen' & Hrs' & Hsound').
      split; [done|]. split; [lia|]. split; done.
  - exists st1, rs. split; [done|].
    destruct HP as (Hext & Hlen & Hrs & Hsound). cbn [fst snd] in *. done.
Qed.

Lemma without_positions_Forall {A} (P : A → Prop) (D : gset Z) (i : Z)
    (l : list A) :
  Forall P l → Forall P (without_positions D i l).
Proof.
  intros Hl. revert i. induction Hl as [|a l Ha Hl IH]; intros i; cbn; [done|].
  case_bool_decide; [apply IH|]. constructor; [done|apply IH].
Qed.

Lemma add_intersection_sentence_returns (st : Solver) :
  ∃ st',
    SetBasedSolver.add_intersection_sentence st = Ok st'
    ∧ extends st st'
    ∧ ∀ T, sound T st → sound T st'.
Proof.
  unfold SetBasedSolver.add_intersection_sentence.
  destruct (intersection_scan_returns st)
    as (st1 & rs & E & Hext & Hrs & Hsound).
  rewrite E. cbn [mbind result_bind].
  rewrite delete_sorted_reverse by done. cbn [mbind result_bind].
  eexists. split; [done|]. split.
  - eapply extends_trans; [done|apply extends_set_knowledge].
  - intros T (HK & Hm & Hs)%Hsound. split; [|done]. cbn.
    by apply without_positions_Forall.
Qed.

(** add_intersection_sentence never raises: the positions it reads are
    positions of the list, which only grows during the scan, and the
    positions it deletes afterwards, highest first, are positions of the
    list.  It only adds to the known mines and safe cells and changes the
    sentences; from a state that is sound for the mines [T] of a board it
    returns a state that is sound for [T]. *)
Theorem add_intersection_sentence_sound (st : Solver) :
  ∃ st',
    SetBasedSolver.add_intersection_sentence st = Ok st'
    ∧ extends st st'
    ∧ ∀ T, sound T st → sound T st'.
Proof. apply add_intersection_sentence_returns. Qed.

(* --------------------------------------------------------------------- *)
(** ** Solver.add_sentence *)
(* --------------------------------------------------------------------- *)

Lemma foldl_nested {S A B} (l : list A) (inner : A → list B)
    (f : S → A → B → S) (s : S) :
  foldl (fun s a => foldl (fun s b => f s a b) s (inner a)) s l
  = foldl (fun s '(a, b) => f s a b) s (a ← l; b ← inner a; [(a, b)]).
Proof.
  revert s. induction l as [|a l IH]; intros s; cbn; [done|].
  rewrite foldl_app, IH. f_equal.
  clear. revert s. induction (inner a) as [|b lb IH]; intros s; cbn; [done|].
  by rewrite IH.
Qed.

Lemma range_3 (a : Z) : range (a - 1) (a + 2) = [a - 1; a; a + 1].
Proof.
  unfold range. replace (a + 2 - (a - 1)) with 3 by lia.
  change (Z.to_nat 3) with 3%nat. cbn [seq map].
  change (Z.of_nat 0) with 0. change (Z.of_nat 1) with 1.
  change (Z.of_nat 2) with 2.
  replace (a - 1 + 0) with (a - 1) by lia.
  replace (a - 1 + 1) with a by lia.
  replace (a - 1 + 2) with (a + 1) by lia. reflexivity.
Qed.

Lemma block_cells (c : cell) :
  block c = [(c.1 - 1, c.2 - 1); (c.1 - 1, c.2); (c.1 - 1, c.2 + 1);
             (c.1, c.2 - 1); (c.1, c.2); (c.1, c.2 + 1);
             (c.1 + 1, c.2 - 1); (c.1 + 1, c.2); (c.1 + 1, c.2 + 1)].
Proof. unfold block. rewrite !range_3. reflexivity. Qed.

Lemma block_elem_of (c p : cell) :
  p ∈ block c ↔ c.1 - 1 ≤ p.1 ≤ c.1 + 1 ∧ c.2 - 1 ≤ p.2 ≤ c.2 + 1.
Proof.
  unfold block. rewrite list_elem_of_bind. split.
  - intros (cx & (cy & ->%list_elem_of_singleton & Hy%range_elem)%list_elem_of_bind
            & Hx%range_elem). cbn. lia.
  - intros [Hx Hy]. exists p.1. split.
    + apply list_elem_of_bind. exists p.2. split.
      * destruct p. cbn. by apply list_elem_of_singleton.
      * apply range_elem_of. lia.
    + apply range_elem_of. lia.
Qed.

Lemma block_NoDup (c : cell) : NoDup (block c).
Proof.
  rewrite block_cells.
  repeat (apply NoDup_cons; split;
          [intros Hin;
           repeat (apply elem_of_cons in Hin as [Hin|Hin];
                   [injection Hin; intros; lia|]);
           by apply elem_of_nil in Hin|]).
  apply NoDup_nil. done.
Qed.

Lemma neighbours_elem_of (w h : Z) (c p : cell) :
  p ∈ neighbours w h c
  ↔ p ≠ c ∧ on_board w h p
    ∧ c.1 - 1 ≤ p.1 ≤ c.1 + 1 ∧ c.2 - 1 ≤ p.2 ≤ c.2 + 1.
Proof.
  unfold neighbours.
  rewrite elem_of_list_to_set, list_elem_of_filter, block_elem_of. tauto.
Qed.

(** The two loops of add_sentence over an arbitrary list of distinct
    cells. *)
Lemma add_sentence_scan_list (st : Solver) (c : cell) (l : list cell)
    (cs : gset cell) (n : Z) :
  NoDup l →
  foldl (fun acc '(cx, cy) =>
           (fun '(cs, n) cy =>
              if bool_decide ((cx, cy) = c) then (cs, n)
              else if (0 <=? cx) && (cx <? width st)
                      && ((0 <=? cy) && (cy <? height st))
              then
                if bool_decide ((cx, cy) ∈ mines st) then (cs, n - 1)
                else if bool_decide ((cx, cy) ∉ safes st)
                     then ({[(cx, cy)]} ∪ cs, n)
                     else (cs, n)
              else (cs, n)) acc cy) (cs, n) l
  = (list_to_set
       (filter (fun p => p ≠ c ∧ on_board (width st) (height st) p) l)
       ∖ mines st ∖ safes st ∪ cs,
     n - Z.of_nat
           (size (list_to_set
                    (filter (fun p => p ≠ c
                                      ∧ on_board (width st) (height st) p) l)
                  ∩ mines st))).
Proof.
  intros Hl. revert cs n. induction Hl as [|[cx cy] l Hp Hl IH]; intros cs n.
  - cbn. f_equal.
    + set_solver.
    + replace ((∅ : gset cell) ∩ mines st) with (∅ : gset cell) by set_solver.
      rewrite size_empty. lia.
  - cbn [foldl]. rewrite filter_cons.
    assert ((0 <=? cx) && (cx <? width st) && ((0 <=? cy) && (cy <? height st))
            = bool_decide (on_board (width st) (height st) (cx, cy))) as ->.
    { unfold on_board. cbn. case_bool_decide as Hb.
      - destruct Hb as [[? ?] [? ?]].
        rewrite !(proj2 (Z.leb_le _ _)), !(proj2 (Z.ltb_lt _ _)) by done. done.
      - apply not_true_is_false. intros Ht. apply Hb.
        apply andb_true_iff in Ht as [[?%Z.leb_le ?%Z.ltb_lt]%andb_true_iff
                                      [?%Z.leb_le ?%Z.ltb_lt]%andb_true_iff].
        done. }
    set (F := filter (fun p => p ≠ c ∧ on_board (width st) (height st) p) l)
      in *.
    assert ((cx, cy) ∉ (list_to_set F : gset cell)) as HpF.
    { subst F. rewrite elem_of_list_to_set, list_elem_of_filter. tauto. }
    case_bool_decide as Hc.
    { rewrite decide_False by tauto. apply IH. }
    case_bool_decide as Hb.
    2:{ rewrite decide_False by tauto. apply IH. }
    rewrite decide_True by tauto. cbn [list_to_set].
    case_bool_decide as Hm.
    { rewrite IH. f_equal; [set_solver|].
      replace (({[(cx, cy)]} ∪ list_to_set F) ∩ mines st)
        with ({[(cx, cy)]} ∪ (list_to_set F ∩ mines st) : gset cell)
        by set_solver.
      rewrite (size_union {[(cx, cy)]} (list_to_set F ∩ mines st))
        by set_solver.
      rewrite size_singleton. lia. }
    assert (({[(cx, cy)]} ∪ list_to_set F) ∩ mines st
            = (list_to_set F ∩ mines st : gset cell)) as -> by set_solver.
    case_bool_decide as Hs.
    + rewrite IH. f_equal. set_solver.
    + rewrite IH. f_equal. set_solver.
Qed.

(** The sentence that add_sentence appends for the revealed cell [c] with
    the number [n] on it: its cells are the neighbours of [c] on the board
    that are neither known mines nor known safe cells, and its count is [n]
    less the number of neighbours that are known mines. *)
Lemma add_sentence_scan_spec (st : Solver) (c : cell) (n : Z) :
  Solver.add_sentence_scan st c n
  = (neighbours (width st) (height st) c ∖ mines st ∖ safes st,
     n - Z.of_nat (size (neighbours (width st) (height st) c ∩ mines st))).
Proof.
  unfold Solver.add_sentence_scan.
  rewrite (foldl_nested (range (c.1 - 1) (c.1 + 2))
             (fun _ => range (c.2 - 1) (c.2 + 2))
             (fun acc cx cy =>
                (fun '(cs, n) cy =>
                   if bool_decide ((cx, cy) = c) then (cs, n)
                   else if (0 <=? cx) && (cx <? width st)
                           && ((0 <=? cy) && (cy <? height st))
                   then
                     if bool_decide ((cx, cy) ∈ mines st) then (cs, n - 1)
                     else if bool_decide ((cx, cy) ∉ safes st)
                          then ({[(cx, cy)]} ∪ cs, n)
                          else (cs, n)
                   else (cs, n)) acc cy)).
  fold (block c).
  rewrite (add_sentence_scan_list st c (block c) ∅ n (block_NoDup c)).
  fold (neighbours (width st) (height st) c). f_equal. set_solver.
Qed.

Lemma add_sentence_spec (st : Solver) (c : cell) (n : Z) :
  Solver.add_sentence st c n
  = set_knowledge
      (knowledge st
       ++ [Sentence.__init__
             (neighbours (width st) (height st) c ∖ mines st ∖ safes st)
             (n - Z.of_nat
                    (size (neighbours (width st) (height st) c ∩ mines st)))])
      st.
Proof. unfold Solver.add_sentence. by rewrite add_sentence_scan_spec. Qed.

(** The new sentence is true of the mines [T] when the state is sound for
    [T] and [n] is the number of mines among the neighbours of [c]. *)
Lemma add_sentence_holds (T : gset cell) (st : Solver) (c : cell) :
  mines st ⊆ T → safes st ## T →
  holds T
    (Sentence.__init__
       (neighbours (width st) (height st) c ∖ mines st ∖ safes st)
       (Z.of_nat (size (neighbours (width st) (height st) c ∩ T))
        - Z.of_nat (size (neighbours (width st) (height st) c ∩ mines st)))).
Proof.
  intros Hm Hs. unfold holds. cbn.
  set (N := neighbours (width st) (height st) c).
  replace ((N ∖ mines st ∖ safes st) ∩ T) with ((N ∩ T) ∖ (N ∩ mines st)).
  2:{ apply set_eq. intros p.
      rewrite !elem_of_difference, !elem_of_intersection, !elem_of_difference.
      specialize (Hm p). specialize (Hs p). tauto. }
  rewrite size_difference_subseteq.
  2:{ intros p. rewrite !elem_of_intersection. specialize (Hm p). tauto. }
  assert (size (N ∩ mines st) ≤ size (N ∩ T))%nat.
  { apply subseteq_size. intros p. rewrite !elem_of_intersection.
    specialize (Hm p). tauto. }
  lia.
Qed.

(** add_sentence, for the revealed cell [c] with the number [n] on it,
    appends one sentence: its cells are the neighbours of [c] on the board
    that are neither known mines nor known safe cells, its count is [n]
    less the number of neighbours that are known mines.  When the state is
    sound for the mines [T] of a board and [n] is the number of mines among
    the neighbours of [c], the state with the new sentence is sound for
    [T]. *)
Theorem add_sentence_sound (st : Solver) (c : cell) (n : Z) :
  let N := neighbours (width st) (height st) c in
  Solver.add_sentence st c n
  = set_knowledge
      (knowledge st
       ++ [Sentence.__init__ (N ∖ mines st ∖ safes st)
             (n - Z.of_nat (size (N ∩ mines st)))]) st
  ∧ ∀ T : gset cell,
      sound T st → n = Z.of_nat (size (N ∩ T)) →
      sound T (Solver.add_sentence st c n).
Proof.
  intros N. split; [apply add_sentence_spec|].
  intros T (HK & Hm & Hs) ->.
  rewrite add_sentence_spec. split; [|done]. cbn.
  apply Forall_app. split; [done|]. apply Forall_singleton.
  by apply add_sentence_holds.
Qed.

Lemma add_sentence_sound_witness :
  let T : gset cell := {[(0, 0); (2, 2)]} in
  let st := Solver.mark_mine
              (Solver.mark_safe
                 (Solver.__init__ GenerateConfiguration 3 3 2 true) (0, 1))
              (0, 0) in
  sound T st
  ∧ knowledge (Solver.add_sentence st (1, 1) 2)
    = [Sentence.__init__
         {[(0, 2); (1, 0); (1, 2); (2, 0); (2, 1); (2, 2)]} 1]
  ∧ sound T (Solver.add_sentence st (1, 1) 2).
Proof.
  intros T st.
  assert (sound T st) as Hst.
  { split; [constructor|]. split.
    - apply (bool_decide_unpack _). vm_compute. exact I.
    - apply (bool_decide_unpack _). vm_compute. exact I. }
  split; [exact Hst|].
  destruct (add_sentence_sound st (1, 1) 2) as [E Hs].
  split.
  - rewrite E. vm_compute. reflexivity.
  - apply (Hs T Hst). vm_compute. reflexivity.
Defined.

(* --------------------------------------------------------------------- *)
(** ** add_knowledge *)
(* --------------------------------------------------------------------- *)

Lemma sound_set_knowledge (T : gset cell) (st : Solver) (K : list Sentence) :
  sound T st → Forall (holds T) K → sound T (set_knowledge K st).
Proof. intros (_ & Hm & Hs) HK. split; done. Qed.

Lemma sound_remove_null (T : gset cell) (st : Solver) :
  sound T st →
  sound T (set_knowledge (filter (fun s => cells s ≠ ∅) (knowledge st)) st).
Proof.
  intros Hst. apply sound_set_knowledge; [done|].
  destruct Hst as (HK & _). apply Forall_forall.
  intros s [_ Hs]%list_elem_of_filter.
  by apply (proj1 (Forall_forall _ _) HK).
Qed.

Lemma sound_remove_duplicated (T : gset cell) (st : Solver) :
  sound T st →
  sound T (set_knowledge (first_occurrences [] (knowledge st)) st).
Proof.
  intros Hst. apply sound_set_knowledge; [done|].
  destruct Hst as (HK & _). apply Forall_forall. intros s Hs.
  apply (proj1 (first_occurrences_spec [] (knowledge st))) in Hs as [Hs _].
  by apply (proj1 (Forall_forall _ _) HK).
Qed.

Lemma check_sentence_loop_print_progress (fuel : nat) (st st' : Solver) :
  Solver.check_sentence_loop fuel st = Ok st' →
  print_progress st' = print_progress st.
Proof.
  revert st. induction fuel as [|fuel IH]; intros st; cbn; [done|].
  pose proof (check_sentence_round_spec st) as Hr. cbv zeta in Hr.
  destruct (Solver.check_sentence_round st) as [st1 mark_cell].
  injection Hr as -> _. destruct mark_cell.
  - intros E. by rewrite (IH _ E).
  - by intros [= <-].
Qed.

(** check_sentence as a step of add_knowledge. *)
Lemma check_sentence_step (st : Solver) :
  ∃ st',
    Solver.check_sentence st = Ok st'
    ∧ extends st st'
    ∧ Forall (fun s => Sentence.known_safes s = ∅ ∧ Sentence.known_mines s = ∅)
        (knowledge st')
    ∧ ∀ T, sound T st → sound T st'.
Proof.
  destruct (check_sentence_loop_spec
              (S (Solver.total_cells (knowledge st))) st ltac:(lia))
    as (st' & E & Hfix & Hm & Hs & Hmv & _ & Hn & Hc & Hw & Hh & Ha & Hg).
  exists st'. split; [done|]. split; [|split; [done|]].
  - repeat split; try done.
    by apply (check_sentence_loop_print_progress _ _ _ E).
  - intros T Hst. by apply (sound_check_sentence_loop T _ st st' Hst E).
Qed.

(** The first two statements of add_knowledge: the move is recorded and the
    cell is marked as safe. *)
Lemma record_move_extends (st : Solver) (c : cell) :
  let st1 := Solver.mark_safe (set_moves_made ({[c]} ∪ moves_made st) st) c in
  extends (set_moves_made ({[c]} ∪ moves_made st) st) st1
  ∧ c ∈ safes st1
  ∧ ∀ T, sound T st → c ∉ T → sound T st1.
Proof.
  cbv zeta. split; [|split].
  - repeat split; cbn; try done. set_solver.
  - cbn. set_solver.
  - intros T Hst Hc. apply sound_mark_safe; [done|].
    destruct Hst as (? & ? & ?). split; done.
Qed.

Lemma extends_safes (st st' : Solver) (c : cell) :
  extends st st' → c ∈ safes st → c ∈ safes st'.
Proof. intros (_ & Hs & _) Hc. by apply Hs. Qed.

(** ProbabilitySolver.add_knowledge, which GenerateConfigurationSolver and
    ProbabilityTheorySolver inherit. *)
Lemma Probability_add_knowledge_spec (st : Solver) (c : cell) (n : Z) :
  ∃ st',
    ProbabilitySolver.add_knowledge st c n = Ok st'
    ∧ extends (set_moves_made ({[c]} ∪ moves_made st) st) st'
    ∧ c ∈ safes st'
    ∧ (n ≠ 0 →
       NoDup (knowledge st')
       ∧ Forall (fun s => cells s ≠ ∅ ∧ Sentence.known_safes s = ∅
                          ∧ Sentence.known_mines s = ∅) (knowledge st'))
    ∧ ∀ T, sound T st → c ∉ T →
           n = Z.of_nat (size (neighbours (width st) (height st) c ∩ T)) →
           sound T st'.
Proof.
  unfold ProbabilitySolver.add_knowledge. cbv zeta.
  destruct (record_move_extends st c) as (Hext1 & Hc1 & Hsound1).
  cbv zeta in Hext1, Hc1, Hsound1.
  set (st1 := Solver.mark_safe (set_moves_made ({[c]} ∪ moves_made st) st) c)
    in *.
  destruct (Z.eqb_spec n 0) as [Hn|Hn].
  { exists st1. split; [done|]. split; [done|]. split; [done|].
    split; [done|]. intros T Hst Hc _. by apply Hsound1. }
  rewrite add_sentence_spec.
  set (st2 := set_knowledge _ st1).
  destruct (check_sentence_step st2) as (st3 & E3 & Hext3 & Hfix3 & Hsound3).
  rewrite E3. cbn [mbind result_bind].
  rewrite remove_null_sentence_filter. cbn [mbind result_bind].
  rewrite remove_duplicated_sentence_first.
  eexists. split; [done|]. split; [|split; [|split]].
  - eapply extends_trans; [exact Hext1|].
    eapply extends_trans; [apply (extends_set_knowledge st1)|].
    eapply extends_trans; [exact Hext3|].
    eapply extends_trans; apply extends_set_knowledge.
  - cbn. apply (extends_safes st2 st3); done.
  - intros _. cbn [knowledge set_knowledge].
    destruct (first_occurrences_spec []
                (filter (fun s => cells s ≠ ∅) (knowledge st3))) as [Hin Hnd].
    split; [done|]. apply Forall_forall.
    intros s [[Hne Hs]%list_elem_of_filter _]%Hin.
    pose proof (proj1 (Forall_forall _ _) Hfix3 s Hs) as [? ?]. done.
  - intros T Hst Hc Hcount.
    apply sound_remove_duplicated. cbn [knowledge set_knowledge].
    apply sound_remove_null. apply Hsound3.
    specialize (Hsound1 T Hst Hc). destruct Hsound1 as (HK1 & Hm1 & Hs1).
    split; [|done]. subst st2. cbn [knowledge set_knowledge].
    apply Forall_app. split; [done|]. apply Forall_singleton.
    rewrite Hcount. by apply (add_sentence_holds T st1 c).
Qed.

Lemma SetBased_add_knowledge_spec (st : Solver) (c : cell) (n : Z) :
  ∃ st',
    SetBasedSolver.add_knowledge st c n = Ok st'
    ∧ extends (set_moves_made ({[c]} ∪ moves_made st) st) st'
    ∧ c ∈ safes st'
    ∧ ∀ T, sound T st → c ∉ T →
           n = Z.of_nat (size (neighbours (width st) (height st) c ∩ T)) →
           sound T st'.
Proof.
  unfold SetBasedSolver.add_knowledge. cbv zeta.
  destruct (record_move_extends st c) as (Hext1 & Hc1 & Hsound1).
  cbv zeta in Hext1, Hc1, Hsound1.
  set (st1 := Solver.mark_safe (set_moves_made ({[c]} ∪ moves_made st) st) c)
    in *.
  destruct (Z.eqb_spec n 0) as [Hn|Hn].
  { exists st1. split; [done|]. split; [done|]. split; [done|].
    intros T Hst Hc _. by apply Hsound1. }
  rewrite add_sentence_spec.
  set (st2 := set_knowledge _ st1).
  rewrite remove_null_sentence_filter. cbn [mbind result_bind].
  set (st3 := set_knowledge _ st2).
  destruct (add_complement_sentence_returns st3) as (K4 & E4 & _).
  rewrite E4. cbn [mbind result_bind].
  set (st4 := set_knowledge K4 st3).
  destruct (check_sentence_step st4) as (st5 & E5 & Hext5 & _ & Hsound5).
  rewrite E5. cbn [mbind result_bind].
  rewrite remove_null_sentence_filter. cbn [mbind result_bind].
  set (st6 := set_knowledge _ st5).
  destruct (add_intersection_sentence_returns st6)
    as (st7 & E7 & Hext7 & Hsound7).
  exists st7. split; [done|]. split; [|split].
  - eapply extends_trans; [exact Hext1|].
    eapply extends_trans; [apply (extends_set_knowledge st1)|].
    eapply extends_trans; [apply (extends_set_knowledge st2)|].
    eapply extends_trans; [apply (extends_set_knowledge st3)|].
    eapply extends_trans; [exact Hext5|].
    eapply extends_trans; [apply (extends_set_knowledge st5)|].
    exact Hext7.
  - apply (extends_safes st6 st7); [done|].
    apply (extends_safes st4 st5); done.
  - intros T Hst Hc Hcount.
    apply Hsound7. apply sound_remove_null. apply Hsound5.
    apply (add_complement_sentence_keeps_sound T st3 st4); [|done].
    apply sound_remove_null.
    specialize (Hsound1 T Hst Hc). destruct Hsound1 as (HK1 & Hm1 & Hs1).
    split; [|done]. subst st2. cbn [knowledge set_knowledge].
    apply Forall_app. split; [done|]. apply Forall_singleton.
    rewrite Hcount. by apply (add_sentence_holds T st1 c).
Qed.

Lemma add_knowledge_spec (st : Solver) (c : cell) (n : Z) :
  ∃ st',
    add_knowledge st c n = Ok st'
    ∧ extends (set_moves_made ({[c]} ∪ moves_made st) st) st'
    ∧ c ∈ safes st'
    ∧ ∀ T, sound T st → c ∉ T →
           n = Z.of_nat (size (neighbours (width st) (height st) c ∩ T)) →
           sound T st'.
Proof.
  unfold add_knowledge. destruct (class st).
  - destruct (Probability_add_knowledge_spec st c n)
      as (st' & ? & ? & ? & _ & ?). eauto.
  - destruct (Probability_add_knowledge_spec st c n)
      as (st' & ? & ? & ? & _ & ?). eauto.
  - apply SetBased_add_knowledge_spec.
Qed.

(** add_knowledge never raises, whatever the class of the solver, its
    state, the cell and the count: the positions that the list operations
    read and delete are positions of the list.  The cell is recorded as a
    move made and as safe; the known mines and safe cells only grow; the
    board size, the mine total, the pending guess and the guess counter are
    as before. *)
Theorem add_knowledge_returns (st : Solver) (c : cell) (n : Z) :
  ∃ st',
    add_knowledge st c n = Ok st'
    ∧ moves_made st' = {[c]} ∪ moves_made st
    ∧ c ∈ safes st'
    ∧ extends (set_moves_made ({[c]} ∪ moves_made st) st) st'.
Proof.
  destruct (add_knowledge_spec st c n) as (st' & E & Hext & Hc & _).
  exists st'. split; [done|]. split; [|done].
  destruct Hext as (_ & _ & Hmv & _). exact Hmv.
Qed.

(** add_knowledge only draws true conclusions.  When the state is sound
    for the mines [T] of a board, the revealed cell [c] is not a mine and
    [n] is the number of mines among the neighbours of [c] on the board,
    the state after add_knowledge is sound for [T]: every sentence is true
    of [T], every known mine is in [T], no known safe cell is in [T]. *)
Theorem add_knowledge_sound (T : gset cell) (st : Solver) (c : cell) (n : Z) :
  sound T st → c ∉ T →
  n = Z.of_nat (size (neighbours (width st) (height st) c ∩ T)) →
  ∃ st', add_knowledge st c n = Ok st' ∧ sound T st'.
Proof.
  intros Hst Hc Hn.
  destruct (add_knowledge_spec st c n) as (st' & E & _ & _ & Hsound).
  exists st'. split; [done|]. by apply Hsound.
Qed.

Lemma add_knowledge_sound_witness :
  let T : gset cell := {[(0, 0); (2, 2)]} in
  let st := SetBasedSolver.__init__ 3 3 2 1 true in
  sound T st
  ∧ ((1, 1) ∉ T)
  ∧ ∃ st', add_knowledge st (1, 1) 2 = Ok st' ∧ sound T st'.
Proof.
  intros T st.
  assert (sound T st) as Hst.
  { split; [constructor|]. split.
    - apply (bool_decide_unpack _). vm_compute. exact I.
    - apply (bool_decide_unpack _). vm_compute. exact I. }
  assert ((1, 1) ∉ T) as Hc.
  { apply (bool_decide_unpack _). vm_compute. exact I. }
  split; [exact Hst|]. split; [exact Hc|].
  apply (add_knowledge_sound T st (1, 1) 2 Hst Hc).
  vm_compute. reflexivity.
Defined.

(** After ProbabilitySolver.add_knowledge with a count other than 0 the
    knowledge is in normal form: no two sentences are equal, no sentence is
    without cells, and no sentence identifies a cell by itself (its count
    is neither 0 nor the number of its cells). *)
Theorem Probability_add_knowledge_normal_form (st : Solver) (c : cell) (n : Z) :
  n ≠ 0 →
  ∃ st',
    ProbabilitySolver.add_knowledge st c n = Ok st'
    ∧ NoDup (knowledge st')
    ∧ Forall (fun s => cells s ≠ ∅ ∧ count s ≠ 0
                       ∧ count s ≠ Z.of_nat (size (cells s))) (knowledge st').
Proof.
  intros Hn.
  destruct (Probability_add_knowledge_spec st c n)
    as (st' & E & _ & _ & Hnf & _).
  destruct (Hnf Hn) as [Hnd Hall].
  exists st'. split; [done|]. split; [done|].
  eapply Forall_impl; [exact Hall|].
  intros s (Hne & Hsafe & Hmine). split; [done|].
  unfold Sentence.known_safes, Sentence.known_mines in *. split.
  - intros E0. rewrite E0 in Hsafe. cbn in Hsafe. done.
  - intros E0. rewrite <- E0, Z.eqb_refl in Hmine. done.
Qed.

Lemma Probability_add_knowledge_normal_form_witness :
  ∃ st',
    ProbabilitySolver.add_knowledge
      (Solver.__init__ GenerateConfiguration 3 3 2 true) (1, 1) 2 = Ok st'
    ∧ NoDup (knowledge st')
    ∧ Forall (fun s => cells s ≠ ∅ ∧ count s ≠ 0
                       ∧ count s ≠ Z.of_nat (size (cells s))) (knowledge st').
Proof.
  apply (Probability_add_knowledge_normal_form
           (Solver.__init__ GenerateConfiguration 3 3 2 true) (1, 1) 2).
  lia.
Defined.

(* --------------------------------------------------------------------- *)
(** ** The enumeration of the configurations *)
(* --------------------------------------------------------------------- *)

(** [itertools.combinations(l, r)] yields the sublists of [l] of length
    [r]. *)
Lemma combinations_sublist {A} (l : list A) (r : nat) (choice : list A) :
  choice ∈ combinations l r ↔ choice `sublist_of` l ∧ length choice = r.
Proof.
  revert r choice. induction l as [|a l IH]; intros r choice; destruct r; cbn.
  - rewrite list_elem_of_singleton. split.
    + intros ->. split; [done|done].
    + intros [_ Hl]. by apply nil_length_inv.
  - split; [by intros ?%elem_of_nil|].
    intros [Hs Hl]. apply sublist_nil_r in Hs. subst. discriminate.
  - rewrite list_elem_of_singleton. split.
    + intros ->. split; [apply sublist_nil_l|done].
    + intros [_ Hl]. by apply nil_length_inv.
  - rewrite elem_of_app, list_elem_of_fmap, sublist_cons_r. split.
    + intros [(c' & -> & [Hs Hl]%IH)|[Hs Hl]%IH].
      * split; [right; eauto|cbn; by rewrite Hl].
      * split; [by left|done].
    + intros [[Hs|(c' & -> & Hs)] Hl].
      * right. apply IH. done.
      * left. exists c'. split; [done|]. apply IH. split; [done|].
        cbn in Hl. lia.
Qed.

Lemma referenced_elem_of (K : list Sentence) (s : Sentence) :
  s ∈ K → cells s ⊆ referenced K.
Proof.
  intros Hs c Hc. unfold referenced. apply elem_of_union_list.
  exists (cells s). split; [|done]. apply list_elem_of_fmap. eauto.
Qed.

Lemma extend_configurations_elem (s : Sentence) (given : list (gset cell))
    (invalid conf' : gset cell) :
  conf' ∈ GenerateConfigurationSolver.extend_configurations s given invalid
  ↔ ∃ conf choice,
      conf ∈ given
      ∧ 0 ≤ count s - Z.of_nat (size (cells s ∩ conf))
      ∧ choice `sublist_of` elements (cells s ∖ invalid)
      ∧ Z.of_nat (length choice)
        = count s - Z.of_nat (size (cells s ∩ conf))
      ∧ conf' = conf ∪ list_to_set choice.
Proof.
  unfold GenerateConfigurationSolver.extend_configurations.
  rewrite list_elem_of_bind. split.
  - intros (conf & Hc & Hconf). cbv zeta in Hc.
    destruct (Z.ltb_spec (count s - Z.of_nat (size (cells s ∩ conf))) 0)
      as [Hneg|Hpos]; [by apply elem_of_nil in Hc|].
    apply list_elem_of_bind in Hc as (choice & ->%list_elem_of_singleton & Hch).
    apply combinations_sublist in Hch as [Hs Hl].
    exists conf, choice. repeat split; try done. lia.
  - intros (conf & choice & Hconf & Hpos & Hs & Hl & ->).
    exists conf. split; [|done]. cbv zeta.
    destruct (Z.ltb_spec (count s - Z.of_nat (size (cells s ∩ conf))) 0)
      as [Hneg|_]; [lia|].
    apply list_elem_of_bind. exists choice.
    split; [by apply list_elem_of_singleton|].
    apply combinations_sublist. split; [done|]. lia.
Qed.

(** One round of the enumeration: from the solutions of the sentences so
    far to the solutions with one more sentence. *)
Lemma extend_configurations_exact (K : list Sentence) (s : Sentence)
    (given : list (gset cell)) :
  (∀ conf, conf ∈ given ↔ conf ⊆ referenced K ∧ Forall (holds conf) K) →
  ∀ conf,
    conf ∈ GenerateConfigurationSolver.extend_configurations s given
             (referenced K)
    ↔ conf ⊆ referenced (K ++ [s]) ∧ Forall (holds conf) (K ++ [s]).
Proof.
  intros Hgiven conf'. rewrite extend_configurations_elem, referenced_snoc.
  set (R := referenced K) in *.
  assert (∀ s', s' ∈ K → cells s' ⊆ R) as HK
    by (intros s'; apply referenced_elem_of).
  split.
  - intros (conf & choice & [HcR Hhold]%Hgiven & Hpos & Hsub & Hlen & ->).
    set (X := list_to_set choice : gset cell).
    assert (X ⊆ cells s ∖ R) as HX.
    { intros c Hc%elem_of_list_to_set. apply elem_of_elements.
      by eapply elem_of_sublist. }
    assert (size X = length choice) as HsX.
    { apply size_list_to_set. eapply sublist_NoDup; [|done].
      apply NoDup_elements. }
    split.
    + intros c [Hc|Hc]%elem_of_union.
      * apply elem_of_union. left. by apply HcR.
      * apply HX, elem_of_difference in Hc as [Hc _].
        apply elem_of_union. by right.
    + apply Forall_app. split.
      * apply Forall_forall. intros s' Hs'.
        pose proof (proj1 (Forall_forall _ _) Hhold s' Hs') as Hh.
        unfold holds in *.
        replace (cells s' ∩ (conf ∪ X)) with (cells s' ∩ conf); [done|].
        apply set_eq. intros c.
        rewrite !elem_of_intersection, elem_of_union.
        split; [tauto|]. intros [Hcs [Hc|Hc]]; [done|].
        apply HX, elem_of_difference in Hc as [_ Hc].
        exfalso. apply Hc. by apply (HK s').
      * apply Forall_singleton. unfold holds.
        replace (cells s ∩ (conf ∪ X)) with ((cells s ∩ conf) ∪ X).
        2:{ apply set_eq. intros c.
            rewrite !elem_of_union, !elem_of_intersection, elem_of_union.
            split; [|tauto]. intros [?|Hc]; [tauto|].
            pose proof Hc as Hc'.
            apply HX, elem_of_difference in Hc' as [? _]. tauto. }
        rewrite (size_union (cells s ∩ conf) X).
        2:{ intros c [_ Hc1]%elem_of_intersection Hc2.
            apply HX, elem_of_difference in Hc2 as [_ Hc2].
            apply Hc2. by apply HcR. }
        lia.
  - intros [Hsub [Hhold Hs]%Forall_app].
    apply (proj1 (Forall_singleton _ _)) in Hs.
    set (conf := conf' ∩ R). set (X := conf' ∖ R).
    assert (X ⊆ cells s ∖ R) as HX.
    { intros c [Hc Hn]%elem_of_difference. apply elem_of_difference.
      split; [|done]. apply Hsub, elem_of_union in Hc as [?|?]; done. }
    set (choice := filter (fun c => c ∈ X) (elements (cells s ∖ R))).
    assert (list_to_set choice = X) as Hset.
    { apply set_eq. intros c. subst choice.
      rewrite elem_of_list_to_set, list_elem_of_filter, elem_of_elements.
      split; [tauto|]. intros Hc. split; [done|]. by apply HX. }
    assert (length choice = size X) as Hlen.
    { rewrite <- Hset. symmetry. apply size_list_to_set.
      apply NoDup_filter, NoDup_elements. }
    assert (Z.of_nat (size X) = count s - Z.of_nat (size (cells s ∩ conf)))
      as Hmiss.
    { unfold holds in Hs. rewrite <- Hs.
      replace (cells s ∩ conf') with ((cells s ∩ conf) ∪ X).
      2:{ apply set_eq. intros c. subst conf X.
          rewrite elem_of_union, !elem_of_intersection, elem_of_difference.
          split.
          - intros [?|[Hc Hn]]; [tauto|]. split; [|done].
            apply Hsub, elem_of_union in Hc as [?|?]; done.
          - intros [? ?]. destruct (decide (c ∈ R)); tauto. }
      rewrite (size_union (cells s ∩ conf) X).
      2:{ intros c. subst conf X.
          rewrite !elem_of_intersection, elem_of_difference. tauto. }
      lia. }
    exists conf, choice. split; [|split; [|split; [|split]]].
    + apply Hgiven. split.
      * intros c. subst conf. rewrite elem_of_intersection. tauto.
      * apply Forall_forall. intros s' Hs'.
        pose proof (proj1 (Forall_forall _ _) Hhold s' Hs') as Hh.
        unfold holds in *.
        replace (cells s' ∩ conf) with (cells s' ∩ conf'); [done|].
        apply set_eq. intros c. subst conf.
        rewrite !elem_of_intersection. split; [|tauto].
        intros [? ?]. split; [done|]. split; [done|]. by apply (HK s').
    + lia.
    + apply sublist_filter.
    + lia.
    + rewrite Hset. apply set_eq. intros c. subst conf X.
      rewrite elem_of_union, elem_of_intersection, elem_of_difference.
      destruct (decide (c ∈ R)); tauto.
Qed.

Lemma enumerate_configurations_loop (K2 K1 : list Sentence)
    (given : list (gset cell)) :
  (∀ conf, conf ∈ given ↔ conf ⊆ referenced K1 ∧ Forall (holds conf) K1) →
  ∀ conf,
    conf ∈ (foldl (fun '(possible_configuration, invalid_cell) sentence =>
                     (GenerateConfigurationSolver.extend_configurations
                        sentence possible_configuration invalid_cell,
                      invalid_cell ∪ cells sentence))
                  (given, referenced K1) K2).1
    ↔ conf ⊆ referenced (K1 ++ K2) ∧ Forall (holds conf) (K1 ++ K2).
Proof.
  revert K1 given. induction K2 as [|s K2 IH]; intros K1 given Hgiven conf.
  - cbn. rewrite app_nil_r. apply Hgiven.
  - cbn [foldl]. rewrite <- referenced_snoc.
    rewrite (IH (K1 ++ [s])).
    + by rewrite <- app_assoc.
    + by apply extend_configurations_exact.
Qed.

Lemma enumerate_configurations_solutions (K : list Sentence) (conf : gset cell) :
  conf ∈ GenerateConfigurationSolver.enumerate_configurations K
  ↔ conf ⊆ referenced K ∧ Forall (holds conf) K.
Proof.
  unfold GenerateConfigurationSolver.enumerate_configurations.
  pose proof (enumerate_configurations_loop K [] [∅]) as H.
  cbn [app] in H. apply H. clear H conf. intros conf.
  rewrite list_elem_of_singleton. unfold referenced. cbn. split.
  - intros ->. split; [done|constructor].
  - intros [Hc _]. apply set_eq. intros c. split; [apply Hc|].
    by intros ?%not_elem_of_empty.
Qed.

(** The enumeration of GenerateConfigurationSolver.analyze_knowledge is
    exact: the configurations it yields are the sets of cells of the
    sentences of which every sentence is true, that is, that hold exactly
    [count] cells of every sentence. *)
Theorem enumerate_configurations_exact (K : list Sentence) (conf : gset cell) :
  conf ∈ GenerateConfigurationSolver.enumerate_configurations K
  ↔ conf ⊆ referenced K ∧ Forall (holds conf) K.
Proof. apply enumerate_configurations_solutions. Qed.

(* --------------------------------------------------------------------- *)
(** ** analyze_knowledge and make_move only draw true conclusions *)
(* --------------------------------------------------------------------- *)

Lemma appearances_none (confs : list (gset cell)) (c : cell) (conf : gset cell) :
  appearances confs c = 0 → conf ∈ confs → c ∉ conf.
Proof.
  unfold appearances. intros H0 Hconf Hc.
  assert (filter (fun conf => c ∈ conf) confs = []) as Hnil.
  { apply nil_length_inv. lia. }
  by apply (filter_nil_not_elem_of _ _ conf Hnil Hc).
Qed.

Lemma appearances_all (confs : list (gset cell)) (c : cell) (conf : gset cell) :
  appearances confs c = Z.of_nat (length confs) → conf ∈ confs → c ∈ conf.
Proof.
  unfold appearances. intros Hall Hconf.
  destruct (decide (c ∈ conf)) as [|Hn]; [done|].
  pose proof (length_filter_lt (fun conf => c ∈ conf) confs conf Hconf Hn).
  lia.
Qed.

(** The mines of the board, restricted to the cells of the sentences, are
    one of the enumerated configurations when the sentences are true. *)
Lemma true_configuration_enumerated (T : gset cell) (K : list Sentence) :
  Forall (holds T) K →
  T ∩ referenced K ∈ GenerateConfigurationSolver.enumerate_configurations K.
Proof.
  intros HK. apply enumerate_configurations_solutions. split.
  - intros c. rewrite elem_of_intersection. tauto.
  - apply Forall_forall. intros s Hs.
    pose proof (proj1 (Forall_forall _ _) HK s Hs) as Hh.
    pose proof (referenced_elem_of K s Hs) as Hsub.
    unfold holds in *.
    replace (cells s ∩ (T ∩ referenced K)) with (cells s ∩ T); [done|].
    apply set_eq. intros c. rewrite !elem_of_intersection.
    specialize (Hsub c). tauto.
Qed.

Lemma sound_marked (T S M : gset cell) (st : Solver) :
  sound T st → S ## T → M ⊆ T →
  sound T
    (set_knowledge
       (map (fun s => minus_safes S (minus_mines M s)) (knowledge st))
       (set_safes (S ∪ safes st) (set_mines (M ∪ mines st) st))).
Proof.
  intros (HK & Hm & Hs) HS HM. split; [|split]; cbn.
  - apply Forall_forall. intros s' (s & -> & Hin)%list_elem_of_fmap.
    apply holds_minus_safes; [done|]. apply holds_minus_mines; [done|].
    by apply (proj1 (Forall_forall _ _) HK).
  - intros c [?|?]%elem_of_union; auto.
  - intros c [?|?]%elem_of_union; [by apply (HS c)|by apply (Hs c)].
Qed.

Lemma sound_set_next_uncertain_move (T : gset cell) (st : Solver)
    (move : option cell) :
  sound T st → sound T (set_next_uncertain_move move st).
Proof. intros (? & ? & ?). split; done. Qed.

Lemma GenerateConfiguration_analyze_sound `{PyFloat F} (T : gset cell)
    (st st' : Solver) :
  sound T st →
  GenerateConfigurationSolver.analyze_knowledge st = Ok st' →
  sound T st' ∧ ∃ move, extends (set_next_uncertain_move move st) st'.
Proof.
  intros Hst E.
  destruct (decide (knowledge st = [])) as [HK|HK].
  { unfold GenerateConfigurationSolver.analyze_knowledge in E.
    rewrite bool_decide_eq_true_2 in E by (by rewrite HK).
    injection E as <-. split; [done|].
    exists (next_uncertain_move st). repeat split; done. }
  pose proof (GenerateConfiguration_analyze_spec st HK) as Hspec.
  cbv zeta in Hspec.
  set (confs := GenerateConfigurationSolver.enumerate_configurations
                  (knowledge st)) in *.
  set (R := referenced (knowledge st)) in *.
  set (S := filter (fun c => appearances confs c = 0) R) in *.
  set (M := filter (fun c => appearances confs c ≠ 0
                             ∧ appearances confs c = Z.of_nat (length confs))
                   R) in *.
  set (marked := set_knowledge _ _) in *.
  destruct Hspec as (hist & _ & _ & Hsafe & Hnone & Hguess).
  pose proof Hst as (HKs & _ & _).
  pose proof (true_configuration_enumerated T (knowledge st) HKs) as Htrue.
  fold confs R in Htrue.
  assert (sound T marked) as Hmarked.
  { apply sound_marked; [done| |].
    - intros c [H0 HcR]%elem_of_filter HcT.
      apply (appearances_none confs c (T ∩ R) H0 Htrue).
      apply elem_of_intersection. done.
    - intros c [[_ Hall] HcR]%elem_of_filter.
      pose proof (appearances_all confs c (T ∩ R) Hall Htrue) as Hc.
      apply elem_of_intersection in Hc. tauto. }
  assert (extends (set_next_uncertain_move (next_uncertain_move st) st) marked)
    as Hext.
  { repeat split; cbn; try done.
    - intros c ?. apply elem_of_union. by right.
    - intros c ?. apply elem_of_union. by right. }
  destruct (decide (S = ∅)) as [HS|HS].
  - destruct (decide (R = ∅)) as [HR|HR].
    { rewrite (Hnone HR) in E. discriminate. }
    destruct (Hguess HS HR) as (best & risk & _ & _ & _ & Ean).
    rewrite Ean in E.
    apply choose_uncertain_move_frame in E as [move ->].
    split; [by apply sound_set_next_uncertain_move|].
    exists move.
    destruct Hext as (? & ? & ? & ? & ? & ? & ? & ? & ? & ?).
    repeat split; done.
  - rewrite (Hsafe HS) in E. injection E as <-. eauto.
Qed.

Lemma analyze_knowledge_keeps_sound `{PyFloat F} (T : gset cell)
    (st st' : Solver) :
  sound T st → analyze_knowledge st = Ok st' →
  sound T st' ∧ ∃ move, extends (set_next_uncertain_move move st) st'.
Proof.
  intros Hst. unfold analyze_knowledge.
  assert (∀ st1 move,
            extends (set_next_uncertain_move move
                       (set_knowledge
                          (filter (fun s => cells s ≠ ∅) (knowledge st)) st))
                    st1 →
            extends (set_next_uncertain_move move st) st1) as Hrm.
  { intros st1 move (? & ? & ? & ? & ? & ? & ? & ? & ? & ?).
    repeat split; done. }
  destruct (class st) as [| |g] eqn:Hclass.
  - by apply GenerateConfiguration_analyze_sound.
  - intros [move ->]%ProbabilityTheory_analyze_marks_nothing.
    split; [by apply sound_set_next_uncertain_move|].
    exists move. apply extends_refl.
  - unfold SetBasedSolver.analyze_knowledge.
    rewrite remove_null_sentence_filter. cbn [mbind result_bind].
    pose proof (sound_remove_null T st Hst) as Hst1.
    set (st1 := set_knowledge _ st) in *.
    assert (class st1 = SetBased g) as -> by (subst st1; cbn; done).
    destruct (g =? 1).
    + intros E.
      destruct (GenerateConfiguration_analyze_sound T st1 st' Hst1 E)
        as (? & move & ?).
      split; [done|]. exists move. by apply Hrm.
    + destruct (g =? 2).
      * intros [move ->]%ProbabilityTheory_analyze_marks_nothing.
        split; [by apply sound_set_next_uncertain_move|].
        exists move. apply Hrm, extends_refl.
      * intros [= <-]. split; [done|].
        exists (next_uncertain_move st). apply Hrm.
        repeat split; done.
Qed.

(** analyze_knowledge only draws true conclusions, whatever the class of
    the solver: when it returns from a state that is sound for the mines
    [T] of a board, the state it returns is sound for [T]; the known mines
    and safe cells only grow, and apart from them, the sentences and the
    pending guess nothing changes. *)
Theorem analyze_knowledge_sound `{PyFloat F} (T : gset cell)
    (st st' : Solver) :
  sound T st → analyze_knowledge st = Ok st' →
  sound T st' ∧ ∃ move, extends (set_next_uncertain_move move st) st'.
Proof. apply analyze_knowledge_keeps_sound. Qed.

Lemma analyze_knowledge_sound_witness :
  let T : gset cell := {[(2, 0)]} in
  let st := set_moves_made {[(0, 0); (1, 0)]}
              (set_safes {[(0, 0); (1, 0)]}
                 (set_knowledge [Sentence.__init__ {[(2, 0); (2, 1)]} 1]
                    (Solver.__init__ GenerateConfiguration 3 2 1 true))) in
  let st' := set_next_uncertain_move (Some (0, 1)) st in
  sound T st
  ∧ analyze_knowledge (F := Q) st = Ok st'
  ∧ sound T st'.
Proof.
  intros T st st'.
  assert (sound T st) as Hst.
  { split; [|split].
    - apply Forall_singleton. vm_compute. reflexivity.
    - apply (bool_decide_unpack _). vm_compute. exact I.
    - apply (bool_decide_unpack _). vm_compute. exact I. }
  assert (analyze_knowledge (F := Q) st = Ok st') as E
    by (vm_compute; reflexivity).
  split; [exact Hst|]. split; [exact E|].
  exact (proj1 (analyze_knowledge_sound (F := Q) T st st' Hst E)).
Defined.

(** The moves of a sound solver. *)
Lemma make_move_keeps_sound `{PyFloat F} (T : gset cell) (st st' : Solver)
    (move : option cell) (button : Z) :
  sound T st → make_move st = Ok (st', (move, button)) →
  sound T st'
  ∧ (button = 3 ∧ guess st' = guess st
     ∧ (∃ c, move = Some c ∧ c ∈ T ∧ c ∈ mines st ∧ (c ∉ moves_made st)
             ∧ st' = set_moves_made ({[c]} ∪ moves_made st) st)
     ∨ button = 1 ∧ guess st' = guess st
       ∧ (∃ c, move = Some c ∧ (c ∉ T) ∧ c ∈ safes st'
               ∧ (c ∉ moves_made st'))
     ∨ button = 1 ∧ guess st' = guess st + 1).
Proof.
  intros Hst. unfold make_move, Solver.make_move.
  destruct (filter _ (elements (mines st))) as [|mine l] eqn:Hflag.
  - destruct (match Solver.make_safe_move st with
              | Some _ => Ok st
              | None => analyze_knowledge st
              end) as [st1| |] eqn:E1; cbn [mbind result_bind];
      try discriminate.
    assert (sound T st1 ∧ guess st1 = guess st) as [Hst1 Hg1].
    { destruct (Solver.make_safe_move st).
      - injection E1 as <-. done.
      - destruct (analyze_knowledge_keeps_sound T st st1 Hst E1)
          as (? & mv & (_ & _ & _ & _ & _ & _ & _ & _ & _ & Hg)).
        split; [done|]. exact Hg. }
    destruct (Solver.make_safe_move st1) as [c|] eqn:Hsafe.
    + intros [= <- <- <-]. split; [done|]. right. left.
      split; [done|]. split; [done|]. exists c. split; [done|].
      unfold Solver.make_safe_move in Hsafe.
      assert (c ∈ elements (safes st1 ∖ moves_made st1)) as Hc.
      { cbv zeta in Hsafe. apply head_Some in Hsafe as [l' ->].
        apply elem_of_cons. by left. }
      apply elem_of_elements, elem_of_difference in Hc as [Hcs Hcm].
      destruct Hst1 as (_ & _ & Hs). split; [|done].
      intros HcT. by apply (Hs c).
    + intros [= <- <- <-]. split.
      * destruct Hst1 as (? & ? & ?). split; done.
      * right. right. cbn. split; [done|]. lia.
  - intros [= <- <- <-].
    assert (mine ∈ filter (fun mine => mine ∉ moves_made st)
                          (elements (mines st))) as Hin.
    { rewrite Hflag. apply elem_of_cons. by left. }
    apply list_elem_of_filter in Hin as [Hnm Hm%elem_of_elements].
    split.
    + destruct Hst as (? & ? & ?). split; done.
    + left. split; [done|]. split; [done|]. exists mine.
      destruct Hst as (_ & HmT & _).
      split; [done|]. split; [by apply HmT|]. done.
Qed.

(** make_move on a sound state.  A flag move (button 3) names a known mine
    that was not yet played, which is a mine of the board.  A reveal
    (button 1) that is not counted as a guess names a known safe cell that
    was not yet played, which is not a mine of the board.  The only other
    outcome is a reveal that is counted as a guess, by one.  The state that
    is returned is sound. *)
Theorem make_move_sound `{PyFloat F} (T : gset cell) (st st' : Solver)
    (move : option cell) (button : Z) :
  sound T st → make_move st = Ok (st', (move, button)) →
  sound T st'
  ∧ (button = 3 ∧ guess st' = guess st
     ∧ (∃ c, move = Some c ∧ c ∈ T ∧ c ∈ mines st ∧ (c ∉ moves_made st)
             ∧ st' = set_moves_made ({[c]} ∪ moves_made st) st)
     ∨ button = 1 ∧ guess st' = guess st
       ∧ (∃ c, move = Some c ∧ (c ∉ T) ∧ c ∈ safes st'
               ∧ (c ∉ moves_made st'))
     ∨ button = 1 ∧ guess st' = guess st + 1).
Proof. apply make_move_keeps_sound. Qed.

Lemma make_move_sound_witness :
  let T : gset cell := {[(2, 0)]} in
  let st := set_safes {[(0, 0)]}
              (Solver.__init__ GenerateConfiguration 3 1 1 true) in
  sound T st
  ∧ make_move (F := Q) st = Ok (st, (Some (0, 0), 1))
  ∧ sound T st.
Proof.
  intros T st.
  assert (sound T st) as Hst.
  { split; [constructor|]. split.
    - apply (bool_decide_unpack _). vm_compute. exact I.
    - apply (bool_decide_unpack _). vm_compute. exact I. }
  assert (make_move (F := Q) st = Ok (st, (Some (0, 0), 1))) as E
    by (vm_compute; reflexivity).
  split; [exact Hst|]. split; [exact E|].
  exact (proj1 (make_move_sound (F := Q) T st st (Some (0, 0)) 1 Hst E)).
Defined.

Lemma check_sentence_sound_witness :
  let T : gset cell := {[(0, 0); (2, 2)]} in
  let st := set_knowledge
              [Sentence.__init__ {[(0, 0); (0, 1)]} 1;
               Sentence.__init__ {[(0, 1); (1, 1)]} 0]
              (Solver.__init__ GenerateConfiguration 3 3 2 true) in
  sound T st
  ∧ ∃ st', Solver.check_sentence st = Ok st' ∧ sound T st'.
Proof.
  intros T st.
  assert (sound T st) as Hst.
  { split; [|split].
    - repeat constructor; vm_compute; reflexivity.
    - apply (bool_decide_unpack _). vm_compute. exact I.
    - apply (bool_decide_unpack _). vm_compute. exact I. }
  split; [exact Hst|]. exact (check_sentence_sound T st Hst).
Defined.

(* --------------------------------------------------------------------- *)
(** ** The uncertain move *)
(* --------------------------------------------------------------------- *)

Lemma row_major_elem_of (w h : Z) (c : cell) :
  c ∈ row_major w h ↔ on_board w h c.
Proof.
  unfold row_major, on_board. rewrite list_elem_of_bind. split.
  - intros (cy & (cx & ->%list_elem_of_singleton & Hx%range_elem)%list_elem_of_bind
            & Hy%range_elem). cbn. lia.
  - intros [Hx Hy]. exists c.2. split.
    + apply list_elem_of_bind. exists c.1. split.
      * destruct c. cbn. by apply list_elem_of_singleton.
      * apply range_elem_of. lia.
    + apply range_elem_of. lia.
Qed.

(** The first element of a list that passes a test. *)
Lemma filter_first {A} (P : A → Prop) `{∀ a, Decision (P a)} (l : list A)
    (c : A) (l' : list A) :
  filter P l = c :: l' →
  ∃ l1 l2, l = l1 ++ c :: l2 ∧ P c ∧ ∀ a, a ∈ l1 → ¬ P a.
Proof.
  induction l as [|a l IH]; [done|]. rewrite filter_cons.
  destruct (decide (P a)) as [Ha|Ha].
  - intros [= -> _]. exists [], l. split; [done|]. split; [done|].
    by intros a ?%elem_of_nil.
  - intros (l1 & l2 & -> & Hc & Hl1)%IH. exists (a :: l1), l2.
    split; [done|]. split; [done|].
    intros a' [->|?]%elem_of_cons; [done|by apply Hl1].
Qed.

(** choose_uncertain_move.  When every cell of the board was played
    ([height * width = len(moves_made)]) the division raises
    ZeroDivisionError.  Otherwise the call returns and only the pending
    guess changes.  With [average] the quotient of the mines not yet known
    by the cells not yet played: when the risk of the best informed move is
    at most [average], or when as many cells are keys of the dict as are
    unplayed, the pending guess is the best informed move.  In the other
    case it is the first cell, in the order of the two loops (row by row),
    that was not played and is not a key of the dict; when there is no such
    cell the pending guess stays as it was. *)
Theorem choose_uncertain_move_spec `{PyFloat F} {V} (st : Solver)
    (best : cell) (risk : F) (prob_dict : pydict V) :
  let unknown_tile := height st * width st - Z.of_nat (size (moves_made st)) in
  let unknown_mine := amount_mines st - Z.of_nat (size (mines st)) in
  (unknown_tile = 0 →
   Solver.choose_uncertain_move st best risk prob_dict
   = Raise ZeroDivisionError)
  ∧ (unknown_tile ≠ 0 →
     ∃ average move,
       Fdiv (F_of_Z unknown_mine) (F_of_Z unknown_tile) = Ok average
       ∧ Solver.choose_uncertain_move st best risk prob_dict
         = Ok (set_next_uncertain_move move st)
       ∧ (Fle risk average = true
          ∨ unknown_tile = Z.of_nat (length prob_dict) →
          move = Some best)
       ∧ (Fle risk average = false →
          unknown_tile ≠ Z.of_nat (length prob_dict) →
          (∃ c before after,
             move = Some c
             ∧ row_major (width st) (height st) = before ++ c :: after
             ∧ on_board (width st) (height st) c
             ∧ (c ∉ moves_made st) ∧ (c ∉ Dict.keys prob_dict)
             ∧ ∀ c', c' ∈ before →
                     c' ∈ moves_made st ∨ c' ∈ Dict.keys prob_dict)
          ∨ (move = next_uncertain_move st
             ∧ ∀ c, on_board (width st) (height st) c →
                    c ∈ moves_made st ∨ c ∈ Dict.keys prob_dict))).
Proof.
  intros unknown_tile unknown_mine. unfold Solver.choose_uncertain_move.
  cbv zeta. fold unknown_tile unknown_mine. split.
  - intros ->. by rewrite Fdiv_int_zero.
  - intros Hne.
    destruct (Fdiv_int_ok unknown_mine unknown_tile Hne) as [q Hq].
    rewrite Hq. cbn [mbind result_bind].
    destruct (Fle risk q) eqn:Hle; cbn [orb].
    { exists q, (Some best). split; [done|]. split; [done|].
      split; [done|]. intros; congruence. }
    destruct (Z.eqb_spec unknown_tile (Z.of_nat (length prob_dict)))
      as [Heq|Hneq].
    { exists q, (Some best). split; [done|]. split; [done|].
      split; [done|]. intros _ ?. done. }
    assert (∀ c, ¬ ((c ∉ moves_made st) ∧ Dict.mem prob_dict c = false)
                 → c ∈ moves_made st ∨ c ∈ Dict.keys prob_dict) as Hnot.
    { intros c Hc.
      destruct (decide (c ∈ moves_made st)) as [|Hm]; [by left|]. right.
      destruct (decide (c ∈ Dict.keys prob_dict)) as [|Hk]; [done|].
      exfalso. apply Hc. split; [done|].
      unfold Dict.mem. by apply bool_decide_eq_false. }
    destruct (filter _ (row_major (width st) (height st))) as [|c l] eqn:E.
    + exists q, (next_uncertain_move st). split; [done|].
      split; [by destruct st|]. split; [intros [?|?]; [congruence|done]|].
      intros _ _. right. split; [done|].
      intros c Hc%row_major_elem_of. apply Hnot. intros HP.
      by apply (filter_nil_not_elem_of _ _ c E HP).
    + exists q, (Some c). split; [done|]. split; [done|].
      split; [intros [?|?]; [congruence|done]|]. intros _ _. left.
      destruct (filter_first _ _ _ _ E) as (l1 & l2 & Hl & [Hm Hk] & Hl1).
      exists c, l1, l2. split; [done|]. split; [done|].
      split.
      { apply row_major_elem_of. rewrite Hl. apply elem_of_app. right.
        constructor. }
      split; [done|]. split.
      { unfold Dict.mem in Hk. by apply bool_decide_eq_false in Hk. }
      intros c' Hc'. by apply Hnot, Hl1.
Qed.

(** make_uncertain_move.  With sentences in the knowledge it returns the
    pending guess.  Without sentences it returns a cell of the board that
    was not played and is not a known mine, when there is one, and the
    pending guess when there is none. *)
Theorem make_uncertain_move_spec (st : Solver) :
  (knowledge st ≠ [] →
   Solver.make_uncertain_move st = next_uncertain_move st)
  ∧ (knowledge st = [] →
     (∃ c, Solver.make_uncertain_move st = Some c
           ∧ on_board (width st) (height st) c
           ∧ (c ∉ moves_made st) ∧ (c ∉ mines st))
     ∨ (Solver.make_uncertain_move st = next_uncertain_move st
        ∧ ∀ c, on_board (width st) (height st) c →
               c ∈ moves_made st ∨ c ∈ mines st)).
Proof.
  unfold Solver.make_uncertain_move. split.
  - intros HK. rewrite bool_decide_eq_false_2; [done|].
    intros Hl. by apply HK, nil_length_inv.
  - intros ->. rewrite bool_decide_eq_true_2 by done.
    destruct (filter _ (row_major (width st) (height st))) as [|c l] eqn:E.
    + right. split; [done|]. intros c Hc%row_major_elem_of.
      destruct (decide (c ∈ moves_made st)) as [|Hm]; [by left|]. right.
      destruct (decide (c ∈ mines st)) as [|Hk]; [done|].
      exfalso. by eapply (filter_nil_not_elem_of _ _ c E).
    + left. exists c. split; [done|].
      assert (c ∈ filter (fun c => (c ∉ moves_made st) ∧ (c ∉ mines st))
                         (row_major (width st) (height st))) as Hin.
      { rewrite E. apply elem_of_cons. by left. }
      apply list_elem_of_filter in Hin as [[Hm Hk] Hb%row_major_elem_of].
      done.
Qed.

(* --------------------------------------------------------------------- *)
(** ** Tiles of a board *)
(* --------------------------------------------------------------------- *)

Section BoardFacts.
Variable cfg : settings.

Local Abbreviation on_cfg :=
  (on_board (Z.of_nat (COLS cfg)) (Z.of_nat (ROWS cfg))).

Lemma board_cells_elem_of (c : cell) : c ∈ board_cells cfg ↔ on_cfg c.
Proof.
  unfold board_cells, on_board. rewrite list_elem_of_bind. split.
  - intros (cx & (cy & ->%list_elem_of_singleton & Hy%range_elem)%list_elem_of_bind
            & Hx%range_elem). cbn. lia.
  - intros [Hx Hy]. exists c.1. split.
    + apply list_elem_of_bind. exists c.2. split.
      * destruct c. cbn. by apply list_elem_of_singleton.
      * apply range_elem_of. lia.
    + apply range_elem_of. lia.
Qed.

Lemma range_NoDup (lo hi : Z) : NoDup (range lo hi).
Proof.
  unfold range. apply NoDup_fmap_2.
  - intros a b. lia.
  - apply NoDup_ListNoDup, seq_NoDup.
Qed.

Lemma board_cells_NoDup : NoDup (board_cells cfg).
Proof.
  unfold board_cells. apply NoDup_bind.
  - intros cx1 cx2 c _ _
      (cy1 & ->%list_elem_of_singleton & _)%list_elem_of_bind
      (cy2 & [= -> _]%list_elem_of_singleton & _)%list_elem_of_bind.
    done.
  - intros cx _. apply NoDup_bind.
    + intros cy1 cy2 c _ _ ->%list_elem_of_singleton
        [= ->]%list_elem_of_singleton. done.
    + intros cy _. apply NoDup_singleton.
    + apply range_NoDup.
  - apply range_NoDup.
Qed.

Lemma board_mines_elem_of (b : Board) (c : cell) :
  c ∈ board_mines cfg b ↔ on_cfg c ∧ has_type Mine b c.
Proof.
  unfold board_mines.
  rewrite elem_of_list_to_set, list_elem_of_filter, board_cells_elem_of. tauto.
Qed.

Lemma tile_on_board (b : Board) (c : cell) :
  well_formed cfg b → on_cfg c → is_Some (tile b c).
Proof.
  intros [Hc Hr] [Hx Hy]. unfold tile.
  destruct (lookup_lt_is_Some_2 (board_list b) (Z.to_nat c.1) ltac:(lia))
    as [col Hcol].
  rewrite Hcol. cbn.
  pose proof (proj1 (Forall_forall _ _) Hr col
                (list_elem_of_lookup_2 _ _ _ Hcol)) as Hlen.
  apply lookup_lt_is_Some_2. cbn in Hlen. lia.
Qed.

Lemma tile_at_tile (b : Board) (c : cell) (t : Tile) :
  0 ≤ c.1 → 0 ≤ c.2 → tile b c = Some t → tile_at b c.1 c.2 = Ok t.
Proof.
  intros Hx Hy. unfold tile, tile_at.
  destruct (board_list b !! Z.to_nat c.1) as [col|] eqn:Hcol; [|done].
  cbn. intros Ht.
  rewrite <- (Z2Nat.id c.1) by done.
  rewrite (py_index_nat _ _ _ Hcol). cbn.
  rewrite <- (Z2Nat.id c.2) by done.
  by rewrite (py_index_nat _ _ _ Ht).
Qed.

Lemma tile_set_update (b : Board) (c : cell) (f : Tile → Tile) :
  0 ≤ c.1 → 0 ≤ c.2 → is_Some (tile b c) →
  tile_set b c.1 c.2 f = Ok (update_tile b c f).
Proof.
  intros Hx Hy [t Ht]. unfold tile, tile_set, update_tile in *.
  destruct (board_list b !! Z.to_nat c.1) as [col|] eqn:Hcol; [|done].
  cbn in Ht.
  rewrite <- (Z2Nat.id c.1) by done.
  rewrite (py_index_nat _ _ _ Hcol). cbn.
  rewrite <- (Z2Nat.id c.2) by done.
  rewrite py_update_nat by (by eapply lookup_lt_Some). cbn.
  rewrite py_update_nat by (by eapply lookup_lt_Some). cbn.
  rewrite !Nat2Z.id. do 2 f_equal.
  apply list_eq. intros k.
  destruct (decide (k = Z.to_nat c.1)) as [->|Hne].
  - by rewrite !list_lookup_alter_eq, Hcol.
  - by rewrite !list_lookup_alter_ne.
Qed.

Lemma update_tile_well_formed (b : Board) (c : cell) (f : Tile → Tile) :
  well_formed cfg b → well_formed cfg (update_tile b c f).
Proof.
  intros [Hc Hr]. split; cbn.
  - by rewrite length_alter.
  - apply Forall_lookup. intros k col.
    destruct (decide (k = Z.to_nat c.1)) as [->|Hne].
    + rewrite list_lookup_alter_eq.
      destruct (board_list b !! Z.to_nat c.1) as [col0|] eqn:E; [|done].
      cbn. intros [= <-]. rewrite length_alter.
      apply (proj1 (Forall_lookup _ _) Hr _ _ E).
    + rewrite list_lookup_alter_ne by done.
      apply (proj1 (Forall_lookup _ _) Hr).
Qed.

Lemma tile_update_tile (b : Board) (c c' : cell) (f : Tile → Tile) :
  0 ≤ c.1 → 0 ≤ c.2 → 0 ≤ c'.1 → 0 ≤ c'.2 →
  tile (update_tile b c f) c'
  = if decide (c' = c) then f <$> tile b c else tile b c'.
Proof.
  intros Hx Hy Hx' Hy'. unfold tile, update_tile. cbn.
  destruct (decide (c' = c)) as [->|Hne].
  - rewrite list_lookup_alter_eq.
    destruct (board_list b !! Z.to_nat c.1) as [col|]; [|done].
    cbn. by rewrite list_lookup_alter_eq.
  - destruct (decide (Z.to_nat c'.1 = Z.to_nat c.1)) as [E1|E1].
    + rewrite E1, list_lookup_alter_eq.
      destruct (board_list b !! Z.to_nat c.1) as [col|]; [|done].
      cbn. rewrite list_lookup_alter_ne; [done|].
      intros E2. apply Hne. destruct c, c'. cbn in *. f_equal; lia.
    + by rewrite list_lookup_alter_ne.
Qed.

Lemma has_type_update_tile (ty : tile_type) (b : Board) (c c' : cell)
    (f : Tile → Tile) :
  0 ≤ c.1 → 0 ≤ c.2 → 0 ≤ c'.1 → 0 ≤ c'.2 →
  (∀ t, type (f t) = ty ↔ type t = ty) →
  has_type ty (update_tile b c f) c' ↔ has_type ty b c'.
Proof.
  intros Hx Hy Hx' Hy' Hf. unfold has_type.
  rewrite tile_update_tile by done.
  destruct (decide (c' = c)) as [->|Hne]; [|done].
  destruct (tile b c) as [t|]; cbn.
  - split; intros (t' & [= <-] & Ht); eexists; (split; [done|]);
      by apply Hf.
  - split; intros (t' & [=] & _).
Qed.

Lemma init_well_formed : well_formed cfg (Board.__init__ cfg).
Proof.
  unfold Board.__init__, range. split; cbn.
  - rewrite !length_map, length_seq. lia.
  - apply Forall_forall. intros col (cx & -> & _)%list_elem_of_fmap.
    rewrite !length_map, length_seq. lia.
Qed.

Lemma range_lookup (lo hi : Z) (k : nat) :
  (Z.of_nat k < hi - lo) → range lo hi !! k = Some (lo + Z.of_nat k).
Proof.
  intros Hk. unfold range. rewrite list_lookup_fmap.
  rewrite lookup_seq_lt by lia. done.
Qed.

Lemma init_tile (c : cell) :
  on_cfg c →
  tile (Board.__init__ cfg) c = Some (Tile.__init__ c.1 c.2 tile_empty Unknown).
Proof.
  intros [Hx Hy]. unfold tile, Board.__init__. cbn.
  rewrite list_lookup_fmap, (range_lookup 0 _ (Z.to_nat c.1)) by lia. cbn.
  rewrite list_lookup_fmap, (range_lookup 0 _ (Z.to_nat c.2)) by lia. cbn.
  do 2 f_equal; lia.
Qed.

End BoardFacts.

(* --------------------------------------------------------------------- *)
(** ** Board.check_neighbours and Board.place_clues *)
(* --------------------------------------------------------------------- *)

Lemma for_each_map {S A B} (g : A → B) (l : list A) (body : S → B → result S)
    (s : S) :
  for_each (map g l) body s = for_each l (fun s a => body s (g a)) s.
Proof.
  revert s. induction l as [|a l IH]; intros s; cbn; [done|].
  destruct (body s (g a)); cbn; auto.
Qed.

Lemma for_each_ext {S A} (l : list A) (body1 body2 : S → A → result S) (s : S) :
  (∀ s a, body1 s a = body2 s a) → for_each l body1 s = for_each l body2 s.
Proof.
  intros Hext. revert s. induction l as [|a l IH]; intros s; cbn; [done|].
  rewrite Hext. destruct (body2 s a); cbn; auto.
Qed.

Section Clues.
Variable cfg : settings.

Local Abbreviation on_cfg :=
  (on_board (Z.of_nat (COLS cfg)) (Z.of_nat (ROWS cfg))).

Lemma is_inside_on_board (cx cy : Z) :
  Board.is_inside cfg cx cy = bool_decide (on_cfg (cx, cy)).
Proof.
  unfold Board.is_inside, on_board. cbn. case_bool_decide as Hb.
  - destruct Hb as [[? ?] [? ?]].
    rewrite !(proj2 (Z.leb_le _ _)), !(proj2 (Z.ltb_lt _ _)) by done. done.
  - apply not_true_is_false. intros Ht. apply Hb.
    apply andb_true_iff in Ht as [[?%Z.leb_le ?%Z.ltb_lt]%andb_true_iff
                                  [?%Z.leb_le ?%Z.ltb_lt]%andb_true_iff].
    done.
Qed.

(** The counting loop of check_neighbours over a list of cells. *)
Lemma count_mines_loop (b : Board) (l : list cell) (total : Z) :
  well_formed cfg b →
  for_each l
    (fun total p =>
       if Board.is_inside cfg p.1 p.2 then
         t ← tile_at b p.1 p.2;
         if bool_decide (type t = Mine) then Ok (total + 1) else Ok total
       else Ok total) total
  = Ok (total
        + Z.of_nat (length (filter (fun p => on_cfg p ∧ has_type Mine b p) l))).
Proof.
  intros Hwf. revert total. induction l as [|p l IH]; intros total.
  - cbn. f_equal. lia.
  - cbn [for_each]. rewrite filter_cons.
    replace (Board.is_inside cfg p.1 p.2) with (bool_decide (on_cfg p))
      by (destruct p; symmetry; apply is_inside_on_board).
    case_bool_decide as Hp.
    + destruct (tile_on_board cfg b p Hwf Hp) as [t Ht].
      destruct Hp as [[? ?] [? ?]].
      rewrite (tile_at_tile b p t) by done. cbn [mbind result_bind].
      case_bool_decide as Hm.
      * rewrite decide_True.
        2:{ split; [done|]. exists t. done. }
        cbn [mbind result_bind]. rewrite IH. f_equal. cbn [length]. lia.
      * rewrite decide_False.
        2:{ intros [_ (t' & Ht' & Hty)]. rewrite Ht in Ht'.
            injection Ht' as <-. done. }
        cbn [mbind result_bind]. apply IH.
    + rewrite decide_False by tauto. cbn [mbind result_bind]. apply IH.
Qed.

Lemma offsets_block (cx cy : Z) :
  map (fun o : Z * Z => (cx + o.1, cy + o.2))
      (x_offset ← range (-1) 2; y_offset ← range (-1) 2; [(x_offset, y_offset)])
  = block (cx, cy).
Proof.
  rewrite block_cells. cbn [fst snd].
  change (x_offset ← range (-1) 2; y_offset ← range (-1) 2;
          [(x_offset, y_offset)])
    with [(-1, -1); (-1, 0); (-1, 1); (0, -1); (0, 0); (0, 1);
          (1, -1); (1, 0); (1, 1)].
  cbn [map fst snd].
  replace (cx + -1) with (cx - 1) by lia.
  replace (cy + -1) with (cy - 1) by lia.
  replace (cx + 0) with cx by lia.
  replace (cy + 0) with cy by lia.
  reflexivity.
Qed.

Lemma check_neighbours_count (b : Board) (cx cy : Z) :
  well_formed cfg b →
  Board.check_neighbours cfg b cx cy
  = Ok (Z.of_nat
          (length (filter (fun p => on_cfg p ∧ has_type Mine b p)
                          (block (cx, cy))))).
Proof.
  intros Hwf. unfold Board.check_neighbours.
  rewrite (for_each_nested (range (-1) 2) (fun _ => range (-1) 2)
             (fun total_mines x_offset y_offset =>
                let neighbour_x := cx + x_offset in
                let neighbour_y := cy + y_offset in
                if Board.is_inside cfg neighbour_x neighbour_y then
                  t ← tile_at b neighbour_x neighbour_y;
                  if bool_decide (type t = Mine) then Ok (total_mines + 1)
                  else Ok total_mines
                else Ok total_mines)).
  rewrite <- offsets_block.
  pose proof (count_mines_loop b
                (map (fun o : Z * Z => (cx + o.1, cy + o.2))
                   (x_offset ← range (-1) 2; y_offset ← range (-1) 2;
                    [(x_offset, y_offset)])) 0 Hwf) as Hloop.
  rewrite for_each_map in Hloop. rewrite Z.add_0_l in Hloop.
  rewrite <- Hloop. apply for_each_ext. intros total [xo yo]. reflexivity.
Qed.

Lemma filter_size {A} `{Countable A} (P : A → Prop) `{∀ a, Decision (P a)}
    (l : list A) :
  NoDup l →
  length (filter P l) = size (list_to_set (filter P l) : gset A).
Proof. intros Hl. symmetry. by apply size_list_to_set, NoDup_filter. Qed.

Lemma mines_in_block (b : Board) (c : cell) :
  (list_to_set (filter (fun p => on_cfg p ∧ has_type Mine b p) (block c))
   : gset cell)
  = board_mines cfg b ∩ list_to_set (block c).
Proof.
  apply set_eq. intros p.
  rewrite elem_of_intersection, board_mines_elem_of, !elem_of_list_to_set,
    list_elem_of_filter. tauto.
Qed.

Lemma mines_in_neighbours (b : Board) (c : cell) :
  ¬ has_type Mine b c →
  board_mines cfg b ∩ list_to_set (block c)
  = neighbours (Z.of_nat (COLS cfg)) (Z.of_nat (ROWS cfg)) c
    ∩ board_mines cfg b.
Proof.
  intros Hc. apply set_eq. intros p.
  rewrite !elem_of_intersection, board_mines_elem_of, elem_of_list_to_set,
    neighbours_elem_of, block_elem_of.
  split; [|tauto]. intros [[Hon Hm] Hb].
  assert (p ≠ c) by (intros ->; done). tauto.
Qed.

Lemma neighbours_size (w h : Z) (c : cell) : (size (neighbours w h c) ≤ 8)%nat.
Proof.
  unfold neighbours.
  rewrite size_list_to_set by apply NoDup_filter, block_NoDup.
  assert (length (block c) = 9%nat) as Hlen by (by rewrite block_cells).
  assert (c ∈ block c) as Hin by (apply block_elem_of; lia).
  pose proof (length_filter_lt (fun p => p ≠ c ∧ on_board w h p) (block c) c
                Hin ltac:(tauto)).
  lia.
Qed.

(** check_neighbours never raises on a board of the configured size: it
    reads only tiles of the board.  It returns the number of mines in the
    3x3 block around the cell, the cell itself included, that are on the
    board; for a cell that is no mine that is the number of mines among its
    neighbours, at most 8. *)
Theorem check_neighbours_spec (b : Board) (cx cy : Z) :
  well_formed cfg b →
  Board.check_neighbours cfg b cx cy
  = Ok (Z.of_nat (size (board_mines cfg b ∩ list_to_set (block (cx, cy)))))
  ∧ (¬ has_type Mine b (cx, cy) →
     Board.check_neighbours cfg b cx cy
     = Ok (Z.of_nat
             (size (neighbours (Z.of_nat (COLS cfg)) (Z.of_nat (ROWS cfg))
                      (cx, cy)
                    ∩ board_mines cfg b)))
     ∧ (size (neighbours (Z.of_nat (COLS cfg)) (Z.of_nat (ROWS cfg)) (cx, cy)
              ∩ board_mines cfg b) ≤ 8)%nat).
Proof.
  intros Hwf. rewrite check_neighbours_count by done.
  rewrite filter_size by apply block_NoDup. rewrite mines_in_block.
  split; [done|]. intros Hc. rewrite mines_in_neighbours by done.
  split; [done|].
  etransitivity;
    [|apply (neighbours_size (Z.of_nat (COLS cfg)) (Z.of_nat (ROWS cfg))
               (cx, cy))].
  apply subseteq_size. intros p. rewrite elem_of_intersection. tauto.
Qed.

Lemma check_neighbours_not_mine (b : Board) (c : cell) :
  well_formed cfg b → ¬ has_type Mine b c →
  Board.check_neighbours cfg b c.1 c.2
  = Ok (Z.of_nat
          (size (neighbours (Z.of_nat (COLS cfg)) (Z.of_nat (ROWS cfg)) c
                 ∩ board_mines cfg b))).
Proof.
  intros Hwf Hc. destruct c as [cx cy]. cbn [fst snd].
  rewrite check_neighbours_count by done.
  rewrite filter_size by apply block_NoDup. rewrite mines_in_block.
  by rewrite mines_in_neighbours.
Qed.

End Clues.

Section PlaceClues.
Variable cfg : settings.

Local Abbreviation on_cfg :=
  (on_board (Z.of_nat (COLS cfg)) (Z.of_nat (ROWS cfg))).

(** The number of mines among the neighbours of a cell of the board. *)
Local Abbreviation mines_around b c :=
  (Z.of_nat (size (neighbours (Z.of_nat (COLS cfg)) (Z.of_nat (ROWS cfg)) c
                   ∩ board_mines cfg b))).

Lemma board_mines_ext (b b' : Board) :
  (∀ c, on_cfg c → has_type Mine b' c ↔ has_type Mine b c) →
  board_mines cfg b' = board_mines cfg b.
Proof.
  intros Hext. apply set_eq. intros c. rewrite !board_mines_elem_of.
  split; intros [Hc Hm]; (split; [done|]); by apply Hext.
Qed.

Lemma clue_tile_type (n : Z) (t : Tile) :
  type (clue_tile n t) = Mine ↔ type t = Mine.
Proof.
  unfold clue_tile. destruct (type t) eqn:E; destruct (0 <? n); cbn;
    rewrite ?E; done.
Qed.

Lemma tile_numbers_index (n : Z) :
  1 ≤ n ≤ 8 → py_index tile_numbers (n - 1) = Ok (TileNumber n).
Proof.
  intros Hn.
  assert (n = 1 ∨ n = 2 ∨ n = 3 ∨ n = 4 ∨ n = 5 ∨ n = 6 ∨ n = 7 ∨ n = 8)
    as Hcases by lia.
  repeat (destruct Hcases as [->|Hcases]; [reflexivity|]).
  subst. reflexivity.
Qed.

(** The body of the two loops of place_clues at one cell of the board. *)
Lemma place_clues_step (b : Board) (c : cell) :
  well_formed cfg b → on_cfg c →
  ∃ b1,
    (t ← tile_at b c.1 c.2;
     if negb (bool_decide (type t = Mine)) then
       total_mines ← Board.check_neighbours cfg b c.1 c.2;
       if 0 <? total_mines then
         img ← py_index tile_numbers (total_mines - 1);
         b1 ← tile_set b c.1 c.2 (set_image img);
         b2 ← tile_set b1 c.1 c.2 (set_type Clue);
         tile_set b2 c.1 c.2 (set_nearby_mine total_mines)
       else Ok b
     else Ok b) = Ok b1
    ∧ well_formed cfg b1
    ∧ dug b1 = dug b ∧ first_click b1 = first_click b
    ∧ board_surface b1 = board_surface b
    ∧ ∀ c', on_cfg c' →
            tile b1 c' = if decide (c' = c)
                         then clue_tile (mines_around b c) <$> tile b c
                         else tile b c'.
Proof.
  intros Hwf Hc.
  destruct (tile_on_board cfg b c Hwf Hc) as [t Ht].
  pose proof Hc as [[Hx _] [Hy _]].
  rewrite (tile_at_tile b c t Hx Hy Ht). cbn [mbind result_bind].
  assert (∀ c', tile b c' = if decide (c' = c)
                            then (fun t => t) <$> tile b c else tile b c')
    as Hsame.
  { intros c'. destruct (decide (c' = c)) as [->|]; [|done].
    by destruct (tile b c). }
  case_bool_decide as Hm; cbn [negb].
  { exists b. split; [done|]. repeat (split; [done|]).
    intros c' _. rewrite (Hsame c'). destruct (decide (c' = c)); [|done].
    rewrite Ht. cbn. unfold clue_tile. by rewrite Hm. }
  rewrite (check_neighbours_not_mine cfg b c Hwf).
  2:{ intros (t' & Ht' & Hty). rewrite Ht in Ht'. injection Ht' as <-. done. }
  cbn [mbind result_bind].
  set (n := mines_around b c).
  destruct (Z.ltb_spec 0 n) as [Hpos|Hzero].
  2:{ exists b. split; [done|]. repeat (split; [done|]).
      intros c' _. rewrite (Hsame c'). destruct (decide (c' = c)); [|done].
      rewrite Ht. cbn. unfold clue_tile.
      destruct (type t); try done; by rewrite (proj2 (Z.ltb_ge 0 n)). }
  assert (n ≤ 8) as Hle.
  { subst n.
    pose proof (neighbours_size (Z.of_nat (COLS cfg)) (Z.of_nat (ROWS cfg)) c).
    assert (size (neighbours (Z.of_nat (COLS cfg)) (Z.of_nat (ROWS cfg)) c
                  ∩ board_mines cfg b)
            ≤ size (neighbours (Z.of_nat (COLS cfg)) (Z.of_nat (ROWS cfg)) c))%nat.
    { apply subseteq_size. intros p. rewrite elem_of_intersection. tauto. }
    lia. }
  rewrite tile_numbers_index by lia. cbn [mbind result_bind].
  rewrite (tile_set_update b c) by (by rewrite ?Ht).
  cbn [mbind result_bind].
  set (b1 := update_tile b c (set_image (TileNumber n))).
  assert (tile b1 c = Some (set_image (TileNumber n) t)) as Ht1.
  { subst b1. rewrite tile_update_tile by done.
    rewrite decide_True by done. by rewrite Ht. }
  rewrite (tile_set_update b1 c) by (by rewrite ?Ht1).
  cbn [mbind result_bind].
  set (b2 := update_tile b1 c (set_type Clue)).
  assert (tile b2 c = Some (set_type Clue (set_image (TileNumber n) t))) as Ht2.
  { subst b2. rewrite tile_update_tile by done.
    rewrite decide_True by done. by rewrite Ht1. }
  rewrite (tile_set_update b2 c) by (by rewrite ?Ht2).
  eexists. split; [done|].
  split; [by do 3 apply update_tile_well_formed|].
  repeat (split; [done|]).
  intros c' [[Hx' _] [Hy' _]].
  rewrite tile_update_tile by done.
  destruct (decide (c' = c)) as [->|Hne].
  - rewrite Ht2, Ht. cbn. unfold clue_tile.
    destruct (type t); try done; by rewrite (proj2 (Z.ltb_lt 0 n)).
  - subst b2 b1. rewrite !tile_update_tile by done.
    by rewrite !decide_False by done.
Qed.

Lemma place_clues_loop (l : list cell) (b : Board) :
  NoDup l → Forall (fun c => on_cfg c) l → well_formed cfg b →
  ∃ b',
    for_each l
      (fun b '(cx, cy) =>
         t ← tile_at b cx cy;
         if negb (bool_decide (type t = Mine)) then
           total_mines ← Board.check_neighbours cfg b cx cy;
           if 0 <? total_mines then
             img ← py_index tile_numbers (total_mines - 1);
             b1 ← tile_set b cx cy (set_image img);
             b2 ← tile_set b1 cx cy (set_type Clue);
             tile_set b2 cx cy (set_nearby_mine total_mines)
           else Ok b
         else Ok b) b = Ok b'
    ∧ well_formed cfg b'
    ∧ dug b' = dug b ∧ first_click b' = first_click b
    ∧ board_surface b' = board_surface b
    ∧ ∀ c, on_cfg c →
           tile b' c = if decide (c ∈ l)
                       then clue_tile (mines_around b c) <$> tile b c
                       else tile b c.
Proof.
  intros Hnd. revert b. induction Hnd as [|c l Hc Hnd IH]; intros b Hon Hwf.
  - exists b. cbn. repeat (split; [done|]). intros c _.
    rewrite decide_False; [done|]. by intros ?%elem_of_nil.
  - apply Forall_cons in Hon as [Hcb Hon].
    destruct (place_clues_step b c Hwf Hcb)
      as (b1 & E1 & Hwf1 & Hd1 & Hf1 & Hs1 & Ht1).
    cbn [for_each]. destruct c as [cx cy]. cbn [fst snd] in E1.
    rewrite E1. cbn [mbind result_bind].
    destruct (IH b1 Hon Hwf1) as (b' & E' & Hwf' & Hd' & Hf' & Hs' & Ht').
    exists b'. split; [done|]. split; [done|].
    split; [congruence|]. split; [congruence|]. split; [congruence|].
    assert (board_mines cfg b1 = board_mines cfg b) as Hmines.
    { apply board_mines_ext. intros c' Hc'. unfold has_type.
      rewrite (Ht1 c' Hc').
      destruct (decide (c' = (cx, cy))) as [->|]; [|done].
      destruct (tile b (cx, cy)) as [t|]; cbn.
      - split; intros (t' & [= <-] & Hty); eexists; (split; [done|]);
          by apply clue_tile_type in Hty || by apply clue_tile_type.
      - split; intros (t' & [=] & _). }
    intros c' Hc'. rewrite (Ht' c' Hc'), (Ht1 c' Hc'), Hmines.
    destruct (decide (c' = (cx, cy))) as [->|Hne].
    + rewrite decide_False by done.
      rewrite decide_True; [done|]. apply elem_of_cons. by left.
    + destruct (decide (c' ∈ l)) as [Hin|Hin].
      * rewrite decide_True; [done|]. apply elem_of_cons. by right.
      * rewrite decide_False; [done|].
        intros [?|?]%elem_of_cons; done.
Qed.

Lemma place_clues_returns (b : Board) :
  well_formed cfg b →
  ∃ b',
    Board.place_clues cfg b = Ok b'
    ∧ well_formed cfg b'
    ∧ dug b' = dug b ∧ first_click b' = first_click b
    ∧ board_surface b' = board_surface b
    ∧ board_mines cfg b' = board_mines cfg b
    ∧ ∀ c t, on_cfg c → tile b c = Some t →
             tile b' c = Some (clue_tile (mines_around b c) t).
Proof.
  intros Hwf. unfold Board.place_clues.
  rewrite (for_each_nested (range 0 (Z.of_nat (COLS cfg)))
             (fun _ => range 0 (Z.of_nat (ROWS cfg)))
             (fun b cx cy =>
                t ← tile_at b cx cy;
                if negb (bool_decide (type t = Mine)) then
                  total_mines ← Board.check_neighbours cfg b cx cy;
                  if 0 <? total_mines then
                    img ← py_index tile_numbers (total_mines - 1);
                    b1 ← tile_set b cx cy (set_image img);
                    b2 ← tile_set b1 cx cy (set_type Clue);
                    tile_set b2 cx cy (set_nearby_mine total_mines)
                  else Ok b
                else Ok b)).
  fold (board_cells cfg).
  destruct (place_clues_loop (board_cells cfg) b (board_cells_NoDup cfg))
    as (b' & E & Hwf' & Hd & Hf & Hs & Ht); [|done|].
  { apply Forall_forall. intros c. apply board_cells_elem_of. }
  exists b'. split; [done|]. repeat (split; [done|]).
  assert (∀ c t, on_cfg c → tile b c = Some t →
                 tile b' c = Some (clue_tile (mines_around b c) t)) as Htile.
  { intros c t Hc Hbt. rewrite (Ht c Hc), Hbt.
    rewrite decide_True by (by apply board_cells_elem_of). done. }
  split; [|done].
  apply board_mines_ext. intros c Hc. unfold has_type.
  destruct (tile_on_board cfg b c Hwf Hc) as [t Hbt].
  rewrite (Htile c t Hc Hbt), Hbt.
  split; intros (t' & [= <-] & Hty); eexists; (split; [done|]);
    by apply clue_tile_type in Hty || by apply clue_tile_type.
Qed.

(** place_clues never raises on a board of the configured size.  It leaves
    the mines where they are; a tile that is no mine and has [n > 0] mines
    among its neighbours becomes a clue tile with the numbered face [n] and
    [nearby_mine = n]; the other tiles, and the rest of the board, are not
    changed. *)
Theorem place_clues_spec (b : Board) :
  well_formed cfg b →
  ∃ b',
    Board.place_clues cfg b = Ok b'
    ∧ well_formed cfg b'
    ∧ dug b' = dug b ∧ first_click b' = first_click b
    ∧ board_surface b' = board_surface b
    ∧ board_mines cfg b' = board_mines cfg b
    ∧ ∀ c t, on_cfg c → tile b c = Some t →
             tile b' c = Some (clue_tile (mines_around b c) t).
Proof. apply place_clues_returns. Qed.

End PlaceClues.

Lemma check_neighbours_spec_witness :
  let cfg := {| ROWS := 2; COLS := 2; AMOUNT_MINES := 1 |} in
  let b := update_tile (Board.__init__ cfg) (0, 0) mine_tile in
  well_formed cfg b
  ∧ Board.check_neighbours cfg b 1 1 = Ok 1
  ∧ Board.check_neighbours cfg b 0 0 = Ok 1.
Proof.
  intros cfg b.
  assert (well_formed cfg b) as Hwf.
  { apply update_tile_well_formed, init_well_formed. }
  split; [exact Hwf|].
  pose proof (check_neighbours_spec cfg b 1 1 Hwf) as [E1 _].
  pose proof (check_neighbours_spec cfg b 0 0 Hwf) as [E0 _].
  split.
  - rewrite E1. vm_compute. reflexivity.
  - rewrite E0. vm_compute. reflexivity.
Defined.

Lemma place_clues_spec_witness :
  let cfg := {| ROWS := 2; COLS := 2; AMOUNT_MINES := 1 |} in
  let b := update_tile (Board.__init__ cfg) (0, 0) mine_tile in
  well_formed cfg b
  ∧ ∃ b', Board.place_clues cfg b = Ok b'
          ∧ board_mines cfg b' = board_mines cfg b
          ∧ tile b' (1, 1)
            = Some (clue_tile 1 (Tile.__init__ 1 1 tile_empty Unknown)).
Proof.
  intros cfg b.
  assert (well_formed cfg b) as Hwf.
  { apply update_tile_well_formed, init_well_formed. }
  split; [exact Hwf|].
  destruct (place_clues_spec cfg b Hwf)
    as (b' & E & _ & _ & _ & _ & Hm & Ht).
  exists b'. split; [exact E|]. split; [exact Hm|].
  rewrite (Ht (1, 1) (Tile.__init__ 1 1 tile_empty Unknown)).
  - vm_compute. reflexivity.
  - vm_compute. repeat split; discriminate.
  - vm_compute. reflexivity.
Defined.

(* --------------------------------------------------------------------- *)
(** ** Board.place_mines *)
(* --------------------------------------------------------------------- *)

Section PlaceMines.
Variable cfg : settings.

Local Abbreviation on_cfg :=
  (on_board (Z.of_nat (COLS cfg)) (Z.of_nat (ROWS cfg))).

Lemma randint_spec (n : nat) (v r : Z) :
  randint 0 (Z.of_nat n - 1) v = Ok r → 0 ≤ r < Z.of_nat n.
Proof.
  unfold randint. destruct (Z.ltb_spec (Z.of_nat n - 1) 0); [done|].
  intros [= <-].
  pose proof (Z.mod_pos_bound v (Z.of_nat n - 1 - 0 + 1) ltac:(lia)). lia.
Qed.

Lemma randint_returns (n : nat) (v : Z) :
  (0 < n)%nat → ∃ r, randint 0 (Z.of_nat n - 1) v = Ok r.
Proof.
  intros Hn. unfold randint.
  destruct (Z.ltb_spec (Z.of_nat n - 1) 0); [lia|]. eauto.
Qed.

Lemma randint_id (n : nat) (v : Z) :
  0 ≤ v < Z.of_nat n → randint 0 (Z.of_nat n - 1) v = Ok v.
Proof.
  intros Hv. unfold randint.
  destruct (Z.ltb_spec (Z.of_nat n - 1) 0); [lia|]. f_equal.
  rewrite Z.mod_small by lia. lia.
Qed.

(** The two assignments of place_mines to the chosen tile. *)
Lemma place_mine_at (b : Board) (c : cell) :
  well_formed cfg b → on_cfg c →
  (b1 ← tile_set b c.1 c.2 (set_image tile_mine);
   tile_set b1 c.1 c.2 (set_type Mine))
  = Ok (update_tile b c mine_tile).
Proof.
  intros Hwf Hc. pose proof Hc as [[Hx _] [Hy _]].
  destruct (tile_on_board cfg b c Hwf Hc) as [t Ht].
  assert (tile_set b c.1 c.2 (set_image tile_mine)
          = Ok (update_tile b c (set_image tile_mine))) as ->.
  { apply tile_set_update; [done..|]. by rewrite Ht. }
  cbn [mbind result_bind].
  assert (tile_set (update_tile b c (set_image tile_mine)) c.1 c.2
            (set_type Mine)
          = Ok (update_tile (update_tile b c (set_image tile_mine)) c
                  (set_type Mine))) as ->.
  { apply tile_set_update; [done..|].
    rewrite tile_update_tile, decide_True, Ht by done. by eexists. }
  f_equal. unfold update_tile, mine_tile, set_board_list. cbn. f_equal.
  apply list_eq. intros k.
  destruct (decide (k = Z.to_nat c.1)) as [->|Hne].
  - rewrite !list_lookup_alter_eq.
    destruct (board_list b !! Z.to_nat c.1) as [col|]; [|done]. cbn. f_equal.
    apply list_eq. intros j.
    destruct (decide (j = Z.to_nat c.2)) as [->|Hne].
    + rewrite !list_lookup_alter_eq. by destruct (col !! Z.to_nat c.2).
    + by rewrite !list_lookup_alter_ne.
  - by rewrite !list_lookup_alter_ne.
Qed.

(** One run of the [while True] loop of place_mines. *)
Lemma place_one_mine_spec (b : Board) (fcx fcy : Z) (tape : list Z) :
  well_formed cfg b →
  match Board.place_one_mine cfg b fcx fcy tape with
  | Ok (b', rest) =>
      ∃ c, on_cfg c ∧ c ≠ (fcx, fcy) ∧ has_type Unknown b c
           ∧ b' = update_tile b c mine_tile
           ∧ rest `suffix_of` tape
  | Raise e => COLS cfg = 0%nat ∨ ROWS cfg = 0%nat
  | OutOfFuel => True
  end.
Proof.
  intros Hwf.
  assert (∀ tape,
            (match Board.place_one_mine cfg b fcx fcy tape with
             | Ok (b', rest) =>
                 ∃ c, on_cfg c ∧ c ≠ (fcx, fcy) ∧ has_type Unknown b c
                      ∧ b' = update_tile b c mine_tile
                      ∧ rest `suffix_of` tape
             | Raise e => COLS cfg = 0%nat ∨ ROWS cfg = 0%nat
             | OutOfFuel => True
             end)
            ∧ ∀ v,
                match Board.place_one_mine cfg b fcx fcy (v :: tape) with
                | Ok (b', rest) =>
                    ∃ c, on_cfg c ∧ c ≠ (fcx, fcy) ∧ has_type Unknown b c
                         ∧ b' = update_tile b c mine_tile
                         ∧ rest `suffix_of` v :: tape
                | Raise e => COLS cfg = 0%nat ∨ ROWS cfg = 0%nat
                | OutOfFuel => True
                end) as Hboth; [|apply Hboth].
  clear tape. intros tape. induction tape as [|vy tape [IH1 IH2]].
  { split; [done|]. intros v. done. }
  split; [apply IH2|]. intros vx. cbn [Board.place_one_mine].
  destruct (randint 0 (Z.of_nat (COLS cfg) - 1) vx) as [cx|e|] eqn:Ex;
    cbn [mbind result_bind].
  2:{ left. unfold randint in Ex.
      destruct (Z.ltb_spec (Z.of_nat (COLS cfg) - 1) 0); [lia|done]. }
  2:{ unfold randint in Ex. destruct (_ <? _); done. }
  destruct (randint 0 (Z.of_nat (ROWS cfg) - 1) vy) as [cy|e|] eqn:Ey;
    cbn [mbind result_bind].
  2:{ right. unfold randint in Ey.
      destruct (Z.ltb_spec (Z.of_nat (ROWS cfg) - 1) 0); [lia|done]. }
  2:{ unfold randint in Ey. destruct (_ <? _); done. }
  apply randint_spec in Ex, Ey.
  assert (on_cfg (cx, cy)) as Hc by (split; cbn; lia).
  destruct (tile_on_board cfg b (cx, cy) Hwf Hc) as [t Ht].
  pose proof (tile_at_tile b (cx, cy) t ltac:(cbn; lia) ltac:(cbn; lia) Ht)
    as Hat.
  cbn [fst snd] in Hat. rewrite Hat. cbn [mbind result_bind].
  destruct (bool_decide (type t = Unknown)
            && negb (bool_decide ((cx, cy) = (fcx, fcy)))) eqn:Etest.
  - apply andb_true_iff in Etest as [Hty%bool_decide_eq_true Hfc].
    apply negb_true_iff, bool_decide_eq_false in Hfc.
    pose proof (place_mine_at b (cx, cy) Hwf Hc) as Hset.
    cbn [fst snd] in Hset.
    destruct (tile_set b cx cy (set_image tile_mine)) as [b1| |];
      cbn [mbind result_bind] in *; try discriminate.
    rewrite Hset. cbn [mbind result_bind].
    exists (cx, cy). split; [done|]. split; [done|].
    split; [by exists t|]. split; [done|].
    do 2 apply suffix_cons_r. done.
  - destruct (Board.place_one_mine cfg b fcx fcy tape) as [[b' rest]|e|];
      [|done..].
    destruct IH1 as (c & ? & ? & ? & ? & Hsuf).
    exists c. repeat (split; [done|]). by do 2 apply suffix_cons_r.
Qed.

(** The [for] loop of place_mines: [n] mines are placed on [n] blank tiles
    other than the first click. *)
Lemma place_mines_loop_spec (n : nat) (b : Board) (fcx fcy : Z)
    (tape : list Z) :
  well_formed cfg b →
  match Board.place_mines_loop cfg n b fcx fcy tape with
  | Ok (b', rest) =>
      ∃ New : gset cell,
        size New = n
        ∧ (∀ c, c ∈ New → on_cfg c ∧ c ≠ (fcx, fcy) ∧ has_type Unknown b c)
        ∧ well_formed cfg b'
        ∧ dug b' = dug b ∧ first_click b' = first_click b
        ∧ board_surface b' = board_surface b
        ∧ rest `suffix_of` tape
        ∧ ∀ c, on_cfg c →
               tile b' c = if decide (c ∈ New) then mine_tile <$> tile b c
                           else tile b c
  | Raise e => COLS cfg = 0%nat ∨ ROWS cfg = 0%nat
  | OutOfFuel => True
  end.
Proof.
  revert b tape. induction n as [|n IH]; intros b tape Hwf.
  - cbn. exists ∅. split; [done|]. split; [by intros c ?%not_elem_of_empty|].
    repeat (split; [done|]). intros c _. by rewrite decide_False.
  - cbn [Board.place_mines_loop].
    pose proof (place_one_mine_spec b fcx fcy tape Hwf) as H1.
    destruct (Board.place_one_mine cfg b fcx fcy tape) as [[b1 tape1]|e|];
      cbn [mbind result_bind]; [|done..].
    destruct H1 as (c & Hc & Hfc & Hty & -> & Hsuf1).
    pose proof Hc as [[Hx _] [Hy _]].
    specialize (IH (update_tile b c mine_tile) tape1
                  (update_tile_well_formed cfg b c mine_tile Hwf)).
    destruct (Board.place_mines_loop cfg n _ fcx fcy tape1)
      as [[b' rest]|e|]; [|done..].
    destruct IH as (New & Hsize & Hnew & Hwf' & Hd & Hf & Hs & Hsuf & Ht).
    assert (c ∉ New) as HcN.
    { intros [_ [_ (t' & Ht' & Hty')]]%Hnew.
      rewrite tile_update_tile, decide_True in Ht' by done.
      destruct (tile b c) as [t0|]; [|done]. by injection Ht' as <-. }
    exists ({[c]} ∪ New). split; [|split; [|split; [|split; [|split;
      [|split; [|split]]]]]]; try done.
    + rewrite (size_union {[c]} New).
      * rewrite size_singleton. lia.
      * intros c' ->%elem_of_singleton. done.
    + intros c' [->%elem_of_singleton|Hc']%elem_of_union; [done|].
      destruct (Hnew c' Hc') as (Hon & Hne & (t' & Ht' & Hty')).
      split; [done|]. split; [done|].
      pose proof Hon as [[Hx' _] [Hy' _]].
      rewrite tile_update_tile in Ht' by done.
      destruct (decide (c' = c)) as [->|]; [done|]. by exists t'.
    + by etransitivity.
    + intros c' Hc'. pose proof Hc' as [[Hx' _] [Hy' _]].
      rewrite (Ht c' Hc'), tile_update_tile by done.
      destruct (decide (c' = c)) as [->|Hne].
      * rewrite decide_False by done.
        rewrite decide_True; [done|]. apply elem_of_union. left.
        by apply elem_of_singleton.
      * destruct (decide (c' ∈ New)) as [Hin|Hin].
        -- rewrite decide_True; [done|]. apply elem_of_union. by right.
        -- rewrite decide_False; [done|].
           intros [?%elem_of_singleton|?]%elem_of_union; done.
Qed.

Lemma has_type_inj (ty1 ty2 : tile_type) (b : Board) (c : cell) :
  has_type ty1 b c → has_type ty2 b c → ty1 = ty2.
Proof. intros (t & Ht & <-) (t' & Ht' & <-). congruence. Qed.

(** place_mines on a board of the configured size, for every outcome of
    the random draws under which it returns: the mines of before are still
    there, exactly AMOUNT_MINES tiles that were blank have become mines,
    none of them at the first click; the other tiles, and the rest of the
    board, are as before; the draws used are a prefix of the tape.  It
    raises only when the board has no column or no row. *)
Theorem place_mines_spec (b : Board) (fcx fcy : Z) (tape : list Z) :
  well_formed cfg b →
  match Board.place_mines cfg b fcx fcy tape with
  | Ok (b', rest) =>
      well_formed cfg b'
      ∧ dug b' = dug b ∧ first_click b' = first_click b
      ∧ board_surface b' = board_surface b
      ∧ rest `suffix_of` tape
      ∧ board_mines cfg b ⊆ board_mines cfg b'
      ∧ size (board_mines cfg b')
        = (size (board_mines cfg b) + AMOUNT_MINES cfg)%nat
      ∧ ((fcx, fcy) ∈ board_mines cfg b' → (fcx, fcy) ∈ board_mines cfg b)
      ∧ (∀ c, c ∈ board_mines cfg b' ∖ board_mines cfg b →
              on_cfg c ∧ has_type Unknown b c)
      ∧ ∀ c t, on_cfg c → tile b c = Some t →
               tile b' c
               = Some (if decide (c ∈ board_mines cfg b' ∖ board_mines cfg b)
                       then mine_tile t else t)
  | Raise e => COLS cfg = 0%nat ∨ ROWS cfg = 0%nat
  | OutOfFuel => True
  end.
Proof.
  intros Hwf. unfold Board.place_mines.
  pose proof (place_mines_loop_spec (AMOUNT_MINES cfg) b fcx fcy tape Hwf) as H.
  destruct (Board.place_mines_loop cfg _ b fcx fcy tape) as [[b' rest]|e|];
    [|done..].
  destruct H as (New & Hsize & Hnew & Hwf' & Hd & Hf & Hs & Hsuf & Ht).
  assert (board_mines cfg b' = board_mines cfg b ∪ New) as Hmines.
  { apply set_eq. intros c. rewrite elem_of_union, !board_mines_elem_of.
    split.
    - intros [Hc (t' & Ht' & Hty)]. rewrite (Ht c Hc) in Ht'.
      destruct (decide (c ∈ New)) as [|Hn]; [by right|]. left.
      split; [done|]. by exists t'.
    - intros [[Hc (t & Hbt & Hty)]|Hc].
      + split; [done|]. unfold has_type. rewrite (Ht c Hc).
        destruct (decide (c ∈ New)) as [Hin|Hn].
        * rewrite Hbt. cbn. eexists. split; [done|]. done.
        * by exists t.
      + destruct (Hnew c Hc) as (Hon & _ & (t & Hbt & Hty)).
        split; [done|]. unfold has_type. rewrite (Ht c Hon), decide_True by done.
        rewrite Hbt. cbn. eexists. split; [done|]. done. }
  assert (New ## board_mines cfg b) as Hdisj.
  { intros c Hc [_ Hm]%board_mines_elem_of.
    destruct (Hnew c Hc) as (_ & _ & Hu).
    by pose proof (has_type_inj _ _ _ _ Hu Hm). }
  assert (board_mines cfg b' ∖ board_mines cfg b = New) as Hdiff.
  { rewrite Hmines. apply set_eq. intros c.
    rewrite elem_of_difference, elem_of_union. specialize (Hdisj c). tauto. }
  repeat (split; [done|]).
  split; [|split; [|split; [|split]]].
  - rewrite Hmines. intros c ?. apply elem_of_union. by left.
  - rewrite Hmines, (size_union (board_mines cfg b) New), Hsize; [done|].
    intros c ? ?. by apply (Hdisj c).
  - rewrite Hmines. intros [?|Hc]%elem_of_union; [done|].
    by destruct (Hnew _ Hc) as (_ & ? & _).
  - rewrite Hdiff. intros c Hc. destruct (Hnew c Hc) as (? & _ & ?). done.
  - intros c t Hc Hbt. rewrite Hdiff, (Ht c Hc), Hbt.
    by destruct (decide (c ∈ New)).
Qed.

End PlaceMines.

Lemma place_mines_spec_witness :
  let cfg := {| ROWS := 2; COLS := 2; AMOUNT_MINES := 2 |} in
  let b := Board.__init__ cfg in
  well_formed cfg b
  ∧ ∃ b', Board.place_mines cfg b 0 0 [0; 0; 1; 0; 1; 0; 5; 3] = Ok (b', [])
          ∧ size (board_mines cfg b') = 2%nat
          ∧ ((0, 0) ∉ board_mines cfg b').
Proof.
  intros cfg b.
  pose proof (init_well_formed cfg) as Hwf. split; [exact Hwf|].
  pose proof (place_mines_spec cfg b 0 0 [0; 0; 1; 0; 1; 0; 5; 3] Hwf) as H.
  destruct (Board.place_mines cfg b 0 0 [0; 0; 1; 0; 1; 0; 5; 3])
    as [[b' rest]|e|] eqn:E.
  - assert (rest = []) as ->.
    { revert E. vm_compute. intros [= _ <-]. reflexivity. }
    exists b'. split; [reflexivity|].
    destruct H as (_ & _ & _ & _ & _ & _ & Hsize & Hfc & _).
    split.
    + rewrite Hsize. vm_compute. reflexivity.
    + intros Hin. apply Hfc in Hin. revert Hin.
      apply (bool_decide_unpack _). vm_compute. exact I.
  - exfalso. revert E. vm_compute. discriminate.
  - exfalso. revert E. vm_compute. discriminate.
Defined.

(* --------------------------------------------------------------------- *)
(** ** Board.place_mines: when the loop ends *)
(* --------------------------------------------------------------------- *)

Lemma length_bind_const {A B} (f : A → list B) (l : list A) (k : nat) :
  (∀ a, length (f a) = k) → length (l ≫= f) = (length l * k)%nat.
Proof.
  intros Hf. induction l as [|a l IH]; [done|].
  rewrite bind_cons, length_app, Hf, IH. cbn. lia.
Qed.

Lemma range_length (lo hi : Z) : length (range lo hi) = Z.to_nat (hi - lo).
Proof. unfold range. by rewrite length_map, length_seq. Qed.

Section PlaceMinesRuns.
Variable cfg : settings.

Local Abbreviation on_cfg :=
  (on_board (Z.of_nat (COLS cfg)) (Z.of_nat (ROWS cfg))).

(** The tiles a mine can be placed on: blank, and not the first click. *)
Local Abbreviation eligible b fcx fcy :=
  (list_to_set (filter (fun c => c ≠ (fcx, fcy) ∧ has_type Unknown b c)
                       (board_cells cfg)) : gset cell).

Lemma board_cells_length :
  length (board_cells cfg) = (COLS cfg * ROWS cfg)%nat.
Proof.
  unfold board_cells.
  rewrite (length_bind_const _ _ (ROWS cfg)).
  - rewrite range_length. lia.
  - intros cx. rewrite (length_bind_const _ _ 1%nat) by done.
    rewrite range_length. lia.
Qed.

Lemma eligible_elem_of (b : Board) (fcx fcy : Z) (c : cell) :
  c ∈ eligible b fcx fcy ↔ on_cfg c ∧ c ≠ (fcx, fcy) ∧ has_type Unknown b c.
Proof.
  rewrite elem_of_list_to_set, list_elem_of_filter, board_cells_elem_of.
  tauto.
Qed.

Lemma eligible_init (fcx fcy : Z) :
  size (eligible (Board.__init__ cfg) fcx fcy)
  = (COLS cfg * ROWS cfg
     - (if decide (on_cfg (fcx, fcy)) then 1 else 0))%nat.
Proof.
  assert (eligible (Board.__init__ cfg) fcx fcy
          = list_to_set (board_cells cfg) ∖ {[(fcx, fcy)]}) as ->.
  { apply set_eq. intros c.
    rewrite eligible_elem_of, elem_of_difference, elem_of_list_to_set,
      board_cells_elem_of, elem_of_singleton.
    split; [tauto|]. intros [Hc Hne]. split; [done|]. split; [done|].
    eexists. split; [by apply init_tile|]. done. }
  pose proof (size_list_to_set (C := gset cell) (board_cells cfg)
                (board_cells_NoDup cfg)) as Hsize.
  rewrite board_cells_length in Hsize.
  destruct (decide (on_cfg (fcx, fcy))) as [Hfc|Hfc].
  - rewrite size_difference.
    + rewrite size_singleton. lia.
    + intros c ->%elem_of_singleton.
      by apply elem_of_list_to_set, board_cells_elem_of.
  - assert (list_to_set (board_cells cfg) ∖ {[(fcx, fcy)]}
            = (list_to_set (board_cells cfg) : gset cell)) as ->; [|lia].
    apply set_eq. intros c.
    rewrite elem_of_difference, elem_of_list_to_set, board_cells_elem_of,
      elem_of_singleton.
    split; [tauto|]. intros Hc. split; [done|]. by intros ->.
Qed.

(** A draw that hits an eligible tile ends the [while True] loop. *)
Lemma place_one_mine_hit (b : Board) (fcx fcy : Z) (c : cell)
    (tape : list Z) :
  well_formed cfg b → c ∈ eligible b fcx fcy →
  Board.place_one_mine cfg b fcx fcy (c.1 :: c.2 :: tape)
  = Ok (update_tile b c mine_tile, tape).
Proof.
  intros Hwf (Hc & Hne & (t & Ht & Hty))%eligible_elem_of.
  pose proof Hc as [Hx Hy]. cbn [Board.place_one_mine].
  rewrite !randint_id by done. cbn [mbind result_bind].
  rewrite (tile_at_tile b c t) by (lia || done). cbn [mbind result_bind].
  rewrite bool_decide_eq_true_2 by done.
  rewrite bool_decide_eq_false_2 by (by destruct c).
  cbn [andb negb].
  pose proof (place_mine_at cfg b c Hwf Hc) as Hset.
  destruct (tile_set b c.1 c.2 (set_image tile_mine)) as [b1| |];
    cbn [mbind result_bind] in *; try discriminate.
  by rewrite Hset.
Qed.

Lemma eligible_update (b : Board) (fcx fcy : Z) (c : cell) :
  on_cfg c →
  eligible b fcx fcy ∖ {[c]} ⊆ eligible (update_tile b c mine_tile) fcx fcy.
Proof.
  intros [[Hx _] [Hy _]] c'.
  rewrite elem_of_difference, !eligible_elem_of, elem_of_singleton.
  intros [(Hc' & Hne & (t & Ht & Hty)) Hcc]. split; [done|]. split; [done|].
  pose proof Hc' as [[Hx' _] [Hy' _]].
  exists t. rewrite tile_update_tile, decide_False by done. done.
Qed.

Lemma place_mines_loop_can_return (n : nat) (b : Board) (fcx fcy : Z) :
  well_formed cfg b → (n ≤ size (eligible b fcx fcy))%nat →
  ∃ tape b', Board.place_mines_loop cfg n b fcx fcy tape = Ok (b', []).
Proof.
  revert b. induction n as [|n IH]; intros b Hwf Hn.
  - exists [], b. done.
  - destruct (size_pos_elem_of (eligible b fcx fcy) ltac:(lia)) as [c Hc].
    pose proof (proj1 (eligible_elem_of b fcx fcy c) Hc) as (Hon & _ & _).
    destruct (IH (update_tile b c mine_tile)
                (update_tile_well_formed cfg b c mine_tile Hwf))
      as (tape & b' & Hrun).
    { pose proof (subseteq_size _ _ (eligible_update b fcx fcy c Hon)) as Hle.
      rewrite size_difference in Hle.
      - rewrite size_singleton in Hle. lia.
      - by intros c' ->%elem_of_singleton. }
    exists (c.1 :: c.2 :: tape), b'. cbn [Board.place_mines_loop].
    rewrite place_one_mine_hit by done. cbn [mbind result_bind]. done.
Qed.

(** place_mines on the board of Board.__init__ can return exactly when the
    mines fit on the board beside the first click: then some sequence of
    random draws makes it return; otherwise, on a board with at least one
    column and one row, the [while True] loop never finds a free tile,
    whatever is drawn. *)
Theorem place_mines_returns_iff (fcx fcy : Z) :
  (0 < COLS cfg)%nat → (0 < ROWS cfg)%nat →
  ((AMOUNT_MINES cfg + (if decide (on_cfg (fcx, fcy)) then 1 else 0)
    ≤ COLS cfg * ROWS cfg)%nat →
   ∃ tape b',
     Board.place_mines cfg (Board.__init__ cfg) fcx fcy tape = Ok (b', []))
  ∧ ((COLS cfg * ROWS cfg
      < AMOUNT_MINES cfg
        + (if decide (on_cfg (fcx, fcy)) then 1 else 0))%nat →
     ∀ tape,
       Board.place_mines cfg (Board.__init__ cfg) fcx fcy tape = OutOfFuel).
Proof.
  intros Hcols Hrows. pose proof (eligible_init fcx fcy) as Hsize. split.
  - intros Hfit. apply place_mines_loop_can_return.
    + apply init_well_formed.
    + rewrite Hsize. destruct (decide (on_cfg (fcx, fcy))); lia.
  - intros Hmany tape. unfold Board.place_mines.
    pose proof (place_mines_loop_spec cfg (AMOUNT_MINES cfg)
                  (Board.__init__ cfg) fcx fcy tape (init_well_formed cfg))
      as H.
    destruct (Board.place_mines_loop cfg _ _ fcx fcy tape) as [[b' rest]|e|];
      [|lia|done].
    exfalso. destruct H as (New & HN & Hnew & _).
    assert (New ⊆ eligible (Board.__init__ cfg) fcx fcy) as Hsub.
    { intros c Hc. apply eligible_elem_of. by apply Hnew. }
    apply subseteq_size in Hsub. rewrite Hsize, HN in Hsub.
    destruct (decide (on_cfg (fcx, fcy))); lia.
Qed.

(** The board that the first click sets up. *)
Lemma first_click_placed (fcx fcy : Z) (tape rest : list Z) (b1 : Board) :
  Board.place_mines cfg (Board.__init__ cfg) fcx fcy tape = Ok (b1, rest) →
  ∃ b2,
    Board.place_clues cfg b1 = Ok b2
    ∧ well_formed cfg b2
    ∧ dug b2 = []
    ∧ size (board_mines cfg b2) = AMOUNT_MINES cfg
    ∧ ((fcx, fcy) ∉ board_mines cfg b2)
    ∧ ∀ c, on_cfg c →
           tile b2 c
           = Some (if decide (c ∈ board_mines cfg b2)
                   then mine_tile (Tile.__init__ c.1 c.2 tile_empty Unknown)
                   else clue_tile
                          (Z.of_nat
                             (size (neighbours (Z.of_nat (COLS cfg))
                                      (Z.of_nat (ROWS cfg)) c
                                    ∩ board_mines cfg b2)))
                          (Tile.__init__ c.1 c.2 tile_empty Unknown)).
Proof.
  intros Hrun. unfold Board.place_mines in Hrun.
  pose proof (place_mines_loop_spec cfg (AMOUNT_MINES cfg)
                (Board.__init__ cfg) fcx fcy tape (init_well_formed cfg)) as H.
  rewrite Hrun in H.
  destruct H as (New & HN & Hnew & Hwf1 & Hd1 & _ & _ & _ & Ht1).
  assert (board_mines cfg b1 = New) as Hm1.
  { apply set_eq. intros c. rewrite board_mines_elem_of. split.
    - intros [Hc (t & Ht & Hty)]. rewrite (Ht1 c Hc), init_tile in Ht by done.
      destruct (decide (c ∈ New)); [done|]. by injection Ht as <-.
    - intros Hc. destruct (Hnew c Hc) as (Hon & _ & _). split; [done|].
      unfold has_type.
      rewrite (Ht1 c Hon), decide_True, init_tile by done.
      eexists. split; [done|]. done. }
  destruct (place_clues_returns cfg b1 Hwf1)
    as (b2 & Hrun2 & Hwf2 & Hd2 & _ & _ & Hm2 & Ht2).
  exists b2. split; [done|]. split; [done|].
  split; [by rewrite Hd2, Hd1|].
  rewrite Hm2, Hm1. split; [done|].
  split; [by intros (_ & ? & _)%Hnew|].
  intros c Hc.
  pose proof (Ht1 c Hc) as Hc1. rewrite init_tile in Hc1 by done.
  destruct (decide (c ∈ New)) as [Hin|Hin]; cbn in Hc1.
  - rewrite (Ht2 c _ Hc Hc1). done.
  - rewrite (Ht2 c _ Hc Hc1), Hm1. done.
Qed.

(** The board after the first left click of a game (place_mines, then
    place_clues, on the board of Board.__init__), whenever place_mines
    returns: place_clues returns too, there are exactly AMOUNT_MINES mines,
    none at the clicked cell, and every tile is determined by the set of
    mines: a mine tile carries the mine image, type X and nearby_mine 0; any
    other tile with n > 0 mines among its neighbours has the image of n,
    type C and nearby_mine n; a tile with no mine around it is as
    Board.__init__ made it. *)
Theorem first_click_board (fcx fcy : Z) (tape rest : list Z) (b1 : Board) :
  Board.place_mines cfg (Board.__init__ cfg) fcx fcy tape = Ok (b1, rest) →
  ∃ b2,
    Board.place_clues cfg b1 = Ok b2
    ∧ well_formed cfg b2
    ∧ dug b2 = []
    ∧ size (board_mines cfg b2) = AMOUNT_MINES cfg
    ∧ ((fcx, fcy) ∉ board_mines cfg b2)
    ∧ ∀ c, on_cfg c →
           tile b2 c
           = Some (if decide (c ∈ board_mines cfg b2)
                   then mine_tile (Tile.__init__ c.1 c.2 tile_empty Unknown)
                   else clue_tile
                          (Z.of_nat
                             (size (neighbours (Z.of_nat (COLS cfg))
                                      (Z.of_nat (ROWS cfg)) c
                                    ∩ board_mines cfg b2)))
                          (Tile.__init__ c.1 c.2 tile_empty Unknown)).
Proof. apply first_click_placed. Qed.

End PlaceMinesRuns.

Lemma place_mines_returns_iff_witness :
  let cfg := {| ROWS := 1; COLS := 1; AMOUNT_MINES := 1 |} in
  (0 < COLS cfg)%nat ∧ (0 < ROWS cfg)%nat
  ∧ Board.place_mines cfg (Board.__init__ cfg) 0 0 [0; 0; 0; 0] = OutOfFuel.
Proof.
  intros cfg. split; [cbn; lia|]. split; [cbn; lia|].
  apply (place_mines_returns_iff cfg 0 0); cbn; [lia|lia|].
  vm_compute. lia.
Defined.

Lemma first_click_board_witness :
  let cfg := {| ROWS := 2; COLS := 2; AMOUNT_MINES := 1 |} in
  ∃ b1 b2,
    Board.place_mines cfg (Board.__init__ cfg) 0 0 [0; 0; 1; 1] = Ok (b1, [])
    ∧ Board.place_clues cfg b1 = Ok b2
    ∧ board_mines cfg b2 = {[(1, 1)]}
    ∧ nearby_mine <$> tile b2 (0, 0) = Some 1.
Proof.
  intros cfg.
  destruct (Board.place_mines cfg (Board.__init__ cfg) 0 0 [0; 0; 1; 1])
    as [[b1 rest]|e|] eqn:E.
  - assert (rest = []) as ->.
    { revert E. vm_compute. intros [= _ <-]. reflexivity. }
    destruct (first_click_board cfg 0 0 _ _ b1 E)
      as (b2 & Hrun & _ & _ & _ & _ & Ht).
    exists b1, b2. split; [reflexivity|]. split; [exact Hrun|].
    assert (b1 = update_tile (Board.__init__ cfg) (1, 1) mine_tile) as ->.
    { revert E. vm_compute. intros [= <-]. reflexivity. }
    assert (b2 = update_tile
                   (update_tile
                      (update_tile
                         (update_tile (Board.__init__ cfg) (1, 1) mine_tile)
                         (0, 0) (clue_tile 1))
                      (0, 1) (clue_tile 1))
                   (1, 0) (clue_tile 1)) as ->.
    { revert Hrun. vm_compute. intros [= <-]. reflexivity. }
    split; [|reflexivity].
    apply (bool_decide_unpack _). vm_compute. exact I.
  - exfalso. revert E. vm_compute. discriminate.
  - exfalso. revert E. vm_compute. discriminate.
Defined.

(* --------------------------------------------------------------------- *)
(** ** Board.dig *)
(* --------------------------------------------------------------------- *)

Lemma for_each_prefix {S A} (I : list A → S → Prop) (l : list A)
    (body : S → A → result S) (s : S) :
  I [] s →
  (∀ p a s, a ∈ l → I p s → ∃ s', body s a = Ok s' ∧ I (p ++ [a]) s') →
  ∃ s', for_each l body s = Ok s' ∧ I l s'.
Proof.
  intros H0 Hstep.
  assert (∀ l' p s, (∀ a, a ∈ l' → a ∈ l) → I p s →
                    ∃ s', for_each l' body s = Ok s' ∧ I (p ++ l') s') as Hgen.
  { induction l' as [|a l' IH]; intros p s0 Hin Hp.
    - exists s0. by rewrite app_nil_r.
    - assert (a ∈ l) as Ha by (apply Hin; constructor).
      destruct (Hstep p a s0 Ha Hp) as (s1 & E1 & H1).
      assert (∀ a', a' ∈ l' → a' ∈ l) as Hin'
        by (intros a' ?; apply Hin; by right).
      destruct (IH (p ++ [a]) s1 Hin' H1) as (s' & E' & H').
      exists s'. cbn [for_each]. rewrite E1. cbn [mbind result_bind].
      split; [done|]. by rewrite <- app_assoc in H'. }
  apply (Hgen l [] s); done.
Qed.

Lemma dig_tile_type (t : Tile) : type (dig_tile t) = type t.
Proof. unfold dig_tile. by destruct (type t) eqn:E. Qed.

Lemma dig_tile_nearby_mine (t : Tile) : nearby_mine (dig_tile t) = nearby_mine t.
Proof. unfold dig_tile. by destruct (type t) eqn:E. Qed.

Lemma told_app {A} (add_knowledge : A → cell → Z → result A) (b : Board)
    (ai ai1 ai2 : option A) (l1 l2 : list cell) :
  told add_knowledge b ai l1 = Ok ai1 →
  told add_knowledge b ai1 l2 = Ok ai2 →
  told add_knowledge b ai (l1 ++ l2) = Ok ai2.
Proof.
  unfold told. intros H1 H2. rewrite for_each_app, H1. done.
Qed.

Lemma told_ext {A} (add_knowledge : A → cell → Z → result A) (b b' : Board)
    (ai : option A) (l : list cell) :
  (∀ d, d ∈ l → tile b' d = tile b d) →
  told add_knowledge b' ai l = told add_knowledge b ai l.
Proof.
  unfold told. revert ai. induction l as [|d l IH]; intros ai Hl; [done|].
  cbn [for_each]. rewrite (Hl d) by constructor.
  destruct (match tile b d with Some _ => _ | None => _ end); cbn; [|done..].
  apply IH. intros d' ?. apply Hl. by right.
Qed.

Lemma flood_on_board (w h : Z) (b : Board) (V : list cell) (c d : cell) :
  on_board w h c → flood w h b V c d → on_board w h d.
Proof.
  intros Hc Hf. destruct Hf as [|d n _ _ Hn _]; [done|].
  apply neighbours_elem_of in Hn. tauto.
Qed.

Lemma flood_trans (w h : Z) (b b' : Board) (V V' : list cell) (c n d : cell) :
  on_board w h n →
  (∀ x, on_board w h x → open_cell b' x → open_cell b x) →
  (∀ x, x ∈ V → x ∈ V') →
  flood w h b V c n → flood w h b' V' n d → flood w h b V c d.
Proof.
  intros Hn Hopen HV Hcn Hnd. induction Hnd as [|d x Hnd IH Hd Hx HxV]; [done|].
  apply (flood_next w h b V c d x); [done| |done|].
  - apply Hopen; [|done]. by apply (flood_on_board w h b' V' n d).
  - intros ?. apply HxV. by apply HV.
Qed.

Lemma for_each_more_fuel {S A} (l : list A) (body1 body2 : S → A → result S)
    (s : S) :
  (∀ s a, body1 s a ≠ OutOfFuel → body2 s a = body1 s a) →
  for_each l body1 s ≠ OutOfFuel →
  for_each l body2 s = for_each l body1 s.
Proof.
  intros Hb. revert s. induction l as [|a l IH]; intros s Hne; [done|].
  cbn [for_each] in *. destruct (body1 s a) as [s'|e|] eqn:E.
  - rewrite Hb, E by (by rewrite E). cbn [mbind result_bind] in *. by apply IH.
  - rewrite Hb, E by (by rewrite E). done.
  - done.
Qed.

Section DigFacts.
Variable cfg : settings.
Context {A : Type}.
Variable add_knowledge : A → cell → Z → result A.
Hypothesis add_knowledge_total : ∀ a c n, ∃ a', add_knowledge a c n = Ok a'.

Local Abbreviation on_cfg :=
  (on_board (Z.of_nat (COLS cfg)) (Z.of_nat (ROWS cfg))).
Local Abbreviation nbrs c :=
  (neighbours (Z.of_nat (COLS cfg)) (Z.of_nat (ROWS cfg)) c).
Local Abbreviation floods b c d :=
  (flood (Z.of_nat (COLS cfg)) (Z.of_nat (ROWS cfg)) b (dug b) c d).

(** The cells of the board that are not in the dug list. *)
Local Abbreviation undug V :=
  (list_to_set (board_cells cfg) ∖ list_to_set V : gset cell).

Lemma undug_mono (V V' : list cell) :
  (∀ x, x ∈ V → x ∈ V') → (size (undug V') ≤ size (undug V))%nat.
Proof.
  intros HV. apply subseteq_size. intros x.
  rewrite !elem_of_difference, !elem_of_list_to_set. naive_solver.
Qed.

Lemma undug_less (V : list cell) (n : cell) :
  on_cfg n → n ∉ V → (size (undug (V ++ [n])) < size (undug V))%nat.
Proof.
  intros Hn HnV. apply subset_size. split.
  - intros x. rewrite !elem_of_difference, !elem_of_list_to_set, elem_of_app.
    tauto.
  - intros Hsub. specialize (Hsub n).
    rewrite !elem_of_difference, !elem_of_list_to_set, elem_of_app,
      board_cells_elem_of, list_elem_of_singleton in Hsub.
    tauto.
Qed.

(** The cells that the two loops of dig run over. *)
Lemma dig_cells_elem_of (c n : cell) :
  on_cfg c →
  n ∈ (row ← range (Z.max 0 (c.1 - 1))
                   (Z.min (Z.of_nat (COLS cfg) - 1) (c.1 + 1) + 1);
       col ← range (Z.max 0 (c.2 - 1))
                   (Z.min (Z.of_nat (ROWS cfg) - 1) (c.2 + 1) + 1);
       [(row, col)])
  ↔ n = c ∨ n ∈ nbrs c.
Proof.
  intros [Hx Hy]. rewrite neighbours_elem_of. unfold on_board.
  rewrite list_elem_of_bind. destruct c as [cx cy], n as [nx ny].
  cbn [fst snd] in *. split.
  - intros (row & (col & [= -> ->]%list_elem_of_singleton
                   & Hcol%range_elem_of)%list_elem_of_bind
            & Hrow%range_elem_of).
    destruct (decide ((row, col) = (cx, cy))) as [|Hne]; [by left|].
    right. split; [done|]. lia.
  - intros Hn. exists nx. split.
    + apply list_elem_of_bind. exists ny. split; [by apply list_elem_of_singleton|].
      apply range_elem_of. destruct Hn as [[= -> ->]|Hn]; lia.
    + apply range_elem_of. destruct Hn as [[= -> ->]|Hn]; lia.
Qed.

Lemma open_cell_dig (b b' : Board) (D : list cell) (x : cell) :
  tile b' x = (if decide (x ∈ D) then dig_tile <$> tile b x else tile b x) →
  open_cell b' x ↔ open_cell b x.
Proof.
  intros Ht. unfold open_cell. rewrite Ht.
  destruct (decide (x ∈ D)); [|done].
  destruct (tile b x) as [t|]; cbn.
  - split.
    + intros (t' & [= <-] & Hm & Hc). rewrite dig_tile_type in Hm, Hc. eauto.
    + intros (t' & [= <-] & Hm & Hc). exists (dig_tile t).
      by rewrite dig_tile_type.
  - split; intros (t' & [=] & _).
Qed.

Lemma dig_loop_flat
    (f : Board → Z → Z → option A → result (Board * option A * bool))
    (R1 R2 : list Z) (s : Board * option A) :
  for_each R1
    (fun '(b1, ai1) row =>
       for_each R2
         (fun '(b2, ai2) col =>
            if bool_decide ((row, col) ∈ dug b2) then Ok (b2, ai2)
            else '(b3, ai3, _) ← f b2 row col ai2; Ok (b3, ai3))
         (b1, ai1)) s
  = for_each (row ← R1; col ← R2; [(row, col)])
      (fun s n =>
         if bool_decide (n ∈ dug s.1) then Ok s
         else '(b3, ai3, _) ← f s.1 n.1 n.2 s.2; Ok (b3, ai3)) s.
Proof.
  rewrite <- (for_each_ext _
                (fun s '(row, col) =>
                   if bool_decide ((row, col) ∈ dug s.1) then Ok s
                   else '(b3, ai3, _) ← f s.1 row col s.2; Ok (b3, ai3)))
    by (by intros s' [row col]).
  rewrite <- (for_each_nested R1 (fun _ => R2)
                (fun s row col =>
                   if bool_decide ((row, col) ∈ dug s.1) then Ok s
                   else '(b3, ai3, _) ← f s.1 row col s.2; Ok (b3, ai3))).
  apply for_each_ext. intros [b1 ai1] row.
  apply for_each_ext. by intros [b2 ai2] col.
Qed.

Lemma tile_set_dug (l : list cell) (b : Board) (c : cell) :
  tile (set_dug l b) c = tile b c.
Proof. done. Qed.

(** What holds while dig runs on the cell [c] of the board [b]: the state
    of the board and of the agent after the cells [c :: l] were dug, the
    cells of [p] having been looked at. *)
Local Abbreviation dig_inv b c ai p b' ai' :=
  (∃ l : list cell,
     dug b' = dug b ++ c :: l
     ∧ NoDup l
     ∧ (∀ d, d ∈ l → on_cfg d ∧ d ≠ c ∧ d ∉ dug b)
     ∧ well_formed cfg b'
     ∧ first_click b' = first_click b
     ∧ board_surface b' = board_surface b
     ∧ (∀ d, on_cfg d →
             tile b' d = if decide (d ∈ c :: l) then dig_tile <$> tile b d
                         else tile b d)
     ∧ told add_knowledge b ai (c :: l) = Ok ai'
     ∧ (∀ d, d ∈ l → floods b c d)
     ∧ (∀ d, d ∈ l → open_cell b d → ∀ n, n ∈ nbrs d → n ∈ dug b')
     ∧ (∀ n : cell, n ∈ p → n ∈ dug b')).

Lemma dig_returns (fuel : nat) (b : Board) (c : cell) (ai : option A) :
  well_formed cfg b → on_cfg c →
  (size (undug (dug b ++ [c])) < fuel)%nat →
  ∃ b' ai',
    Board.dig cfg add_knowledge fuel b c.1 c.2 ai
    = Ok (b', ai', negb (bool_decide (has_type Mine b c)))
    ∧ dig_inv b c ai (@nil cell) b' ai'
    ∧ (open_cell b c → ∀ n, n ∈ nbrs c → n ∈ dug b').
Proof.
  revert b c ai. induction fuel as [|fuel IH]; intros b c ai Hwf Hc Hfuel; [lia|].
  destruct c as [cx cy]. cbn [fst snd]. cbn [Board.dig].
  destruct (tile_on_board cfg b (cx, cy) Hwf Hc) as [t Ht].
  pose proof Hc as [[Hx _] [Hy _]]. cbn [fst snd] in Hx, Hy.
  set (ba := set_dug (dug b ++ [(cx, cy)]) b).
  pose proof (tile_set_update ba (cx, cy) (set_revealed true) Hx Hy) as Hset.
  cbn [fst snd] in Hset. rewrite Hset by (unfold ba; by rewrite tile_set_dug, Ht).
  clear Hset. cbn [mbind result_bind].
  set (b0 := update_tile ba (cx, cy) (set_revealed true)).
  assert (∀ d, on_cfg d →
               tile b0 d = if decide (d = (cx, cy))
                           then set_revealed true <$> tile b d
                           else tile b d) as Ht0.
  { intros d [[? _] [? _]]. unfold b0.
    rewrite tile_update_tile by (cbn [fst snd]; lia).
    by destruct (decide (d = (cx, cy))) as [->|]. }
  assert (well_formed cfg b0) as Hwf0.
  { apply update_tile_well_formed. exact Hwf. }
  pose proof (Ht0 _ Hc) as Htc. rewrite decide_True, Ht in Htc by done.
  cbn in Htc.
  pose proof (tile_at_tile b0 (cx, cy) _ Hx Hy Htc) as Hat.
  cbn [fst snd] in Hat. rewrite Hat. clear Hat. cbn [mbind result_bind].
  change (type (set_revealed true t)) with (type t).
  change (nearby_mine (set_revealed true t)) with (nearby_mine t).
  assert (bool_decide (has_type Mine b (cx, cy)) = bool_decide (type t = Mine))
    as ->.
  { apply bool_decide_ext. unfold has_type. rewrite Ht. naive_solver. }
  case_bool_decide as Hm.
  { (* a mine *)
    pose proof (tile_set_update b0 (cx, cy) (set_image tile_exploded) Hx Hy)
      as Hset.
    cbn [fst snd] in Hset. rewrite Hset by (by rewrite Htc). clear Hset.
    cbn [mbind result_bind].
    eexists _, ai. split; [reflexivity|]. split.
    - exists []. split; [done|]. split; [constructor|].
      split; [by intros d ?%elem_of_nil|].
      split; [by apply update_tile_well_formed|].
      split; [done|]. split; [done|]. split.
      { intros d Hd. pose proof Hd as [[? _] [? _]].
        rewrite tile_update_tile, (Ht0 d Hd) by (cbn [fst snd]; lia).
        destruct (decide (d = (cx, cy))) as [->|Hne].
        - rewrite decide_True by constructor. rewrite Htc, Ht. cbn.
          unfold dig_tile. rewrite Hm. done.
        - rewrite decide_False; [done|].
          by intros ?%list_elem_of_singleton. }
      split.
      { unfold told. cbn [for_each]. rewrite Ht, Hm. by destruct ai. }
      split; [by intros d ?%elem_of_nil|].
      split; [by intros d ?%elem_of_nil|].
      by intros n ?%elem_of_nil.
    - intros (t' & Ht' & Hnm & _). rewrite Ht in Ht'. by injection Ht' as <-. }
  assert (∃ ai1,
            match ai with
            | Some a =>
                add_knowledge a (cx, cy) (nearby_mine t) ≫= λ a' : A, Ok (Some a')
            | None => Ok None
            end = Ok ai1
            ∧ told add_knowledge b ai [(cx, cy)] = Ok ai1) as (ai1 & -> & Htold1).
  { unfold told. cbn [for_each]. rewrite Ht. destruct ai as [a|].
    - destruct (add_knowledge_total a (cx, cy) (nearby_mine t)) as [a' Ha].
      exists (Some a'). rewrite Ha. by destruct (type t).
    - by exists None. }
  cbn [mbind result_bind].
  assert (dig_inv b (cx, cy) ai (@nil cell) b0 ai1) as Hbase.
  { exists []. split; [done|]. split; [constructor|].
    split; [by intros d ?%elem_of_nil|].
    split; [done|]. split; [done|]. split; [done|]. split.
    { intros d Hd. rewrite (Ht0 d Hd).
      destruct (decide (d = (cx, cy))) as [->|Hne].
      - rewrite decide_True by constructor. rewrite Ht. cbn.
        unfold dig_tile. by destruct (type t).
      - rewrite decide_False; [done|]. by intros ?%list_elem_of_singleton. }
    split; [done|].
    split; [by intros d ?%elem_of_nil|].
    split; [by intros d ?%elem_of_nil|].
    by intros n ?%elem_of_nil. }
  case_bool_decide as Hcl.
  { (* a clue *)
    exists b0, ai1. split; [done|]. split; [exact Hbase|].
    intros (t' & Ht' & _ & Hnc). rewrite Ht in Ht'. by injection Ht' as <-. }
  (* neither: the two loops *)
  assert (open_cell b (cx, cy)) as Hopen by (by exists t).
  rewrite dig_loop_flat.
  pose proof (dig_cells_elem_of (cx, cy)) as Hcells. cbn [fst snd] in Hcells.
  destruct (for_each_prefix
              (fun p (s : Board * option A) =>
                 dig_inv b (cx, cy) ai p s.1 s.2)
              (row ← range (0 `max` (cx - 1))
                       ((Z.of_nat (COLS cfg) - 1) `min` (cx + 1) + 1);
               col ← range (0 `max` (cy - 1))
                       ((Z.of_nat (ROWS cfg) - 1) `min` (cy + 1) + 1);
               [(row, col)])
              (fun s n =>
                 if bool_decide (n ∈ dug s.1) then Ok s
                 else '(b3, ai3, _) ←
                        Board.dig cfg add_knowledge fuel s.1 n.1 n.2 s.2;
                      Ok (b3, ai3))
              (b0, ai1) Hbase) as ([b' ai'] & Hrun & Hinv).
  2:{ rewrite Hrun. cbn [mbind result_bind]. exists b', ai'.
      split; [done|]. cbn [fst snd] in Hinv.
      destruct Hinv as (l & Hdug & Hnd & Hl & Hwf' & Hfc & Hsf & Hti & Htold
                        & Hfl & Hclo & Hp).
      split.
      - exists l. repeat (split; [done|]). by intros n ?%elem_of_nil.
      - intros _ n Hn. apply Hp, Hcells; [done|]. by right. }
  intros p n [bi aii] Hn
    (l & Hdug & Hnd & Hl & Hwfi & Hfc & Hsf & Hti & Htold & Hfl & Hclo & Hp).
  cbn [fst snd] in *.
  assert (on_cfg n) as Hon.
  { apply Hcells in Hn as [->|Hn%neighbours_elem_of]; [done| |done]. tauto. }
  case_bool_decide as Hin.
  { exists (bi, aii). split; [done|]. exists l. cbn [fst snd].
    repeat (split; [done|]).
    intros x [?| ->%list_elem_of_singleton]%elem_of_app; [by apply Hp|done]. }
  assert (∀ x, x ∈ dug b ++ [(cx, cy)] → x ∈ dug bi) as Hsub.
  { intros x. rewrite Hdug, !elem_of_app, list_elem_of_singleton, elem_of_cons.
    tauto. }
  destruct (IH bi n aii Hwfi Hon) as
    (b2 & ai2 & Hdig & (l' & Hdug' & Hnd' & Hl' & Hwf2 & Hfc' & Hsf' & Ht'
                        & Htold' & Hfl' & Hclo' & _) & Hopen').
  { pose proof (undug_less (dug bi) n Hon Hin).
    pose proof (undug_mono _ _ Hsub). lia. }
  rewrite Hdig. cbn [mbind result_bind]. exists (b2, ai2). split; [done|].
  cbn [fst snd].
  assert (∀ d, d ∈ n :: l' → on_cfg d ∧ d ∉ dug bi) as Hnew.
  { intros d [->|Hd]%elem_of_cons; [done|]. destruct (Hl' d Hd); tauto. }
  assert (∀ d, d ∈ n :: l' → d ∉ (cx, cy) :: l) as Hnew'.
  { intros d Hd Hd'. apply (Hnew d Hd). rewrite Hdug. apply elem_of_app.
    by right. }
  assert (n ∈ nbrs (cx, cy)) as Hnn.
  { apply Hcells in Hn as [->|Hn]; [|done|done].
    exfalso. apply (Hnew' (cx, cy)); constructor. }
  assert (∀ x, on_cfg x → open_cell bi x ↔ open_cell b x) as Hopen_iff.
  { intros x Hx'. apply (open_cell_dig b bi ((cx, cy) :: l)). by apply Hti. }
  assert (∀ x, x ∈ dug bi → x ∈ dug b2) as Hsub2.
  { intros x ?. rewrite Hdug'. apply elem_of_app. by left. }
  exists (l ++ n :: l').
  split; [by rewrite Hdug', Hdug, <- app_assoc|].
  split.
  { apply NoDup_app. split; [done|]. split.
    - intros x Hx' Hx''. apply (Hnew' x Hx''). by right.
    - apply NoDup_cons. split; [|done].
      intros Hn'. by destruct (Hl' n Hn') as (_ & ? & _). }
  split.
  { intros d [Hd|Hd]%elem_of_app; [by apply Hl|].
    destruct (Hnew d Hd) as [Hd1 Hd2]. split; [done|].
    split.
    - intros ->. apply (Hnew' _ Hd). constructor.
    - intros Hd3. apply Hd2, Hsub, elem_of_app. by left. }
  split; [done|]. split; [congruence|]. split; [congruence|].
  split.
  { intros d Hd. rewrite (Ht' d Hd), (Hti d Hd).
    destruct (decide (d ∈ n :: l')) as [Hd1|Hd1].
    - rewrite (decide_False (P := d ∈ (cx, cy) :: l)) by by apply Hnew'.
      rewrite decide_True; [done|].
      apply elem_of_cons. right. apply elem_of_app. by right.
    - destruct (decide (d ∈ (cx, cy) :: l)) as [Hd2|Hd2].
      + rewrite decide_True; [done|].
        apply elem_of_cons in Hd2 as [->|Hd2]; [constructor|].
        apply elem_of_cons. right. apply elem_of_app. by left.
      + rewrite decide_False; [done|].
        intros [->|[?|?]%elem_of_app]%elem_of_cons.
        * apply Hd2. constructor.
        * apply Hd2. by right.
        * done. }
  split.
  { change ((cx, cy) :: l ++ n :: l') with (((cx, cy) :: l) ++ n :: l').
    apply (told_app _ _ _ aii); [done|]. rewrite <- Htold'. symmetry.
    apply told_ext. intros d Hd. destruct (Hnew d Hd) as [Hd1 _].
    rewrite (Hti d Hd1), decide_False; [done|]. by apply Hnew'. }
  assert (floods b (cx, cy) n) as Hfn.
  { apply (flood_next _ _ _ _ _ (cx, cy) n); [constructor|done|done|].
    intros ?. apply Hin, Hsub, elem_of_app. by left. }
  split.
  { intros d [Hd|[->|Hd]%elem_of_cons]%elem_of_app; [by apply Hfl|done|].
    apply (flood_trans _ _ b bi (dug b) (dug bi) (cx, cy) n d); try done.
    - intros x Hx' ?. by apply Hopen_iff.
    - intros x ?. apply Hsub, elem_of_app. by left.
    - by apply Hfl'. }
  split.
  { intros d [Hd|[->|Hd]%elem_of_cons]%elem_of_app Hod m Hm'.
    - apply Hsub2. by apply (Hclo d).
    - apply Hopen'; [|done]. by apply Hopen_iff.
    - apply (Hclo' d); [done| |done]. apply Hopen_iff; [|done].
      by destruct (Hl' d Hd). }
  intros x [Hx'| ->%list_elem_of_singleton]%elem_of_app.
  - by apply Hsub2, Hp.
  - rewrite Hdug'. apply elem_of_app. right. constructor.
Qed.

(** One call of dig, the nested calls being made by [f]. *)
Local Abbreviation dig_body f b c ai :=
  (let b0 := set_dug (dug b ++ [c]) b in
   b1 ← tile_set b0 c.1 c.2 (set_revealed true);
   t ← tile_at b1 c.1 c.2;
   if bool_decide (type t = Mine) then
     b2 ← tile_set b1 c.1 c.2 (set_image tile_exploded);
     Ok (b2, ai, false)
   else
     ai1 ← match ai with
           | Some a => a' ← add_knowledge a c (nearby_mine t); Ok (Some a')
           | None => Ok None
           end;
     if bool_decide (type t = Clue) then Ok (b1, ai1, true)
     else
       '(b2, ai2) ←
         for_each (range (Z.max 0 (c.1 - 1))
                         (Z.min (Z.of_nat (COLS cfg) - 1) (c.1 + 1) + 1))
           (fun '(b2, ai2) row =>
              for_each (range (Z.max 0 (c.2 - 1))
                              (Z.min (Z.of_nat (ROWS cfg) - 1) (c.2 + 1) + 1))
                (fun '(b3, ai3) col =>
                   if bool_decide ((row, col) ∈ dug b3) then Ok (b3, ai3)
                   else
                     '(b4, ai4, _) ← f b3 row col ai3;
                     Ok (b4, ai4))
                (b2, ai2))
           (b1, ai1);
       Ok (b2, ai2, true)).

Lemma dig_body_more_fuel
    (f g : Board → Z → Z → option A → result (Board * option A * bool))
    (b : Board) (c : cell) (ai : option A) :
  (∀ b cx cy ai, f b cx cy ai ≠ OutOfFuel → g b cx cy ai = f b cx cy ai) →
  dig_body f b c ai ≠ OutOfFuel →
  dig_body g b c ai = dig_body f b c ai.
Proof.
  intros Hfg. cbv zeta.
  destruct (tile_set _ c.1 c.2 (set_revealed true)) as [b1|e|];
    cbn [mbind result_bind]; [|done..].
  destruct (tile_at b1 c.1 c.2) as [t|e|]; cbn [mbind result_bind]; [|done..].
  destruct (bool_decide (type t = Mine)); [done|].
  destruct (match ai with Some a => _ | None => _ end) as [ai1|e|];
    cbn [mbind result_bind]; [|done..].
  destruct (bool_decide (type t = Clue)); [done|].
  rewrite !dig_loop_flat. intros Hne.
  rewrite (for_each_more_fuel _
             (fun s n =>
                if bool_decide (n ∈ dug s.1) then Ok s
                else '(b3, ai3, _) ← f s.1 n.1 n.2 s.2; Ok (b3, ai3))); [done| |].
  - intros s n. destruct (bool_decide (n ∈ dug s.1)); [done|].
    destruct (f s.1 n.1 n.2 s.2) as [r|e|] eqn:E; [| |done].
    + by rewrite Hfg, E by (by rewrite E).
    + by rewrite Hfg, E by (by rewrite E).
  - intros E. by rewrite E in Hne.
Qed.

(** A call of dig that ends within the bound ends with the same result
    within any greater bound. *)
Lemma dig_more_fuel (fuel fuel' : nat) (b : Board) (cx cy : Z)
    (ai : option A) :
  (fuel ≤ fuel')%nat →
  Board.dig cfg add_knowledge fuel b cx cy ai ≠ OutOfFuel →
  Board.dig cfg add_knowledge fuel' b cx cy ai
  = Board.dig cfg add_knowledge fuel b cx cy ai.
Proof.
  revert fuel' b cx cy ai. induction fuel as [|fuel IH];
    intros fuel' b cx cy ai Hle Hne; [done|].
  destruct fuel' as [|fuel']; [lia|].
  change (dig_body (Board.dig cfg add_knowledge fuel') b (cx, cy) ai
          = dig_body (Board.dig cfg add_knowledge fuel) b (cx, cy) ai).
  apply dig_body_more_fuel; [|exact Hne].
  intros b1 cx1 cy1 ai1. apply IH. lia.
Qed.

Lemma undug_size (V : list cell) :
  (size (undug V) ≤ COLS cfg * ROWS cfg)%nat.
Proof.
  rewrite <- (board_cells_length cfg).
  rewrite <- (size_list_to_set (C := gset cell) (board_cells cfg))
    by apply board_cells_NoDup.
  apply subseteq_size. intros x. rewrite elem_of_difference. tauto.
Qed.

(** The result of dig and the flood from the dug cell. *)
Lemma dig_flood (b : Board) (cx cy : Z) (ai : option A) :
  well_formed cfg b → on_cfg (cx, cy) →
  ∃ b' ai' l,
    (∀ fuel, (COLS cfg * ROWS cfg < fuel)%nat →
             Board.dig cfg add_knowledge fuel b cx cy ai
             = Ok (b', ai', negb (bool_decide (has_type Mine b (cx, cy)))))
    ∧ dug b' = dug b ++ (cx, cy) :: l
    ∧ NoDup l ∧ ((cx, cy) ∉ l) ∧ (∀ d, d ∈ l → d ∉ dug b)
    ∧ (∀ d, d ∈ (cx, cy) :: l ↔ floods b (cx, cy) d)
    ∧ well_formed cfg b'
    ∧ first_click b' = first_click b
    ∧ board_surface b' = board_surface b
    ∧ (∀ d, on_cfg d →
            tile b' d = if decide (d ∈ (cx, cy) :: l)
                        then dig_tile <$> tile b d else tile b d)
    ∧ told add_knowledge b ai ((cx, cy) :: l) = Ok ai'.
Proof.
  intros Hwf Hc.
  destruct (dig_returns (S (COLS cfg * ROWS cfg)) b (cx, cy) ai Hwf Hc) as
    (b' & ai' & Hdig & (l & Hdug & Hnd & Hl & Hwf' & Hfc & Hsf & Hti & Htold
                        & Hfl & Hclo & _) & Hopen).
  { pose proof (undug_size (dug b ++ [(cx, cy)])). lia. }
  exists b', ai', l. cbn [fst snd] in Hdig.
  split.
  { intros fuel Hfuel. rewrite <- Hdig. apply dig_more_fuel; [lia|].
    by rewrite Hdig. }
  split; [done|]. split; [done|].
  split; [by intros (_ & ? & _)%Hl|].
  split; [by intros d (_ & _ & ?)%Hl|].
  split; [|done].
  intros d. split.
  - intros [->|Hd]%elem_of_cons; [constructor|by apply Hfl].
  - intros Hflood. induction Hflood as [|d n _ IH Hod Hn HnV]; [constructor|].
    assert (n ∈ dug b') as Hin.
    { apply elem_of_cons in IH as [->|Hd].
      - by apply Hopen.
      - by apply (Hclo d). }
    rewrite Hdug in Hin. by apply elem_of_app in Hin as [?|?].
Qed.

(** dig on a cell of the board, with an agent whose add_knowledge returns:
    the recursion ends (a bound of COLS * ROWS + 1 nested calls is enough),
    no index is out of range, and the result is False exactly when the cell
    is a mine.  The cells appended to the dug list are the cell itself and,
    each once, the cells outside the former dug list that a flood from the
    cell reaches; exactly their tiles are changed, to revealed (a mine among
    them also to the exploded image); and the agent was told of exactly
    those of them that are no mines, in the order of the dug list. *)
Theorem dig_spec (b : Board) (cx cy : Z) (ai : option A) :
  well_formed cfg b → on_cfg (cx, cy) →
  ∃ b' ai' l,
    (∀ fuel, (COLS cfg * ROWS cfg < fuel)%nat →
             Board.dig cfg add_knowledge fuel b cx cy ai
             = Ok (b', ai', negb (bool_decide (has_type Mine b (cx, cy)))))
    ∧ dug b' = dug b ++ (cx, cy) :: l
    ∧ NoDup l ∧ ((cx, cy) ∉ l) ∧ (∀ d, d ∈ l → d ∉ dug b)
    ∧ (∀ d, d ∈ (cx, cy) :: l ↔ floods b (cx, cy) d)
    ∧ well_formed cfg b'
    ∧ first_click b' = first_click b
    ∧ board_surface b' = board_surface b
    ∧ (∀ d, on_cfg d →
            tile b' d = if decide (d ∈ (cx, cy) :: l)
                        then dig_tile <$> tile b d else tile b d)
    ∧ told add_knowledge b ai ((cx, cy) :: l) = Ok ai'.
Proof. apply dig_flood. Qed.

End DigFacts.

Lemma dig_spec_witness :
  let cfg := {| ROWS := 1; COLS := 3; AMOUNT_MINES := 1 |} in
  let b := update_tile (update_tile (Board.__init__ cfg) (2, 0) mine_tile)
             (1, 0) (clue_tile 1) in
  well_formed cfg b
  ∧ on_board 3 1 (0, 0)
  ∧ ∃ b',
      (∀ fuel, (3 < fuel)%nat →
               Board.dig cfg add_knowledge fuel b 0 0 None
               = Ok (b', None, true))
      ∧ dug b' = [(0, 0); (1, 0)].
Proof.
  intros cfg b.
  assert (well_formed cfg b) as Hwf.
  { do 2 apply update_tile_well_formed. apply init_well_formed. }
  assert (on_board 3 1 (0, 0)) as Hon by (cbv; repeat split; congruence).
  assert (∀ a c n, ∃ a', add_knowledge a c n = Ok a') as Htot.
  { intros a c n. destruct (add_knowledge_spec a c n) as (a' & E & _).
    by exists a'. }
  split; [exact Hwf|]. split; [exact Hon|].
  destruct (dig_spec cfg add_knowledge Htot b 0 0 None Hwf Hon)
    as (b' & ai' & l & Hdig & _).
  pose proof (Hdig 4%nat ltac:(cbn; lia)) as H4.
  vm_compute in H4. injection H4 as <- <-.
  eexists. split; [exact Hdig|]. reflexivity.
Defined.

(* --------------------------------------------------------------------- *)
(** ** Board.dig on a board with its clues, and the agent *)
(* --------------------------------------------------------------------- *)

Section Clued.
Variable cfg : settings.

Local Abbreviation on_cfg :=
  (on_board (Z.of_nat (COLS cfg)) (Z.of_nat (ROWS cfg))).
Local Abbreviation nbrs c :=
  (neighbours (Z.of_nat (COLS cfg)) (Z.of_nat (ROWS cfg)) c).
Local Abbreviation floods b c d :=
  (flood (Z.of_nat (COLS cfg)) (Z.of_nat (ROWS cfg)) b (dug b) c d).

(** The board after the first click has its clues right. *)
Lemma first_click_clued (fcx fcy : Z) (tape rest : list Z) (b1 b2 : Board) :
  Board.place_mines cfg (Board.__init__ cfg) fcx fcy tape = Ok (b1, rest) →
  Board.place_clues cfg b1 = Ok b2 →
  clued cfg b2.
Proof.
  intros Hrun Hrun2. unfold Board.place_mines in Hrun.
  pose proof (place_mines_loop_spec cfg (AMOUNT_MINES cfg)
                (Board.__init__ cfg) fcx fcy tape (init_well_formed cfg)) as H.
  rewrite Hrun in H.
  destruct H as (New & HN & Hnew & Hwf1 & Hd1 & _ & _ & _ & Ht1).
  destruct (place_clues_returns cfg b1 Hwf1)
    as (b2' & Hrun2' & Hwf2 & Hd2 & _ & _ & Hm2 & Ht2).
  rewrite Hrun2 in Hrun2'. injection Hrun2' as <-.
  intros c t Hc Ht Hnm.
  pose proof (Ht1 c Hc) as Hc1. rewrite init_tile in Hc1 by done.
  rewrite Hm2.
  assert (∃ n, 0 ≤ n ∧ n = Z.of_nat (size (nbrs c ∩ board_mines cfg b1)))
    as (n & Hn0 & En) by (eexists; split; [|reflexivity]; lia).
  rewrite <- En.
  destruct (decide (c ∈ New)) as [Hin|Hin]; cbn in Hc1.
  - rewrite (Ht2 c _ Hc Hc1) in Ht. injection Ht as <-. done.
  - rewrite (Ht2 c _ Hc Hc1), <- En in Ht. injection Ht as <-.
    unfold clue_tile. cbn. destruct (Z.ltb_spec 0 n); cbn.
    + split; [done|]. split; [lia|done].
    + split; [lia|]. split; [done|lia].
Qed.

Lemma clued_no_mine_around (b : Board) (d n : cell) :
  clued cfg b → on_cfg d → open_cell b d → n ∈ nbrs d → ¬ has_type Mine b n.
Proof.
  intros Hclued Hd (t & Ht & Hnm & Hnc) Hn Hmine.
  destruct (Hclued d t Hd Ht Hnm) as [Hcount Hclue].
  assert (nearby_mine t = 0) as H0.
  { destruct (Z.ltb_spec 0 (nearby_mine t)) as [Hpos|Hle]; [|lia].
    by apply Hclue in Hpos. }
  rewrite H0 in Hcount.
  assert (size (nbrs d ∩ board_mines cfg b) = 0%nat) as Hsize by lia.
  apply size_empty_inv in Hsize.
  apply (not_elem_of_empty (C := gset cell) n). apply Hsize.
  apply elem_of_intersection. split; [done|].
  apply board_mines_elem_of. split; [|done].
  apply neighbours_elem_of in Hn. tauto.
Qed.

Lemma flood_no_mine (b : Board) (c d : cell) :
  clued cfg b → on_cfg c → ¬ has_type Mine b c → floods b c d →
  ¬ has_type Mine b d.
Proof.
  intros Hclued Hc Hnm Hflood.
  induction Hflood as [|d n Hflood _ Hod Hn _]; [done|].
  apply (clued_no_mine_around b d n); try done.
  by apply (flood_on_board _ _ b (dug b) c d).
Qed.

Lemma dig_tile_has_type (ty : tile_type) (b b' : Board) (D : list cell)
    (c : cell) :
  tile b' c = (if decide (c ∈ D) then dig_tile <$> tile b c else tile b c) →
  has_type ty b' c ↔ has_type ty b c.
Proof.
  intros Ht. unfold has_type. rewrite Ht.
  destruct (decide (c ∈ D)); [|done].
  destruct (tile b c) as [t|]; cbn.
  - split.
    + intros (t' & [= <-] & Hty). rewrite dig_tile_type in Hty. eauto.
    + intros (t' & [= <-] & Hty). exists (dig_tile t).
      by rewrite dig_tile_type.
  - split; intros (t' & [=] & _).
Qed.

Lemma dig_keeps_clued (b b' : Board) (D : list cell) :
  (∀ d, on_cfg d →
        tile b' d = if decide (d ∈ D) then dig_tile <$> tile b d
                    else tile b d) →
  clued cfg b →
  board_mines cfg b' = board_mines cfg b ∧ clued cfg b'.
Proof.
  intros Ht Hclued.
  assert (board_mines cfg b' = board_mines cfg b) as Hm.
  { apply board_mines_ext. intros c Hc.
    apply (dig_tile_has_type Mine b b' D). by apply Ht. }
  split; [done|]. intros c t' Hc Ht' Hnm. rewrite Hm.
  rewrite (Ht c Hc) in Ht'. destruct (decide (c ∈ D)).
  - destruct (tile b c) as [t|] eqn:Hbt; [|done]. injection Ht' as <-.
    rewrite dig_tile_type in Hnm |- *. rewrite dig_tile_nearby_mine.
    by apply Hclued.
  - by apply Hclued.
Qed.

Section WithAgent.
Context {A : Type}.
Variable add_knowledge : A → cell → Z → result A.
Hypothesis add_knowledge_total : ∀ a c n, ∃ a', add_knowledge a c n = Ok a'.

(** dig on a board with its clues, at a cell that is no mine: it returns
    True; it digs the cell, the cells with no mine around them that are
    connected to it through such cells, and the clues at their border, as
    far as they were not dug before, and never a mine; the mines and the
    clues of the board are as before. *)
Theorem dig_clued (b : Board) (cx cy : Z) (ai : option A) :
  well_formed cfg b → clued cfg b → on_cfg (cx, cy) →
  ¬ has_type Mine b (cx, cy) →
  ∃ b' ai' l,
    (∀ fuel, (COLS cfg * ROWS cfg < fuel)%nat →
             Board.dig cfg add_knowledge fuel b cx cy ai = Ok (b', ai', true))
    ∧ dug b' = dug b ++ (cx, cy) :: l
    ∧ (∀ d, d ∈ (cx, cy) :: l ↔ floods b (cx, cy) d)
    ∧ (∀ d, d ∈ (cx, cy) :: l → on_cfg d ∧ ¬ has_type Mine b d)
    ∧ (∀ d t, on_cfg d → tile b d = Some t →
              tile b' d = Some (if decide (d ∈ (cx, cy) :: l)
                                then set_revealed true t else t))
    ∧ well_formed cfg b'
    ∧ board_mines cfg b' = board_mines cfg b
    ∧ clued cfg b'.
Proof.
  intros Hwf Hclued Hc Hnm.
  destruct (dig_flood cfg add_knowledge add_knowledge_total b cx cy ai Hwf Hc)
    as (b' & ai' & l & Hdig & Hdug & Hnd & Hcl & Hl & Hfl & Hwf' & _ & _ & Ht
        & Htold).
  rewrite bool_decide_eq_false_2 in Hdig by done.
  assert (∀ d, d ∈ (cx, cy) :: l → on_cfg d ∧ ¬ has_type Mine b d) as Hsafe.
  { intros d Hd%Hfl. split.
    - by apply (flood_on_board _ _ b (dug b) (cx, cy) d).
    - by apply (flood_no_mine b (cx, cy) d). }
  exists b', ai', l. split; [exact Hdig|]. split; [done|]. split; [done|].
  split; [done|]. split.
  { intros d t Hd Hbt. rewrite (Ht d Hd), Hbt.
    destruct (decide (d ∈ (cx, cy) :: l)) as [Hin|]; [|done].
    cbn. f_equal. unfold dig_tile.
    destruct (type t) eqn:Ety; try done.
    exfalso. apply (Hsafe d Hin). by exists t. }
  split; [done|]. by apply (dig_keeps_clued b b' ((cx, cy) :: l)).
Qed.

End WithAgent.

(** What the agent has learnt after it was told of dug cells. *)
Lemma told_sound (T : gset cell) (b : Board) (l : list cell) (st : Solver) :
  sound T st →
  (∀ d t, d ∈ l → tile b d = Some t → type t ≠ Mine →
          (d ∉ T)
          ∧ nearby_mine t
            = Z.of_nat (size (neighbours (width st) (height st) d ∩ T))) →
  ∃ st',
    told add_knowledge b (Some st) l = Ok (Some st')
    ∧ sound T st'
    ∧ class st' = class st ∧ width st' = width st ∧ height st' = height st
    ∧ amount_mines st' = amount_mines st ∧ guess st' = guess st
    ∧ mines st ⊆ mines st' ∧ safes st ⊆ safes st'
    ∧ moves_made st ⊆ moves_made st'
    ∧ ∀ d t, d ∈ l → tile b d = Some t → type t ≠ Mine →
             d ∈ safes st' ∧ d ∈ moves_made st'.
Proof.
  revert st. induction l as [|d l IH]; intros st Hst Hl.
  { exists st. repeat (split; [done|]). by intros d t ?%elem_of_nil. }
  assert (∃ st1,
            told add_knowledge b (Some st) [d] = Ok (Some st1)
            ∧ sound T st1
            ∧ class st1 = class st ∧ width st1 = width st
            ∧ height st1 = height st
            ∧ amount_mines st1 = amount_mines st ∧ guess st1 = guess st
            ∧ mines st ⊆ mines st1 ∧ safes st ⊆ safes st1
            ∧ moves_made st ⊆ moves_made st1
            ∧ ∀ t, tile b d = Some t → type t ≠ Mine →
                   d ∈ safes st1 ∧ d ∈ moves_made st1)
    as (st1 & E1 & Hst1 & Hcl & Hw & Hh & Ham & Hg & Hm1 & Hs1 & Hmm1 & Hd1).
  { unfold told. cbn [for_each].
    destruct (tile b d) as [t|] eqn:Ht.
    2:{ exists st. repeat (split; [done|]). done. }
    destruct (decide (type t = Mine)) as [Hm|Hm].
    { rewrite Hm. exists st. repeat (split; [done|]).
      intros t' [= <-] ?. done. }
    destruct (add_knowledge_spec st d (nearby_mine t))
      as (st1 & E & Hext & Hsafe & Hsound).
    destruct Hext as (Hm1 & Hs1 & Hmm & Hcl & Hw & Hh & Ham & _ & _ & Hg).
    cbn in Hm1, Hs1, Hmm, Hcl, Hw, Hh, Ham, Hg.
    destruct (Hl d t ltac:(constructor) Ht Hm) as [HdT Hn].
    exists st1. split.
    { rewrite E. by destruct (type t). }
    split; [by apply Hsound|].
    repeat (split; [done|]).
    split.
    { rewrite Hmm. intros x ?. apply elem_of_union. by right. }
    intros _ _ _. split; [done|]. rewrite Hmm. apply elem_of_union. left.
    by apply elem_of_singleton. }
  destruct (IH st1 Hst1) as
    (st' & E' & Hst' & Hcl' & Hw' & Hh' & Ham' & Hg' & Hm' & Hs' & Hmm' & Hd').
  { intros d' t' Hd'' Ht' Hnm'. rewrite Hw, Hh. apply (Hl d' t'); [|done..].
    by right. }
  exists st'. split.
  { change (d :: l) with ([d] ++ l). by apply (told_app _ _ _ (Some st1)). }
  split; [done|].
  split; [congruence|]. split; [congruence|]. split; [congruence|].
  split; [congruence|]. split; [congruence|].
  split; [by etransitivity|]. split; [by etransitivity|].
  split; [by etransitivity|].
  intros d' t' [->|Hin]%elem_of_cons Ht' Hnm'.
  - destruct (Hd1 t' Ht' Hnm'). split; [by apply Hs'|by apply Hmm'].
  - by apply (Hd' d' t').
Qed.

(** dig with a solver attached, on a board with its clues: if what the
    solver knows is true of the mines of the board, then add_knowledge
    never raises during the dig, and what the solver knows afterwards is
    still true of the mines; every dug cell that is no mine is then among
    its safe cells and its moves. *)
Theorem dig_agent_sound (b : Board) (cx cy : Z) (st : Solver) :
  well_formed cfg b → clued cfg b → on_cfg (cx, cy) →
  width st = Z.of_nat (COLS cfg) → height st = Z.of_nat (ROWS cfg) →
  sound (board_mines cfg b) st →
  ∃ b' st',
    (∀ fuel, (COLS cfg * ROWS cfg < fuel)%nat →
             Board.dig cfg add_knowledge fuel b cx cy (Some st)
             = Ok (b', Some st',
                   negb (bool_decide (has_type Mine b (cx, cy)))))
    ∧ board_mines cfg b' = board_mines cfg b
    ∧ well_formed cfg b' ∧ clued cfg b'
    ∧ sound (board_mines cfg b') st'
    ∧ width st' = width st ∧ height st' = height st
    ∧ mines st ⊆ mines st' ∧ safes st ⊆ safes st'
    ∧ moves_made st ⊆ moves_made st'
    ∧ ∀ d, d ∈ dug b' → d ∉ dug b → on_cfg d → ¬ has_type Mine b d →
           d ∈ safes st' ∧ d ∈ moves_made st'.
Proof.
  intros Hwf Hclued Hc Hw Hh Hst.
  assert (∀ a c n, ∃ a', add_knowledge a c n = Ok a') as Htot.
  { intros a c n. destruct (add_knowledge_spec a c n) as (a' & E & _).
    by exists a'. }
  destruct (dig_flood cfg add_knowledge Htot b cx cy (Some st) Hwf Hc)
    as (b' & ai' & l & Hdig & Hdug & Hnd & Hcl & Hl & Hfl & Hwf' & _ & _ & Ht
        & Htold).
  destruct (dig_keeps_clued b b' ((cx, cy) :: l) Ht Hclued) as [Hm Hclued'].
  destruct (told_sound (board_mines cfg b) b ((cx, cy) :: l) st Hst)
    as (st' & E & Hst' & _ & Hw' & Hh' & _ & _ & Hm' & Hs' & Hmm' & Hd').
  { intros d t Hd Hbt Hnm.
    assert (on_cfg d) as Hon.
    { apply Hfl in Hd. by apply (flood_on_board _ _ b (dug b) (cx, cy) d). }
    split.
    - intros [_ (t' & Hbt' & Hty)]%board_mines_elem_of. congruence.
    - rewrite Hw, Hh. by apply Hclued. }
  rewrite E in Htold. injection Htold as <-.
  exists b', st'. split; [exact Hdig|]. split; [done|]. split; [done|].
  split; [done|]. rewrite Hm. split; [done|].
  repeat (split; [done|]).
  intros d Hd Hnd' Hon Hnm.
  rewrite Hdug in Hd. apply elem_of_app in Hd as [?|Hd]; [done|].
  destruct (tile_on_board cfg b d Hwf Hon) as [t Hbt].
  apply (Hd' d t); [done..|].
  intros Hty. apply Hnm. by exists t.
Qed.

End Clued.

Lemma dig_clued_witness :
  let cfg := {| ROWS := 1; COLS := 3; AMOUNT_MINES := 1 |} in
  let b := update_tile (update_tile (Board.__init__ cfg) (2, 0) mine_tile)
             (1, 0) (clue_tile 1) in
  well_formed cfg b ∧ clued cfg b ∧ on_board 3 1 (0, 0)
  ∧ ¬ has_type Mine b (0, 0)
  ∧ ∃ b',
      (∀ fuel, (3 < fuel)%nat →
               Board.dig cfg add_knowledge fuel b 0 0 None
               = Ok (b', None, true))
      ∧ dug b' = [(0, 0); (1, 0)]
      ∧ board_mines cfg b' = {[(2, 0)]}.
Proof.
  intros cfg b.
  assert (well_formed cfg b) as Hwf.
  { do 2 apply update_tile_well_formed. apply init_well_formed. }
  assert (clued cfg b) as Hclued.
  { apply (first_click_clued cfg 0 0 [2; 0] []
             (update_tile (Board.__init__ cfg) (2, 0) mine_tile) b).
    - vm_compute. reflexivity.
    - vm_compute. reflexivity. }
  assert (on_board 3 1 (0, 0)) as Hon by (cbv; repeat split; congruence).
  assert (¬ has_type Mine b (0, 0)) as Hnm.
  { apply (bool_decide_unpack _). vm_compute. exact I. }
  assert (∀ a c n, ∃ a', add_knowledge a c n = Ok a') as Htot.
  { intros a c n. destruct (add_knowledge_spec a c n) as (a' & E & _).
    by exists a'. }
  split; [exact Hwf|]. split; [exact Hclued|]. split; [exact Hon|].
  split; [exact Hnm|].
  destruct (dig_clued cfg add_knowledge Htot b 0 0 None Hwf Hclued Hon Hnm)
    as (b' & ai' & l & Hdig & _ & _ & _ & _ & _ & Hm & _).
  pose proof (Hdig 4%nat ltac:(cbn; lia)) as H4.
  vm_compute in H4. injection H4 as <- <-.
  eexists. split; [exact Hdig|]. split; [reflexivity|].
  apply (bool_decide_unpack _). vm_compute. exact I.
Defined.

Lemma dig_agent_sound_witness :
  let cfg := {| ROWS := 1; COLS := 3; AMOUNT_MINES := 1 |} in
  let b := update_tile (update_tile (Board.__init__ cfg) (2, 0) mine_tile)
             (1, 0) (clue_tile 1) in
  let st := SetBasedSolver.__init__ 3 1 1 1 true in
  well_formed cfg b ∧ clued cfg b ∧ on_board 3 1 (0, 0)
  ∧ sound (board_mines cfg b) st
  ∧ ∃ b' st',
      (∀ fuel, (3 < fuel)%nat →
               Board.dig cfg add_knowledge fuel b 0 0 (Some st)
               = Ok (b', Some st', true))
      ∧ sound (board_mines cfg b') st'
      ∧ (0, 0) ∈ safes st' ∧ (1, 0) ∈ safes st'.
Proof.
  intros cfg b st.
  assert (well_formed cfg b) as Hwf.
  { do 2 apply update_tile_well_formed. apply init_well_formed. }
  assert (clued cfg b) as Hclued.
  { apply (first_click_clued cfg 0 0 [2; 0] []
             (update_tile (Board.__init__ cfg) (2, 0) mine_tile) b).
    - vm_compute. reflexivity.
    - vm_compute. reflexivity. }
  assert (on_board 3 1 (0, 0)) as Hon by (cbv; repeat split; congruence).
  assert (sound (board_mines cfg b) st) as Hst.
  { split; [constructor|]. split.
    - apply (bool_decide_unpack _). vm_compute. exact I.
    - apply (bool_decide_unpack _). vm_compute. exact I. }
  split; [exact Hwf|]. split; [exact Hclued|]. split; [exact Hon|].
  split; [exact Hst|].
  destruct (dig_agent_sound cfg b 0 0 st Hwf Hclued Hon eq_refl eq_refl Hst)
    as (b' & st' & Hdig & _ & _ & _ & Hsound & _ & _ & _ & _ & _ & Hsafe).
  assert (negb (bool_decide (has_type Mine b (0, 0))) = true) as Hr
    by (vm_compute; reflexivity).
  rewrite Hr in Hdig.
  pose proof (Hdig 4%nat ltac:(cbn; lia)) as H4.
  assert (dug b' = [(0, 0); (1, 0)]) as Hdug.
  { revert H4. vm_compute. intros [= <- _]. reflexivity. }
  exists b', st'. split; [exact Hdig|]. split; [exact Hsound|].
  split.
  - apply (Hsafe (0, 0)).
    + rewrite Hdug. constructor.
    + cbn. apply not_elem_of_nil.
    + exact Hon.
    + apply (bool_decide_unpack _). vm_compute. exact I.
  - apply (Hsafe (1, 0)).
    + rewrite Hdug. right. constructor.
    + cbn. apply not_elem_of_nil.
    + cbv. repeat split; congruence.
    + apply (bool_decide_unpack _). vm_compute. exact I.
Defined.

(* --------------------------------------------------------------------- *)
(** ** Minesweeper.check_button and Minesweeper.check_win *)
(* --------------------------------------------------------------------- *)

Lemma tile_map (f : Tile → Tile) (b : Board) (c : cell) :
  tile (set_board_list (map (map f) (board_list b)) b) c = f <$> tile b c.
Proof.
  unfold tile. cbn. rewrite list_lookup_fmap.
  destruct (board_list b !! Z.to_nat c.1) as [col|]; [|done].
  cbn. by rewrite list_lookup_fmap.
Qed.

Lemma update_tile_twice (b : Board) (c : cell) (f g : Tile → Tile) (t : Tile) :
  tile b c = Some t → g (f t) = t →
  update_tile (update_tile b c f) c g = b.
Proof.
  intros Ht Hgf. unfold update_tile, tile in *. destruct b as [sf bl fc dg].
  cbn in *. unfold set_board_list. cbn. f_equal.
  apply list_eq. intros i.
  destruct (decide (i = Z.to_nat c.1)) as [->|Hne].
  - rewrite !list_lookup_alter_eq.
    destruct (bl !! Z.to_nat c.1) as [col|] eqn:Hcol; [|done]. cbn in *.
    f_equal. apply list_eq. intros j.
    destruct (decide (j = Z.to_nat c.2)) as [->|Hne].
    + rewrite !list_lookup_alter_eq, Ht. cbn. by rewrite Hgf.
    + by rewrite !list_lookup_alter_ne.
  - by rewrite !list_lookup_alter_ne.
Qed.

Section Game.
Variable cfg : settings.

Local Abbreviation on_cfg :=
  (on_board (Z.of_nat (COLS cfg)) (Z.of_nat (ROWS cfg))).

Lemma map_well_formed (f : Tile → Tile) (b : Board) :
  well_formed cfg b →
  well_formed cfg (set_board_list (map (map f) (board_list b)) b).
Proof.
  intros [Hc Hr]. split; cbn.
  - by rewrite length_map.
  - apply Forall_map. eapply Forall_impl; [exact Hr|].
    intros col Hcol. cbn in *. by rewrite length_map.
Qed.

(** A test of all tiles by two nested loops over the board. *)
Lemma forallb_tiles (P : Tile → bool) (b : Board) :
  well_formed cfg b →
  forallb (forallb P) (board_list b) = true
  ↔ ∀ c t, on_cfg c → tile b c = Some t → P t = true.
Proof.
  intros [Hc Hr]. rewrite forallb_forall. split.
  - intros Hall c t [Hx Hy]. unfold tile.
    destruct (board_list b !! Z.to_nat c.1) as [col|] eqn:Hcol; [|done].
    cbn. intros Ht.
    pose proof (Hall col (proj1 (list_elem_of_In _ _)
                            (list_elem_of_lookup_2 _ _ _ Hcol))) as Hcolb.
    rewrite forallb_forall in Hcolb. apply Hcolb.
    apply list_elem_of_In. by eapply list_elem_of_lookup_2.
  - intros Hall col Hin%list_elem_of_In. apply forallb_forall.
    intros t Ht%list_elem_of_In.
    apply list_elem_of_lookup_1 in Hin as [i Hi].
    apply list_elem_of_lookup_1 in Ht as [j Hj].
    pose proof (lookup_lt_Some _ _ _ Hi) as Hilt.
    pose proof (lookup_lt_Some _ _ _ Hj) as Hjlt.
    pose proof (proj1 (Forall_lookup _ _) Hr i col Hi) as Hlen. cbn in Hlen.
    apply (Hall (Z.of_nat i, Z.of_nat j) t).
    + split; cbn; lia.
    + unfold tile. cbn. rewrite !Nat2Z.id, Hi. cbn. done.
Qed.

Section WithAgent.
Context {A : Type}.
Variable add_knowledge : A → cell → Z → result A.

(** A right click on a tile of the board: on a revealed tile nothing
    changes; on any other tile the flag is put on or taken off, and a
    second right click on the same tile gives back the game as it was.
    The agent and the random draws are not touched. *)
Theorem check_button_right_click (fuel : nat) (g : Minesweeper.Minesweeper)
    (mx my : Z) (ai : option A) (tape : list Z) :
  well_formed cfg (Minesweeper.board g) → on_cfg (mx, my) →
  ∃ t,
    tile (Minesweeper.board g) (mx, my) = Some t
    ∧ let g' :=
        if revealed t then g
        else Minesweeper.set_board
               (update_tile (Minesweeper.board g) (mx, my)
                  (set_flagged (negb (flagged t)))) g in
      Minesweeper.check_button cfg add_knowledge fuel g 3 mx my ai tape
      = Ok (g', ai, tape)
      ∧ Minesweeper.check_button cfg add_knowledge fuel g' 3 mx my ai tape
        = Ok (g, ai, tape).
Proof.
  intros Hwf Hc. pose proof Hc as [[Hx _] [Hy _]]. cbn [fst snd] in Hx, Hy.
  destruct (tile_on_board cfg _ (mx, my) Hwf Hc) as [t Ht].
  exists t. split; [done|]. cbv zeta.
  pose proof (tile_at_tile _ (mx, my) t Hx Hy Ht) as Hat. cbn [fst snd] in Hat.
  assert (∀ g1 t1,
            tile (Minesweeper.board g1) (mx, my) = Some t1 →
            Minesweeper.check_button cfg add_knowledge fuel g1 3 mx my ai tape
            = Ok (if revealed t1 then g1
                  else Minesweeper.set_board
                         (update_tile (Minesweeper.board g1) (mx, my)
                            (set_flagged (negb (flagged t1)))) g1, ai, tape))
    as Hclick.
  { intros g1 t1 Ht1. unfold Minesweeper.check_button.
    rewrite (bool_decide_eq_false_2 (3 = 1)) by lia. cbn [mbind result_bind].
    rewrite (bool_decide_eq_true_2 (3 = 3)) by lia.
    pose proof (tile_at_tile _ (mx, my) t1 Hx Hy Ht1) as Hat1.
    cbn [fst snd] in Hat1. rewrite Hat1. cbn [mbind result_bind].
    destruct (revealed t1); cbn [negb]; [done|].
    cbn [mbind result_bind].
    pose proof (tile_set_update (Minesweeper.board g1) (mx, my)
                  (set_flagged (negb (flagged t1))) Hx Hy) as Hset.
    cbn [fst snd] in Hset. rewrite Hset by (by rewrite Ht1). done. }
  split; [by apply Hclick|].
  destruct (revealed t) eqn:Hrev.
  - rewrite (Hclick g t Ht), Hrev. done.
  - rewrite (Hclick _ (set_flagged (negb (flagged t)) t)).
    2:{ cbn. rewrite tile_update_tile, decide_True, Ht by done. done. }
    cbn [revealed set_flagged]. rewrite Hrev. do 2 f_equal.
    destruct g as [b pl w pr]. unfold Minesweeper.set_board. cbn.
    rewrite (update_tile_twice b (mx, my) _ _ t); [done|exact Ht|].
    destruct t as [? ? ? ? ? ? fl]. cbn. unfold set_flagged. cbn.
    by rewrite negb_involutive.
Qed.

(** Clicks that do nothing: a button other than the left and the right
    one, and a left click on a flagged tile.  The board is not set up, no
    tile is dug and the agent is not told anything. *)
Theorem check_button_ignored (fuel : nat) (g : Minesweeper.Minesweeper)
    (button mx my : Z) (ai : option A) (tape : list Z) :
  (button ≠ 1 ∧ button ≠ 3)
  ∨ (button = 1 ∧ ∃ t, tile_at (Minesweeper.board g) mx my = Ok t
                       ∧ flagged t = true) →
  Minesweeper.check_button cfg add_knowledge fuel g button mx my ai tape
  = Ok (g, ai, tape).
Proof.
  unfold Minesweeper.check_button. intros [[H1 H3]|[-> (t & Ht & Hfl)]].
  - rewrite (bool_decide_eq_false_2 (button = 1)) by lia.
    cbn [mbind result_bind].
    rewrite (bool_decide_eq_false_2 (button = 3)) by lia. done.
  - rewrite (bool_decide_eq_true_2 (1 = 1)) by lia. rewrite Ht.
    cbn [mbind result_bind]. rewrite Hfl. cbn [negb mbind result_bind].
    rewrite (bool_decide_eq_false_2 (1 = 3)) by lia. done.
Qed.

(** dig on a mine: one call, which tells the agent nothing. *)
Lemma dig_mine (fuel : nat) (b : Board) (cx cy : Z) (ai : option A) (t : Tile) :
  0 ≤ cx → 0 ≤ cy → tile b (cx, cy) = Some t → type t = Mine →
  Board.dig cfg add_knowledge (S fuel) b cx cy ai
  = Ok (update_tile
          (update_tile (set_dug (dug b ++ [(cx, cy)]) b) (cx, cy)
             (set_revealed true))
          (cx, cy) (set_image tile_exploded), ai, false).
Proof.
  intros Hx Hy Ht Hm. cbn [Board.dig].
  set (ba := set_dug (dug b ++ [(cx, cy)]) b).
  pose proof (tile_set_update ba (cx, cy) (set_revealed true) Hx Hy) as Hset.
  cbn [fst snd] in Hset. rewrite Hset by (unfold ba; by rewrite tile_set_dug, Ht).
  clear Hset. cbn [mbind result_bind].
  assert (tile (update_tile ba (cx, cy) (set_revealed true)) (cx, cy)
          = Some (set_revealed true t)) as Htc.
  { rewrite tile_update_tile, decide_True by done. unfold ba.
    by rewrite tile_set_dug, Ht. }
  pose proof (tile_at_tile _ (cx, cy) _ Hx Hy Htc) as Hat.
  cbn [fst snd] in Hat. rewrite Hat. clear Hat. cbn [mbind result_bind].
  change (type (set_revealed true t)) with (type t).
  rewrite bool_decide_eq_true_2 by done.
  pose proof (tile_set_update (update_tile ba (cx, cy) (set_revealed true))
                (cx, cy) (set_image tile_exploded) Hx Hy) as Hset.
  cbn [fst snd] in Hset. rewrite Hset by (by rewrite Htc). done.
Qed.

(** A left click on a mine that carries no flag, in a game whose board is
    set up: the game is lost.  The agent is told nothing; [win] is False,
    [playing] is False (on a board with a column), 'You lost!' is printed;
    the clicked tile shows the explosion, every mine is revealed, and
    every flag on a tile that is no mine is replaced by the mark of a
    wrong flag; the other tiles are as before. *)
Theorem check_button_mine (fuel : nat) (g : Minesweeper.Minesweeper)
    (mx my : Z) (ai : option A) (tape : list Z) (t : Tile) :
  well_formed cfg (Minesweeper.board g) → on_cfg (mx, my) →
  first_click (Minesweeper.board g) = true →
  tile (Minesweeper.board g) (mx, my) = Some t →
  type t = Mine → flagged t = false → (0 < fuel)%nat →
  ∃ g',
    Minesweeper.check_button cfg add_knowledge fuel g 1 mx my ai tape
    = Ok (g', ai, tape)
    ∧ Minesweeper.win g' = Some false
    ∧ ((0 < COLS cfg)%nat → Minesweeper.playing g' = false)
    ∧ Minesweeper.printed g' = Minesweeper.printed g ++ ["You lost!"%string]
    ∧ dug (Minesweeper.board g') = dug (Minesweeper.board g) ++ [(mx, my)]
    ∧ well_formed cfg (Minesweeper.board g')
    ∧ (∀ c t0, on_cfg c → tile (Minesweeper.board g) c = Some t0 →
               tile (Minesweeper.board g') c
               = Some (Minesweeper.reveal_tile
                         (if decide (c = (mx, my)) then dig_tile t0 else t0)))
    ∧ (∀ c t', on_cfg c → tile (Minesweeper.board g') c = Some t' →
               type t' = Mine → revealed t' = true).
Proof.
  intros Hwf Hc Hfc Ht Hm Hfl Hfuel.
  pose proof Hc as [[Hx _] [Hy _]]. cbn [fst snd] in Hx, Hy.
  destruct fuel as [|fuel]; [lia|].
  unfold Minesweeper.check_button.
  rewrite (bool_decide_eq_true_2 (1 = 1)) by lia.
  pose proof (tile_at_tile _ (mx, my) t Hx Hy Ht) as Hat. cbn [fst snd] in Hat.
  rewrite Hat. cbn [mbind result_bind]. rewrite Hfl, Hfc.
  cbn [negb mbind result_bind].
  rewrite (dig_mine fuel _ mx my ai t Hx Hy Ht Hm). cbn [negb mbind result_bind].
  rewrite (bool_decide_eq_false_2 (1 = 3)) by lia.
  set (b := Minesweeper.board g) in *.
  set (b1 := update_tile (update_tile (set_dug (dug b ++ [(mx, my)]) b)
                            (mx, my) (set_revealed true))
               (mx, my) (set_image tile_exploded)).
  assert (well_formed cfg b1) as Hwf1.
  { do 2 apply update_tile_well_formed. exact Hwf. }
  assert (∀ c t0, on_cfg c → tile b c = Some t0 →
                  tile b1 c = Some (if decide (c = (mx, my)) then dig_tile t0
                                    else t0)) as Ht1.
  { intros c t0 [[? _] [? _]] Ht0. unfold b1.
    rewrite !tile_update_tile by (cbn [fst snd]; lia).
    rewrite tile_set_dug. destruct (decide (c = (mx, my))) as [->|]; [|done].
    rewrite decide_True by done.
    rewrite Ht in Ht0 |- *. injection Ht0 as <-. cbn.
    unfold dig_tile. by rewrite Hm. }
  assert (dug b1 = dug b ++ [(mx, my)]) as Hdug1 by reflexivity.
  clearbody b1.
  eexists. split; [reflexivity|]. cbn.
  split; [done|]. split.
  { intros Hcols. destruct Hwf1 as [Hlen _].
    destruct (board_list b1); [cbn in Hlen; lia|done]. }
  split; [done|]. split; [done|].
  split; [by apply map_well_formed|].
  assert (∀ c t0, on_cfg c → tile b c = Some t0 →
                  tile (set_board_list
                          (map (map Minesweeper.reveal_tile) (board_list b1)) b1)
                       c
                  = Some (Minesweeper.reveal_tile
                            (if decide (c = (mx, my)) then dig_tile t0
                             else t0))) as Ht2.
  { intros c t0 Hon Ht0. rewrite tile_map, (Ht1 c t0 Hon Ht0). done. }
  split; [exact Ht2|].
  intros c t' Hon Ht' Hty.
  destruct (tile_on_board cfg b c Hwf Hon) as [t0 Ht0].
  rewrite (Ht2 c t0 Hon Ht0) in Ht'. injection Ht' as <-.
  revert Hty. unfold Minesweeper.reveal_tile.
  destruct (flagged _ && negb _) eqn:E1; [cbn; congruence|].
  destruct (bool_decide _) eqn:E2; [done|].
  apply bool_decide_eq_false in E2. done.
Qed.

Section Total.
Hypothesis add_knowledge_total : ∀ a c n, ∃ a', add_knowledge a c n = Ok a'.

(** The first left click of a game never loses.  On the board of
    Board.__init__, whenever place_mines returns: check_button returns,
    [playing], [win] and the printed lines are as before, the board is set
    up with AMOUNT_MINES mines and its clues right, and the clicked tile is
    revealed and is no mine. *)
Theorem first_click_safe (fuel : nat) (g : Minesweeper.Minesweeper)
    (mx my : Z) (ai : option A) (tape rest : list Z) (b1 : Board) :
  Minesweeper.board g = Board.__init__ cfg → on_cfg (mx, my) →
  (COLS cfg * ROWS cfg < fuel)%nat →
  Board.place_mines cfg (Board.__init__ cfg) mx my tape = Ok (b1, rest) →
  ∃ g' ai',
    Minesweeper.check_button cfg add_knowledge fuel g 1 mx my ai tape
    = Ok (g', ai', rest)
    ∧ Minesweeper.playing g' = Minesweeper.playing g
    ∧ Minesweeper.win g' = Minesweeper.win g
    ∧ Minesweeper.printed g' = Minesweeper.printed g
    ∧ well_formed cfg (Minesweeper.board g')
    ∧ first_click (Minesweeper.board g') = true
    ∧ clued cfg (Minesweeper.board g')
    ∧ size (board_mines cfg (Minesweeper.board g')) = AMOUNT_MINES cfg
    ∧ ∃ t, tile (Minesweeper.board g') (mx, my) = Some t
           ∧ revealed t = true ∧ type t ≠ Mine.
Proof.
  intros Hb Hc Hfuel Hplace.
  pose proof Hc as [[Hx _] [Hy _]]. cbn [fst snd] in Hx, Hy.
  unfold Minesweeper.check_button.
  rewrite (bool_decide_eq_true_2 (1 = 1)) by lia. rewrite Hb.
  pose proof (tile_at_tile _ (mx, my) _ Hx Hy (init_tile cfg (mx, my) Hc))
    as Hat.
  cbn [fst snd] in Hat. rewrite Hat. clear Hat.
  cbn [flagged Tile.__init__ first_click Board.__init__ negb mbind result_bind].
  rewrite Hplace. cbn [mbind result_bind].
  destruct (first_click_placed cfg mx my tape rest b1 Hplace)
    as (b2 & Hclues & Hwf2 & Hd2 & Hsize & Hfc & Ht2).
  pose proof (first_click_clued cfg mx my tape rest b1 b2 Hplace Hclues)
    as Hclued.
  rewrite Hclues. cbn [mbind result_bind].
  set (b3 := set_first_click true b2).
  assert (well_formed cfg b3) as Hwf3 by exact Hwf2.
  assert (clued cfg b3) as Hclued3 by exact Hclued.
  assert (board_mines cfg b3 = board_mines cfg b2) as Hm3 by reflexivity.
  assert (¬ has_type Mine b3 (mx, my)) as Hnm.
  { intros Hm. apply Hfc. apply board_mines_elem_of. by split. }
  destruct (dig_flood cfg add_knowledge add_knowledge_total b3 mx my ai
              Hwf3 Hc)
    as (b' & ai' & l & Hdig & Hdug & _ & _ & _ & _ & Hwf' & Hfc' & _ & Ht
        & _).
  rewrite (Hdig fuel Hfuel).
  rewrite (bool_decide_eq_false_2 (has_type Mine b3 (mx, my))) by done.
  rewrite (bool_decide_eq_false_2 (1 = 3)) by lia.
  cbn [negb mbind result_bind].
  destruct (dig_keeps_clued cfg b3 b' ((mx, my) :: l) Ht Hclued3)
    as [Hm' Hclued'].
  exists (Minesweeper.set_board b' g), ai'. split; [done|]. cbn.
  repeat (split; [done|]).
  split; [by rewrite Hm', Hm3|].
  destruct (tile_on_board cfg b3 (mx, my) Hwf3 Hc) as [t3 Ht3].
  exists (dig_tile t3). split.
  { rewrite (Ht _ Hc), decide_True, Ht3 by constructor. done. }
  assert (type t3 ≠ Mine) as Hty.
  { intros Hty. apply Hnm. by exists t3. }
  split.
  - unfold dig_tile. by destruct (type t3).
  - by rewrite dig_tile_type.
Qed.

End Total.
End WithAgent.

(** check_win holds exactly when every tile that is no mine is revealed.
    When it does not hold, the end of events leaves the game as it is;
    when it holds, the game is won: [win] is True, [playing] is False,
    'You won!' is printed, and exactly the tiles that are not revealed,
    which are all mines, are flagged. *)
Theorem finish_spec (g : Minesweeper.Minesweeper) :
  well_formed cfg (Minesweeper.board g) →
  (Minesweeper.check_win g = true
   ↔ ∀ c t, on_cfg c → tile (Minesweeper.board g) c = Some t →
            type t ≠ Mine → revealed t = true)
  ∧ (Minesweeper.check_win g = false → Minesweeper.finish g = g)
  ∧ (Minesweeper.check_win g = true →
     Minesweeper.win (Minesweeper.finish g) = Some true
     ∧ Minesweeper.playing (Minesweeper.finish g) = false
     ∧ Minesweeper.printed (Minesweeper.finish g)
       = Minesweeper.printed g ++ ["You won!"%string]
     ∧ well_formed cfg (Minesweeper.board (Minesweeper.finish g))
     ∧ ∀ c t, on_cfg c → tile (Minesweeper.board g) c = Some t →
              tile (Minesweeper.board (Minesweeper.finish g)) c
              = Some (if revealed t then t else set_flagged true t)
              ∧ (revealed t = false → type t = Mine)).
Proof.
  intros Hwf.
  assert (Minesweeper.check_win g = true
          ↔ ∀ c t, on_cfg c → tile (Minesweeper.board g) c = Some t →
                   type t ≠ Mine → revealed t = true) as Hwin.
  { unfold Minesweeper.check_win. rewrite forallb_tiles by done.
    split; intros Hall c t Hc Ht.
    - intros Hty. specialize (Hall c t Hc Ht).
      rewrite bool_decide_eq_false_2 in Hall by done. cbn in Hall.
      by destruct (revealed t).
    - case_bool_decide as Hty; [done|]. cbn.
      by rewrite (Hall c t Hc Ht Hty). }
  split; [exact Hwin|]. unfold Minesweeper.finish. split.
  - by intros ->.
  - intros E. rewrite E. cbn. repeat (split; [done|]).
    split; [by apply map_well_formed|].
    intros c t Hc Ht. rewrite tile_map, Ht. cbn.
    unfold Minesweeper.flag_tile. split.
    + by destruct (revealed t).
    + intros Hrev. destruct (decide (type t = Mine)) as [|Hty]; [done|].
      pose proof (proj1 Hwin E c t Hc Ht Hty). congruence.
Qed.

End Game.

Lemma check_button_right_click_witness :
  let cfg := {| ROWS := 1; COLS := 3; AMOUNT_MINES := 1 |} in
  let g := {| Minesweeper.board := Board.__init__ cfg;
              Minesweeper.playing := true;
              Minesweeper.win := None;
              Minesweeper.printed := [] |} in
  let g' := Minesweeper.set_board
              (update_tile (Board.__init__ cfg) (2, 0) (set_flagged true)) g in
  well_formed cfg (Minesweeper.board g) ∧ on_board 3 1 (2, 0)
  ∧ Minesweeper.check_button cfg add_knowledge 4 g 3 2 0 None []
    = Ok (g', None, [])
  ∧ Minesweeper.check_button cfg add_knowledge 4 g' 3 2 0 None []
    = Ok (g, None, []).
Proof.
  intros cfg g g'.
  assert (well_formed cfg (Minesweeper.board g)) as Hwf
    by apply init_well_formed.
  assert (on_board 3 1 (2, 0)) as Hon by (cbv; repeat split; congruence).
  split; [exact Hwf|]. split; [exact Hon|].
  destruct (check_button_right_click cfg add_knowledge 4 g 2 0 None [] Hwf Hon)
    as (t & Ht & Hclick).
  assert (t = Tile.__init__ 2 0 tile_empty Unknown) as ->.
  { revert Ht. vm_compute. by intros [= <-]. }
  exact Hclick.
Defined.

Lemma check_button_ignored_witness :
  let cfg := {| ROWS := 1; COLS := 3; AMOUNT_MINES := 1 |} in
  let g := {| Minesweeper.board := Board.__init__ cfg;
              Minesweeper.playing := true;
              Minesweeper.win := None;
              Minesweeper.printed := [] |} in
  Minesweeper.check_button cfg add_knowledge 4 g 2 0 0 None [2; 0]
  = Ok (g, None, [2; 0]).
Proof.
  intros cfg g. apply check_button_ignored. left. split; lia.
Defined.

Lemma check_button_mine_witness :
  let cfg := {| ROWS := 1; COLS := 3; AMOUNT_MINES := 1 |} in
  let b := set_first_click true
             (update_tile (update_tile (Board.__init__ cfg) (2, 0) mine_tile)
                (1, 0) (clue_tile 1)) in
  let g := {| Minesweeper.board := b;
              Minesweeper.playing := true;
              Minesweeper.win := None;
              Minesweeper.printed := [] |} in
  well_formed cfg b ∧ on_board 3 1 (2, 0)
  ∧ ∃ g',
      Minesweeper.check_button cfg add_knowledge 1 g 1 2 0 None []
      = Ok (g', None, [])
      ∧ Minesweeper.win g' = Some false
      ∧ Minesweeper.playing g' = false
      ∧ Minesweeper.printed g' = ["You lost!"%string].
Proof.
  intros cfg b g.
  assert (well_formed cfg b) as Hwf.
  { do 2 apply update_tile_well_formed. apply init_well_formed. }
  assert (on_board 3 1 (2, 0)) as Hon by (cbv; repeat split; congruence).
  split; [exact Hwf|]. split; [exact Hon|].
  destruct (check_button_mine cfg add_knowledge 1 g 2 0 None []
              (mine_tile (Tile.__init__ 2 0 tile_empty Unknown)) Hwf Hon
              eq_refl eq_refl eq_refl eq_refl ltac:(lia))
    as (g' & Hrun & Hwin & Hplaying & Hprinted & _).
  exists g'. split; [exact Hrun|]. split; [exact Hwin|].
  split; [apply Hplaying; cbn; lia|]. exact Hprinted.
Defined.

Lemma first_click_safe_witness :
  let cfg := {| ROWS := 1; COLS := 3; AMOUNT_MINES := 1 |} in
  let g := {| Minesweeper.board := Board.__init__ cfg;
              Minesweeper.playing := true;
              Minesweeper.win := None;
              Minesweeper.printed := [] |} in
  on_board 3 1 (0, 0)
  ∧ Board.place_mines cfg (Board.__init__ cfg) 0 0 [0; 0; 2; 0]
    = Ok (update_tile (Board.__init__ cfg) (2, 0) mine_tile, [])
  ∧ ∃ g' ai',
      Minesweeper.check_button cfg add_knowledge 4 g 1 0 0 None [0; 0; 2; 0]
      = Ok (g', ai', [])
      ∧ Minesweeper.playing g' = true
      ∧ Minesweeper.win g' = None
      ∧ size (board_mines cfg (Minesweeper.board g')) = 1%nat.
Proof.
  intros cfg g.
  assert (on_board 3 1 (0, 0)) as Hon by (cbv; repeat split; congruence).
  assert (Board.place_mines cfg (Board.__init__ cfg) 0 0 [0; 0; 2; 0]
          = Ok (update_tile (Board.__init__ cfg) (2, 0) mine_tile, []))
    as Hplace by (vm_compute; reflexivity).
  assert (∀ a c n, ∃ a', add_knowledge a c n = Ok a') as Htot.
  { intros a c n. destruct (add_knowledge_spec a c n) as (a' & E & _).
    by exists a'. }
  split; [exact Hon|]. split; [exact Hplace|].
  destruct (first_click_safe cfg add_knowledge Htot 4 g 0 0 None
              [0; 0; 2; 0] [] _ eq_refl Hon ltac:(cbn; lia) Hplace)
    as (g' & ai' & Hrun & Hplaying & Hwin & _ & _ & _ & _ & Hsize & _).
  exists g', ai'. split; [exact Hrun|]. split; [exact Hplaying|].
  split; [exact Hwin|]. exact Hsize.
Defined.

Lemma finish_spec_witness :
  let cfg := {| ROWS := 1; COLS := 3; AMOUNT_MINES := 1 |} in
  let b := update_tile
             (update_tile
                (update_tile (update_tile (Board.__init__ cfg) (2, 0) mine_tile)
                   (1, 0) (clue_tile 1))
                (0, 0) (set_revealed true))
             (1, 0) (set_revealed true) in
  let g := {| Minesweeper.board := b;
              Minesweeper.playing := true;
              Minesweeper.win := None;
              Minesweeper.printed := [] |} in
  well_formed cfg b
  ∧ Minesweeper.check_win g = true
  ∧ Minesweeper.win (Minesweeper.finish g) = Some true
  ∧ Minesweeper.playing (Minesweeper.finish g) = false
  ∧ flagged <$> tile (Minesweeper.board (Minesweeper.finish g)) (2, 0)
    = Some true.
Proof.
  intros cfg b g.
  assert (well_formed cfg b) as Hwf.
  { do 4 apply update_tile_well_formed. apply init_well_formed. }
  assert (Minesweeper.check_win g = true) as Hwin by (vm_compute; reflexivity).
  split; [exact Hwf|]. split; [exact Hwin|].
  destruct (finish_spec cfg g Hwf) as (_ & _ & Hfin).
  destruct (Hfin Hwin) as (Hw & Hp & _ & _ & Ht).
  split; [exact Hw|]. split; [exact Hp|].
  destruct (Ht (2, 0) (mine_tile (Tile.__init__ 2 0 tile_empty Unknown)))
    as [Htile _].
  - cbv. repeat split; congruence.
  - vm_compute. reflexivity.
  - rewrite Htile. reflexivity.
Defined.

(* --------------------------------------------------------------------- *)
(** ** Minesweeper.events: a move of the solver *)
(* --------------------------------------------------------------------- *)

Section Automated.
Variable cfg : settings.

Local Abbreviation on_cfg :=
  (on_board (Z.of_nat (COLS cfg)) (Z.of_nat (ROWS cfg))).

(** The tiles of [b'] have the types and the numbers of those of [b]. *)
Local Abbreviation same_kinds b b' :=
  (∀ c t, on_cfg c → tile b c = Some t →
          ∃ t', tile b' c = Some t'
                ∧ type t' = type t ∧ nearby_mine t' = nearby_mine t).

(** The state of a game that is set up, with a solver that knows nothing
    false of its board. *)
Local Abbreviation game_inv g st :=
  (well_formed cfg (Minesweeper.board g)
   ∧ first_click (Minesweeper.board g) = true
   ∧ clued cfg (Minesweeper.board g)
   ∧ knows cfg (Minesweeper.board g) st).

Lemma knows_sound (b : Board) (st : Solver) :
  knows cfg b st → sound (board_mines cfg b) st.
Proof. intros (_ & _ & Hall). by apply Hall. Qed.

Lemma knows_safes_on_board (b : Board) (st : Solver) (c : cell) :
  knows cfg b st → c ∈ safes st → on_cfg c.
Proof.
  intros (_ & _ & Hall) Hc. destruct (decide (on_cfg c)) as [|Hoff]; [done|].
  exfalso.
  destruct (Hall (board_mines cfg b ∪ {[c]})) as (_ & _ & Hdisj).
  - intros c' Hc'. rewrite elem_of_union, elem_of_singleton.
    split; [|tauto]. intros [?| ->]; done.
  - apply (Hdisj c Hc). apply elem_of_union. right. by apply elem_of_singleton.
Qed.

Lemma same_kinds_mines (b b' : Board) :
  well_formed cfg b → same_kinds b b' →
  board_mines cfg b' = board_mines cfg b.
Proof.
  intros Hwf Hsame. apply board_mines_ext. intros c Hc.
  destruct (tile_on_board cfg b c Hwf Hc) as [t Ht].
  destruct (Hsame c t Hc Ht) as (t' & Ht' & Hty & _).
  unfold has_type. rewrite Ht, Ht'. split.
  - intros (? & [= <-] & ?). exists t. split; [done|]. congruence.
  - intros (? & [= <-] & ?). exists t'. split; [done|]. congruence.
Qed.

Lemma same_kinds_clued (b b' : Board) :
  well_formed cfg b → same_kinds b b' → clued cfg b → clued cfg b'.
Proof.
  intros Hwf Hsame Hclued c t' Hc Ht' Hnm.
  rewrite (same_kinds_mines b b' Hwf Hsame).
  destruct (tile_on_board cfg b c Hwf Hc) as [t Ht].
  destruct (Hsame c t Hc Ht) as (t'' & Ht'' & Hty & Hn).
  rewrite Ht' in Ht''. injection Ht'' as <-.
  rewrite Hty, Hn in *. by apply Hclued.
Qed.

Lemma same_kinds_knows (b b' : Board) (st : Solver) :
  well_formed cfg b → same_kinds b b' → knows cfg b st → knows cfg b' st.
Proof.
  intros Hwf Hsame (Hw & Hh & Hall). split; [done|]. split; [done|].
  intros T HT. apply Hall. intros c Hc.
  rewrite <- (same_kinds_mines b b' Hwf Hsame). by apply HT.
Qed.

Lemma same_kinds_update (b : Board) (c : cell) (f : Tile → Tile) :
  0 ≤ c.1 → 0 ≤ c.2 →
  (∀ t, type (f t) = type t ∧ nearby_mine (f t) = nearby_mine t) →
  same_kinds b (update_tile b c f).
Proof.
  intros Hx Hy Hf c' t [[? _] [? _]] Ht.
  rewrite tile_update_tile by done.
  destruct (decide (c' = c)) as [->|].
  - rewrite Ht. cbn. exists (f t). split; [done|]. apply Hf.
  - by exists t.
Qed.

Lemma same_kinds_map (b : Board) (f : Tile → Tile) :
  (∀ t, type (f t) = type t ∧ nearby_mine (f t) = nearby_mine t) →
  same_kinds b (set_board_list (map (map f) (board_list b)) b).
Proof.
  intros Hf c t _ Ht. rewrite tile_map, Ht. cbn.
  exists (f t). split; [done|]. apply Hf.
Qed.

Lemma same_kinds_trans (b1 b2 b3 : Board) :
  same_kinds b1 b2 → same_kinds b2 b3 → same_kinds b1 b3.
Proof.
  intros H12 H23 c t Hc Ht.
  destruct (H12 c t Hc Ht) as (t2 & Ht2 & Hty2 & Hn2).
  destruct (H23 c t2 Hc Ht2) as (t3 & Ht3 & Hty3 & Hn3).
  exists t3. split; [done|]. split; congruence.
Qed.

Lemma reveal_tile_kind (t : Tile) :
  type (Minesweeper.reveal_tile t) = type t
  ∧ nearby_mine (Minesweeper.reveal_tile t) = nearby_mine t.
Proof.
  unfold Minesweeper.reveal_tile.
  destruct (flagged t && _); [done|]. by destruct (bool_decide _).
Qed.

Lemma flag_tile_kind (t : Tile) :
  type (Minesweeper.flag_tile t) = type t
  ∧ nearby_mine (Minesweeper.flag_tile t) = nearby_mine t.
Proof. unfold Minesweeper.flag_tile. by destruct (negb _). Qed.

(** dig with a solver that knows nothing false of the board. *)
Lemma dig_agent_knows (b : Board) (cx cy : Z) (st : Solver) :
  well_formed cfg b → clued cfg b → on_cfg (cx, cy) → knows cfg b st →
  ∃ b' st',
    (∀ fuel, (COLS cfg * ROWS cfg < fuel)%nat →
             Board.dig cfg add_knowledge fuel b cx cy (Some st)
             = Ok (b', Some st',
                   negb (bool_decide (has_type Mine b (cx, cy)))))
    ∧ well_formed cfg b'
    ∧ first_click b' = first_click b
    ∧ same_kinds b b'
    ∧ knows cfg b' st'
    ∧ guess st' = guess st.
Proof.
  intros Hwf Hclued Hc Hknows. pose proof Hknows as (Hw & Hh & Hall).
  assert (∀ a c n, ∃ a', add_knowledge a c n = Ok a') as Htot.
  { intros a c n. destruct (add_knowledge_spec a c n) as (a' & E & _).
    by exists a'. }
  destruct (dig_flood cfg add_knowledge Htot b cx cy (Some st) Hwf Hc)
    as (b' & ai' & l & Hdig & Hdug & Hnd & Hcl & Hl & Hfl & Hwf' & Hfc & _
        & Ht & Htold).
  assert (same_kinds b b') as Hsame.
  { intros c t Hon Hbt. rewrite (Ht c Hon), Hbt.
    destruct (decide (c ∈ (cx, cy) :: l)); cbn.
    - exists (dig_tile t). split; [done|].
      by rewrite dig_tile_type, dig_tile_nearby_mine.
    - by exists t. }
  assert (∀ T,
            (∀ c, on_cfg c → c ∈ T ↔ c ∈ board_mines cfg b) →
            ∃ st', ai' = Some st' ∧ sound T st'
                   ∧ width st' = width st ∧ height st' = height st
                   ∧ guess st' = guess st) as Hsound.
  { intros T HT.
    destruct (told_sound T b ((cx, cy) :: l) st (Hall T HT))
      as (st' & E & Hst' & _ & Hw' & Hh' & _ & Hg' & _).
    - intros d t Hd Hbt Hnm.
      assert (on_cfg d) as Hon.
      { apply Hfl in Hd. by apply (flood_on_board _ _ b (dug b) (cx, cy) d). }
      destruct (Hclued d t Hon Hbt Hnm) as [Hn _]. split.
      + intros [_ (t' & Hbt' & Hty)]%(HT d Hon)%board_mines_elem_of.
        congruence.
      + rewrite Hw, Hh, Hn. do 2 f_equal. apply set_eq. intros x.
        rewrite !elem_of_intersection. split.
        * intros [Hx ?]. split; [done|]. apply HT; [|done].
          apply neighbours_elem_of in Hx. tauto.
        * intros [Hx ?]. split; [done|]. apply HT; [|done].
          apply neighbours_elem_of in Hx. tauto.
    - rewrite E in Htold. injection Htold as <-. by exists st'. }
  destruct (Hsound (board_mines cfg b) ltac:(done))
    as (st' & -> & _ & Hw' & Hh' & Hg').
  exists b', st'. split; [exact Hdig|]. split; [done|]. split; [done|].
  split; [done|]. split; [|done].
  split; [congruence|]. split; [congruence|].
  intros T HT. destruct (Hsound T) as (st'' & [= <-] & Hst'' & _).
  - intros c Hon. rewrite <- (same_kinds_mines b b' Hwf Hsame). by apply HT.
  - done.
Qed.

Section WithFloat.
Context `{PyFloat F}.

Lemma make_move_size (T : gset cell) (st st1 : Solver)
    (mv : option cell * Z) :
  sound T st → make_move st = Ok (st1, mv) →
  width st1 = width st ∧ height st1 = height st.
Proof.
  intros Hst. unfold make_move, Solver.make_move.
  destruct (filter _ _) as [|mine ?]; [|by intros [= <- _]].
  destruct (Solver.make_safe_move st) as [c|] eqn:Esafe.
  - cbn [mbind result_bind]. rewrite Esafe. by intros [= <- _].
  - destruct (analyze_knowledge st) as [st2|e|] eqn:Ean;
      cbn [mbind result_bind]; [|done..].
    destruct (analyze_knowledge_keeps_sound T st st2 Hst Ean)
      as (_ & move & (_ & _ & _ & _ & Hw & Hh & _)).
    cbn in Hw, Hh.
    destruct (Solver.make_safe_move st2); by intros [= <- _].
Qed.

Lemma make_move_knows (b : Board) (st st1 : Solver) (mv : option cell * Z) :
  knows cfg b st → make_move st = Ok (st1, mv) → knows cfg b st1.
Proof.
  intros Hknows Emm. pose proof Hknows as (Hw & Hh & Hall).
  destruct (make_move_size _ st st1 mv (knows_sound b st Hknows) Emm)
    as [Hw1 Hh1].
  split; [congruence|]. split; [congruence|].
  intros T HT. destruct mv as [move button].
  by destruct (make_move_keeps_sound T st st1 move button (Hall T HT) Emm).
Qed.

(** The end of events keeps what holds of the game. *)
Lemma finish_knows (g : Minesweeper.Minesweeper) (st : Solver) :
  game_inv g st →
  game_inv (Minesweeper.finish g) st
  ∧ board_mines cfg (Minesweeper.board (Minesweeper.finish g))
    = board_mines cfg (Minesweeper.board g)
  ∧ (Minesweeper.finish g = g
     ∨ Minesweeper.win (Minesweeper.finish g) = Some true
       ∧ Minesweeper.playing (Minesweeper.finish g) = false
       ∧ Minesweeper.printed (Minesweeper.finish g)
         = Minesweeper.printed g ++ ["You won!"%string]).
Proof.
  intros (Hwf & Hfc & Hclued & Hknows). unfold Minesweeper.finish.
  destruct (Minesweeper.check_win g); [|by auto 10].
  cbn.
  pose proof (same_kinds_map (Minesweeper.board g) Minesweeper.flag_tile
                flag_tile_kind) as Hsame.
  split; [|split].
  - split; [by apply map_well_formed|]. split; [done|].
    split; [by apply (same_kinds_clued (Minesweeper.board g))|].
    by apply (same_kinds_knows (Minesweeper.board g)).
  - by apply same_kinds_mines.
  - right. done.
Qed.

(** The game goes on as before, or it is won. *)
Local Abbreviation not_lost g g' :=
  (Minesweeper.win g' = Minesweeper.win g
   ∧ Minesweeper.playing g' = Minesweeper.playing g
   ∧ Minesweeper.printed g' = Minesweeper.printed g
   ∨ Minesweeper.win g' = Some true
     ∧ Minesweeper.playing g' = false
     ∧ Minesweeper.printed g' = Minesweeper.printed g ++ ["You won!"%string]).

Lemma check_button_left_knows (fuel : nat) (g : Minesweeper.Minesweeper)
    (mx my : Z) (st1 : Solver) (tape : list Z) :
  game_inv g st1 → on_cfg (mx, my) → (COLS cfg * ROWS cfg < fuel)%nat →
  ∃ g1 st',
    Minesweeper.check_button cfg add_knowledge fuel g 1 mx my (Some st1) tape
    = Ok (g1, Some st', tape)
    ∧ game_inv g1 st'
    ∧ board_mines cfg (Minesweeper.board g1)
      = board_mines cfg (Minesweeper.board g)
    ∧ guess st' = guess st1
    ∧ (¬ has_type Mine (Minesweeper.board g) (mx, my) →
       Minesweeper.win g1 = Minesweeper.win g
       ∧ Minesweeper.playing g1 = Minesweeper.playing g
       ∧ Minesweeper.printed g1 = Minesweeper.printed g).
Proof.
  intros (Hwf & Hfc & Hclued & Hknows) Hc Hfuel.
  pose proof Hc as [[Hx _] [Hy _]]. cbn [fst snd] in Hx, Hy.
  unfold Minesweeper.check_button.
  rewrite (bool_decide_eq_true_2 (1 = 1)) by lia.
  rewrite (bool_decide_eq_false_2 (1 = 3)) by lia.
  destruct (tile_on_board cfg _ (mx, my) Hwf Hc) as [t Ht].
  pose proof (tile_at_tile _ (mx, my) t Hx Hy Ht) as Hat. cbn [fst snd] in Hat.
  rewrite Hat. cbn [mbind result_bind].
  destruct (flagged t); cbn [negb mbind result_bind].
  { exists g, st1. split; [done|]. split; [done|]. done. }
  rewrite Hfc. cbn [negb mbind result_bind].
  destruct (dig_agent_knows (Minesweeper.board g) mx my st1 Hwf Hclued Hc
              Hknows)
    as (b' & st' & Hdig & Hwf' & Hfc' & Hsame & Hknows' & Hg).
  rewrite (Hdig fuel Hfuel). cbn [mbind result_bind].
  pose proof (same_kinds_mines _ b' Hwf Hsame) as Hm'.
  pose proof (same_kinds_clued _ b' Hwf Hsame Hclued) as Hclued'.
  case_bool_decide as Hmine; cbn [negb].
  - pose proof (same_kinds_map b' Minesweeper.reveal_tile reveal_tile_kind)
      as Hsame2.
    eexists _, st'. split; [reflexivity|]. cbn. split; [|split; [|done]].
    + split; [by apply map_well_formed|]. split; [congruence|].
      split; [by apply (same_kinds_clued b')|].
      by apply (same_kinds_knows b').
    + rewrite <- Hm'. by apply same_kinds_mines.
  - exists (Minesweeper.set_board b' g), st'. split; [done|]. cbn.
    split; [|done]. split; [done|]. split; [congruence|]. done.
Qed.

Lemma check_button_right_knows (fuel : nat) (g : Minesweeper.Minesweeper)
    (mx my : Z) (st1 : Solver) (tape : list Z) :
  game_inv g st1 → on_cfg (mx, my) →
  ∃ g1,
    Minesweeper.check_button cfg add_knowledge fuel g 3 mx my (Some st1) tape
    = Ok (g1, Some st1, tape)
    ∧ game_inv g1 st1
    ∧ board_mines cfg (Minesweeper.board g1)
      = board_mines cfg (Minesweeper.board g)
    ∧ Minesweeper.win g1 = Minesweeper.win g
    ∧ Minesweeper.playing g1 = Minesweeper.playing g
    ∧ Minesweeper.printed g1 = Minesweeper.printed g.
Proof.
  intros (Hwf & Hfc & Hclued & Hknows) Hc.
  pose proof Hc as [[Hx _] [Hy _]]. cbn [fst snd] in Hx, Hy.
  unfold Minesweeper.check_button.
  rewrite (bool_decide_eq_false_2 (3 = 1)) by lia.
  rewrite (bool_decide_eq_true_2 (3 = 3)) by lia.
  cbn [mbind result_bind].
  destruct (tile_on_board cfg _ (mx, my) Hwf Hc) as [t Ht].
  pose proof (tile_at_tile _ (mx, my) t Hx Hy Ht) as Hat. cbn [fst snd] in Hat.
  rewrite Hat. cbn [mbind result_bind].
  destruct (revealed t); cbn [negb mbind result_bind].
  { exists g. done. }
  pose proof (tile_set_update (Minesweeper.board g) (mx, my)
                (set_flagged (negb (flagged t))) Hx Hy) as Hset.
  cbn [fst snd] in Hset. rewrite Hset by (by rewrite Ht).
  cbn [mbind result_bind].
  pose proof (same_kinds_update (Minesweeper.board g) (mx, my)
                (set_flagged (negb (flagged t))) Hx Hy
                ltac:(done)) as Hsame.
  eexists. split; [reflexivity|]. cbn. split; [|split; [|done]].
  - split; [by apply update_tile_well_formed|]. split; [done|].
    split; [by apply (same_kinds_clued (Minesweeper.board g))|].
    by apply (same_kinds_knows (Minesweeper.board g)).
  - by apply same_kinds_mines.
Qed.

(** One move of the solver in events (automated mode), in a game that is
    set up, with a solver that knows nothing false of the board.  When
    events returns, make_move had returned a move on some cell.  A move
    that make_move did not count as a guess is a move on a cell of the
    board and does not lose the game: the game goes on as before or is
    won.  After a move on a cell of the board, guess or not, the mines of
    the board are where they were, its clues are right, and the solver,
    which dig has told of the new cells, still knows nothing false of the
    board; no random draw is used. *)
Theorem events_automated_sound (fuel : nat) (g g' : Minesweeper.Minesweeper)
    (st : Solver) (clicks : list Minesweeper.click) (tape tape' : list Z)
    (ai' : option Solver) :
  well_formed cfg (Minesweeper.board g) →
  first_click (Minesweeper.board g) = true →
  clued cfg (Minesweeper.board g) →
  knows cfg (Minesweeper.board g) st →
  (COLS cfg * ROWS cfg < fuel)%nat →
  Minesweeper.events cfg fuel g (Some st) true clicks tape
  = Ok (g', ai', tape') →
  ∃ st1 c button,
    make_move st = Ok (st1, (Some c, button))
    ∧ (guess st1 = guess st → on_cfg c)
    ∧ (on_cfg c →
       ∃ st',
         ai' = Some st' ∧ tape' = tape ∧ guess st' = guess st1
         ∧ game_inv g' st'
         ∧ board_mines cfg (Minesweeper.board g')
           = board_mines cfg (Minesweeper.board g)
         ∧ (guess st1 = guess st → not_lost g g')).
Proof.
  intros Hwf Hfc Hclued Hknows Hfuel.
  unfold Minesweeper.events, Minesweeper.ai_move.
  destruct (make_move st) as [[st1 [[[mx my]|] button]]|e|] eqn:Emm;
    cbn [mbind result_bind]; try discriminate.
  intros Hev. exists st1, (mx, my), button. split; [done|].
  pose proof (make_move_knows _ st st1 _ Hknows Emm) as Hknows1.
  destruct (make_move_keeps_sound _ st st1 _ _ (knows_sound _ st Hknows) Emm)
    as [_ Hcases].
  assert (game_inv g st1) as Hinv1 by done.
  assert (∀ g1 st',
            on_cfg (mx, my) →
            Minesweeper.check_button cfg add_knowledge fuel g button mx my
              (Some st1) tape = Ok (g1, Some st', tape) →
            game_inv g1 st' →
            board_mines cfg (Minesweeper.board g1)
            = board_mines cfg (Minesweeper.board g) →
            guess st' = guess st1 →
            (guess st1 = guess st →
             Minesweeper.win g1 = Minesweeper.win g
             ∧ Minesweeper.playing g1 = Minesweeper.playing g
             ∧ Minesweeper.printed g1 = Minesweeper.printed g) →
            ∃ st'',
              ai' = Some st'' ∧ tape' = tape ∧ guess st'' = guess st1
              ∧ game_inv g' st''
              ∧ board_mines cfg (Minesweeper.board g')
                = board_mines cfg (Minesweeper.board g)
              ∧ (guess st1 = guess st → not_lost g g')) as Hend.
  { intros g1 st' Hon Hrun Hinv' Hm' Hg' Hsame.
    rewrite Hrun in Hev. cbn [mbind result_bind] in Hev.
    injection Hev as <- <- <-.
    destruct (finish_knows g1 st' Hinv') as (Hinv'' & Hm'' & Hfin).
    exists st'. split; [done|]. split; [done|]. split; [done|].
    split; [done|]. split; [congruence|].
    intros Hng. destruct (Hsame Hng) as (Hw & Hp & Hpr).
    destruct Hfin as [->|(Hw' & Hp' & Hpr')].
    - left. done.
    - right. split; [done|]. split; [done|]. congruence. }
  destruct Hcases as
    [(-> & Hg & c & [= <-] & HcT & _)
    |[(-> & Hg & c & [= <-] & HcT & Hsafe & _)|(-> & Hg)]].
  - (* a flag on a known mine *)
    assert (on_cfg (mx, my)) as Hon.
    { apply board_mines_elem_of in HcT. tauto. }
    split; [done|]. intros _.
    destruct (check_button_right_knows fuel g mx my st1 tape Hinv1 Hon)
      as (g1 & Hrun & Hinv' & Hm' & Hsame).
    by apply (Hend g1 st1).
  - (* a known safe cell *)
    assert (on_cfg (mx, my)) as Hon
      by (by apply (knows_safes_on_board (Minesweeper.board g) st1)).
    split; [done|]. intros _.
    destruct (check_button_left_knows fuel g mx my st1 tape Hinv1 Hon Hfuel)
      as (g1 & st' & Hrun & Hinv' & Hm' & Hg' & Hsame).
    apply (Hend g1 st'); try done.
    intros _. apply Hsame. intros Hmine. apply HcT.
    apply board_mines_elem_of. by split.
  - (* a guess *)
    split; [lia|]. intros Hon.
    destruct (check_button_left_knows fuel g mx my st1 tape Hinv1 Hon Hfuel)
      as (g1 & st' & Hrun & Hinv' & Hm' & Hg' & Hsame).
    apply (Hend g1 st'); try done. lia.
Qed.

(** The first move of a new solver in events (automated mode), on the
    board of Board.__init__.  When events returns, the move was a reveal
    that make_move counted as a guess.  If its cell is a cell of the board,
    the board is set up by it with AMOUNT_MINES mines, none of them at the
    cell, and with its clues right; the game is not lost; and the solver,
    told of the dug cells, knows nothing false of the board. *)
Theorem events_first_move (fuel : nat) (g g' : Minesweeper.Minesweeper)
    (st : Solver) (clicks : list Minesweeper.click) (tape tape' : list Z)
    (ai' : option Solver) :
  Minesweeper.board g = Board.__init__ cfg →
  width st = Z.of_nat (COLS cfg) → height st = Z.of_nat (ROWS cfg) →
  knowledge st = [] → mines st = ∅ → safes st = ∅ →
  (COLS cfg * ROWS cfg < fuel)%nat →
  Minesweeper.events cfg fuel g (Some st) true clicks tape
  = Ok (g', ai', tape') →
  ∃ st1 c,
    make_move st = Ok (st1, (Some c, 1))
    ∧ guess st1 = guess st + 1
    ∧ (on_cfg c →
       ∃ st',
         ai' = Some st' ∧ tape' `suffix_of` tape ∧ guess st' = guess st1
         ∧ game_inv g' st'
         ∧ size (board_mines cfg (Minesweeper.board g')) = AMOUNT_MINES cfg
         ∧ (c ∉ board_mines cfg (Minesweeper.board g'))
         ∧ not_lost g g').
Proof.
  intros Hb Hw Hh Hk Hm Hs Hfuel.
  assert (∀ T, sound T st) as Hall.
  { intros T. split; [rewrite Hk; constructor|]. rewrite Hm, Hs.
    split; set_solver. }
  unfold Minesweeper.events, Minesweeper.ai_move.
  destruct (make_move st) as [[st1 [[[mx my]|] button]]|e|] eqn:Emm;
    cbn [mbind result_bind]; try discriminate.
  intros Hev.
  destruct (make_move_size ∅ st st1 _ (Hall ∅) Emm) as [Hw1 Hh1].
  assert (∀ T, sound T st1) as Hall1.
  { intros T.
    by destruct (make_move_keeps_sound T st st1 _ _ (Hall T) Emm). }
  destruct (make_move_keeps_sound ∅ st st1 _ _ (Hall ∅) Emm) as
    [_ [(_ & _ & c & _ & HcT & _)
       |[(_ & _ & c & _ & _ & Hsafe & _)|(-> & Hg)]]].
  { by apply not_elem_of_empty in HcT. }
  { exfalso. destruct (Hall1 {[c]}) as (_ & _ & Hdisj).
    apply (Hdisj c Hsafe). by apply elem_of_singleton. }
  exists st1, (mx, my). split; [done|]. split; [done|]. intros Hc.
  pose proof Hc as [[Hx _] [Hy _]]. cbn [fst snd] in Hx, Hy.
  revert Hev. unfold Minesweeper.check_button.
  rewrite (bool_decide_eq_true_2 (1 = 1)) by lia.
  rewrite (bool_decide_eq_false_2 (1 = 3)) by lia. rewrite Hb.
  pose proof (tile_at_tile _ (mx, my) _ Hx Hy (init_tile cfg (mx, my) Hc))
    as Hat.
  cbn [fst snd] in Hat. rewrite Hat. clear Hat.
  cbn [flagged Tile.__init__ first_click Board.__init__ negb mbind result_bind].
  destruct (Board.place_mines cfg (Board.__init__ cfg) mx my tape)
    as [[b1 tape1]|e|] eqn:Hplace; cbn [mbind result_bind]; try discriminate.
  destruct (first_click_placed cfg mx my tape tape1 b1 Hplace)
    as (b2 & Hclues & Hwf2 & Hd2 & Hsize & Hfc & Ht2).
  pose proof (first_click_clued cfg mx my tape tape1 b1 b2 Hplace Hclues)
    as Hclued.
  assert (tape1 `suffix_of` tape) as Hsuffix.
  { pose proof (place_mines_loop_spec cfg (AMOUNT_MINES cfg)
                  (Board.__init__ cfg) mx my tape (init_well_formed cfg))
      as Hloop.
    unfold Board.place_mines in Hplace. rewrite Hplace in Hloop.
    by destruct Hloop as (? & _ & _ & _ & _ & _ & _ & ? & _). }
  rewrite Hclues. cbn [mbind result_bind].
  set (b3 := set_first_click true b2).
  assert (well_formed cfg b3) as Hwf3 by exact Hwf2.
  assert (clued cfg b3) as Hclued3 by exact Hclued.
  assert (board_mines cfg b3 = board_mines cfg b2) as Hm3 by reflexivity.
  assert (knows cfg b3 st1) as Hknows3.
  { split; [congruence|]. split; [congruence|]. intros T _. apply Hall1. }
  destruct (dig_agent_knows b3 mx my st1 Hwf3 Hclued3 Hc Hknows3)
    as (b' & st' & Hdig & Hwf' & Hfc' & Hsame & Hknows' & Hg').
  rewrite (Hdig fuel Hfuel). cbn [mbind result_bind].
  rewrite bool_decide_eq_false_2.
  2:{ intros Hmine. apply Hfc. apply board_mines_elem_of. by split. }
  cbn [negb mbind result_bind]. intros [= <- <- <-].
  pose proof (same_kinds_mines b3 b' Hwf3 Hsame) as Hm'.
  pose proof (same_kinds_clued b3 b' Hwf3 Hsame Hclued3) as Hclued'.
  destruct (finish_knows (Minesweeper.set_board b' g) st')
    as (Hinv & Hmf & Hfin).
  { split; [done|]. split; [cbn; by rewrite Hfc'|]. done. }
  cbn in Hmf.
  exists st'. split; [done|]. split; [done|]. split; [done|].
  split; [done|]. rewrite Hmf, Hm', Hm3. split; [done|]. split; [done|].
  destruct Hfin as [->|(Hw' & Hp' & Hpr')].
  - left. done.
  - right. done.
Qed.

End WithFloat.
End Automated.

Lemma events_automated_sound_witness :
  let cfg := {| ROWS := 1; COLS := 3; AMOUNT_MINES := 1 |} in
  let b := set_first_click true
             (update_tile (update_tile (Board.__init__ cfg) (2, 0) mine_tile)
                (1, 0) (clue_tile 1)) in
  let g := {| Minesweeper.board := b;
              Minesweeper.playing := true;
              Minesweeper.win := None;
              Minesweeper.printed := [] |} in
  let st := Solver.__init__ GenerateConfiguration 3 1 1 true in
  well_formed cfg b ∧ clued cfg b ∧ knows cfg b st
  ∧ ∃ g' st',
      Minesweeper.events (F := Q) cfg 4 g (Some st) true [] []
      = Ok (g', Some st', [])
      ∧ knows cfg (Minesweeper.board g') st'
      ∧ clued cfg (Minesweeper.board g').
Proof.
  intros cfg b g st.
  assert (well_formed cfg b) as Hwf.
  { do 2 apply update_tile_well_formed. apply init_well_formed. }
  assert (clued cfg b) as Hclued.
  { apply (first_click_clued cfg 0 0 [2; 0] []
             (update_tile (Board.__init__ cfg) (2, 0) mine_tile)
             (update_tile (update_tile (Board.__init__ cfg) (2, 0) mine_tile)
                (1, 0) (clue_tile 1))).
    - vm_compute. reflexivity.
    - vm_compute. reflexivity. }
  assert (knows cfg b st) as Hknows.
  { split; [reflexivity|]. split; [reflexivity|]. intros T _.
    split; [constructor|]. split; [apply empty_subseteq|].
    intros c Hc. by apply not_elem_of_empty in Hc. }
  split; [exact Hwf|]. split; [exact Hclued|]. split; [exact Hknows|].
  destruct (Minesweeper.events (F := Q) cfg 4 g (Some st) true [] [])
    as [[[g' ai'] tape']|e|] eqn:E.
  - destruct (events_automated_sound (F := Q) cfg 4 g g' st [] [] tape' ai'
                Hwf eq_refl Hclued Hknows ltac:(cbn; lia) E)
      as (st1 & c & button & Hmm & _ & Hon).
    assert (c = (0, 0)) as ->.
    { revert Hmm. vm_compute. by intros [= _ <- _]. }
    destruct Hon as (st' & -> & -> & _ & (_ & _ & Hclued' & Hknows') & _).
    { cbv. repeat split; congruence. }
    exists g', st'. split; [reflexivity|]. split; [exact Hknows'|].
    exact Hclued'.
  - exfalso. revert E. vm_compute. discriminate.
  - exfalso. revert E. vm_compute. discriminate.
Defined.

Lemma events_first_move_witness :
  let cfg := {| ROWS := 1; COLS := 3; AMOUNT_MINES := 1 |} in
  let g := {| Minesweeper.board := Board.__init__ cfg;
              Minesweeper.playing := true;
              Minesweeper.win := None;
              Minesweeper.printed := [] |} in
  let st := Solver.__init__ GenerateConfiguration 3 1 1 true in
  ∃ g' st',
    Minesweeper.events (F := Q) cfg 4 g (Some st) true [] [0; 0; 2; 0]
    = Ok (g', Some st', [])
    ∧ knows cfg (Minesweeper.board g') st'
    ∧ size (board_mines cfg (Minesweeper.board g')) = 1%nat.
Proof.
  intros cfg g st.
  destruct (Minesweeper.events (F := Q) cfg 4 g (Some st) true [] [0; 0; 2; 0])
    as [[[g' ai'] tape']|e|] eqn:E.
  - destruct (events_first_move (F := Q) cfg 4 g g' st [] [0; 0; 2; 0] tape'
                ai' eq_refl eq_refl eq_refl eq_refl eq_refl eq_refl
                ltac:(cbn; lia) E)
      as (st1 & c & Hmm & _ & Hon).
    assert (c = (0, 0)) as ->.
    { revert Hmm. vm_compute. by intros [= _ <-]. }
    destruct Hon as (st' & -> & _ & _ & (_ & _ & _ & Hknows') & Hsize & _).
    { cbv. repeat split; congruence. }
    assert (tape' = []) as ->.
    { revert E. vm_compute. by intros [= _ _ <-]. }
    exists g', st'. split; [reflexivity|]. split; [exact Hknows'|].
    exact Hsize.
  - exfalso. revert E. vm_compute. discriminate.
  - exfalso. revert E. vm_compute. discriminate.
Defined.

(* --------------------------------------------------------------------- *)
(** ** The board after place_mines and place_clues *)
(* --------------------------------------------------------------------- *)

Section FirstClick.
Variable cfg : settings.

Local Abbreviation on_cfg :=
  (on_board (Z.of_nat (COLS cfg)) (Z.of_nat (ROWS cfg))).
Local Abbreviation nbrs c :=
  (neighbours (Z.of_nat (COLS cfg)) (Z.of_nat (ROWS cfg)) c).

(** C7: on the board of Board.__init__ and for every first click
    (fcx, fcy): whatever the random draws, if place_mines(fcx, fcy) returns
    then place_clues() returns as well, and afterwards exactly AMOUNT_MINES
    cells of the board hold a tile of type X, the tile at (fcx, fcy) is
    none of them, and the nearby_mine of every tile that is no mine is the
    number of cells among its neighbours on the board whose tile is of type
    X.  When AMOUNT_MINES is less than the number of cells other than the
    first click, some draws do make place_mines return. *)
Theorem C7_first_click_invariant (fcx fcy : Z) :
  (∀ (tape rest : list Z) (b1 : Board),
     Board.place_mines cfg (Board.__init__ cfg) fcx fcy tape = Ok (b1, rest) →
     ∃ b2,
       Board.place_clues cfg b1 = Ok b2
       ∧ size (board_mines cfg b2) = AMOUNT_MINES cfg
       ∧ (∀ c, c ∈ board_mines cfg b2 ↔ on_cfg c ∧ has_type Mine b2 c)
       ∧ (on_cfg (fcx, fcy) → ¬ has_type Mine b2 (fcx, fcy))
       ∧ ∀ c t, on_cfg c → tile b2 c = Some t → type t ≠ Mine →
                nearby_mine t
                = Z.of_nat (size (nbrs c ∩ board_mines cfg b2)))
  ∧ ((AMOUNT_MINES cfg
      < COLS cfg * ROWS cfg
        - (if decide (on_cfg (fcx, fcy)) then 1 else 0))%nat →
     ∃ (tape rest : list Z) (b1 : Board),
       Board.place_mines cfg (Board.__init__ cfg) fcx fcy tape
       = Ok (b1, rest)).
Proof.
  split.
  - intros tape rest b1 Hrun.
    destruct (first_click_placed cfg fcx fcy tape rest b1 Hrun)
      as (b2 & Hrun2 & _ & _ & Hsize & Hfc & _).
    pose proof (first_click_clued cfg fcx fcy tape rest b1 b2 Hrun Hrun2)
      as Hclued.
    exists b2. split; [done|]. split; [done|].
    split; [intros c; apply board_mines_elem_of|].
    split.
    + intros Hon Hmine. apply Hfc. by apply board_mines_elem_of.
    + intros c t Hc Ht Hnm. by destruct (Hclued c t Hc Ht Hnm).
  - intros Hfit.
    destruct (place_mines_loop_can_return cfg (AMOUNT_MINES cfg)
                (Board.__init__ cfg) fcx fcy (init_well_formed cfg))
      as (tape & b1 & Hrun).
    + rewrite (eligible_init cfg fcx fcy). lia.
    + by exists tape, [], b1.
Qed.

End FirstClick.

Lemma C7_witness :
  let cfg := {| ROWS := 2; COLS := 2; AMOUNT_MINES := 1 |} in
  ∃ b1 b2,
    Board.place_mines cfg (Board.__init__ cfg) 0 0 [0; 0; 1; 1] = Ok (b1, [])
    ∧ Board.place_clues cfg b1 = Ok b2
    ∧ size (board_mines cfg b2) = 1%nat
    ∧ ¬ has_type Mine b2 (0, 0)
    ∧ has_type Mine b2 (1, 1)
    ∧ nearby_mine <$> tile b2 (0, 0) = Some 1.
Proof.
  intros cfg.
  destruct (Board.place_mines cfg (Board.__init__ cfg) 0 0 [0; 0; 1; 1])
    as [[b1 rest]|e|] eqn:E.
  - assert (rest = []) as ->.
    { revert E. vm_compute. intros [= _ <-]. reflexivity. }
    destruct (proj1 (C7_first_click_invariant cfg 0 0) _ _ b1 E)
      as (b2 & Hrun & Hsize & _ & Hfc & _).
    exists b1, b2. split; [reflexivity|]. split; [exact Hrun|].
    split; [exact Hsize|].
    split; [apply Hfc; cbv; repeat split; congruence|].
    assert (b1 = update_tile (Board.__init__ cfg) (1, 1) mine_tile) as ->.
    { revert E. vm_compute. intros [= <-]. reflexivity. }
    assert (b2 = update_tile
                   (update_tile
                      (update_tile
                         (update_tile (Board.__init__ cfg) (1, 1) mine_tile)
                         (0, 0) (clue_tile 1))
                      (0, 1) (clue_tile 1))
                   (1, 0) (clue_tile 1)) as ->.
    { revert Hrun. vm_compute. intros [= <-]. reflexivity. }
    split; [|reflexivity].
    apply (bool_decide_unpack _). vm_compute. exact I.
  - exfalso. revert E. vm_compute. discriminate.
  - exfalso. revert E. vm_compute. discriminate.
Defined.

(* --------------------------------------------------------------------- *)
(** ** GenerateConfigurationSolver.analyze_knowledge and the guess *)
(* --------------------------------------------------------------------- *)

Lemma choose_uncertain_move_fields `{PyFloat F} {V} (st st' : Solver)
    (best : cell) (risk : F) (prob_dict : pydict V) :
  Solver.choose_uncertain_move st best risk prob_dict = Ok st' →
  mines st' = mines st ∧ safes st' = safes st
  ∧ knowledge st' = knowledge st ∧ moves_made st' = moves_made st.
Proof.
  unfold Solver.choose_uncertain_move.
  destruct (Fdiv _ _) as [average| |]; cbn [mbind result_bind]; try done.
  destruct (_ || _).
  - by intros [= <-].
  - destruct (filter _ _) as [|c l]; by intros [= <-].
Qed.

(** C3, as stated, fails in its last part: a certain mine does not stop the
    guess.  In the automated game of a GenerateConfigurationSolver on a
    board of 4 columns and 3 rows whose three mines are drawn at (0,2),
    (2,0) and (2,2), the first move reveals (0,0), (0,1), (1,0) and (1,1),
    and the game goes on.  The agent then holds the sentences
    [{(0,2),(1,2)} = 1], [{(2,0),(2,1)} = 1] and
    [{(0,2),(1,2),(2,0),(2,1),(2,2)} = 3], with four configurations: (2,2)
    is in all of them and no cell is in none.  analyze_knowledge marks
    (2,2) as a mine, finds no safe cell, and commits an uncertain move,
    (3,0), all the same. *)
Lemma C3_counterexample :
  let cfg := {| ROWS := 3; COLS := 4; AMOUNT_MINES := 3 |} in
  let g := {| Minesweeper.board := Board.__init__ cfg;
              Minesweeper.playing := true;
              Minesweeper.win := None;
              Minesweeper.printed := [] |} in
  let st0 := Solver.__init__ GenerateConfiguration 4 3 3 true in
  ∃ g1 st1 st2,
    Minesweeper.events (F := Q) cfg 13 g (Some st0) true []
      [0; 2; 2; 0; 2; 2]
    = Ok (g1, Some st1, [])
    ∧ Minesweeper.playing g1 = true
    ∧ knowledge st1
      = [Sentence.__init__ {[(0, 2); (1, 2)]} 1;
         Sentence.__init__ {[(2, 0); (2, 1)]} 1;
         Sentence.__init__ {[(0, 2); (1, 2); (2, 0); (2, 1); (2, 2)]} 3]
    ∧ mines st1 = ∅
    ∧ next_uncertain_move st1 = None
    ∧ (let confs := GenerateConfigurationSolver.enumerate_configurations
                      (knowledge st1) in
       length confs = 4%nat
       ∧ appearances confs (2, 2) = 4
       ∧ filter (fun c => appearances confs c = 0)
                (referenced (knowledge st1)) = ∅)
    ∧ GenerateConfigurationSolver.analyze_knowledge (F := Q) st1 = Ok st2
    ∧ mines st2 = {[(2, 2)]}
    ∧ safes st2 = safes st1
    ∧ next_uncertain_move st2 = Some (3, 0).
Proof.
  intros cfg g st0. eexists _, _, _.
  split; [vm_compute; reflexivity|].
  split; [reflexivity|].
  split; [vm_compute; reflexivity|].
  split; [vm_compute; reflexivity|].
  split; [reflexivity|].
  split.
  { split; [vm_compute; reflexivity|].
    split; [vm_compute; reflexivity|].
    vm_compute. reflexivity. }
  split; [vm_compute; reflexivity|].
  split; [vm_compute; reflexivity|].
  split; [vm_compute; reflexivity|].
  reflexivity.
Qed.

(** C3, amended.  For a state with sentences, let [R] be the cells of the
    sentences, [S] the cells of [R] that are in none of the enumerated
    configurations and [M] those that are in all of them and in at least
    one.  analyze_knowledge marks the cells of [S] as safe and those of
    [M] as mines (and nothing else: whenever it returns, the safe cells are
    those of before and [S], the mines those of before and [M]).  It commits
    an uncertain move exactly when no certain safe cell was found, whether
    or not a certain mine was: when [S] is not empty the marking is all it
    does and the pending guess stays as it was; when [S] is empty, a cell
    [best] of least appearances is handed, with the risk
    [appearances / total], to choose_uncertain_move, whose outcome is the
    outcome of the call.  When the sentences have no cell at all, [min]
    raises ValueError. *)
Theorem C3_analyze_knowledge_amended `{PyFloat F} (st : Solver) :
  knowledge st ≠ [] →
  let confs := GenerateConfigurationSolver.enumerate_configurations
                 (knowledge st) in
  let total := Z.of_nat (length confs) in
  let R := referenced (knowledge st) in
  let S := filter (fun c => appearances confs c = 0) R in
  let M := filter (fun c => appearances confs c ≠ 0
                            ∧ appearances confs c = total) R in
  let marked :=
    set_knowledge
      (map (fun s => minus_safes S (minus_mines M s)) (knowledge st))
      (set_safes (S ∪ safes st) (set_mines (M ∪ mines st) st)) in
  (S ≠ ∅ → GenerateConfigurationSolver.analyze_knowledge st = Ok marked)
  ∧ (S = ∅ → R ≠ ∅ →
     ∃ hist best risk,
       dict_is hist R (appearances confs)
       ∧ best ∈ R
       ∧ (∀ c, c ∈ R → appearances confs best ≤ appearances confs c)
       ∧ Fdiv (F_of_Z (appearances confs best)) (F_of_Z total) = Ok risk
       ∧ GenerateConfigurationSolver.analyze_knowledge st
         = Solver.choose_uncertain_move marked best risk hist)
  ∧ (R = ∅ →
     GenerateConfigurationSolver.analyze_knowledge st = Raise ValueError)
  ∧ ∀ st', GenerateConfigurationSolver.analyze_knowledge st = Ok st' →
           safes st' = S ∪ safes st
           ∧ mines st' = M ∪ mines st
           ∧ (S ≠ ∅ → next_uncertain_move st' = next_uncertain_move st).
Proof.
  intros HK confs total R S M marked.
  destruct (GenerateConfiguration_analyze_spec st HK)
    as (hist & _ & Hhist & Hsafe & Hnone & Hguess).
  fold confs total R S M marked in Hsafe, Hnone, Hguess, Hhist.
  split; [done|]. split.
  { intros HS HR. destruct (Hguess HS HR) as (best & risk & ? & ? & ? & ?).
    by exists hist, best, risk. }
  split; [done|].
  intros st' Hrun.
  destruct (decide (S = ∅)) as [HS|HS].
  - destruct (decide (R = ∅)) as [HR|HR].
    { rewrite (Hnone HR) in Hrun. discriminate. }
    destruct (Hguess HS HR) as (best & risk & _ & _ & _ & Hcall).
    rewrite Hcall in Hrun.
    apply choose_uncertain_move_fields in Hrun as (-> & -> & _).
    done.
  - rewrite (Hsafe HS) in Hrun. injection Hrun as <-. done.
Qed.

Lemma C3_witness :
  let st := set_knowledge
              [Sentence.__init__ {[(0, 2); (1, 2)]} 1;
               Sentence.__init__ {[(2, 0); (2, 1)]} 1;
               Sentence.__init__ {[(0, 2); (1, 2); (2, 0); (2, 1); (2, 2)]} 3]
              (set_safes {[(0, 0); (0, 1); (1, 0); (1, 1)]}
                 (set_moves_made {[(0, 0); (0, 1); (1, 0); (1, 1)]}
                    (Solver.__init__ GenerateConfiguration 4 3 3 true))) in
  knowledge st ≠ []
  ∧ ∃ st', GenerateConfigurationSolver.analyze_knowledge (F := Q) st = Ok st'
           ∧ mines st' = {[(2, 2)]}
           ∧ safes st' = safes st
           ∧ next_uncertain_move st' = Some (3, 0).
Proof.
  intros st.
  assert (knowledge st ≠ []) as HK by discriminate.
  split; [exact HK|].
  destruct (GenerateConfigurationSolver.analyze_knowledge (F := Q) st)
    as [st'| |] eqn:E.
  - destruct (C3_analyze_knowledge_amended (F := Q) st HK)
      as (_ & _ & _ & Hret).
    destruct (Hret st' E) as (Hs & Hm & _).
    exists st'. split; [reflexivity|].
    split.
    { rewrite Hm. vm_compute. reflexivity. }
    split.
    { rewrite Hs. vm_compute. reflexivity. }
    revert E. vm_compute. by intros [= <-].
  - exfalso. revert E. vm_compute. discriminate.
  - exfalso. revert E. vm_compute. discriminate.
Defined.

(* --------------------------------------------------------------------- *)
(** ** Board.dig at a tile without mines around it *)
(* --------------------------------------------------------------------- *)

Section Region.
Variable cfg : settings.

Local Abbreviation on_cfg :=
  (on_board (Z.of_nat (COLS cfg)) (Z.of_nat (ROWS cfg))).
Local Abbreviation nbrs c :=
  (neighbours (Z.of_nat (COLS cfg)) (Z.of_nat (ROWS cfg)) c).
Local Abbreviation floods b c d :=
  (flood (Z.of_nat (COLS cfg)) (Z.of_nat (ROWS cfg)) b (dug b) c d).
Local Abbreviation regions b c d :=
  (region (Z.of_nat (COLS cfg)) (Z.of_nat (ROWS cfg)) b c d).
Local Abbreviation rings b c d :=
  (ring (Z.of_nat (COLS cfg)) (Z.of_nat (ROWS cfg)) b c d).

Lemma region_open (b : Board) (c d : cell) :
  open_cell b c → regions b c d → open_cell b d.
Proof. intros Hc Hr. by destruct Hr. Qed.

Lemma region_on_board (b : Board) (c d : cell) :
  on_cfg c → regions b c d → on_cfg d.
Proof.
  intros Hc Hr. destruct Hr as [|d n _ Hn _]; [done|].
  apply neighbours_elem_of in Hn. tauto.
Qed.

Lemma open_cell_no_clue (b : Board) (d : cell) :
  open_cell b d → ¬ has_type Clue b d.
Proof.
  intros (t & Ht & _ & Hnc) (t' & Ht' & Hty).
  rewrite Ht in Ht'. injection Ht' as <-. done.
Qed.

(** What a flood reaches is in the region or in its ring. *)
Lemma flood_region (b : Board) (V : list cell) (c d : cell) :
  well_formed cfg b → clued cfg b → on_cfg c → open_cell b c →
  flood (Z.of_nat (COLS cfg)) (Z.of_nat (ROWS cfg)) b V c d →
  regions b c d ∨ rings b c d.
Proof.
  intros Hwf Hclued Hc Hopen Hflood.
  induction Hflood as [|d n Hflood IH Hod Hn _]; [left; constructor|].
  assert (regions b c d) as Hrd.
  { destruct IH as [?|[Hclue _]]; [done|].
    by apply open_cell_no_clue in Hod. }
  assert (on_cfg d) as Hd by (by apply (region_on_board b c d)).
  assert (on_cfg n) as Hon by (apply neighbours_elem_of in Hn; tauto).
  destruct (tile_on_board cfg b n Hwf Hon) as [t Ht].
  destruct (decide (type t = Clue)) as [Hclue|Hclue].
  - right. split; [by exists t|]. by exists d.
  - left. apply (region_next _ _ b c d n); [done..|].
    exists t. split; [done|]. split; [|done].
    intros Hmine.
    apply (clued_no_mine_around cfg b d n Hclued Hd Hod Hn). by exists t.
Qed.

(** The flood reaches the whole region and its ring, as far as the dug
    list does not hold a cell of them. *)
Lemma region_flood (b : Board) (V : list cell) (c d : cell) :
  open_cell b c →
  (∀ x, regions b c x ∨ rings b c x → x ≠ c → x ∉ V) →
  regions b c d ∨ rings b c d →
  flood (Z.of_nat (COLS cfg)) (Z.of_nat (ROWS cfg)) b V c d.
Proof.
  intros Hopen HV.
  assert (∀ x, regions b c x →
               flood (Z.of_nat (COLS cfg)) (Z.of_nat (ROWS cfg)) b V c x)
    as Hreg.
  { intros x Hx. induction Hx as [|x n Hx IH Hn Hon]; [constructor|].
    destruct (decide (n = c)) as [->|Hne]; [constructor|].
    apply (flood_next _ _ b V c x n); [done| |done|].
    - by apply (region_open b c x).
    - apply HV; [|done]. left. by apply (region_next _ _ b c x n). }
  intros [Hd|Hd]; [by apply Hreg|].
  pose proof Hd as (Hclue & r & Hr & Hn).
  apply (flood_next _ _ b V c r d); [by apply Hreg| |done|].
  - by apply (region_open b c r).
  - apply HV; [by right|]. intros ->. by apply open_cell_no_clue in Hopen.
Qed.

Section WithAgent.
Context {A : Type}.
Variable add_knowledge : A → cell → Z → result A.
Hypothesis add_knowledge_total : ∀ a c n, ∃ a', add_knowledge a c n = Ok a'.

(** C6, amended.  On a board with its mines and clues, dig at a cell of
    the board whose tile is neither a mine nor a clue (no mine around it)
    returns, and returns True: COLS * ROWS + 1 nested calls are enough, the
    dug list being longer by at least one cell at each of them.  The cells
    it appends to the dug list, and the only tiles it changes, to revealed,
    are the cell itself and, each once, the cells outside the former dug
    list that the flood from the cell reaches: the neighbours, not dug
    before, of the reached tiles without a mine around them.  All of them
    are in the region of the cell or in its ring of clues; and when no other
    cell of the region and the ring was dug before, as on the first click
    of a game, they are exactly the region and the ring. *)
Theorem C6_dig_amended (b : Board) (cx cy : Z) (ai : option A) :
  well_formed cfg b → clued cfg b → on_cfg (cx, cy) →
  open_cell b (cx, cy) →
  ∃ b' ai' l,
    (∀ fuel, (COLS cfg * ROWS cfg < fuel)%nat →
             Board.dig cfg add_knowledge fuel b cx cy ai = Ok (b', ai', true))
    ∧ dug b' = dug b ++ (cx, cy) :: l
    ∧ NoDup l ∧ ((cx, cy) ∉ l) ∧ (∀ d, d ∈ l → d ∉ dug b)
    ∧ (∀ d t, on_cfg d → tile b d = Some t →
              tile b' d = Some (if decide (d ∈ (cx, cy) :: l)
                                then set_revealed true t else t))
    ∧ (∀ d, d ∈ (cx, cy) :: l ↔ floods b (cx, cy) d)
    ∧ (∀ d, d ∈ (cx, cy) :: l →
            regions b (cx, cy) d ∨ rings b (cx, cy) d)
    ∧ ((∀ d, regions b (cx, cy) d ∨ rings b (cx, cy) d → d ≠ (cx, cy) →
             d ∉ dug b) →
       ∀ d, d ∈ (cx, cy) :: l
            ↔ regions b (cx, cy) d ∨ rings b (cx, cy) d).
Proof.
  intros Hwf Hclued Hc Hopen.
  assert (¬ has_type Mine b (cx, cy)) as Hnm.
  { destruct Hopen as (t & Ht & Hty & _). intros (t' & Ht' & Hty').
    rewrite Ht in Ht'. by injection Ht' as <-. }
  destruct (dig_flood cfg add_knowledge add_knowledge_total b cx cy ai Hwf Hc)
    as (b' & ai' & l & Hdig & Hdug & Hnd & Hcl & Hl & Hfl & _ & _ & _ & Ht
        & _).
  rewrite bool_decide_eq_false_2 in Hdig by done.
  exists b', ai', l. split; [exact Hdig|]. split; [done|]. split; [done|].
  split; [done|]. split; [done|]. split.
  { intros d t Hd Hbt. rewrite (Ht d Hd), Hbt.
    destruct (decide (d ∈ (cx, cy) :: l)) as [Hin|]; [|done].
    cbn. f_equal. unfold dig_tile.
    destruct (type t) eqn:Ety; try done.
    exfalso.
    apply (flood_no_mine cfg b (cx, cy) d Hclued Hc Hnm); [by apply Hfl|].
    by exists t. }
  split; [done|]. split.
  { intros d Hd%Hfl. by apply (flood_region b (dug b) (cx, cy) d). }
  intros Hfresh d. split.
  - intros Hd%Hfl. by apply (flood_region b (dug b) (cx, cy) d).
  - intros Hd. apply Hfl. by apply region_flood.
Qed.

End WithAgent.
End Region.

(** C6, as stated, fails on a board that was dug before.  On a board of 4
    columns and 1 row the first left click is on (2,0) and the mine is
    drawn at (3,0): (2,0) is a clue, dig reveals it alone, and the game goes
    on.  The tile at (0,0) has no mine around it; its region is (0,0) and
    (1,0), and the clue (2,0) is the ring.  dig at (0,0) appends (0,0) and
    (1,0) to the dug list and leaves the tile at (2,0), which was revealed
    before, as it is: the ring is not among the newly revealed tiles. *)
Lemma C6_counterexample :
  let cfg := {| ROWS := 1; COLS := 4; AMOUNT_MINES := 1 |} in
  let g := {| Minesweeper.board := Board.__init__ cfg;
              Minesweeper.playing := true;
              Minesweeper.win := None;
              Minesweeper.printed := [] |} in
  ∃ g1 b2,
    Minesweeper.events (F := Q) cfg 5 g None false
      [{| Minesweeper.button := 1; Minesweeper.pos := (2 * TILESIZE, 0) |}]
      [3; 0]
    = Ok (g1, None, [])
    ∧ Minesweeper.playing g1 = true
    ∧ board_mines cfg (Minesweeper.board g1) = {[(3, 0)]}
    ∧ dug (Minesweeper.board g1) = [(2, 0)]
    ∧ revealed <$> tile (Minesweeper.board g1) (2, 0) = Some true
    ∧ open_cell (Minesweeper.board g1) (0, 0)
    ∧ ring 4 1 (Minesweeper.board g1) (0, 0) (2, 0)
    ∧ Board.dig cfg add_knowledge 5 (Minesweeper.board g1) 0 0 None
      = Ok (b2, None, true)
    ∧ dug b2 = [(2, 0); (0, 0); (1, 0)]
    ∧ tile b2 (2, 0) = tile (Minesweeper.board g1) (2, 0).
Proof.
  intros cfg g. eexists _, _.
  split; [vm_compute; reflexivity|].
  split; [reflexivity|].
  split; [apply (bool_decide_unpack _); vm_compute; exact I|].
  split; [reflexivity|].
  split; [reflexivity|].
  split.
  { eexists. split; [vm_compute; reflexivity|]. split; discriminate. }
  split.
  { split.
    - eexists. split; [vm_compute; reflexivity|]. reflexivity.
    - exists (1, 0). split.
      + apply (region_next _ _ _ _ (0, 0) (1, 0)); [constructor| |].
        * apply (bool_decide_unpack _). vm_compute. exact I.
        * eexists. split; [vm_compute; reflexivity|]. split; discriminate.
      + apply (bool_decide_unpack _). vm_compute. exact I. }
  split; [vm_compute; reflexivity|].
  split; [reflexivity|].
  reflexivity.
Qed.

Lemma C6_witness :
  let cfg := {| ROWS := 1; COLS := 3; AMOUNT_MINES := 1 |} in
  let b := update_tile (update_tile (Board.__init__ cfg) (2, 0) mine_tile)
             (1, 0) (clue_tile 1) in
  well_formed cfg b ∧ clued cfg b ∧ on_board 3 1 (0, 0)
  ∧ open_cell b (0, 0)
  ∧ ∃ b',
      (∀ fuel, (3 < fuel)%nat →
               Board.dig cfg add_knowledge fuel b 0 0 None
               = Ok (b', None, true))
      ∧ dug b' = [(0, 0); (1, 0)]
      ∧ revealed <$> tile b (1, 0) = Some false
      ∧ revealed <$> tile b' (1, 0) = Some true
      ∧ ∀ d, d ∈ [(0, 0); (1, 0)]
             ↔ region 3 1 b (0, 0) d ∨ ring 3 1 b (0, 0) d.
Proof.
  intros cfg b.
  assert (well_formed cfg b) as Hwf.
  { do 2 apply update_tile_well_formed. apply init_well_formed. }
  assert (clued cfg b) as Hclued.
  { apply (first_click_clued cfg 0 0 [2; 0] []
             (update_tile (Board.__init__ cfg) (2, 0) mine_tile) b).
    - vm_compute. reflexivity.
    - vm_compute. reflexivity. }
  assert (on_board 3 1 (0, 0)) as Hon by (cbv; repeat split; congruence).
  assert (open_cell b (0, 0)) as Hopen.
  { eexists. split; [vm_compute; reflexivity|]. split; discriminate. }
  assert (∀ a c n, ∃ a', add_knowledge a c n = Ok a') as Htot.
  { intros a c n. destruct (add_knowledge_spec a c n) as (a' & E & _).
    by exists a'. }
  split; [exact Hwf|]. split; [exact Hclued|]. split; [exact Hon|].
  split; [exact Hopen|].
  destruct (C6_dig_amended cfg add_knowledge Htot b 0 0 None Hwf Hclued Hon
              Hopen)
    as (b' & ai' & l & Hdig & Hdug & _ & _ & _ & _ & _ & _ & Hall).
  pose proof (Hdig 4%nat ltac:(cbn; lia)) as H4.
  vm_compute in H4. injection H4 as <- <-.
  eexists. split; [exact Hdig|]. split; [reflexivity|].
  split; [reflexivity|]. split; [reflexivity|].
  assert (l = [(1, 0)]) as ->.
  { cbn in Hdug. by injection Hdug as <-. }
  apply Hall. intros d _ _. apply not_elem_of_nil.
Defined.

(* --------------------------------------------------------------------- *)
(** ** Solver.make_move in a game *)
(* --------------------------------------------------------------------- *)

